(** * The VGA-ball userspace programs, embedded and verified

    Two near-identical C programs drive the [vga_ball] peripheral:
    [submission/hello.c] (ball position in pixels, [unsigned short]) and
    [sw/hello.c] (ball position as a [float] in the unit square).  Both
    share the HSV-to-RGB conversion and the four ioctl wrappers.

    C [float] is IEEE-754 binary32 and [double] is binary64, both with
    round-to-nearest-even and no excess precision; they are modelled with
    the parametric specification [SpecFloat] of the standard library.
    C [int] values are integers in [Z]; [unsigned short] values are
    integers reduced modulo 2^16. *)

From Stdlib Require Import ZArith Bool List Lia String.
From Stdlib Require Import Floats.SpecFloat.
Import ListNotations.
Local Open Scope Z_scope.

(** ** Outcomes of C computations

    [Done a] is a normal result, [Undef] is undefined behaviour (a
    conversion whose value does not fit the destination type), and
    [Timeout] means that a loop was still running when the iteration
    budget of the model ran out. *)

Inductive outcome (A : Type) : Type :=
| Done (a : A)
| Undef
| Timeout.

Arguments Done {A} a.
Arguments Undef {A}.
Arguments Timeout {A}.

Definition obind {A B : Type} (c : outcome A) (k : A -> outcome B) : outcome B :=
  match c with
  | Done a => k a
  | Undef => Undef
  | Timeout => Timeout
  end.

Notation "x <- c ;; k" := (obind c (fun x => k))
  (at level 61, c at next level, right associativity).

(** ** Binary64: the C type [double] *)

Module F64.
Definition prec : Z := 53.
Definition emax : Z := 1024.
Definition of_Z (z : Z) : spec_float := binary_normalize prec emax z 0 false.
Definition add : spec_float -> spec_float -> spec_float := SFadd prec emax.
Definition div : spec_float -> spec_float -> spec_float := SFdiv prec emax.
Definition leb : spec_float -> spec_float -> bool := SFleb.
Definition geb (a b : spec_float) : bool := SFleb b a.

(** A decimal literal [n/10^k] denotes the double nearest to that
    rational, which is what one correctly rounded division yields. *)
Definition lit (num den : Z) : spec_float := div (of_Z num) (of_Z den).
End F64.

(** ** Binary32: the C type [float] *)

Module F32.
Definition prec : Z := 24.
Definition emax : Z := 128.
Definition float : Type := spec_float.

Definition valid (x : float) : bool := valid_binary prec emax x.

(** Conversion [int -> float]. *)
Definition of_Z (z : Z) : float := binary_normalize prec emax z 0 false.

(** Conversion [double -> float] (rounds) and [float -> double] (exact). *)
Definition of_double (d : spec_float) : float :=
  match d with
  | S754_finite s m e => binary_round prec emax s m e
  | _ => d
  end.
Definition to_double (x : float) : spec_float :=
  match x with
  | S754_finite s m e => binary_round F64.prec F64.emax s m e
  | _ => x
  end.

Definition add : float -> float -> float := SFadd prec emax.
Definition sub : float -> float -> float := SFsub prec emax.
Definition mul : float -> float -> float := SFmul prec emax.
Definition div : float -> float -> float := SFdiv prec emax.
Definition opp : float -> float := SFopp.
Definition ltb : float -> float -> bool := SFltb.
Definition leb : float -> float -> bool := SFleb.
Definition geb (a b : float) : bool := SFleb b a.

(** Truncation toward zero of a finite value; [None] on NaN and
    infinities. *)
Definition trunc (x : float) : option Z :=
  match x with
  | S754_zero _ => Some 0
  | S754_finite s m e => Some (cond_Zopp s (Z.shiftl (Zpos m) e))
  | _ => None
  end.

Definition int_min : Z := - 2 ^ 31.
Definition int_max : Z := 2 ^ 31 - 1.

(** Conversion [float -> int]: undefined unless the truncated value
    fits. *)
Definition to_int (x : float) : outcome Z :=
  match trunc x with
  | Some z => if (int_min <=? z) && (z <=? int_max) then Done z else Undef
  | None => Undef
  end.

(** Conversion [float -> unsigned short], same rule with range
    [0, 65535]. *)
Definition to_ushort (x : float) : outcome Z :=
  match trunc x with
  | Some z => if (0 <=? z) && (z <=? 65535) then Done z else Undef
  | None => Undef
  end.
End F32.

Abbreviation float := F32.float.

(** [unsigned short] and [unsigned char] wrap-around. *)
Definition ushort (z : Z) : Z := z mod 65536.
Definition uchar (z : Z) : Z := z mod 256.

(** ** Rounding to binary32, read on integers

    [SpecFloat] rounds by shifting a mantissa right one bit at a time
    while recording a round bit and a sticky bit.  The definitions below
    say the same thing with quotients and remainders; the lemmas of the
    section on rounding prove that the two agree. *)

(** [m / 2^n] rounded to the nearest integer, ties to even; for [n <= 0]
    the exact product [m * 2^(-n)]. *)
Definition rne (m n : Z) : Z :=
  if n <=? 0 then m * 2 ^ (- n)
  else
    let q := m / 2 ^ n in
    let r := m mod 2 ^ n in
    if (2 ^ n <? 2 * r) || ((2 ^ n =? 2 * r) && Z.odd q) then q + 1 else q.

(** The position of a discarded remainder relative to one half, as two
    extra bits: 0 exact, 1 below one half, 2 one half, 3 above. *)
Definition loc_code (l : location) : Z :=
  match l with
  | loc_Exact => 0
  | loc_Inexact Lt => 1
  | loc_Inexact Eq => 2
  | loc_Inexact Gt => 3
  end.

(** Number of bits of a mantissa, and the exponent that binary32 gives to
    a number [m * 2^e]. *)
Definition digits (m : Z) : Z := Zdigits2 m.
Definition target (m e : Z) : Z := fexp 24 128 (digits m + e).

(** The float with mantissa [m] and exponent [e], infinite when the
    exponent is out of range. *)
Definition fin (s : bool) (m e : Z) : spec_float :=
  if e <=? 104 then S754_finite s (Z.to_pos m) e else S754_infinity s.

(** The float for a rounded mantissa [m <= 2^24]. *)
Definition pack (s : bool) (m e : Z) : spec_float :=
  if m =? 0 then S754_zero s
  else if m <? 2 ^ 24 then fin s m e
  else fin s (m / 2) (e + 1).

(** The binary32 rounding of [m * 2^e], with sign [s]. *)
Definition rnd (s : bool) (m e : Z) : spec_float :=
  pack s (rne m (target m e - e)) (target m e).

(** [m * 2^e <= m' * 2^e'], stated on integers. *)
Definition ple (m e m' e' : Z) : Prop :=
  m * 2 ^ (e - Z.min e e') <= m' * 2 ^ (e' - Z.min e e').

(** The value of a finite float in units of [2^-149], the smallest
    positive binary32 number: an integer for every valid float. *)
Definition Fnum (x : spec_float) : Z :=
  match x with
  | S754_finite s m e => cond_Zopp s (Zpos m * 2 ^ (e + 149))
  | _ => 0
  end.

Definition is_finite (x : spec_float) : bool :=
  match x with
  | S754_finite _ _ _ | S754_zero _ => true
  | _ => false
  end.

(** [binary_normalize] of an integer mantissa. *)
Definition normz (z e : Z) : spec_float :=
  match z with
  | Z0 => S754_zero false
  | Zpos p => rnd false (Zpos p) e
  | Zneg p => rnd true (Zpos p) e
  end.

(** The mantissa of a float once aligned on the exponent [ez]. *)
Definition aligned (s : bool) (m : positive) (e ez : Z) : Z :=
  cond_Zopp s (Zpos m * 2 ^ (e - ez)).

(** Valid, finite, of magnitude at most [2^k]. *)
Definition bounded_by (k : Z) (x : spec_float) : Prop :=
  F32.valid x = true /\ is_finite x = true /\ Z.abs (Fnum x) <= 2 ^ (k + 149).

(** Valid, finite, between 0 and 1. *)
Definition unit_float (x : spec_float) : Prop :=
  F32.valid x = true /\ is_finite x = true /\ 0 <= Fnum x <= 2 ^ 149.

(** ** [hsv_to_rgb], common to both programs *)

Module Hsv.
Definition f360 : float := F32.of_Z 360.
Definition f60 : float := F32.of_Z 60.
Definition f0 : float := F32.of_Z 0.
Definition f1 : float := F32.of_Z 1.
Definition f255 : float := F32.of_Z 255.

(** [while (h >= 360) h -= 360;] with at most [fuel] iterations. *)
Fixpoint wrap_high (fuel : nat) (h : float) : outcome float :=
  if F32.geb h f360 then
    match fuel with
    | O => Timeout
    | S n => wrap_high n (F32.sub h f360)
    end
  else Done h.

(** [while (h < 0) h += 360;] with at most [fuel] iterations. *)
Fixpoint wrap_low (fuel : nat) (h : float) : outcome float :=
  if F32.ltb h f0 then
    match fuel with
    | O => Timeout
    | S n => wrap_low n (F32.add h f360)
    end
  else Done h.

Definition normalize_hue (fuel : nat) (h : float) : outcome float :=
  h1 <- wrap_high fuel h ;; wrap_low fuel h1.

(** The [switch (i)] table. *)
Definition select (i : Z) (v p q t : float) : float * float * float :=
  match i with
  | 0 => (v, t, p)
  | 1 => (q, v, p)
  | 2 => (p, v, t)
  | 3 => (p, q, v)
  | 4 => (t, p, v)
  | _ => (v, p, q)
  end.

(** Everything after the two loops, on the normalized hue. *)
Definition sector_rgb (h s v : float) : outcome (Z * Z * Z) :=
  i <- F32.to_int (F32.div h f60) ;;
  let f := F32.sub (F32.div h f60) (F32.of_Z i) in
  let p := F32.mul v (F32.sub f1 s) in
  let q := F32.mul v (F32.sub f1 (F32.mul s f)) in
  let t := F32.mul v (F32.sub f1 (F32.mul s (F32.sub f1 f))) in
  let '(r1, g1, b1) := select i v p q t in
  r <- F32.to_int (F32.mul r1 f255) ;;
  g <- F32.to_int (F32.mul g1 f255) ;;
  b <- F32.to_int (F32.mul b1 f255) ;;
  Done (r, g, b).

Definition hsv_to_rgb (fuel : nat) (h s v : float) : outcome (Z * Z * Z) :=
  h' <- normalize_hue fuel h ;; sector_rgb h' s v.

(** The sector index chosen for an already normalized hue. *)
Definition sector (h : float) : outcome Z := F32.to_int (F32.div h f60).

(** Membership in the half-open interval [0, 360). *)
Definition in_range (h : float) : bool := F32.leb f0 h && F32.ltb h f360.

(** Number of channels at zero in a colour. *)
Definition zero_channels (c : Z * Z * Z) : nat :=
  let '(r, g, b) := c in
  ((if Z.eqb r 0 then 1 else 0) + (if Z.eqb g 0 then 1 else 0)
   + (if Z.eqb b 0 then 1 else 0))%nat.

(** Largest difference between corresponding channels of two colours. *)
Definition channel_distance (c1 c2 : Z * Z * Z) : Z :=
  let '(r1, g1, b1) := c1 in
  let '(r2, g2, b2) := c2 in
  Z.max (Z.abs (r1 - r2)) (Z.max (Z.abs (g1 - g2)) (Z.abs (b1 - b2))).

(** The hue [60 k] where sector [k] starts, and the largest [float] below
    a given one. *)
Definition boundary (k : Z) : float := F32.of_Z (60 * k).
Definition just_below (x : float) : float := SFpred F32.prec F32.emax x.

(** Some particular hues: 2^40, -(2^-30), 2^-30, the value of
    [(float)(20.0 / 17)], and the largest [float] below 360. *)
Definition hue_2p40 : float := S754_finite false 8388608 17.
Definition hue_minus_2m30 : float := S754_finite true 8388608 (-53).
Definition hue_2m30 : float := S754_finite false 8388608 (-53).
Definition hue_20_17 : float := F32.of_double (F64.lit 20 17).
Definition hue_below_360 : float := S754_finite false 11796479 (-15).

(** [h += .5; if (h >= 360.0) h = 0.0;] in [main]: the sum and the
    comparison are carried out in [double]. *)
Definition advance_hue (h : float) : float :=
  let h1 := F32.of_double (F64.add (F32.to_double h) (F64.lit 5 10)) in
  if F64.geb (F32.to_double h1) (F64.lit 360 1)
  then F32.of_double (F64.lit 0 1)
  else h1.
End Hsv.

(** ** Hue arithmetic on integers *)

(** [(int)(x * 255)], the last step of the conversion for one channel. *)
Definition channel (x : spec_float) : outcome Z := F32.to_int (F32.mul x Hsv.f255).

(** One turn of the hue circle, 360 degrees, in units of 2^-149. *)
Definition turn : Z := 360 * 2 ^ 149.

(** Iterations that the loops need for the hue [h]. *)
Definition turns (h : spec_float) : nat := Z.to_nat (Z.abs (Fnum h) / turn + 1).

(** Iterations that the loops need for a hue of magnitude up to 2^33,
    where one iteration may move the hue by 256 only. *)
Definition laps (h : spec_float) : nat := Z.to_nat (Z.abs (Fnum h) / 2 ^ 157 + 1).

(** Hues and values at the edges of what the conversion handles: 2^33
    and the [float] that follows it, -(2^-16) and the [float] just below
    it, and the value 2^31. *)
Module Edge.
Definition hue_2p33 : float := S754_finite false 8388608 10.
Definition hue_above_2p33 : float := S754_finite false 8388609 10.
Definition hue_minus_2m16 : float := S754_finite true 8388608 (-39).
Definition hue_under_minus_2m16 : float := S754_finite true 8388609 (-39).
Definition value_2p31 : float := S754_finite false 8388608 8.
End Edge.

(** Hues of the colour wheel given in fractions of a degree, and the
    zones of the wheel around the primary colours (0, 120, 240 and 360
    degrees) and around the boundaries between sectors. *)
Module Wheel.
(** [n/d] degrees, as the C expression [(float)(n.0 / d)]. *)
Definition degrees (n d : Z) : float := F32.of_double (F64.lit n d).

(** Between [a] and [b], bounds included. *)
Definition between (a b h : float) : bool := F32.leb a h && F32.leb h b.

(** At least a quarter of a degree away from every primary colour. *)
Definition clear_of_primaries (h : float) : bool :=
  between (degrees 1 4) (degrees 479 4) h
  || between (degrees 481 4) (degrees 959 4) h
  || between (degrees 961 4) (degrees 1439 4) h.

(** In [0, 360) and within 15/64 of a degree of a primary colour. *)
Definition near_primary (h : float) : bool :=
  Hsv.in_range h
  && (F32.leb h (degrees 15 64)
      || between (degrees 7665 64) (degrees 7695 64) h
      || between (degrees 15345 64) (degrees 15375 64) h
      || F32.leb (degrees 23025 64) h).

(** Within 15/64 of a degree below the boundary [60 k], and from the
    boundary to 15/64 of a degree above it. *)
Definition just_before (k : Z) (h : float) : bool :=
  F32.leb (degrees (3840 * k - 15) 64) h && F32.ltb h (Hsv.boundary k).
Definition just_after (k : Z) (h : float) : bool :=
  F32.leb (Hsv.boundary k) h && F32.leb h (degrees (3840 * k + 15) 64).
End Wheel.

(** ** The ioctl wrappers, common to both programs *)

Module Device.
(** Modelled from the spec: the header [vga_ball.h] is not among the
    sources.  It declares the colour as three unsigned 8-bit channels,
    the position as two unsigned 16-bit fields, the control block
    [vga_ball_arg_t] holding either of them, and four request codes. *)
Record vga_ball_color_t : Type := { red : Z; green : Z; blue : Z }.
Record vga_ball_position_t : Type := { pos_x : Z; pos_y : Z }.

Inductive vga_ball_arg_t : Type :=
| Background (c : vga_ball_color_t)
| Position (p : vga_ball_position_t)
| Uninit.

Inductive request : Type :=
| VGA_BALL_READ_BACKGROUND
| VGA_BALL_WRITE_BACKGROUND
| VGA_BALL_READ_POSITION
| VGA_BALL_WRITE_POSITION.

(** The kernel driver is external: any state type and any transition
    function.  [ioctl] returns the status of the call (zero for success),
    the control block as the driver leaves it, and the next driver
    state. *)
Record Driver : Type := {
  dstate : Type;
  ioctl : dstate -> request -> vga_ball_arg_t -> Z * vga_ball_arg_t * dstate
}.

(** What the process does that is visible from outside. *)
Inductive event : Type :=
| EvIoctl (r : request) (a : vga_ball_arg_t)
| EvPerror (msg : string)
| EvPrintBackground (a : vga_ball_arg_t)
| EvPrintPosition (a : vga_ball_arg_t)
| EvPrintHSV (h s v : float) (r g b : Z)
| EvSleep (usec : Z).

Section WithDriver.
Variable D : Driver.

Record world : Type := { drv : dstate D; trace : list event }.

Definition io (A : Type) : Type := world -> A * world.
Definition ioret {A : Type} (a : A) : io A := fun w => (a, w).
Definition iobind {A B : Type} (c : io A) (k : A -> io B) : io B :=
  fun w => let '(a, w1) := c w in k a w1.
Definition emit (e : event) : io unit :=
  fun w => (tt, {| drv := drv w; trace := trace w ++ [e] |}).

(** One [ioctl(vga_ball_fd, r, &vla)]. *)
Definition do_ioctl (r : request) (a : vga_ball_arg_t) : io (Z * vga_ball_arg_t) :=
  fun w =>
    let '(status, a', d') := ioctl D (drv w) r a in
    ((status, a'), {| drv := d'; trace := trace w ++ [EvIoctl r a] |}).

Definition print_background_color : io unit :=
  iobind (do_ioctl VGA_BALL_READ_BACKGROUND Uninit) (fun '(status, vla) =>
    if status =? 0 then emit (EvPrintBackground vla)
    else emit (EvPerror "ioctl(VGA_BALL_READ_BACKGROUND) failed")).

Definition set_background_color (c : vga_ball_color_t) : io unit :=
  iobind (do_ioctl VGA_BALL_WRITE_BACKGROUND (Background c)) (fun '(status, _) =>
    if status =? 0 then ioret tt
    else emit (EvPerror "ioctl(VGA_BALL_SET_BACKGROUND) failed")).

Definition print_position : io unit :=
  iobind (do_ioctl VGA_BALL_READ_POSITION Uninit) (fun '(status, vla) =>
    if status =? 0 then emit (EvPrintPosition vla)
    else emit (EvPerror "ioctl(VGA_BALL_READ_POSITION) failed")).

Definition set_position (p : vga_ball_position_t) : io unit :=
  iobind (do_ioctl VGA_BALL_WRITE_POSITION (Position p)) (fun '(status, _) =>
    if status =? 0 then ioret tt
    else emit (EvPerror "ioctl(VGA_BALL_SET_POSITION) failed")).

Definition usleep (usec : Z) : io unit := emit (EvSleep usec).

(** The world before anything has happened. *)
Definition idle (d : dstate D) : world := {| drv := d; trace := [] |}.

(** Status and next driver state of the request [r] issued in [w]. *)
Definition status (w : world) (r : request) (a : vga_ball_arg_t) : Z :=
  fst (fst (ioctl D (drv w) r a)).
Definition driver_after (w : world) (r : request) (a : vga_ball_arg_t) : dstate D :=
  snd (ioctl D (drv w) r a).

(** The world after one failed request: the call and its diagnostic. *)
Definition after_failure (w : world) (r : request) (a : vga_ball_arg_t)
    (msg : string) : world :=
  {| drv := driver_after w r a; trace := trace w ++ [EvIoctl r a; EvPerror msg] |}.
End WithDriver.

Arguments drv {D} w.
Arguments trace {D} w.
Arguments ioret {D A} a.
Arguments iobind {D A B} c k.
Arguments emit {D} e.
Arguments status {D} w r a.
Arguments driver_after {D} w r a.
Arguments after_failure {D} w r a msg.

(** The requests issued in a trace, in order. *)
Fixpoint requests (t : list event) : list request :=
  match t with
  | [] => []
  | EvIoctl r _ :: t' => r :: requests t'
  | _ :: t' => requests t'
  end.

(** A driver that rejects every request. *)
Definition failing_driver : Driver :=
  {| dstate := unit; ioctl := fun d _ a => (-1, a, d) |}.

(** A driver that reports success without touching the control block. *)
Definition lazy_driver : Driver :=
  {| dstate := unit; ioctl := fun d _ a => (0, a, d) |}.

(** The control block as the driver leaves it after the request [r]
    issued in [w]. *)
Definition block_after {D : Driver} (w : world D) (r : request) (a : vga_ball_arg_t)
    : vga_ball_arg_t :=
  snd (fst (ioctl D (drv w) r a)).
End Device.

Notation "c1 ;;; c2" := (Device.iobind c1 (fun _ => c2))
  (at level 62, right associativity).

(** ** [submission/hello.c]: the ball moves on the pixel grid *)

Module Submission.
Import Device.

(** The locals of [main] that survive from one iteration to the next. *)
Record anim : Type := { h : float; x : Z; y : Z; dx : Z; dy : Z }.

Definition s : float := F32.of_double (F64.lit 1 1).
Definition v : float := F32.of_double (F64.lit 3 10).
Definition radius : Z := 16.

Definition init : anim :=
  {| h := F32.of_double (F64.lit 0 1); x := 20; y := 20; dx := 1; dy := 1 |}.

(** [if (p >= (bound-radius) || p <= radius) { d = -d; p += d; }] *)
Definition reflect (bound rad : Z) (p d : Z) : Z * Z :=
  if (bound - rad <=? p) || (p <=? rad) then (ushort (p + - d), - d) else (p, d).

(** One axis of a tick: [p += d;] followed by the reflection test. *)
Definition step_axis (bound rad : Z) (p d : Z) : Z * Z :=
  reflect bound rad (ushort (p + d)) d.

(** Lines 161-172: both additions first, then both tests. *)
Definition motion (rad : Z) (st : anim) : anim :=
  let x1 := ushort (x st + dx st) in
  let y1 := ushort (y st + dy st) in
  let '(x2, dx2) := reflect 640 rad x1 (dx st) in
  let '(y2, dy2) := reflect 480 rad y1 (dy st) in
  {| h := h st; x := x2; y := y2; dx := dx2; dy := dy2 |}.

(** [(unsigned short)(p) << 6], stored in a 16-bit field. *)
Definition scale_out (p : Z) : Z := ushort (Z.shiftl (ushort p) 6).

Definition position_out (st : anim) : vga_ball_position_t :=
  {| pos_x := scale_out (x st); pos_y := scale_out (y st) |}.

Definition color_out (r g b : Z) : vga_ball_color_t :=
  {| red := uchar r; green := uchar g; blue := uchar b |}.

(** The body of [for (;;)].  [fuel] bounds the loops of [hsv_to_rgb]. *)
Definition tick (D : Driver) (fuel : nat) (st : anim) : io D (outcome anim) :=
  match Hsv.hsv_to_rgb fuel (h st) s v with
  | Done (r, g, b) =>
      let h' := Hsv.advance_hue (h st) in
      set_background_color D (color_out r g b) ;;;
      emit (EvPrintHSV h' s v r g b) ;;;
      let st' := motion radius {| h := h'; x := x st; y := y st; dx := dx st; dy := dy st |} in
      set_position D (position_out st') ;;;
      print_position D ;;;
      usleep D 10000 ;;;
      ioret (Done st')
  | Undef => ioret Undef
  | Timeout => ioret Timeout
  end.

(** The first [n] iterations of the loop. *)
Fixpoint run (D : Driver) (fuel : nat) (n : nat) (st : anim) : io D (outcome anim) :=
  match n with
  | O => ioret (Done st)
  | S n' =>
      iobind (tick D fuel st) (fun o =>
        match o with
        | Done st' => run D fuel n' st'
        | Undef => ioret Undef
        | Timeout => ioret Timeout
        end)
  end.

(** The ball alone, iterated. *)
Definition ball_after (n : nat) : anim := Nat.iter n (motion radius) init.

(** What an iteration computes, without the device. *)
Definition next (fuel : nat) (st : anim) : outcome anim :=
  match Hsv.hsv_to_rgb fuel (h st) s v with
  | Done _ =>
      Done (motion radius {| h := Hsv.advance_hue (h st);
                             x := x st; y := y st; dx := dx st; dy := dy st |})
  | Undef => Undef
  | Timeout => Timeout
  end.

(** The locals after one iteration, when the conversion is defined. *)
Definition after_tick (st : anim) : anim :=
  motion radius {| h := Hsv.advance_hue (h st);
                   x := x st; y := y st; dx := dx st; dy := dy st |}.

(** The hue after [n] iterations, and a check of the hues met during the
    next [n] iterations starting from [h0]. *)
Definition hue_after (n : nat) : float := Nat.iter n Hsv.advance_hue (h init).

Fixpoint hues_in_range (n : nat) (h0 : float) : bool :=
  match n with
  | O => true
  | S n' => F32.valid h0 && Hsv.in_range h0 && hues_in_range n' (Hsv.advance_hue h0)
  end.

(** The ball stays clear of the four walls. *)
Definition inside (st : anim) : Prop :=
  radius < x st < 640 - radius /\ radius < y st < 480 - radius.

Definition unit_speed (st : anim) : Prop :=
  (dx st = 1 \/ dx st = -1) /\ (dy st = 1 \/ dy st = -1).
End Submission.

(** ** [sw/hello.c]: the ball moves in the unit square *)

Module Sw.
(** A local [float] variable holds [None] while it is indeterminate:
    declared without initializer and not yet assigned from determinate
    values. *)
Record ball : Type := {
  x : option float; y : option float;
  dx : option float; dy : option float
}.

(** [float x = 0.2, y;  float dx = 0.01, dy = 0.01;] *)
Definition init : ball :=
  {| x := Some (F32.of_double (F64.lit 2 10));
     y := None;
     dx := Some (F32.of_double (F64.lit 1 100));
     dy := Some (F32.of_double (F64.lit 1 100)) |}.

(** [p += d;] *)
Definition advance (p d : option float) : option float :=
  match p, d with
  | Some p, Some d => Some (F32.add p d)
  | _, _ => None
  end.

(** The test [p >= 1.0 || p <= 0.0], carried out in [double]. *)
Definition at_bound (p : float) : bool :=
  F64.geb (F32.to_double p) (F64.lit 1 1) || F64.leb (F32.to_double p) (F64.lit 0 1).

(** [if (p >= 1.0 || p <= 0.0) { d = -d; p += d; }]: a test on an
    indeterminate value leaves both variables indeterminate. *)
Definition reflect (p d : option float) : option float * option float :=
  match p, d with
  | Some p, Some d =>
      if at_bound p then (Some (F32.add p (F32.opp d)), Some (F32.opp d))
      else (Some p, Some d)
  | _, _ => (None, None)
  end.

(** Lines 160-171. *)
Definition motion (b : ball) : ball :=
  let x1 := advance (x b) (dx b) in
  let y1 := advance (y b) (dy b) in
  let '(x2, dx2) := reflect x1 (dx b) in
  let '(y2, dy2) := reflect y1 (dy b) in
  {| x := x2; y := y2; dx := dx2; dy := dy2 |}.

(** [(unsigned short)(p * k)] *)
Definition scale_out (k : Z) (p : float) : outcome Z :=
  F32.to_ushort (F32.mul p (F32.of_Z k)).

(** The two initializers of [position]; [None] when the coordinate is
    indeterminate. *)
Definition position_out (b : ball) : option (outcome Z) * option (outcome Z) :=
  (option_map (scale_out 170) (x b), option_map (scale_out 120) (y b)).

Definition ball_after (n : nat) : ball := Nat.iter n motion init.
End Sw.

(** ** What a trace shows *)

Module Trace.
Import Device.

(** The control calls of a trace with the block handed to the driver,
    the hue and colour of each [printf("HSV: ...")] line, and the
    arguments of the calls to [usleep]. *)
Fixpoint ioctls (t : list event) : list (request * vga_ball_arg_t) :=
  match t with
  | [] => []
  | EvIoctl r a :: t' => (r, a) :: ioctls t'
  | _ :: t' => ioctls t'
  end.

Fixpoint hsv_lines (t : list event) : list (float * (Z * Z * Z)) :=
  match t with
  | [] => []
  | EvPrintHSV h _ _ r g b :: t' => (h, (r, g, b)) :: hsv_lines t'
  | _ :: t' => hsv_lines t'
  end.

Fixpoint sleeps (t : list event) : list Z :=
  match t with
  | [] => []
  | EvSleep usec :: t' => usec :: sleeps t'
  | _ :: t' => sleeps t'
  end.

(** Events that are neither a control call, nor an HSV line, nor a
    sleep: diagnostics and the print of a block read back. *)
Definition quiet (t : list event) : Prop :=
  ioctls t = [] /\ hsv_lines t = [] /\ sleeps t = [].
End Trace.

(** ** The frames of [submission/hello.c] *)

Module Frames.
Import Device.

(** The colour computed in iteration [k] (counted from 0), from the hue
    that the previous iterations left. *)
Definition rgb (k : nat) : outcome (Z * Z * Z) :=
  Hsv.hsv_to_rgb 0 (Submission.hue_after k) Submission.s Submission.v.

Definition color (k : nat) : Z * Z * Z :=
  match rgb k with
  | Done c => c
  | _ => (0, 0, 0)
  end.

(** The three control calls of iteration [k] when its colour is
    [(r, g, b)]. *)
Definition calls (k : nat) (c : Z * Z * Z) : list (request * vga_ball_arg_t) :=
  let '(r, g, b) := c in
  [ (VGA_BALL_WRITE_BACKGROUND, Background (Submission.color_out r g b));
    (VGA_BALL_WRITE_POSITION,
     Position (Submission.position_out (Submission.ball_after (S k))));
    (VGA_BALL_READ_POSITION, Uninit) ].

(** The hues met in the next [n] iterations starting from [h0] are
    [k/2], [(k+1)/2], ... degrees: [2 ^ 148] units of [2 ^ -149] each. *)
Fixpoint half_degrees (n : nat) (k : Z) (h0 : float) : bool :=
  match n with
  | O => true
  | S n' => (Fnum h0 =? k * 2 ^ 148) && half_degrees n' (k + 1) (Hsv.advance_hue h0)
  end.

(** One axis of the ball, iterated. *)
Definition axis_after (bound : Z) (n : nat) (pd : Z * Z) : Z * Z :=
  Nat.iter n (fun pd => Submission.step_axis bound Submission.radius (fst pd) (snd pd)) pd.
End Frames.

(** ** The determinate axis of [sw/hello.c] *)

Module SwAxis.
(** [x += dx; if (x >= 1.0 || x <= 0.0) { dx = -dx; x += dx; }] on
    determinate values. *)
Definition step (pd : float * float) : float * float :=
  let p1 := F32.add (fst pd) (snd pd) in
  if Sw.at_bound p1 then (F32.add p1 (F32.opp (snd pd)), F32.opp (snd pd))
  else (p1, snd pd).

(** [float x = 0.2; float dx = 0.01;] *)
Definition start : float * float :=
  (F32.of_double (F64.lit 2 10), F32.of_double (F64.lit 1 100)).

(** Strictly between 0 and 1. *)
Definition strictly_inside (p : float) : bool :=
  F32.valid p && F32.ltb Hsv.f0 p && F32.ltb p Hsv.f1.

(** The next [n] positions from [pd] are all strictly inside. *)
Fixpoint all_inside (n : nat) (pd : float * float) : bool :=
  match n with
  | O => true
  | S n' => strictly_inside (fst pd) && all_inside n' (step pd)
  end.
End SwAxis.

(** * Rounding

    The shift-based rounding of [SpecFloat] agrees with [rnd]; [rnd] is
    monotone and leaves representable numbers unchanged. *)

Lemma iter_pos_nat :
  forall (A : Type) (f : A -> A) p x, iter_pos f p x = Nat.iter (Pos.to_nat p) f x.
Proof.
  intros A f. induction p as [ p IH | p IH | ]; intros x; cbn [iter_pos].
  - rewrite !IH, Pos2Nat.inj_xI. 
    replace (S (2 * Pos.to_nat p))%nat with (Pos.to_nat p + (Pos.to_nat p + 1))%nat by lia.
    rewrite !Nat.iter_add. reflexivity.
  - rewrite !IH, Pos2Nat.inj_xO.
    replace (2 * Pos.to_nat p)%nat with (Pos.to_nat p + Pos.to_nat p)%nat by lia.
    rewrite Nat.iter_add. reflexivity.
  - reflexivity.
Qed.

Lemma shr_1_m : forall r, 0 <= shr_m r -> shr_m (shr_1 r) = shr_m r / 2.
Proof.
  intros [m r s] Hm. cbn [shr_m] in *.
  destruct m as [ | p | p ]; [ reflexivity | | lia ].
  destruct p as [ p | p | ]; cbn [shr_1 shr_m].
  - rewrite Pos2Z.inj_xI. apply Z.div_unique with 1; lia.
  - rewrite Pos2Z.inj_xO. apply Z.div_unique with 0; lia.
  - reflexivity.
Qed.

Lemma shr_1_r : forall r, 0 <= shr_m r -> shr_r (shr_1 r) = Z.odd (shr_m r).
Proof.
  intros [m r s] Hm. cbn [shr_m] in *.
  destruct m as [ | p | p ]; [ reflexivity | | lia ].
  destruct p as [ p | p | ]; reflexivity.
Qed.

Lemma shr_1_s : forall r, shr_s (shr_1 r) = shr_r r || shr_s r.
Proof.
  intros [m r s]. destruct m as [ | p | p ]; try destruct p; reflexivity.
Qed.

Lemma shr_iter_m :
  forall k r, 0 <= shr_m r -> shr_m (Nat.iter k shr_1 r) = shr_m r / 2 ^ Z.of_nat k.
Proof.
  induction k as [ | k IH ]; intros r Hr.
  - cbn. rewrite Z.div_1_r. reflexivity.
  - rewrite Nat.iter_succ. rewrite shr_1_m.
    + rewrite IH by exact Hr. rewrite Nat2Z.inj_succ, Z.pow_succ_r by lia.
      rewrite Z.div_div by lia. f_equal. lia.
    + rewrite IH by exact Hr. apply Z.div_pos; lia.
Qed.

Lemma shr_iter_exact :
  forall k m, 0 <= m ->
    Nat.iter (S k) shr_1 (Build_shr_record m false false)
    = Build_shr_record (m / 2 ^ Z.of_nat (S k))
        (Z.odd (m / 2 ^ Z.of_nat k))
        (negb (m mod 2 ^ Z.of_nat k =? 0)).
Proof.
  induction k as [ | k IH ]; intros m Hm.
  - rewrite Nat.iter_succ. cbn [Nat.iter nat_rect].
    pose proof (shr_1_m (Build_shr_record m false false) Hm) as A.
    pose proof (shr_1_r (Build_shr_record m false false) Hm) as B.
    pose proof (shr_1_s (Build_shr_record m false false)) as C.
    destruct (shr_1 _) as [m' r' s']. cbn [shr_m shr_r shr_s] in *. subst.
    change (Z.of_nat 0) with 0. change (Z.of_nat 1) with 1.
    rewrite Z.pow_0_r, Z.pow_1_r, Z.div_1_r, Z.mod_1_r. reflexivity.
  - remember (S k) as k1. rewrite Nat.iter_succ. rewrite IH by exact Hm.
    set (R := Build_shr_record _ _ _).
    assert (HR : 0 <= shr_m R) by (apply Z.div_pos; lia).
    pose proof (shr_1_m R HR) as A.
    pose proof (shr_1_r R HR) as B.
    pose proof (shr_1_s R) as C.
    destruct (shr_1 R) as [m' r' s']. subst R. cbn [shr_m shr_r shr_s] in *. subst m' r' s'.
    f_equal.
    + rewrite (Nat2Z.inj_succ k1), Z.pow_succ_r by lia.
      rewrite Z.div_div by lia. f_equal. lia.
    + subst k1. rewrite (Nat2Z.inj_succ k), Z.pow_succ_r by lia.
      set (P := 2 ^ Z.of_nat k). assert (HP : 0 < P) by (apply Z.pow_pos_nonneg; lia).
      rewrite (Z.mul_comm 2 P), Z.rem_mul_r by lia.
      pose proof (Z.mod_pos_bound m P HP).
      rewrite (Zmod_odd (m / P)).
      destruct (Z.odd (m / P)); destruct (m mod P =? 0) eqn:E;
        [ apply Z.eqb_eq in E | apply Z.eqb_neq in E | apply Z.eqb_eq in E | apply Z.eqb_neq in E ];
        cbn [orb negb]; symmetry;
        try (apply Z.eqb_eq; lia); try (apply negb_true_iff, Z.eqb_neq; lia).
      all: try (apply negb_false_iff, Z.eqb_eq; lia).
Qed.

Lemma target_eq : forall m e, target m e = Z.max (digits m + e - 24) (-149).
Proof. reflexivity. Qed.

Lemma digits_pos_bounds :
  forall p, 2 ^ (Zpos (digits2_pos p) - 1) <= Zpos p < 2 ^ Zpos (digits2_pos p).
Proof.
  induction p as [ p IH | p IH | ]; cbn [digits2_pos].
  - rewrite Pos2Z.inj_succ.
    replace (Z.succ (Zpos (digits2_pos p)) - 1) with (Z.succ (Zpos (digits2_pos p) - 1)) by lia.
    rewrite !Z.pow_succ_r by lia. lia.
  - rewrite Pos2Z.inj_succ.
    replace (Z.succ (Zpos (digits2_pos p)) - 1) with (Z.succ (Zpos (digits2_pos p) - 1)) by lia.
    rewrite !Z.pow_succ_r by lia. lia.
  - cbn. lia.
Qed.

Lemma digits_bounds :
  forall m, 0 < m -> 2 ^ (digits m - 1) <= m < 2 ^ digits m.
Proof.
  intros m Hm. destruct m as [ | p | p ]; try lia. apply digits_pos_bounds.
Qed.

Lemma digits_positive : forall m, 0 < m -> 0 < digits m.
Proof. intros m Hm. destruct m; try lia. reflexivity. Qed.

Lemma digits_unique :
  forall m k, 2 ^ (k - 1) <= m < 2 ^ k -> 0 < k -> digits m = k.
Proof.
  intros m k Hk Hpos.
  assert (Hm : 0 < m).
  { assert (0 < 2 ^ (k - 1)) by (apply Z.pow_pos_nonneg; lia). lia. }
  pose proof (digits_bounds m Hm) as Hd. pose proof (digits_positive m Hm) as Hp.
  destruct (Z.lt_trichotomy (digits m) k) as [ Lt | [ Eq | Gt ] ]; [ | exact Eq | ].
  - assert (2 ^ digits m <= 2 ^ (k - 1)) by (apply Z.pow_le_mono_r; lia). lia.
  - assert (2 ^ k <= 2 ^ (digits m - 1)) by (apply Z.pow_le_mono_r; lia). lia.
Qed.

Lemma digits_le : forall m k, 0 < m -> 0 <= k -> m < 2 ^ k -> digits m <= k.
Proof.
  intros m k Hm Hk Hlt. pose proof (digits_bounds m Hm) as Hd.
  destruct (Z_le_gt_dec (digits m) k) as [ L | G ]; [ exact L | ].
  assert (2 ^ k <= 2 ^ (digits m - 1)) by (apply Z.pow_le_mono_r; lia). lia.
Qed.

Lemma digits_ge : forall m k, 0 < m -> 2 ^ k <= m -> k < digits m.
Proof.
  intros m k Hm Hle. pose proof (digits_bounds m Hm) as Hd.
  pose proof (digits_positive m Hm).
  destruct (Z_lt_ge_dec k (digits m)) as [ L | G ]; [ exact L | ].
  assert (2 ^ digits m <= 2 ^ k) by (apply Z.pow_le_mono_r; lia). lia.
Qed.

Lemma digits_shift :
  forall m k, 0 < m -> 0 <= k -> digits (m * 2 ^ k) = digits m + k.
Proof.
  intros m k Hm Hk. pose proof (digits_bounds m Hm) as Hd.
  pose proof (digits_positive m Hm).
  assert (0 < 2 ^ k) by (apply Z.pow_pos_nonneg; lia).
  apply digits_unique; [ | lia ].
  replace (digits m + k - 1) with (digits m - 1 + k) by lia.
  rewrite !Z.pow_add_r by lia. nia.
Qed.

(** Rounding through the shift records is [rne]. *)
Lemma round_shr :
  forall m p, 0 <= m ->
    let r := iter_pos shr_1 p (Build_shr_record m false false) in
    round_nearest_even (shr_m r) (loc_of_shr_record r) = rne m (Zpos p).
Proof.
  intros m p Hm r. subst r. rewrite iter_pos_nat.
  destruct (Pos2Nat.is_succ p) as [k Hk]. rewrite Hk.
  rewrite shr_iter_exact by exact Hm.
  assert (En : Zpos p = Z.succ (Z.of_nat k)) by lia.
  rewrite <- Nat2Z.inj_succ in En. rewrite <- En.
  unfold rne. replace (Zpos p <=? 0) with false by (symmetry; apply Z.leb_gt; lia).
  cbn [shr_m loc_of_shr_record].
  set (P := 2 ^ Z.of_nat k). assert (HP : 0 < P) by (apply Z.pow_pos_nonneg; lia).
  assert (E2 : 2 ^ Zpos p = P * 2).
  { rewrite En, Nat2Z.inj_succ, Z.pow_succ_r by lia. subst P. lia. }
  rewrite E2. rewrite Z.rem_mul_r by lia.
  pose proof (Z.mod_pos_bound m P HP) as Hb.
  rewrite (Zmod_odd (m / P)).
  destruct (Z.odd (m / P)) eqn:Od; destruct (m mod P =? 0) eqn:Ez;
    [ apply Z.eqb_eq in Ez | apply Z.eqb_neq in Ez | apply Z.eqb_eq in Ez | apply Z.eqb_neq in Ez ];
    cbn [negb round_nearest_even].
  - replace (P * 2 <? 2 * (m mod P + P * 1)) with false by (symmetry; apply Z.ltb_ge; lia).
    replace (P * 2 =? 2 * (m mod P + P * 1)) with true by (symmetry; apply Z.eqb_eq; lia).
    cbn [orb andb]. rewrite <- Z.negb_odd. destruct (Z.odd (m / (P * 2))); reflexivity.
  - replace (P * 2 <? 2 * (m mod P + P * 1)) with true by (symmetry; apply Z.ltb_lt; lia).
    reflexivity.
  - replace (P * 2 <? 2 * (m mod P + P * 0)) with false by (symmetry; apply Z.ltb_ge; lia).
    replace (P * 2 =? 2 * (m mod P + P * 0)) with false by (symmetry; apply Z.eqb_neq; lia).
    reflexivity.
  - replace (P * 2 <? 2 * (m mod P + P * 0)) with false by (symmetry; apply Z.ltb_ge; lia).
    replace (P * 2 =? 2 * (m mod P + P * 0)) with false by (symmetry; apply Z.eqb_neq; lia).
    reflexivity.
Qed.

Lemma rne_nonneg : forall m n, 0 <= m -> 0 <= rne m n.
Proof.
  intros m n Hm. unfold rne. destruct (n <=? 0) eqn:En.
  - assert (0 <= 2 ^ (- n)) by (apply Z.pow_nonneg; lia). nia.
  - apply Z.leb_gt in En.
    assert (0 < 2 ^ n) by (apply Z.pow_pos_nonneg; lia).
    assert (0 <= m / 2 ^ n) by (apply Z.div_pos; lia).
    destruct (_ || _); lia.
Qed.

Lemma rne_upper :
  forall m n k, 0 <= m -> 0 <= n -> 0 <= k -> m < 2 ^ (n + k) -> rne m n <= 2 ^ k.
Proof.
  intros m n k Hm Hn Hk Hlt. unfold rne. destruct (n <=? 0) eqn:En.
  - apply Z.leb_le in En. replace n with 0 in * by lia. cbn in *. lia.
  - apply Z.leb_gt in En.
    assert (HP : 0 < 2 ^ n) by (apply Z.pow_pos_nonneg; lia).
    assert (m / 2 ^ n < 2 ^ k).
    { apply Z.div_lt_upper_bound; [ exact HP | ]. rewrite <- Z.pow_add_r by lia. exact Hlt. }
    destruct (_ || _); lia.
Qed.

Lemma rne_positive_exp : forall m n, n <= 0 -> rne m n = m * 2 ^ (- n).
Proof.
  intros m n Hn. unfold rne.
  replace (n <=? 0) with true by (symmetry; apply Z.leb_le; exact Hn). reflexivity.
Qed.

Lemma shr_fexp_exact :
  forall m e, 0 <= m -> e <= target m e ->
    round_nearest_even (shr_m (fst (shr_fexp 24 128 m e loc_Exact)))
      (loc_of_shr_record (fst (shr_fexp 24 128 m e loc_Exact)))
    = rne m (target m e - e)
    /\ snd (shr_fexp 24 128 m e loc_Exact) = target m e.
Proof.
  intros m e Hm He. unfold shr_fexp, shr. fold (digits m). fold (target m e).
  cbn [shr_record_of_loc].
  destruct (target m e - e) as [ | p | p ] eqn:En; [ | | lia ].
  - cbn [fst snd shr_m loc_of_shr_record round_nearest_even].
    split; [ | lia ]. rewrite rne_positive_exp by lia. cbn. lia.
  - cbn [fst snd]. split; [ apply round_shr; exact Hm | lia ].
Qed.

Lemma pack_shr :
  forall s m e, 0 <= m <= 2 ^ 24 -> -149 <= e ->
    (let '(r, e2) := shr_fexp 24 128 m e loc_Exact in
     match shr_m r with
     | Z0 => S754_zero s
     | Zpos p => if e2 <=? 128 - 24 then S754_finite s p e2 else S754_infinity s
     | Zneg _ => S754_nan
     end) = pack s m e.
Proof.
  intros s m e Hm He. unfold pack.
  destruct (m =? 0) eqn:E0.
  { apply Z.eqb_eq in E0. subst m. unfold shr_fexp, shr, fexp, emin. cbn [Zdigits2].
    destruct (Z.max (0 + e - 24) (3 - 128 - 24) - e) eqn:En; try lia; reflexivity. }
  apply Z.eqb_neq in E0. assert (Hp : 0 < m) by lia.
  pose proof (digits_bounds m Hp) as Hd. pose proof (digits_positive m Hp) as Hdp.
  destruct (m <? 2 ^ 24) eqn:E1.
  - apply Z.ltb_lt in E1.
    assert (digits m <= 24) by (apply digits_le; lia).
    unfold shr_fexp, shr. fold (digits m). unfold fexp, emin.
    destruct (Z.max (digits m + e - 24) (3 - 128 - 24) - e) eqn:En; try lia.
    + cbn [shr_record_of_loc shr_m]. unfold fin. destruct m; try lia. reflexivity.
    + cbn [shr_record_of_loc shr_m]. unfold fin. destruct m; try lia. reflexivity.
  - apply Z.ltb_ge in E1. assert (m = 2 ^ 24) by lia. subst m.
    unfold shr_fexp, shr, fexp, emin. cbn [Zdigits2 digits2_pos].
    change (Zdigits2 (2 ^ 24)) with 25.
    replace (Z.max (25 + e - 24) (3 - 128 - 24) - e) with 1 by lia.
    cbn [iter_pos shr_record_of_loc]. unfold fin.
    change (2 ^ 24 / 2) with 8388608. cbn. reflexivity.
Qed.

Lemma target_lower : forall m e, -149 <= target m e.
Proof. intros m e. rewrite target_eq. lia. Qed.

Lemma rne_fits :
  forall m e, 0 < m -> e <= target m e -> 0 <= rne m (target m e - e) <= 2 ^ 24.
Proof.
  intros m e Hm He. split; [ apply rne_nonneg; lia | ].
  apply rne_upper; try lia.
  pose proof (digits_bounds m Hm) as Hd. pose proof (digits_positive m Hm) as Hp.
  rewrite target_eq in *.
  assert (2 ^ digits m <= 2 ^ (Z.max (digits m + e - 24) (-149) - e + 24))
    by (apply Z.pow_le_mono_r; lia).
  lia.
Qed.

(** [binary_round_aux] on an exact location, read mathematically. *)
Lemma binary_round_aux_exact :
  forall s m e, 0 < m -> e <= target m e ->
    binary_round_aux 24 128 s m e loc_Exact = rnd s m e.
Proof.
  intros s m e Hm He. unfold binary_round_aux, rnd.
  destruct (shr_fexp_exact m e (Z.lt_le_incl _ _ Hm) He) as [A B].
  destruct (shr_fexp 24 128 m e loc_Exact) as [r1 e1]. cbn [fst snd] in A, B.
  rewrite A, B.
  apply pack_shr; [ apply rne_fits; assumption | apply target_lower ].
Qed.

Lemma iter_xO : forall m d, Zpos (Pos.iter xO m d) = Zpos m * 2 ^ Zpos d.
Proof.
  intros m d. induction d as [ | d IH ] using Pos.peano_ind.
  - cbn. lia.
  - rewrite Pos.iter_succ, Pos2Z.inj_succ, Z.pow_succ_r by lia.
    change (Zpos (Pos.iter xO m d)~0) with (2 * Zpos (Pos.iter xO m d)).
    rewrite IH. lia.
Qed.

(** [binary_round], read mathematically. *)
Lemma binary_round_spec :
  forall s m e, binary_round 24 128 s m e = rnd s (Zpos m) e.
Proof.
  intros s m e. unfold binary_round, shl_align.
  change (Zpos (digits2_pos m)) with (digits (Zpos m)).
  fold (target (Zpos m) e).
  destruct (target (Zpos m) e - e) as [ | p | p ] eqn:En.
  - apply binary_round_aux_exact; lia.
  - apply binary_round_aux_exact; lia.
  - assert (T : target (Zpos (Pos.iter xO m p)) (target (Zpos m) e) = target (Zpos m) e).
    { rewrite iter_xO. unfold target at 1 3. f_equal.
      rewrite digits_shift by lia. lia. }
    rewrite binary_round_aux_exact; [ | lia | lia ].
    unfold rnd. rewrite T. f_equal.
    rewrite !rne_positive_exp by lia. rewrite iter_xO.
    replace (- (target (Zpos m) e - target (Zpos m) e)) with 0 by lia.
    replace (- (target (Zpos m) e - e)) with (Zpos p) by lia. cbn. lia.
Qed.

Lemma rne_exact : forall a n, 0 <= n -> rne (a * 2 ^ n) n = a.
Proof.
  intros a n Hn. unfold rne. destruct (n <=? 0) eqn:En.
  - apply Z.leb_le in En. replace n with 0 by lia. cbn. lia.
  - apply Z.leb_gt in En.
    assert (HP : 0 < 2 ^ n) by (apply Z.pow_pos_nonneg; lia).
    rewrite Z.div_mul, Z.mod_mul by lia.
    replace (2 ^ n <? 2 * 0) with false by (symmetry; apply Z.ltb_ge; lia).
    replace (2 ^ n =? 2 * 0) with false by (symmetry; apply Z.eqb_neq; lia).
    reflexivity.
Qed.

Lemma rne_scale :
  forall m n k, 0 <= k -> rne (m * 2 ^ k) (n + k) = rne m n.
Proof.
  intros m n k Hk.
  assert (HK : 0 < 2 ^ k) by (apply Z.pow_pos_nonneg; lia).
  destruct (Z_le_gt_dec n 0) as [ Hn | Hn ].
  - rewrite (rne_positive_exp m n Hn).
    destruct (Z_le_gt_dec (n + k) 0) as [ Hnk | Hnk ].
    + rewrite rne_positive_exp by exact Hnk.
      replace (- n) with (k + - (n + k)) by lia.
      rewrite Z.pow_add_r by lia. lia.
    + replace (m * 2 ^ k) with (m * 2 ^ (- n) * 2 ^ (n + k)).
      * apply rne_exact. lia.
      * rewrite <- Z.mul_assoc, <- Z.pow_add_r by lia. f_equal. f_equal. lia.
  - unfold rne.
    replace (n <=? 0) with false by (symmetry; apply Z.leb_gt; lia).
    replace (n + k <=? 0) with false by (symmetry; apply Z.leb_gt; lia).
    assert (HN : 0 < 2 ^ n) by (apply Z.pow_pos_nonneg; lia).
    rewrite Z.pow_add_r by lia.
    rewrite Z.div_mul_cancel_r by lia.
    rewrite Z.mul_mod_distr_r by lia.
    replace (2 ^ n * 2 ^ k <? 2 * (m mod 2 ^ n * 2 ^ k)) with (2 ^ n <? 2 * (m mod 2 ^ n)).
    2:{ destruct (2 ^ n <? 2 * (m mod 2 ^ n)) eqn:C; symmetry;
        [ apply Z.ltb_lt in C; apply Z.ltb_lt; nia | apply Z.ltb_ge in C; apply Z.ltb_ge; nia ]. }
    replace (2 ^ n * 2 ^ k =? 2 * (m mod 2 ^ n * 2 ^ k)) with (2 ^ n =? 2 * (m mod 2 ^ n)).
    2:{ destruct (2 ^ n =? 2 * (m mod 2 ^ n)) eqn:C; symmetry;
        [ apply Z.eqb_eq in C; apply Z.eqb_eq; nia | apply Z.eqb_neq in C; apply Z.eqb_neq; nia ]. }
    reflexivity.
Qed.

Lemma rne_mono : forall m m' n, 0 <= m <= m' -> rne m n <= rne m' n.
Proof.
  intros m m' n Hm. unfold rne. destruct (n <=? 0) eqn:En.
  - assert (0 <= 2 ^ (- n)) by (apply Z.pow_nonneg; lia). nia.
  - apply Z.leb_gt in En.
    assert (HP : 0 < 2 ^ n) by (apply Z.pow_pos_nonneg; lia).
    assert (Hq : m / 2 ^ n <= m' / 2 ^ n) by (apply Z.div_le_mono; lia).
    pose proof (Z.div_mod m (2 ^ n)) as D. pose proof (Z.div_mod m' (2 ^ n)) as D'.
    pose proof (Z.mod_pos_bound m (2 ^ n) HP) as B.
    pose proof (Z.mod_pos_bound m' (2 ^ n) HP) as B'.
    destruct (Z.eq_dec (m / 2 ^ n) (m' / 2 ^ n)) as [ Eq | Ne ].
    + rewrite <- Eq in *.
      assert (m mod 2 ^ n <= m' mod 2 ^ n) by lia.
      destruct (2 ^ n <? 2 * (m mod 2 ^ n)) eqn:C1.
      * apply Z.ltb_lt in C1.
        replace (2 ^ n <? 2 * (m' mod 2 ^ n)) with true by (symmetry; apply Z.ltb_lt; lia).
        cbn [orb]. lia.
      * destruct (2 ^ n =? 2 * (m mod 2 ^ n)) eqn:C2; cbn [orb andb].
        -- apply Z.eqb_eq in C2. apply Z.ltb_ge in C1.
           destruct (2 ^ n <? 2 * (m' mod 2 ^ n)) eqn:C3; cbn [orb].
           ++ destruct (Z.odd (m / 2 ^ n)); lia.
           ++ apply Z.ltb_ge in C3.
              replace (2 ^ n =? 2 * (m' mod 2 ^ n)) with true by (symmetry; apply Z.eqb_eq; lia).
              cbn [andb]. lia.
        -- destruct (_ || _); lia.
    + destruct (_ || _); destruct (_ || _); lia.
Qed.

Lemma ple_scaled :
  forall m e m' e' k, k <= e -> k <= e' ->
    (ple m e m' e' <-> m * 2 ^ (e - k) <= m' * 2 ^ (e' - k)).
Proof.
  intros m e m' e' k He He'. unfold ple.
  set (z := Z.min e e').
  assert (Hz : k <= z) by (subst z; lia).
  assert (HP : 0 < 2 ^ (z - k)) by (apply Z.pow_pos_nonneg; lia).
  replace (e - k) with ((e - z) + (z - k)) by lia.
  replace (e' - k) with ((e' - z) + (z - k)) by lia.
  rewrite !Z.pow_add_r by (subst z; lia).
  split; intros H; nia.
Qed.

Lemma digits_mono : forall m m', 0 < m <= m' -> digits m <= digits m'.
Proof.
  intros m m' Hm.
  pose proof (digits_bounds m ltac:(lia)) as Hd.
  pose proof (digits_bounds m' ltac:(lia)) as Hd'.
  pose proof (digits_positive m ltac:(lia)).
  destruct (Z_le_gt_dec (digits m) (digits m')) as [ L | G ]; [ exact L | ].
  assert (2 ^ digits m' <= 2 ^ (digits m - 1)) by (apply Z.pow_le_mono_r; lia). lia.
Qed.

Lemma ple_magnitude :
  forall m e m' e', 0 < m -> 0 < m' -> ple m e m' e' -> digits m + e <= digits m' + e'.
Proof.
  intros m e m' e' Hm Hm' H. unfold ple in H.
  set (z := Z.min e e') in *.
  assert (0 < 2 ^ (e - z)) by (apply Z.pow_pos_nonneg; subst z; lia).
  assert (0 < 2 ^ (e' - z)) by (apply Z.pow_pos_nonneg; subst z; lia).
  assert (D : digits (m * 2 ^ (e - z)) <= digits (m' * 2 ^ (e' - z)))
    by (apply digits_mono; nia).
  rewrite !digits_shift in D by (subst z; lia). lia.
Qed.

Lemma target_mono :
  forall m e m' e', 0 < m -> 0 < m' -> ple m e m' e' -> target m e <= target m' e'.
Proof.
  intros m e m' e' Hm Hm' H. pose proof (ple_magnitude m e m' e' Hm Hm' H).
  rewrite !target_eq. lia.
Qed.

(** The rounded mantissa has at most 24 bits, or is 2^24. *)
Lemma rounded_upper :
  forall m e, 0 < m -> rne m (target m e - e) <= 2 ^ 24.
Proof.
  intros m e Hm.
  pose proof (digits_bounds m Hm) as Hd. pose proof (digits_positive m Hm) as Hp.
  destruct (Z_le_gt_dec e (target m e)) as [ L | G ].
  - apply rne_fits; assumption.
  - rewrite rne_positive_exp by lia. rewrite target_eq in *.
    assert (0 < 2 ^ (- (Z.max (digits m + e - 24) (-149) - e))) by (apply Z.pow_pos_nonneg; lia).
    assert (2 ^ digits m * 2 ^ (- (Z.max (digits m + e - 24) (-149) - e)) <= 2 ^ 24).
    { rewrite <- Z.pow_add_r by lia. apply Z.pow_le_mono_r; lia. }
    nia.
Qed.

(** Above the subnormal range it has exactly 24 bits. *)
Lemma rounded_lower :
  forall m e, 0 < m -> -149 < target m e -> 2 ^ 23 <= rne m (target m e - e).
Proof.
  intros m e Hm HT.
  pose proof (digits_bounds m Hm) as Hd. pose proof (digits_positive m Hm) as Hp.
  rewrite target_eq in *.
  assert (ET : Z.max (digits m + e - 24) (-149) = digits m + e - 24) by lia.
  rewrite ET. replace (digits m + e - 24 - e) with (digits m - 24) by lia.
  destruct (Z_le_gt_dec (digits m - 24) 0) as [ L | G ].
  - rewrite rne_positive_exp by lia.
    assert (0 < 2 ^ (- (digits m - 24))) by (apply Z.pow_pos_nonneg; lia).
    assert (2 ^ (digits m - 1) * 2 ^ (- (digits m - 24)) = 2 ^ 23).
    { rewrite <- Z.pow_add_r by lia. f_equal. lia. }
    nia.
  - replace (2 ^ 23) with (rne (2 ^ 23 * 2 ^ (digits m - 24)) (digits m - 24))
      by (apply rne_exact; lia).
    apply rne_mono. split.
    + apply Z.mul_nonneg_nonneg; apply Z.pow_nonneg; lia.
    + rewrite <- Z.pow_add_r by lia. replace (23 + (digits m - 24)) with (digits m - 1) by lia. lia.
Qed.

(** Rounding is monotone: the larger number has the larger rounding. *)
Lemma rounded_mono :
  forall m e m' e', 0 < m -> 0 < m' -> ple m e m' e' ->
    ple (rne m (target m e - e)) (target m e) (rne m' (target m' e' - e')) (target m' e').
Proof.
  intros m e m' e' Hm Hm' H.
  pose proof (target_mono m e m' e' Hm Hm' H) as HT.
  destruct (Z.eq_dec (target m e) (target m' e')) as [ Eq | Ne ].
  - rewrite <- Eq. set (T := target m e).
    unfold ple. rewrite Z.min_id, Z.sub_diag. cbn. rewrite !Z.mul_1_r.
    set (z := Z.min e e').
    replace (rne m (T - e)) with (rne (m * 2 ^ (e - z)) (T - e + (e - z)))
      by (apply rne_scale; subst z; lia).
    replace (rne m' (T - e')) with (rne (m' * 2 ^ (e' - z)) (T - e' + (e' - z)))
      by (apply rne_scale; subst z; lia).
    replace (T - e' + (e' - z)) with (T - e + (e - z)) by lia.
    apply rne_mono. unfold ple in H. fold z in H. split; [ | exact H ].
    apply Z.mul_nonneg_nonneg; [ lia | apply Z.pow_nonneg; lia ].
  - assert (HT' : target m e < target m' e') by lia.
    pose proof (rounded_upper m e Hm) as U.
    pose proof (target_lower m e) as TL.
    pose proof (rounded_lower m' e' Hm' ltac:(lia)) as L.
    unfold ple. rewrite Z.min_l by lia. rewrite Z.sub_diag. cbn [Z.pow]. rewrite Z.mul_1_r.
    assert (2 <= 2 ^ (target m' e' - target m e)).
    { change 2 with (2 ^ 1) at 1. apply Z.pow_le_mono_r; lia. }
    change (2 ^ 24) with (2 ^ 23 * 2) in U. nia.
Qed.

Lemma valid_finite_inv :
  forall s m e, F32.valid (S754_finite s m e) = true ->
    target (Zpos m) e = e /\ -149 <= e <= 104 /\ Zpos m < 2 ^ 24
    /\ (-149 < e -> 2 ^ 23 <= Zpos m).
Proof.
  intros s m e H. unfold F32.valid, F32.prec, F32.emax, valid_binary, bounded, canonical_mantissa in H.
  apply andb_true_iff in H. destruct H as [C B].
  apply Z.eqb_eq in C. apply Z.leb_le in B.
  change (Zpos (digits2_pos m)) with (digits (Zpos m)) in C.
  fold (target (Zpos m) e) in C.
  pose proof (digits_bounds (Zpos m) ltac:(lia)) as Hd.
  pose proof (digits_positive (Zpos m) ltac:(lia)) as Hp.
  pose proof C as C'. rewrite target_eq in C'.
  split; [ exact C | ]. split; [ lia | ].
  split.
  - assert (2 ^ digits (Zpos m) <= 2 ^ 24) by (apply Z.pow_le_mono_r; lia). lia.
  - intros He. assert (digits (Zpos m) = 24) by lia.
    replace 23 with (digits (Zpos m) - 1) by lia. lia.
Qed.

Lemma valid_finite_intro :
  forall s m e, 0 < m <= 2 ^ 24 - 1 -> -149 <= e <= 104 ->
    (-149 < e -> 2 ^ 23 <= m) ->
    F32.valid (S754_finite s (Z.to_pos m) e) = true.
Proof.
  intros s m e Hm He Hn. unfold F32.valid, F32.prec, F32.emax, valid_binary, bounded, canonical_mantissa.
  apply andb_true_iff. split; [ | apply Z.leb_le; lia ].
  apply Z.eqb_eq.
  change (Zpos (digits2_pos (Z.to_pos m))) with (digits (Zpos (Z.to_pos m))).
  rewrite Z2Pos.id by lia.
  fold (target m e). rewrite target_eq.
  assert (D : digits m <= 24) by (apply digits_le; lia).
  destruct (Z.eq_dec e (-149)) as [ E | E ]; [ lia | ].
  assert (23 < digits m) by (apply digits_ge; lia). lia.
Qed.

(** What [pack] returns when the rounded number is below 2^128. *)
Lemma pack_value :
  forall s r t k,
    0 <= r <= 2 ^ 24 -> -149 <= t -> (-149 < t -> 2 ^ 23 <= r) ->
    -149 <= k <= 127 -> r * 2 ^ (t + 149) <= 2 ^ (k + 149) ->
    F32.valid (pack s r t) = true
    /\ is_finite (pack s r t) = true
    /\ Fnum (pack s r t) = cond_Zopp s (r * 2 ^ (t + 149)).
Proof.
  intros s r t k Hr Ht Hn Hk Hv. unfold pack.
  destruct (r =? 0) eqn:E0.
  { apply Z.eqb_eq in E0. subst r. cbn. destruct s; repeat split; reflexivity. }
  apply Z.eqb_neq in E0.
  assert (HT : 0 < 2 ^ (t + 149)) by (apply Z.pow_pos_nonneg; lia).
  assert (Hsmall : t = -149 \/ t + 23 <= k).
  { destruct (Z.eq_dec t (-149)) as [ E | E ]; [ left; exact E | right ].
    specialize (Hn ltac:(lia)).
    destruct (Z_le_gt_dec (t + 23) k) as [ L | G ]; [ exact L | exfalso ].
    assert (2 ^ (k + 149 + 1) <= 2 ^ (23 + (t + 149))) by (apply Z.pow_le_mono_r; lia).
    rewrite (Z.pow_add_r 2 (k + 149) 1), (Z.pow_add_r 2 23 (t + 149)) in H by lia.
    change (2 ^ 1) with 2 in H.
    assert (0 < 2 ^ (k + 149)) by (apply Z.pow_pos_nonneg; lia). nia. }
  destruct (r <? 2 ^ 24) eqn:E1.
  - apply Z.ltb_lt in E1. unfold fin.
    replace (t <=? 104) with true by (symmetry; apply Z.leb_le; lia).
    split; [ apply valid_finite_intro; lia | ].
    split; [ reflexivity | ].
    cbn [Fnum]. rewrite Z2Pos.id by lia. reflexivity.
  - apply Z.ltb_ge in E1. assert (r = 2 ^ 24) by lia. subst r.
    assert (t + 24 <= k).
    { destruct (Z_le_gt_dec (t + 24) k) as [ L | G ]; [ exact L | exfalso ].
      assert (2 ^ (k + 149 + 1) <= 2 ^ (24 + (t + 149))) by (apply Z.pow_le_mono_r; lia).
      rewrite (Z.pow_add_r 2 (k + 149) 1), (Z.pow_add_r 2 24 (t + 149)) in H by lia.
      change (2 ^ 1) with 2 in H.
      assert (0 < 2 ^ (k + 149)) by (apply Z.pow_pos_nonneg; lia). nia. }
    unfold fin.
    replace (t + 1 <=? 104) with true by (symmetry; apply Z.leb_le; lia).
    change (2 ^ 24 / 2) with (2 ^ 23).
    split; [ apply valid_finite_intro; [ cbn; lia | lia | lia ] | ].
    split; [ reflexivity | ].
    cbn [Fnum]. rewrite Z2Pos.id by (cbn; lia).
    f_equal. replace (t + 1 + 149) with (1 + (t + 149)) by lia.
    rewrite Z.pow_add_r by lia. change (2 ^ 24) with (2 ^ 23 * 2 ^ 1). lia.
Qed.

(** A positive number [m * 2^e] at most [2^k] rounds to a F32.valid finite
    float at most [2^k], and rounding is monotone on such numbers. *)
Lemma rnd_value :
  forall s m e k, 0 < m -> -149 <= k <= 127 -> ple m e 1 k ->
    F32.valid (rnd s m e) = true
    /\ is_finite (rnd s m e) = true
    /\ Fnum (rnd s m e)
       = cond_Zopp s (rne m (target m e - e) * 2 ^ (target m e + 149))
    /\ rne m (target m e - e) * 2 ^ (target m e + 149) <= 2 ^ (k + 149).
Proof.
  intros s m e k Hm Hk H.
  pose proof (rounded_mono m e 1 k Hm ltac:(lia) H) as M.
  assert (T1 : -149 <= target 1 k <= k) by (rewrite target_eq; change (digits 1) with 1; lia).
  rewrite (rne_positive_exp 1 (target 1 k - k)) in M by lia. rewrite Z.mul_1_l in M.
  pose proof (target_lower m e) as TL.
  apply (ple_scaled _ _ _ _ (-149)) in M; [ | lia | lia ].
  replace (target m e - -149) with (target m e + 149) in M by lia.
  replace (2 ^ (- (target 1 k - k)) * 2 ^ (target 1 k - -149)) with (2 ^ (k + 149)) in M.
  2:{ rewrite <- Z.pow_add_r by lia. f_equal. lia. }
  assert (P := pack_value s (rne m (target m e - e)) (target m e) k).
  destruct P as [P1 [P2 P3]]; try lia.
  - split; [ apply rne_nonneg; lia | apply rounded_upper; exact Hm ].
  - intros HT. apply rounded_lower; assumption.
  - unfold rnd. repeat split; assumption.
Qed.

(** An exactly representable number rounds to itself. *)
Lemma rnd_exact :
  forall s m e m' e', 0 < m ->
    F32.valid (S754_finite s m' e') = true ->
    ple m e (Zpos m') e' -> ple (Zpos m') e' m e ->
    rnd s m e = S754_finite s m' e'.
Proof.
  intros s m e m' e' Hm Hv H1 H2.
  destruct (valid_finite_inv s m' e' Hv) as [C [He [Hlt Hn]]].
  pose proof (ple_magnitude _ _ _ _ Hm (Pos2Z.is_pos m') H1) as D1.
  pose proof (ple_magnitude _ _ _ _ (Pos2Z.is_pos m') Hm H2) as D2.
  assert (T : target m e = e').
  { rewrite <- C. rewrite !target_eq. lia. }
  unfold rnd. rewrite T.
  assert (R : rne m (e' - e) = Zpos m').
  { destruct (Z_le_gt_dec e e') as [ L | G ].
    - apply (ple_scaled _ _ _ _ e) in H1; [ | lia | lia ].
      apply (ple_scaled _ _ _ _ e) in H2; [ | lia | lia ].
      rewrite Z.sub_diag, Z.pow_0_r, Z.mul_1_r in H1, H2.
      replace m with (Zpos m' * 2 ^ (e' - e)) by lia.
      apply rne_exact. lia.
    - apply (ple_scaled _ _ _ _ e') in H1; [ | lia | lia ].
      apply (ple_scaled _ _ _ _ e') in H2; [ | lia | lia ].
      rewrite Z.sub_diag, Z.pow_0_r, Z.mul_1_r in H1, H2.
      rewrite rne_positive_exp by lia.
      replace (- (e' - e)) with (e - e') by lia. lia. }
  rewrite R. unfold pack, fin.
  replace (Zpos m' =? 0) with false by (symmetry; apply Z.eqb_neq; lia).
  replace (Zpos m' <? 2 ^ 24) with true by (symmetry; apply Z.ltb_lt; lia).
  replace (e' <=? 104) with true by (symmetry; apply Z.leb_le; lia).
  reflexivity.
Qed.

Lemma compare_positive_valid :
  forall s1 m1 e1 s2 m2 e2,
    F32.valid (S754_finite s1 m1 e1) = true -> F32.valid (S754_finite s2 m2 e2) = true ->
    match e1 ?= e2 with
    | Lt => Lt
    | Gt => Gt
    | Eq => Pos.compare_cont Eq m1 m2
    end = (Zpos m1 * 2 ^ (e1 + 149) ?= Zpos m2 * 2 ^ (e2 + 149)).
Proof.
  intros s1 m1 e1 s2 m2 e2 V1 V2.
  destruct (valid_finite_inv _ _ _ V1) as [_ [He1 [Hm1 Hn1]]].
  destruct (valid_finite_inv _ _ _ V2) as [_ [He2 [Hm2 Hn2]]].
  assert (P1 : 0 < 2 ^ (e1 + 149)) by (apply Z.pow_pos_nonneg; lia).
  assert (P2 : 0 < 2 ^ (e2 + 149)) by (apply Z.pow_pos_nonneg; lia).
  destruct (e1 ?= e2) eqn:C.
  - apply Z.compare_eq in C. subst e2. fold (Pos.compare m1 m2).
    rewrite <- Zmult_compare_compat_r by lia. reflexivity.
  - change (e1 < e2) in C. symmetry. apply Z.compare_lt_iff.
    assert (N2 : 2 ^ 23 <= Zpos m2) by (apply Hn2; lia).
    assert (2 * 2 ^ (e1 + 149) <= 2 ^ (e2 + 149)).
    { rewrite <- Z.pow_succ_r by lia. apply Z.pow_le_mono_r; lia. }
    change (2 ^ 24) with (2 ^ 23 * 2) in Hm1. nia.
  - apply Z.compare_gt_iff in C. symmetry. apply Z.compare_gt_iff.
    assert (N1 : 2 ^ 23 <= Zpos m1) by (apply Hn1; lia).
    assert (2 * 2 ^ (e2 + 149) <= 2 ^ (e1 + 149)).
    { rewrite <- Z.pow_succ_r by lia. apply Z.pow_le_mono_r; lia. }
    change (2 ^ 24) with (2 ^ 23 * 2) in Hm2. nia.
Qed.

(** On F32.valid finite floats, [SFcompare] compares the values. *)
Lemma compare_Fnum :
  forall x y, F32.valid x = true -> F32.valid y = true ->
    is_finite x = true -> is_finite y = true ->
    SFcompare x y = Some (Fnum x ?= Fnum y).
Proof.
  intros x y Vx Vy Fx Fy.
  destruct x as [ sx | sx | | sx mx ex ]; try discriminate Fx;
    destruct y as [ sy | sy | | sy my ey ]; try discriminate Fy;
    cbn [SFcompare Fnum].
  - reflexivity.
  - destruct (valid_finite_inv _ _ _ Vy) as [_ [He _]].
    assert (0 < 2 ^ (ey + 149)) by (apply Z.pow_pos_nonneg; lia).
    f_equal. symmetry. destruct sy; cbn [cond_Zopp];
      [ apply Z.compare_gt_iff | apply Z.compare_lt_iff ]; nia.
  - destruct (valid_finite_inv _ _ _ Vx) as [_ [He _]].
    assert (0 < 2 ^ (ex + 149)) by (apply Z.pow_pos_nonneg; lia).
    f_equal. symmetry. destruct sx; cbn [cond_Zopp];
      [ apply Z.compare_lt_iff | apply Z.compare_gt_iff ]; nia.
  - destruct (valid_finite_inv _ _ _ Vx) as [_ [Hex _]].
    destruct (valid_finite_inv _ _ _ Vy) as [_ [Hey _]].
    assert (0 < 2 ^ (ex + 149)) by (apply Z.pow_pos_nonneg; lia).
    assert (0 < 2 ^ (ey + 149)) by (apply Z.pow_pos_nonneg; lia).
    f_equal. destruct sx, sy; cbn [cond_Zopp].
    + rewrite Z.compare_opp.
      rewrite <- (compare_positive_valid _ _ _ _ _ _ Vy Vx).
      rewrite (Z.compare_antisym ey ex).
      destruct (ey ?= ex); cbn [CompOpp]; try reflexivity.
      rewrite Pos.compare_cont_antisym. reflexivity.
    + symmetry. apply Z.compare_lt_iff. nia.
    + symmetry. apply Z.compare_gt_iff. nia.
    + apply (compare_positive_valid _ _ _ _ _ _ Vx Vy).
Qed.

Lemma leb_Fnum :
  forall x y, F32.valid x = true -> F32.valid y = true ->
    is_finite x = true -> is_finite y = true ->
    SFleb x y = (Fnum x <=? Fnum y).
Proof.
  intros x y Vx Vy Fx Fy. unfold SFleb. rewrite compare_Fnum by assumption.
  unfold Z.leb. destruct (Fnum x ?= Fnum y); reflexivity.
Qed.

Lemma ltb_Fnum :
  forall x y, F32.valid x = true -> F32.valid y = true ->
    is_finite x = true -> is_finite y = true ->
    SFltb x y = (Fnum x <? Fnum y).
Proof.
  intros x y Vx Vy Fx Fy. unfold SFltb. rewrite compare_Fnum by assumption.
  unfold Z.ltb. destruct (Fnum x ?= Fnum y); reflexivity.
Qed.

(** Two F32.valid finite floats with the same non-zero value are equal. *)
Lemma Fnum_inj :
  forall x y, F32.valid x = true -> F32.valid y = true ->
    is_finite x = true -> is_finite y = true ->
    Fnum x = Fnum y -> Fnum x <> 0 -> x = y.
Proof.
  intros x y Vx Vy Fx Fy E N.
  destruct x as [ sx | sx | | sx mx ex ]; try discriminate Fx; [ cbn in N; lia | ].
  destruct y as [ sy | sy | | sy my ey ]; try discriminate Fy; [ cbn in E, N; lia | ].
  destruct (valid_finite_inv _ _ _ Vx) as [Tx [Hex [Hmx Hnx]]].
  destruct (valid_finite_inv _ _ _ Vy) as [Ty [Hey [Hmy Hny]]].
  cbn [Fnum] in E.
  assert (Px : 0 < 2 ^ (ex + 149)) by (apply Z.pow_pos_nonneg; lia).
  assert (Py : 0 < 2 ^ (ey + 149)) by (apply Z.pow_pos_nonneg; lia).
  assert (S : sx = sy) by (destruct sx, sy; cbn [cond_Zopp] in E; try reflexivity; nia).
  subst sy.
  assert (E' : Zpos mx * 2 ^ (ex + 149) = Zpos my * 2 ^ (ey + 149))
    by (destruct sx; cbn [cond_Zopp] in E; lia).
  pose proof (compare_positive_valid _ _ _ _ _ _ Vx Vy) as C.
  rewrite E', Z.compare_refl in C.
  destruct (ex ?= ey) eqn:Ce; try discriminate C.
  apply Z.compare_eq in Ce. subst ey.
  apply Pos.compare_eq in C. subst my. reflexivity.
Qed.

Lemma digits_mul_lower :
  forall a b, 0 < a -> 0 < b -> digits a + digits b - 1 <= digits (a * b).
Proof.
  intros a b Ha Hb.
  pose proof (digits_bounds a Ha) as Da. pose proof (digits_bounds b Hb) as Db.
  pose proof (digits_positive a Ha). pose proof (digits_positive b Hb).
  assert (2 ^ (digits a + digits b - 2) <= a * b).
  { replace (digits a + digits b - 2) with ((digits a - 1) + (digits b - 1)) by lia.
    rewrite Z.pow_add_r by lia.
    assert (0 < 2 ^ (digits a - 1)) by (apply Z.pow_pos_nonneg; lia).
    assert (0 < 2 ^ (digits b - 1)) by (apply Z.pow_pos_nonneg; lia). nia. }
  assert (digits a + digits b - 2 < digits (a * b)) by (apply digits_ge; [ nia | assumption ]).
  lia.
Qed.

Lemma valid_digits :
  forall s m e, F32.valid (S754_finite s m e) = true ->
    digits (Zpos m) <= 24 /\ (e = -149 \/ digits (Zpos m) = 24).
Proof.
  intros s m e V. destruct (valid_finite_inv _ _ _ V) as [T [He [Hm Hn]]].
  rewrite target_eq in T.
  pose proof (digits_positive (Zpos m) (Pos2Z.is_pos m)). lia.
Qed.

(** The product of two F32.valid floats is the rounding of the exact product. *)
Lemma mul_spec :
  forall sx mx ex sy my ey,
    F32.valid (S754_finite sx mx ex) = true -> F32.valid (S754_finite sy my ey) = true ->
    SFmul 24 128 (S754_finite sx mx ex) (S754_finite sy my ey)
    = rnd (xorb sx sy) (Zpos mx * Zpos my) (ex + ey).
Proof.
  intros sx mx ex sy my ey Vx Vy. cbn [SFmul]. rewrite Pos2Z.inj_mul.
  apply binary_round_aux_exact; [ lia | ].
  destruct (valid_digits _ _ _ Vx) as [Dx Cx].
  destruct (valid_digits _ _ _ Vy) as [Dy Cy].
  destruct (valid_finite_inv _ _ _ Vx) as [_ [Hex _]].
  destruct (valid_finite_inv _ _ _ Vy) as [_ [Hey _]].
  pose proof (digits_mul_lower (Zpos mx) (Zpos my) (Pos2Z.is_pos mx) (Pos2Z.is_pos my)) as L.
  pose proof (digits_positive (Zpos mx) (Pos2Z.is_pos mx)).
  pose proof (digits_positive (Zpos my) (Pos2Z.is_pos my)).
  rewrite target_eq. lia.
Qed.

Lemma Fnum_finite_pos :
  forall m e, Fnum (S754_finite false m e) = Zpos m * 2 ^ (e + 149).
Proof. reflexivity. Qed.

(** Multiplication by a positive constant is monotone on non-negative
    floats, as long as the products stay below [2^k]. *)
Lemma mul_mono_pos :
  forall mx ex mx' ex' mc ec k,
    F32.valid (S754_finite false mx ex) = true ->
    F32.valid (S754_finite false mx' ex') = true ->
    F32.valid (S754_finite false mc ec) = true ->
    Fnum (S754_finite false mx ex) <= Fnum (S754_finite false mx' ex') ->
    -149 <= k <= 127 ->
    ple (Zpos mx' * Zpos mc) (ex' + ec) 1 k ->
    let r := SFmul 24 128 (S754_finite false mx ex) (S754_finite false mc ec) in
    let r' := SFmul 24 128 (S754_finite false mx' ex') (S754_finite false mc ec) in
    F32.valid r = true /\ is_finite r = true /\ F32.valid r' = true /\ is_finite r' = true
    /\ 0 <= Fnum r <= Fnum r' /\ Fnum r' <= 2 ^ (k + 149).
Proof.
  intros mx ex mx' ex' mc ec k Vx Vx' Vc Hle Hk Hb r r'. subst r r'.
  rewrite !mul_spec by assumption. cbn [xorb].
  destruct (valid_finite_inv _ _ _ Vx) as [_ [Hex _]].
  destruct (valid_finite_inv _ _ _ Vx') as [_ [Hex' _]].
  destruct (valid_finite_inv _ _ _ Vc) as [_ [Hec _]].
  rewrite !Fnum_finite_pos in Hle.
  assert (P : ple (Zpos mx * Zpos mc) (ex + ec) (Zpos mx' * Zpos mc) (ex' + ec)).
  { apply (ple_scaled _ _ _ _ (-149 + ec)); [ lia | lia | ].
    replace (ex + ec - (-149 + ec)) with (ex + 149) by lia.
    replace (ex' + ec - (-149 + ec)) with (ex' + 149) by lia. nia. }
  assert (Q : ple (Zpos mx * Zpos mc) (ex + ec) 1 k).
  { set (z := Z.min (-149 + ec) k).
    apply (ple_scaled _ _ _ _ z); [ subst z; lia | subst z; lia | ].
    apply (ple_scaled _ _ _ _ z) in Hb; [ | subst z; lia | subst z; lia ].
    apply (ple_scaled _ _ _ _ z) in P; [ | subst z; lia | subst z; lia ]. lia. }
  assert (Pm : 0 < Zpos mx * Zpos mc) by lia.
  assert (Pm' : 0 < Zpos mx' * Zpos mc) by lia.
  destruct (rnd_value false _ _ k Pm Hk Q) as [A1 [A2 [A3 A4]]].
  destruct (rnd_value false _ _ k Pm' Hk Hb) as [B1 [B2 [B3 B4]]].
  pose proof (rounded_mono _ _ _ _ Pm Pm' P) as M.
  apply (ple_scaled _ _ _ _ (-149)) in M; [ | apply target_lower | apply target_lower ].
  rewrite A3, B3. cbn [cond_Zopp].
  replace (target (Z.pos mx * Z.pos mc) (ex + ec) - -149)
    with (target (Z.pos mx * Z.pos mc) (ex + ec) + 149) in M by lia.
  replace (target (Z.pos mx' * Z.pos mc) (ex' + ec) - -149)
    with (target (Z.pos mx' * Z.pos mc) (ex' + ec) + 149) in M by lia.
  repeat split; try assumption.
  apply Z.mul_nonneg_nonneg; [ apply rne_nonneg; lia | apply Z.pow_nonneg; lia ].
Qed.

(** Truncation of a non-negative F32.valid float is the integer quotient. *)
Lemma shiftl_scaled :
  forall m e, 0 <= m -> -149 <= e -> Z.shiftl m e = m * 2 ^ (e + 149) / 2 ^ 149.
Proof.
  intros m e Hm He. destruct (Z_le_gt_dec 0 e) as [ L | G ].
  - rewrite Z.shiftl_mul_pow2 by lia. rewrite Z.pow_add_r by lia.
    rewrite Z.mul_assoc, Z.div_mul by (apply Z.pow_nonzero; lia). reflexivity.
  - rewrite Z.shiftl_div_pow2 by lia.
    replace (2 ^ 149) with (2 ^ (- e) * 2 ^ (e + 149))
      by (rewrite <- Z.pow_add_r by lia; f_equal; lia).
    rewrite Z.div_mul_cancel_r; [ reflexivity | | ]; apply Z.pow_nonzero; lia.
Qed.

(** * Sums, differences and the two hue loops *)

Lemma binary_normalize_spec :
  forall z e, binary_normalize 24 128 z e false = normz z e.
Proof.
  intros z e. destruct z; cbn [binary_normalize normz];
    [ reflexivity | apply binary_round_spec | apply binary_round_spec ].
Qed.

Lemma shl_align_fst :
  forall m e ez, ez <= e -> Zpos (fst (shl_align m e ez)) = Zpos m * 2 ^ (e - ez).
Proof.
  intros m e ez H. unfold shl_align.
  destruct (ez - e) as [ | p | p ] eqn:E; cbn [fst].
  - replace (e - ez) with 0 by lia. cbn. lia.
  - lia.
  - rewrite iter_xO. f_equal. f_equal. lia.
Qed.

Lemma add_spec :
  forall sx mx ex sy my ey,
    SFadd 24 128 (S754_finite sx mx ex) (S754_finite sy my ey)
    = normz (aligned sx mx ex (Z.min ex ey) + aligned sy my ey (Z.min ex ey)) (Z.min ex ey).
Proof.
  intros. cbn [SFadd]. rewrite binary_normalize_spec. unfold aligned.
  rewrite !shl_align_fst by lia. reflexivity.
Qed.

Lemma sub_spec :
  forall sx mx ex sy my ey,
    SFsub 24 128 (S754_finite sx mx ex) (S754_finite sy my ey)
    = normz (aligned sx mx ex (Z.min ex ey) - aligned sy my ey (Z.min ex ey)) (Z.min ex ey).
Proof.
  intros. cbn [SFsub]. rewrite binary_normalize_spec. unfold aligned.
  rewrite !shl_align_fst by lia. reflexivity.
Qed.

Lemma aligned_Fnum :
  forall s m e ez, -149 <= ez <= e ->
    aligned s m e ez * 2 ^ (ez + 149) = Fnum (S754_finite s m e).
Proof.
  intros s m e ez H. unfold aligned. cbn [Fnum].
  replace (e + 149) with ((e - ez) + (ez + 149)) by lia.
  rewrite (Z.pow_add_r 2 (e - ez) (ez + 149)) by lia. destruct s; cbn [cond_Zopp]; ring.
Qed.

(** Rounding an integer multiple of [2^e] whose magnitude is at most
    [2^k]: finite, valid, at most [2^k], with the sign of the integer. *)
Lemma normz_bound :
  forall z e k, -149 <= e -> -149 <= k <= 127 ->
    Z.abs z * 2 ^ (e + 149) <= 2 ^ (k + 149) ->
    F32.valid (normz z e) = true /\ is_finite (normz z e) = true
    /\ Z.abs (Fnum (normz z e)) <= 2 ^ (k + 149)
    /\ (0 <= z -> 0 <= Fnum (normz z e))
    /\ (z <= 0 -> Fnum (normz z e) <= 0).
Proof.
  intros z e k He Hk Hb.
  assert (Pe : 0 < 2 ^ (e + 149)) by (apply Z.pow_pos_nonneg; lia).
  destruct z as [ | p | p ]; cbn [normz].
  - cbn. repeat split; try lia; apply Z.pow_nonneg; lia.
  - assert (Q : ple (Zpos p) e 1 k).
    { apply (ple_scaled _ _ _ _ (-149)); [ lia | lia | ].
      replace (e - -149) with (e + 149) by lia.
      replace (k - -149) with (k + 149) by lia. cbn [Z.abs] in Hb. lia. }
    destruct (rnd_value false _ _ k (Pos2Z.is_pos p) Hk Q) as [A [B [C D]]].
    rewrite C. cbn [cond_Zopp].
    assert (0 <= rne (Zpos p) (target (Zpos p) e - e) * 2 ^ (target (Zpos p) e + 149)).
    { apply Z.mul_nonneg_nonneg; [ apply rne_nonneg; lia | apply Z.pow_nonneg ]; lia. }
    repeat split; try assumption; try lia.
  - assert (Q : ple (Zpos p) e 1 k).
    { apply (ple_scaled _ _ _ _ (-149)); [ lia | lia | ].
      replace (e - -149) with (e + 149) by lia.
      replace (k - -149) with (k + 149) by lia. cbn [Z.abs] in Hb. lia. }
    destruct (rnd_value true _ _ k (Pos2Z.is_pos p) Hk Q) as [A [B [C D]]].
    rewrite C. cbn [cond_Zopp].
    assert (0 <= rne (Zpos p) (target (Zpos p) e - e) * 2 ^ (target (Zpos p) e + 149)).
    { apply Z.mul_nonneg_nonneg; [ apply rne_nonneg; lia | apply Z.pow_nonneg ]; lia. }
    repeat split; try assumption; try lia.
Qed.

(** Rounding an integer multiple of [2^e] whose value is that of a valid
    float returns that float. *)
Lemma normz_exact :
  forall z e r, -149 <= e -> z <> 0 ->
    F32.valid r = true -> is_finite r = true ->
    z * 2 ^ (e + 149) = Fnum r ->
    normz z e = r.
Proof.
  intros z e r He Hz V F E.
  assert (Pe : 0 < 2 ^ (e + 149)) by (apply Z.pow_pos_nonneg; lia).
  destruct r as [ s | s | | s m' e' ]; try discriminate F.
  { cbn [Fnum] in E. nia. }
  destruct (valid_finite_inv _ _ _ V) as [_ [He' _]].
  assert (Pe' : 0 < 2 ^ (e' + 149)) by (apply Z.pow_pos_nonneg; lia).
  cbn [Fnum] in E.
  assert (G : forall p, Zpos p * 2 ^ (e + 149) = Zpos m' * 2 ^ (e' + 149) ->
                        rnd s (Zpos p) e = S754_finite s m' e').
  { intros p Ep. apply rnd_exact; [ lia | exact V | | ].
    - apply (ple_scaled _ _ _ _ (-149)); [ lia | lia | ].
      replace (e - -149) with (e + 149) by lia.
      replace (e' - -149) with (e' + 149) by lia. lia.
    - apply (ple_scaled _ _ _ _ (-149)); [ lia | lia | ].
      replace (e - -149) with (e + 149) by lia.
      replace (e' - -149) with (e' + 149) by lia. lia. }
  destruct z as [ | p | p ]; [ contradiction | | ]; cbn [normz].
  - destruct s; cbn [cond_Zopp] in E; [ nia | ]. apply G. exact E.
  - destruct s; cbn [cond_Zopp] in E; [ | nia ]. apply G. lia.
Qed.

Lemma finite_Fnum_nonzero :
  forall s m e, F32.valid (S754_finite s m e) = true -> Fnum (S754_finite s m e) <> 0.
Proof.
  intros s m e V. destruct (valid_finite_inv _ _ _ V) as [_ [He _]].
  assert (0 < 2 ^ (e + 149)) by (apply Z.pow_pos_nonneg; lia).
  destruct s; cbn [Fnum cond_Zopp]; nia.
Qed.

Lemma Fnum_opp_finite :
  forall s m e, Fnum (S754_finite (negb s) m e) = - Fnum (S754_finite s m e).
Proof. intros s m e. destruct s; cbn [Fnum negb cond_Zopp]; lia. Qed.

Lemma valid_opp_finite :
  forall s s' m e, F32.valid (S754_finite s m e) = true -> F32.valid (S754_finite s' m e) = true.
Proof. intros s s' m e V. exact V. Qed.

(** Sum and difference of valid finite floats: bounded results. *)
Lemma add_bound :
  forall x y k, F32.valid x = true -> F32.valid y = true ->
    is_finite x = true -> is_finite y = true -> -149 <= k <= 127 ->
    Z.abs (Fnum x + Fnum y) <= 2 ^ (k + 149) ->
    Z.abs (Fnum x) <= 2 ^ (k + 149) -> Z.abs (Fnum y) <= 2 ^ (k + 149) ->
    F32.valid (SFadd 24 128 x y) = true /\ is_finite (SFadd 24 128 x y) = true
    /\ Z.abs (Fnum (SFadd 24 128 x y)) <= 2 ^ (k + 149)
    /\ (0 <= Fnum x + Fnum y -> 0 <= Fnum (SFadd 24 128 x y))
    /\ (Fnum x + Fnum y <= 0 -> Fnum (SFadd 24 128 x y) <= 0).
Proof.
  intros x y k Vx Vy Fx Fy Hk Hb Hbx Hby.
  destruct x as [ sx | sx | | sx mx ex ]; try discriminate Fx;
    destruct y as [ sy | sy | | sy my ey ]; try discriminate Fy.
  - assert (E : Fnum (SFadd 24 128 (S754_zero sx) (S754_zero sy)) = 0)
      by (destruct sx, sy; reflexivity).
    rewrite E. destruct sx, sy; cbn; repeat split; try lia; apply Z.pow_nonneg; lia.
  - cbn [SFadd]. cbn [Fnum] in Hb |- *. rewrite Z.add_0_l in Hb.
    repeat split; try assumption; lia.
  - cbn [SFadd]. cbn [Fnum] in Hb |- *. rewrite Z.add_0_r in Hb.
    repeat split; try assumption; lia.
  - rewrite add_spec.
    destruct (valid_finite_inv _ _ _ Vx) as [_ [Hex _]].
    destruct (valid_finite_inv _ _ _ Vy) as [_ [Hey _]].
    set (ez := Z.min ex ey).
    pose proof (aligned_Fnum sx mx ex ez ltac:(subst ez; lia)) as Ax.
    pose proof (aligned_Fnum sy my ey ez ltac:(subst ez; lia)) as Ay.
    assert (Pe : 0 < 2 ^ (ez + 149)) by (apply Z.pow_pos_nonneg; subst ez; lia).
    set (z := aligned sx mx ex ez + aligned sy my ey ez) in *.
    assert (Ez : z * 2 ^ (ez + 149) = Fnum (S754_finite sx mx ex) + Fnum (S754_finite sy my ey))
      by (subst z; lia).
    assert (Hz : Z.abs z * 2 ^ (ez + 149) <= 2 ^ (k + 149)).
    { rewrite <- Ez in Hb. rewrite Z.abs_mul in Hb.
      rewrite (Z.abs_eq (2 ^ (ez + 149))) in Hb by lia. exact Hb. }
    assert (Hez : -149 <= ez) by (subst ez; lia).
    destruct (normz_bound z ez k Hez Hk Hz) as [A [B [C [D E]]]].
    repeat split; try assumption.
    + intros H. apply D. nia.
    + intros H. apply E. nia.
Qed.

Lemma add_exact :
  forall x y r, F32.valid x = true -> F32.valid y = true -> F32.valid r = true ->
    is_finite x = true -> is_finite y = true -> is_finite r = true ->
    Fnum x + Fnum y = Fnum r ->
    F32.valid (SFadd 24 128 x y) = true /\ is_finite (SFadd 24 128 x y) = true
    /\ Fnum (SFadd 24 128 x y) = Fnum r.
Proof.
  intros x y r Vx Vy Vr Fx Fy Fr E.
  destruct x as [ sx | sx | | sx mx ex ]; try discriminate Fx;
    destruct y as [ sy | sy | | sy my ey ]; try discriminate Fy.
  - cbn [Fnum] in E. rewrite <- E. destruct sx, sy; repeat split; reflexivity.
  - cbn [SFadd]. cbn [Fnum] in E |- *. rewrite Z.add_0_l in E.
    repeat split; assumption.
  - cbn [SFadd]. cbn [Fnum] in E |- *. rewrite Z.add_0_r in E.
    repeat split; assumption.
  - rewrite add_spec.
    destruct (valid_finite_inv _ _ _ Vx) as [_ [Hex _]].
    destruct (valid_finite_inv _ _ _ Vy) as [_ [Hey _]].
    set (ez := Z.min ex ey).
    pose proof (aligned_Fnum sx mx ex ez ltac:(subst ez; lia)) as Ax.
    pose proof (aligned_Fnum sy my ey ez ltac:(subst ez; lia)) as Ay.
    assert (Pe : 0 < 2 ^ (ez + 149)) by (apply Z.pow_pos_nonneg; subst ez; lia).
    set (z := aligned sx mx ex ez + aligned sy my ey ez) in *.
    assert (Ez : z * 2 ^ (ez + 149) = Fnum r) by (subst z; lia).
    destruct (Z.eq_dec z 0) as [ Z0' | NZ ].
    + rewrite Z0' in *. cbn [normz]. rewrite <- Ez. repeat split; reflexivity.
    + rewrite (normz_exact z ez r); try assumption; try (subst ez; lia).
      repeat split; assumption.
Qed.

Lemma sub_as_add :
  forall x y, is_finite x = true -> is_finite y = true ->
    Fnum (SFsub 24 128 x y) = Fnum (SFadd 24 128 x (SFopp y))
    /\ F32.valid (SFsub 24 128 x y) = F32.valid (SFadd 24 128 x (SFopp y))
    /\ is_finite (SFsub 24 128 x y) = is_finite (SFadd 24 128 x (SFopp y)).
Proof.
  intros x y Fx Fy.
  destruct x as [ sx | sx | | sx mx ex ]; try discriminate Fx;
    destruct y as [ sy | sy | | sy my ey ]; try discriminate Fy.
  - destruct sx, sy; repeat split; reflexivity.
  - repeat split; reflexivity.
  - repeat split; reflexivity.
  - cbn [SFopp]. rewrite add_spec, sub_spec.
    replace (aligned (negb sy) my ey (Z.min ex ey)) with (- aligned sy my ey (Z.min ex ey))
      by (unfold aligned; destruct sy; cbn [negb cond_Zopp]; lia).
    rewrite Z.add_opp_r. repeat split; reflexivity.
Qed.

Lemma Fnum_opp : forall y, Fnum (SFopp y) = - Fnum y.
Proof. intros y. destruct y as [ | | | s m e ]; try reflexivity. destruct s; cbn; lia. Qed.

Lemma valid_opp : forall y, F32.valid (SFopp y) = F32.valid y.
Proof. intros y. destruct y; reflexivity. Qed.

Lemma finite_opp : forall y, is_finite (SFopp y) = is_finite y.
Proof. intros y. destruct y; reflexivity. Qed.

Lemma sub_bound :
  forall x y k, F32.valid x = true -> F32.valid y = true ->
    is_finite x = true -> is_finite y = true -> -149 <= k <= 127 ->
    Z.abs (Fnum x - Fnum y) <= 2 ^ (k + 149) ->
    Z.abs (Fnum x) <= 2 ^ (k + 149) -> Z.abs (Fnum y) <= 2 ^ (k + 149) ->
    F32.valid (SFsub 24 128 x y) = true /\ is_finite (SFsub 24 128 x y) = true
    /\ Z.abs (Fnum (SFsub 24 128 x y)) <= 2 ^ (k + 149)
    /\ (0 <= Fnum x - Fnum y -> 0 <= Fnum (SFsub 24 128 x y))
    /\ (Fnum x - Fnum y <= 0 -> Fnum (SFsub 24 128 x y) <= 0).
Proof.
  intros x y k Vx Vy Fx Fy Hk Hb Hbx Hby.
  destruct (sub_as_add x y Fx Fy) as [A [B C]]. rewrite A, B, C.
  pose proof (Fnum_opp y) as O.
  assert (Vo : F32.valid (SFopp y) = true) by (rewrite valid_opp; exact Vy).
  assert (Fo : is_finite (SFopp y) = true) by (rewrite finite_opp; exact Fy).
  assert (H1 : Z.abs (Fnum x + Fnum (SFopp y)) <= 2 ^ (k + 149))
    by (rewrite O; rewrite Z.add_opp_r; exact Hb).
  assert (H2 : Z.abs (Fnum (SFopp y)) <= 2 ^ (k + 149)) by (rewrite O; lia).
  destruct (add_bound x (SFopp y) k Vx Vo Fx Fo Hk H1 Hbx H2) as [P [Q [R [S T]]]].
  rewrite O in S, T.
  split; [ exact P | ]. split; [ exact Q | ]. split; [ exact R | ].
  split; intros H; [ apply S | apply T ]; lia.
Qed.

Lemma sub_exact :
  forall x y r, F32.valid x = true -> F32.valid y = true -> F32.valid r = true ->
    is_finite x = true -> is_finite y = true -> is_finite r = true ->
    Fnum x - Fnum y = Fnum r ->
    F32.valid (SFsub 24 128 x y) = true /\ is_finite (SFsub 24 128 x y) = true
    /\ Fnum (SFsub 24 128 x y) = Fnum r.
Proof.
  intros x y r Vx Vy Vr Fx Fy Fr E.
  destruct (sub_as_add x y Fx Fy) as [A [B C]]. rewrite A, B, C.
  apply add_exact; rewrite ?valid_opp, ?finite_opp, ?Fnum_opp; try assumption; lia.
Qed.

(** A non-zero integer with at most 24 significant bits, below 2^127
    in units of 2^-149, is the value of a valid float. *)
Lemma representable :
  forall n m j, n <> 0 -> Z.abs n = m * 2 ^ j -> 0 < m < 2 ^ 24 -> 0 <= j ->
    m * 2 ^ j <= 2 ^ (127 + 149) ->
    exists r, F32.valid r = true /\ is_finite r = true /\ Fnum r = n.
Proof.
  intros n m j Hn En Hm Hj Hb.
  set (s := n <? 0).
  assert (Q : ple m (j - 149) 1 127).
  { apply (ple_scaled _ _ _ _ (-149)); [ lia | lia | ].
    replace (j - 149 - -149) with j by lia. lia. }
  assert (Pm : 0 < m) by lia.
  assert (Hk : -149 <= 127 <= 127) by lia.
  destruct (rnd_value s m (j - 149) 127 Pm Hk Q) as [A [B [C D]]].
  exists (rnd s m (j - 149)). split; [ exact A | ]. split; [ exact B | ].
  rewrite C.
  assert (T : target m (j - 149) <= j - 149).
  { rewrite target_eq. assert (digits m <= 24) by (apply digits_le; lia). lia. }
  pose proof (target_lower m (j - 149)) as TL.
  rewrite rne_positive_exp by lia.
  rewrite <- Z.mul_assoc, <- Z.pow_add_r by lia.
  replace (- (target m (j - 149) - (j - 149)) + (target m (j - 149) + 149)) with j by lia.
  rewrite <- En. subst s. destruct (n <? 0) eqn:S; cbn [cond_Zopp].
  - apply Z.ltb_lt in S. lia.
  - apply Z.ltb_ge in S. lia.
Qed.

Lemma Fnum_f360 : Fnum Hsv.f360 = turn.
Proof. reflexivity. Qed.

Lemma turn_pos : 0 < turn.
Proof. unfold turn. assert (0 < 2 ^ 149) by (apply Z.pow_pos_nonneg; lia). lia. Qed.

Lemma valid_exponent_range :
  forall s m e, F32.valid (S754_finite s m e) = true ->
    turn <= Zpos m * 2 ^ (e + 149) < 2 ^ 176 -> -15 <= e <= 3.
Proof.
  intros s m e V H. destruct (valid_finite_inv _ _ _ V) as [_ [He [Hm Hn]]].
  unfold turn in H. split.
  - destruct (Z_le_gt_dec (-15) e) as [ L | G ]; [ exact L | exfalso ].
    assert (2 ^ (e + 149) <= 2 ^ 133) by (apply Z.pow_le_mono_r; lia).
    assert (0 < 2 ^ (e + 149)) by (apply Z.pow_pos_nonneg; lia).
    change (2 ^ 149) with (2 ^ 16 * 2 ^ 133) in H.
    change (2 ^ 24) with 16777216 in Hm. change (2 ^ 16) with 65536 in H.
    assert (0 < 2 ^ 133) by (apply Z.pow_pos_nonneg; lia). nia.
  - destruct (Z_le_gt_dec e 3) as [ L | G ]; [ exact L | exfalso ].
    assert (N : 2 ^ 23 <= Zpos m) by (apply Hn; lia).
    assert (2 ^ 153 <= 2 ^ (e + 149)) by (apply Z.pow_le_mono_r; lia).
    change (2 ^ 176) with (2 ^ 23 * 2 ^ 153) in H.
    assert (0 < 2 ^ 153) by (apply Z.pow_pos_nonneg; lia).
    assert (0 < 2 ^ 23) by (apply Z.pow_pos_nonneg; lia). nia.
Qed.

(** A float of magnitude between 360 and 2^27 moved by one turn toward
    zero is representable. *)
Lemma turn_back_representable :
  forall s m e, F32.valid (S754_finite s m e) = true ->
    turn <= Zpos m * 2 ^ (e + 149) < 2 ^ 176 ->
    forall n, Z.abs n = Zpos m * 2 ^ (e + 149) - turn ->
    exists r, F32.valid r = true /\ is_finite r = true /\ Fnum r = n.
Proof.
  intros s m e V H n En.
  destruct (valid_exponent_range _ _ _ V H) as [E1 E2].
  destruct (valid_finite_inv _ _ _ V) as [_ [He [Hm Hn]]].
  destruct (Z.eq_dec n 0) as [ Z0' | NZ ].
  { exists (S754_zero false). subst n. repeat split; reflexivity. }
  assert (P : 0 < 2 ^ (e + 149)) by (apply Z.pow_pos_nonneg; lia).
  assert (T : turn = 45 * 2 ^ (3 - e) * 2 ^ (e + 149)).
  { unfold turn. rewrite <- Z.mul_assoc, <- Z.pow_add_r by lia.
    replace (3 - e + (e + 149)) with 152 by lia.
    change (2 ^ 152) with (8 * 2 ^ 149). lia. }
  assert (Q3 : 0 < 2 ^ (3 - e)) by (apply Z.pow_pos_nonneg; lia).
  assert (G1 : Z.abs n = (Zpos m - 45 * 2 ^ (3 - e)) * 2 ^ (e + 149))
    by (rewrite En, T; ring).
  assert (G2 : 0 < Zpos m - 45 * 2 ^ (3 - e) < 2 ^ 24).
  { rewrite T in H. split; [ | lia ].
    assert (Zpos m - 45 * 2 ^ (3 - e) <> 0) by (intros Q; rewrite Q in G1; lia).
    nia. }
  assert (G3 : (Zpos m - 45 * 2 ^ (3 - e)) * 2 ^ (e + 149) <= 2 ^ (127 + 149)).
  { rewrite T in H.
    assert (2 ^ 176 <= 2 ^ (127 + 149)) by (apply Z.pow_le_mono_r; lia). nia. }
  apply (representable n (Zpos m - 45 * 2 ^ (3 - e)) (e + 149) NZ G1 G2 ltac:(lia) G3).
Qed.

Lemma step_down :
  forall h, F32.valid h = true -> is_finite h = true -> turn <= Fnum h < 2 ^ 176 ->
    F32.valid (F32.sub h Hsv.f360) = true /\ is_finite (F32.sub h Hsv.f360) = true
    /\ Fnum (F32.sub h Hsv.f360) = Fnum h - turn.
Proof.
  intros h V F H. pose proof turn_pos as TP.
  destruct h as [ s | s | | s m e ]; try discriminate F; [ cbn [Fnum] in H; lia | ].
  destruct (valid_finite_inv _ _ _ V) as [_ [He _]].
  assert (P : 0 < 2 ^ (e + 149)) by (apply Z.pow_pos_nonneg; lia).
  destruct s; cbn [Fnum cond_Zopp] in H; [ nia | ].
  destruct (turn_back_representable false m e V H (Zpos m * 2 ^ (e + 149) - turn))
    as [r [Vr [Fr Er]]]; [ lia | ].
  change (F32.sub ?a ?b) with (SFsub 24 128 a b).
  destruct (sub_exact (S754_finite false m e) Hsv.f360 r V eq_refl Vr F eq_refl Fr) as [A [B C]].
  - rewrite Fnum_f360, Er. reflexivity.
  - rewrite C, Er. split; [ exact A | ]. split; [ exact B | reflexivity ].
Qed.

Lemma step_up_far :
  forall h, F32.valid h = true -> is_finite h = true -> - 2 ^ 176 < Fnum h <= - turn ->
    F32.valid (F32.add h Hsv.f360) = true /\ is_finite (F32.add h Hsv.f360) = true
    /\ Fnum (F32.add h Hsv.f360) = Fnum h + turn.
Proof.
  intros h V F H. pose proof turn_pos as TP.
  destruct h as [ s | s | | s m e ]; try discriminate F; [ cbn [Fnum] in H; lia | ].
  destruct (valid_finite_inv _ _ _ V) as [_ [He _]].
  assert (P : 0 < 2 ^ (e + 149)) by (apply Z.pow_pos_nonneg; lia).
  destruct s; cbn [Fnum cond_Zopp] in H; [ | nia ].
  destruct (turn_back_representable true m e V ltac:(lia) (- (Zpos m * 2 ^ (e + 149)) + turn))
    as [r [Vr [Fr Er]]]; [ lia | ].
  change (F32.add ?a ?b) with (SFadd 24 128 a b).
  destruct (add_exact (S754_finite true m e) Hsv.f360 r V eq_refl Vr F eq_refl Fr) as [A [B C]].
  - rewrite Fnum_f360, Er. reflexivity.
  - rewrite C, Er. split; [ exact A | ]. split; [ exact B | ].
    cbn [Fnum cond_Zopp]. reflexivity.
Qed.

(** Rounding never crosses a representable number. *)
Lemma normz_le_valid :
  forall z e mc ec, -149 <= e -> 0 < z ->
    F32.valid (S754_finite false mc ec) = true ->
    z * 2 ^ (e + 149) <= Zpos mc * 2 ^ (ec + 149) ->
    Zpos mc * 2 ^ (ec + 149) <= 2 ^ (127 + 149) ->
    F32.valid (normz z e) = true /\ is_finite (normz z e) = true
    /\ 0 <= Fnum (normz z e) <= Zpos mc * 2 ^ (ec + 149).
Proof.
  intros z e mc ec He Hz Vc Hle Hb.
  destruct (valid_finite_inv _ _ _ Vc) as [Tc [Hec [Hmc _]]].
  destruct z as [ | p | p ]; try lia. cbn [normz].
  assert (P : ple (Zpos p) e (Zpos mc) ec).
  { apply (ple_scaled _ _ _ _ (-149)); [ lia | lia | ].
    replace (e - -149) with (e + 149) by lia.
    replace (ec - -149) with (ec + 149) by lia. exact Hle. }
  assert (Q : ple (Zpos p) e 1 127).
  { apply (ple_scaled _ _ _ _ (-149)); [ lia | lia | ].
    replace (e - -149) with (e + 149) by lia.
    replace (127 - -149) with (127 + 149) by lia. lia. }
  assert (Hk : -149 <= 127 <= 127) by lia.
  destruct (rnd_value false _ _ 127 (Pos2Z.is_pos p) Hk Q) as [A [B [C D]]].
  pose proof (rounded_mono _ _ _ _ (Pos2Z.is_pos p) (Pos2Z.is_pos mc) P) as M.
  rewrite Tc in M. rewrite Z.sub_diag in M.
  rewrite (rne_positive_exp (Zpos mc) 0) in M by lia.
  change (2 ^ (- 0)) with 1 in M. rewrite Z.mul_1_r in M.
  apply (ple_scaled _ _ _ _ (-149)) in M; [ | apply target_lower | lia ].
  replace (target (Zpos p) e - -149) with (target (Zpos p) e + 149) in M by lia.
  replace (ec - -149) with (ec + 149) in M by lia.
  rewrite C. cbn [cond_Zopp].
  split; [ exact A | ]. split; [ exact B | ]. split; [ | exact M ].
  apply Z.mul_nonneg_nonneg; [ apply rne_nonneg; lia | apply Z.pow_nonneg; lia ].
Qed.

Lemma step_up_near :
  forall h, F32.valid h = true -> is_finite h = true -> - turn < Fnum h < 0 ->
    F32.valid (F32.add h Hsv.f360) = true /\ is_finite (F32.add h Hsv.f360) = true
    /\ 0 <= Fnum (F32.add h Hsv.f360) <= turn
    /\ ((exists z, F32.valid z = true /\ is_finite z = true /\ Fnum z = Fnum h + turn) ->
        Fnum (F32.add h Hsv.f360) = Fnum h + turn).
Proof.
  intros h V F H. pose proof turn_pos as TP.
  change (F32.add ?a ?b) with (SFadd 24 128 a b).
  assert (Ex : (exists z, F32.valid z = true /\ is_finite z = true /\ Fnum z = Fnum h + turn) ->
               Fnum (SFadd 24 128 h Hsv.f360) = Fnum h + turn).
  { intros [z [Vz [Fz Ez]]].
    destruct (add_exact h Hsv.f360 z V eq_refl Vz F eq_refl Fz) as [_ [_ C]].
    - rewrite Fnum_f360, Ez. reflexivity.
    - rewrite C. exact Ez. }
  destruct h as [ s | s | | s m e ]; try discriminate F; [ cbn [Fnum] in H; lia | ].
  destruct (valid_finite_inv _ _ _ V) as [_ [He _]].
  change Hsv.f360 with (S754_finite false 11796480 (-15)) in *.
  rewrite add_spec in *.
  set (ez := Z.min e (-15)) in *.
  pose proof (aligned_Fnum s m e ez ltac:(subst ez; lia)) as Ax.
  pose proof (aligned_Fnum false 11796480 (-15) ez ltac:(subst ez; lia)) as Ay.
  change (Fnum (S754_finite false 11796480 (-15))) with turn in Ay.
  assert (Pe : 0 < 2 ^ (ez + 149)) by (apply Z.pow_pos_nonneg; subst ez; lia).
  set (z := aligned s m e ez + aligned false 11796480 (-15) ez) in *.
  assert (Ez : z * 2 ^ (ez + 149) = Fnum (S754_finite s m e) + turn) by (subst z; lia).
  destruct (normz_le_valid z ez 11796480 (-15)) as [A [B C]].
  - subst ez; lia.
  - nia.
  - reflexivity.
  - change (Zpos 11796480 * 2 ^ (-15 + 149)) with turn. lia.
  - change (Zpos 11796480 * 2 ^ (-15 + 149)) with turn. unfold turn.
    change (2 ^ (127 + 149)) with (2 ^ 127 * 2 ^ 149).
    assert (0 < 2 ^ 149) by (apply Z.pow_pos_nonneg; lia).
    assert (360 <= 2 ^ 127) by (change 360 with (360 * 2 ^ 0); cbn; lia). nia.
  - change (Zpos 11796480 * 2 ^ (-15 + 149)) with turn in C.
    split; [ exact A | ]. split; [ exact B | ]. split; [ exact C | exact Ex ].
Qed.

Lemma geb_f360 :
  forall h, F32.valid h = true -> is_finite h = true ->
    F32.geb h Hsv.f360 = (turn <=? Fnum h).
Proof.
  intros h V F. unfold F32.geb. rewrite leb_Fnum by (try assumption; reflexivity).
  rewrite Fnum_f360. reflexivity.
Qed.

Lemma ltb_f0 :
  forall h, F32.valid h = true -> is_finite h = true ->
    F32.ltb h Hsv.f0 = (Fnum h <? 0).
Proof.
  intros h V F. unfold F32.ltb. rewrite ltb_Fnum by (try assumption; reflexivity).
  reflexivity.
Qed.

Lemma wrap_high_below :
  forall fuel h, F32.valid h = true -> is_finite h = true -> Fnum h < turn ->
    Hsv.wrap_high fuel h = Done h.
Proof.
  intros fuel h V F H.
  assert (G : F32.geb h Hsv.f360 = false)
    by (rewrite geb_f360 by assumption; apply Z.leb_gt; exact H).
  destruct fuel; cbn [Hsv.wrap_high]; rewrite G; reflexivity.
Qed.

Lemma wrap_low_above :
  forall fuel h, F32.valid h = true -> is_finite h = true -> 0 <= Fnum h ->
    Hsv.wrap_low fuel h = Done h.
Proof.
  intros fuel h V F H.
  assert (G : F32.ltb h Hsv.f0 = false)
    by (rewrite ltb_f0 by assumption; apply Z.ltb_ge; exact H).
  destruct fuel; cbn [Hsv.wrap_low]; rewrite G; reflexivity.
Qed.

(** The first loop on a hue in [0, 2^27): exact, ends at [h mod 360]. *)
Lemma wrap_high_run :
  forall n h, F32.valid h = true -> is_finite h = true ->
    0 <= Fnum h < (Z.of_nat n + 1) * turn -> Fnum h < 2 ^ 176 ->
    exists r, F32.valid r = true /\ is_finite r = true
      /\ Fnum r = Fnum h mod turn
      /\ forall fuel, (n <= fuel)%nat -> Hsv.wrap_high fuel h = Done r.
Proof.
  pose proof turn_pos as TP.
  induction n as [ | n IH ]; intros h V F H Hb.
  - exists h. split; [ exact V | ]. split; [ exact F | ].
    split; [ symmetry; apply Z.mod_small; lia | ].
    intros fuel _. apply wrap_high_below; try assumption; lia.
  - destruct (Z_lt_ge_dec (Fnum h) turn) as [ L | G ].
    + exists h. split; [ exact V | ]. split; [ exact F | ].
      split; [ symmetry; apply Z.mod_small; lia | ].
      intros fuel _. apply wrap_high_below; assumption.
    + destruct (step_down h V F ltac:(lia)) as [V' [F' E']].
      destruct (IH (F32.sub h Hsv.f360) V' F') as [r [Vr [Fr [Er Run]]]].
      * rewrite E'. rewrite Nat2Z.inj_succ in H. lia.
      * rewrite E'. lia.
      * exists r. split; [ exact Vr | ]. split; [ exact Fr | ].
        split.
        { rewrite Er, E'. replace (Fnum h - turn) with (Fnum h + (-1) * turn) by lia.
          apply Z.mod_add. lia. }
        intros fuel Hf. destruct fuel as [ | fuel ]; [ lia | ].
        cbn [Hsv.wrap_high]. rewrite geb_f360 by assumption.
        replace (turn <=? Fnum h) with true by (symmetry; apply Z.leb_le; lia).
        apply Run. lia.
Qed.

(** The second loop on a hue in (-2^27, 0): ends in [0, 360], at
    [h mod 360] when that number is representable. *)
Lemma wrap_low_run :
  forall n h, F32.valid h = true -> is_finite h = true ->
    - (Z.of_nat n * turn) <= Fnum h -> - 2 ^ 176 < Fnum h <= turn ->
    exists r, F32.valid r = true /\ is_finite r = true
      /\ 0 <= Fnum r <= turn
      /\ (0 <= Fnum h -> r = h)
      /\ ((exists z, F32.valid z = true /\ is_finite z = true /\ Fnum z = Fnum h mod turn) ->
          Fnum h < turn -> Fnum r = Fnum h mod turn)
      /\ forall fuel, (n <= fuel)%nat -> Hsv.wrap_low fuel h = Done r.
Proof.
  pose proof turn_pos as TP.
  assert (Base : forall h, F32.valid h = true -> is_finite h = true -> 0 <= Fnum h <= turn ->
    exists r, F32.valid r = true /\ is_finite r = true
      /\ 0 <= Fnum r <= turn
      /\ (0 <= Fnum h -> r = h)
      /\ ((exists z, F32.valid z = true /\ is_finite z = true /\ Fnum z = Fnum h mod turn) ->
          Fnum h < turn -> Fnum r = Fnum h mod turn)
      /\ forall fuel, Hsv.wrap_low fuel h = Done r).
  { intros h V F H. exists h. split; [ exact V | ]. split; [ exact F | ].
    split; [ exact H | ]. split; [ reflexivity | ].
    split; [ intros _ L; symmetry; apply Z.mod_small; lia | ].
    intros fuel. apply wrap_low_above; try assumption; lia. }
  induction n as [ | n IH ]; intros h V F H Hb.
  - destruct (Base h V F ltac:(lia)) as [r [A [B [C [D [E G]]]]]].
    exists r. repeat (split; [ assumption | ]). intros fuel _. apply G.
  - destruct (Z_lt_ge_dec (Fnum h) 0) as [ Neg | Pos ].
    2:{ destruct (Base h V F ltac:(lia)) as [r [A [B [C [D [E G]]]]]].
        exists r. repeat (split; [ assumption | ]). intros fuel _. apply G. }
    assert (Step : forall r fuel, (S n <= fuel)%nat ->
              (forall f', (n <= f')%nat -> Hsv.wrap_low f' (F32.add h Hsv.f360) = Done r) ->
              Hsv.wrap_low fuel h = Done r).
    { intros r fuel Hf Run. destruct fuel as [ | fuel ]; [ lia | ].
      cbn [Hsv.wrap_low]. rewrite ltb_f0 by assumption.
      replace (Fnum h <? 0) with true by (symmetry; apply Z.ltb_lt; lia).
      apply Run. lia. }
    destruct (Z_le_gt_dec (Fnum h) (- turn)) as [ Far | Near ].
    + destruct (step_up_far h V F ltac:(lia)) as [V' [F' E']].
      destruct (IH (F32.add h Hsv.f360) V' F') as [r [Vr [Fr [Rr [_ [Er Run]]]]]].
      * rewrite E'. rewrite Nat2Z.inj_succ in H. lia.
      * rewrite E'. lia.
      * exists r. split; [ exact Vr | ]. split; [ exact Fr | ]. split; [ exact Rr | ].
        split; [ intros; lia | ].
        split.
        { intros Hz _.
          assert (M : (Fnum h + turn) mod turn = Fnum h mod turn).
          { replace (Fnum h + turn) with (Fnum h + 1 * turn) by lia. apply Z.mod_add. lia. }
          destruct (Z.eq_dec (Fnum h) (- turn)) as [ Eq | Ne ].
          - assert (Z0' : Fnum (F32.add h Hsv.f360) = 0) by lia.
            destruct (IH (F32.add h Hsv.f360) V' F') as [r' [_ [_ [_ [Same [_ Run']]]]]];
              try lia.
            assert (r' = r).
            { pose proof (Run n (Nat.le_refl n)) as R1.
              pose proof (Run' n (Nat.le_refl n)) as R2. congruence. }
            subst r'. rewrite Same by lia. rewrite E'. rewrite <- M.
            rewrite Eq. replace (- turn + turn) with 0 by lia. reflexivity.
          - rewrite Er; rewrite E'; [ exact M | | lia ].
            rewrite M. exact Hz. }
        intros fuel Hf. apply Step; assumption.
    + destruct (step_up_near h V F ltac:(lia)) as [V' [F' [R' X']]].
      destruct (Base (F32.add h Hsv.f360) V' F' R') as [r [Vr [Fr [Rr [Same [_ Run]]]]]].
      exists r. split; [ exact Vr | ]. split; [ exact Fr | ]. split; [ exact Rr | ].
      split; [ intros; lia | ].
      split.
      { intros Hz _.
        assert (M : Fnum h mod turn = Fnum h + turn).
        { symmetry. apply Z.mod_unique with (-1); lia. }
        rewrite Same by lia. rewrite M. apply X'. rewrite <- M. exact Hz. }
      intros fuel Hf. apply Step; [ exact Hf | ]. intros f' _. apply Run.
Qed.

Lemma turn_grid : turn = 11796480 * 2 ^ 134.
Proof. reflexivity. Qed.

Lemma grid_representable :
  forall n, n mod 2 ^ 134 = 0 -> 0 <= n < turn ->
    exists z, F32.valid z = true /\ is_finite z = true /\ Fnum z = n.
Proof.
  intros n G H.
  destruct (Z.eq_dec n 0) as [ Z0' | NZ ].
  { exists (S754_zero false). subst n. repeat split; reflexivity. }
  assert (P : 0 < 2 ^ 134) by (apply Z.pow_pos_nonneg; lia).
  pose proof (Z.div_mod n (2 ^ 134) ltac:(lia)) as D. rewrite G, Z.add_0_r in D.
  rewrite turn_grid in H.
  assert (Q : 0 < n / 2 ^ 134 < 11796480) by nia.
  apply (representable n (n / 2 ^ 134) 134 NZ).
  - rewrite Z.abs_eq by lia. lia.
  - change (2 ^ 24) with 16777216. lia.
  - lia.
  - change (2 ^ (127 + 149)) with (2 ^ 142 * 2 ^ 134).
    assert (11796480 <= 2 ^ 142) by (change 11796480 with (11796480 * 2 ^ 0); cbn; lia).
    nia.
Qed.

Lemma mod_turn_grid :
  forall n, n mod 2 ^ 134 = 0 -> (n mod turn) mod 2 ^ 134 = 0.
Proof.
  intros n G. pose proof turn_pos as TP.
  assert (P : 0 < 2 ^ 134) by (apply Z.pow_pos_nonneg; lia).
  rewrite Z.mod_mod_divide; [ exact G | ].
  exists 11796480. apply turn_grid.
Qed.

(** Floats of magnitude at least 256 are multiples of 2^-15. *)
Lemma large_on_grid :
  forall x, F32.valid x = true -> is_finite x = true -> 2 ^ 157 <= Z.abs (Fnum x) ->
    Fnum x mod 2 ^ 134 = 0.
Proof.
  intros x V F H. destruct x as [ s | s | | s m e ]; try discriminate F.
  { cbn [Fnum] in H. assert (0 < 2 ^ 157) by (apply Z.pow_pos_nonneg; lia). lia. }
  destruct (valid_finite_inv _ _ _ V) as [_ [He [Hm _]]].
  assert (P : 0 < 2 ^ (e + 149)) by (apply Z.pow_pos_nonneg; lia).
  assert (A : Z.abs (Fnum (S754_finite s m e)) = Zpos m * 2 ^ (e + 149))
    by (destruct s; cbn [Fnum cond_Zopp]; lia).
  rewrite A in H.
  assert (E : -15 <= e).
  { destruct (Z_le_gt_dec (-15) e) as [ L | G ]; [ exact L | exfalso ].
    assert (2 ^ (e + 149) <= 2 ^ 133) by (apply Z.pow_le_mono_r; lia).
    change (2 ^ 157) with (2 ^ 24 * 2 ^ 133) in H.
    assert (0 < 2 ^ 133) by (apply Z.pow_pos_nonneg; lia). nia. }
  assert (D : Fnum (S754_finite s m e) = cond_Zopp s (Zpos m * 2 ^ (e + 15)) * 2 ^ 134).
  { cbn [Fnum]. replace (e + 149) with (e + 15 + 134) by lia.
    rewrite Z.pow_add_r by lia. destruct s; cbn [cond_Zopp]; ring. }
  rewrite D. apply Z.mod_mul. apply Z.pow_nonzero; lia.
Qed.

Lemma turns_enough :
  forall h, Z.abs (Fnum h) < (Z.of_nat (turns h)) * turn.
Proof.
  intros h. pose proof turn_pos as TP. unfold turns.
  assert (0 <= Z.abs (Fnum h) / turn) by (apply Z.div_pos; lia).
  rewrite Z2Nat.id by lia.
  pose proof (Z.div_mod (Z.abs (Fnum h)) turn ltac:(lia)) as D.
  pose proof (Z.mod_pos_bound (Z.abs (Fnum h)) turn TP). nia.
Qed.

(** Both loops, on a finite hue of magnitude below 2^27. *)
Lemma normalize_run :
  forall h, F32.valid h = true -> is_finite h = true -> Z.abs (Fnum h) < 2 ^ 176 ->
    exists r,
      (forall fuel, (turns h <= fuel)%nat -> Hsv.normalize_hue fuel h = Done r)
      /\ F32.valid r = true /\ is_finite r = true
      /\ 0 <= Fnum r <= turn
      /\ ((0 <= Fnum h
           \/ exists z, F32.valid z = true /\ is_finite z = true /\ Fnum z = Fnum h mod turn) ->
          Fnum r = Fnum h mod turn).
Proof.
  intros h V F H. pose proof turn_pos as TP. pose proof (turns_enough h) as TE.
  pose proof (Z.mod_pos_bound (Fnum h) turn TP) as MB.
  destruct (Z_lt_ge_dec (Fnum h) 0) as [ Neg | Pos ].
  - destruct (wrap_low_run (turns h) h V F) as [r [Vr [Fr [Rr [_ [Er Run]]]]]]; try lia.
    exists r. split; [ | split; [ exact Vr | split; [ exact Fr | split; [ exact Rr | ] ] ] ].
    + intros fuel Hf. unfold Hsv.normalize_hue.
      rewrite wrap_high_below by (try assumption; lia). cbn [obind]. apply Run. exact Hf.
    + intros [ C | C ]; [ lia | ]. apply Er; [ exact C | lia ].
  - destruct (wrap_high_run (turns h) h V F) as [r [Vr [Fr [Er Run]]]]; try lia.
    exists r. split; [ | split; [ exact Vr | split; [ exact Fr | split; [ lia | ] ] ] ].
    + intros fuel Hf. unfold Hsv.normalize_hue.
      rewrite Run by exact Hf. cbn [obind].
      apply wrap_low_above; try assumption. lia.
    + intros _. exact Er.
Qed.

Lemma in_range_Fnum :
  forall r, F32.valid r = true -> is_finite r = true ->
    Hsv.in_range r = (0 <=? Fnum r) && (Fnum r <? turn).
Proof.
  intros r V F. unfold Hsv.in_range, F32.leb, F32.ltb.
  rewrite leb_Fnum, ltb_Fnum by (try assumption; reflexivity).
  reflexivity.
Qed.

(** * Division by 60 and the channels *)

Lemma round_choice :
  forall q l, q <= round_nearest_even q l <= q + 1.
Proof.
  intros q l. destruct l as [ | [ | | ] ]; cbn [round_nearest_even]; try lia.
  destruct (Z.even q); lia.
Qed.

Lemma shr_fexp_m :
  forall m e l, 0 <= m -> e <= target m e ->
    shr_m (fst (shr_fexp 24 128 m e l)) = m / 2 ^ (target m e - e)
    /\ snd (shr_fexp 24 128 m e l) = target m e.
Proof.
  intros m e l Hm He. unfold shr_fexp, shr. fold (digits m). fold (target m e).
  assert (R : shr_m (shr_record_of_loc m l) = m) by (destruct l as [ | [ | | ] ]; reflexivity).
  destruct (target m e - e) as [ | p | p ] eqn:En; [ | | lia ]; cbn [fst snd].
  - rewrite R. rewrite Z.div_1_r. split; [ reflexivity | lia ].
  - rewrite iter_pos_nat, shr_iter_m by (rewrite R; exact Hm).
    rewrite R, positive_nat_Z. split; [ reflexivity | lia ].
Qed.

(** [binary_round_aux] from any location: a crude bound on the result. *)
Lemma binary_round_aux_bound :
  forall s m e l k, 0 <= m -> e <= target m e -> -149 <= k <= 127 -> e <= k ->
    m < 2 ^ (k - e) ->
    bounded_by k (binary_round_aux 24 128 s m e l)
    /\ Fnum (binary_round_aux 24 128 s m e l)
       = cond_Zopp s (Z.abs (Fnum (binary_round_aux 24 128 s m e l))).
Proof.
  intros s m e l k Hm He Hk Hek Hlt. unfold binary_round_aux.
  destruct (shr_fexp_m m e l Hm He) as [A B].
  destruct (shr_fexp 24 128 m e l) as [mrs e1]. cbn [fst snd] in A, B. subst e1.
  set (n := target m e - e) in *. set (T := target m e) in *.
  assert (Hn : 0 <= n) by (subst n; lia).
  assert (Pn : 0 < 2 ^ n) by (apply Z.pow_pos_nonneg; lia).
  pose proof (round_choice (shr_m mrs) (loc_of_shr_record mrs)) as C.
  set (M1 := round_nearest_even (shr_m mrs) (loc_of_shr_record mrs)) in *.
  rewrite A in C.
  assert (TL : -149 <= T) by (apply target_lower).
  assert (Tk : T <= k).
  { subst T. rewrite target_eq. destruct (Z.eq_dec m 0) as [ Z0' | NZ ].
    - subst m. change (digits 0) with 0. lia.
    - assert (digits m <= k - e) by (apply digits_le; lia). lia. }
  assert (Q0 : 0 <= m / 2 ^ n) by (apply Z.div_pos; lia).
  assert (Q1 : m / 2 ^ n < 2 ^ 24).
  { destruct (Z.eq_dec m 0) as [ Z0' | NZ ].
    - subst m. rewrite Z.div_0_l by lia. apply Z.pow_pos_nonneg; lia.
    - pose proof (digits_bounds m ltac:(lia)) as D.
      pose proof (digits_positive m ltac:(lia)) as DP.
      apply Z.div_lt_upper_bound; [ exact Pn | ].
      rewrite <- Z.pow_add_r by lia.
      assert (2 ^ digits m <= 2 ^ (n + 24)).
      { apply Z.pow_le_mono_r; [ lia | ]. subst n T. rewrite target_eq. lia. }
      lia. }
  assert (Q2 : -149 < T -> 2 ^ 23 <= m / 2 ^ n).
  { intros HT. destruct (Z.eq_dec m 0) as [ Z0' | NZ ].
    - exfalso. subst T m. rewrite target_eq in *. change (digits 0) with 0 in *. lia.
    - pose proof (digits_bounds m ltac:(lia)) as D.
      pose proof (digits_positive m ltac:(lia)) as DP.
      assert (En : n = digits m - 24) by (subst n T; rewrite target_eq in *; lia).
      apply Z.div_le_lower_bound; [ exact Pn | ].
      rewrite <- Z.pow_add_r by lia. replace (n + 23) with (digits m - 1) by lia. lia. }
  assert (Q3 : m / 2 ^ n < 2 ^ (k - T)).
  { apply Z.div_lt_upper_bound; [ exact Pn | ].
    rewrite <- Z.pow_add_r by lia. replace (n + (k - T)) with (k - e) by (subst n T; lia).
    exact Hlt. }
  assert (PS : (let '(r, e2) := shr_fexp 24 128 M1 T loc_Exact in
                match shr_m r with
                | Z0 => S754_zero s
                | Zpos p => if e2 <=? 128 - 24 then S754_finite s p e2 else S754_infinity s
                | Zneg _ => S754_nan
                end) = pack s M1 T).
  { apply pack_shr; lia. }
  rewrite PS.
  assert (Hv : M1 * 2 ^ (T + 149) <= 2 ^ (k + 149)).
  { replace (k + 149) with ((k - T) + (T + 149)) by lia.
    rewrite (Z.pow_add_r 2 (k - T) (T + 149)) by lia.
    apply Z.mul_le_mono_nonneg_r; [ apply Z.pow_nonneg; lia | lia ]. }
  assert (R1 : 0 <= M1 <= 2 ^ 24) by lia.
  assert (R2 : -149 < T -> 2 ^ 23 <= M1) by (intros HT; specialize (Q2 HT); lia).
  destruct (pack_value s M1 T k R1 TL R2 Hk Hv) as [V [F N]].
  assert (NN : 0 <= M1 * 2 ^ (T + 149))
    by (apply Z.mul_nonneg_nonneg; [ lia | apply Z.pow_nonneg; lia ]).
  assert (AbsN : Z.abs (Fnum (pack s M1 T)) = M1 * 2 ^ (T + 149))
    by (rewrite N; destruct s; cbn [cond_Zopp]; lia).
  split.
  - split; [ exact V | ]. split; [ exact F | ].
    rewrite AbsN. replace (k + 149) with ((k - T) + (T + 149)) by lia.
    rewrite (Z.pow_add_r 2 (k - T) (T + 149)) by lia.
    apply Z.mul_le_mono_nonneg_r; [ apply Z.pow_nonneg; lia | lia ].
  - rewrite AbsN. exact N.
Qed.

Lemma div_eucl_fst : forall a b, fst (Z.div_eucl a b) = a / b.
Proof. reflexivity. Qed.

(** The quotient of a hue in [0, 360] by 60: finite, at most 8, and
    not negative. *)
Lemma div60_bound :
  forall h, F32.valid h = true -> is_finite h = true -> 0 <= Fnum h <= turn ->
    bounded_by 3 (F32.div h Hsv.f60) /\ 0 <= Fnum (F32.div h Hsv.f60).
Proof.
  intros h V F H. change (F32.div h Hsv.f60) with (SFdiv 24 128 h (S754_finite false 15728640 (-18))).
  destruct h as [ s | s | | s m e ]; try discriminate F.
  { cbn [SFdiv]. split; [ | cbn; lia ].
    split; [ reflexivity | ]. split; [ reflexivity | ]. cbn [Fnum Z.abs].
    apply Z.pow_nonneg; lia. }
  destruct (valid_finite_inv _ _ _ V) as [_ [He [Hm Hn]]].
  destruct (valid_digits _ _ _ V) as [Hd Hc].
  pose proof (digits_positive (Zpos m) (Pos2Z.is_pos m)) as Dp.
  pose proof (digits_bounds (Zpos m) (Pos2Z.is_pos m)) as Db.
  assert (P : 0 < 2 ^ (e + 149)) by (apply Z.pow_pos_nonneg; lia).
  destruct s; cbn [Fnum cond_Zopp] in H; [ nia | ].
  cbn [SFdiv xorb]. unfold SFdiv_core_binary.
  change (Zdigits2 (Zpos m)) with (digits (Zpos m)).
  change (Zdigits2 15728640) with 24.
  set (e' := Z.min (fexp 24 128 (digits (Zpos m) + e - (24 + -18))) (e - -18)).
  assert (Ee' : e' = Z.max (digits (Zpos m) + e - 30) (-149)).
  { subst e'. unfold fexp, emin. lia. }
  assert (Es : exists p, e - -18 - e' = Zpos p).
  { destruct (e - -18 - e') as [ | p | p ] eqn:E; try lia. exists p. reflexivity. }
  destruct Es as [p Es]. rewrite Es. rewrite <- Es.
  rewrite Z.shiftl_mul_pow2 by lia.
  set (sft := e - -18 - e') in *.
  destruct (Z.div_eucl (Zpos m * 2 ^ sft) 15728640) as [q r] eqn:Eq.
  assert (Q : q = Zpos m * 2 ^ sft / 15728640) by (rewrite <- div_eucl_fst, Eq; reflexivity).
  assert (Ps : 0 < 2 ^ sft) by (apply Z.pow_pos_nonneg; lia).
  assert (Q0 : 0 <= q) by (rewrite Q; apply Z.div_pos; lia).
  assert (Ex : e <= -15).
  { destruct (Z_le_gt_dec e (-15)) as [ L | G ]; [ exact L | exfalso ].
    assert (N : 2 ^ 23 <= Zpos m) by (apply Hn; lia).
    assert (2 ^ 135 <= 2 ^ (e + 149)) by (apply Z.pow_le_mono_r; lia).
    unfold turn in H. change (2 ^ 149) with (2 ^ 14 * 2 ^ 135) in H.
    assert (0 < 2 ^ 135) by (apply Z.pow_pos_nonneg; lia).
    change (2 ^ 23) with 8388608 in N. change (2 ^ 14) with 16384 in H. nia. }
  assert (Q3 : q < 2 ^ (3 - e')).
  { rewrite Q. apply Z.div_lt_upper_bound; [ lia | ].
    assert (E1 : 2 ^ sft * 2 ^ 149 = 2 ^ (e + 149) * 2 ^ (18 - e')).
    { rewrite <- !Z.pow_add_r by lia. f_equal. subst sft. lia. }
    assert (E2 : 2 ^ (3 - e') = 8 * 2 ^ (- e')).
    { replace (3 - e') with (3 + - e') by lia. rewrite Z.pow_add_r by lia. reflexivity. }
    assert (E3 : 2 ^ (18 - e') = 262144 * 2 ^ (- e')).
    { replace (18 - e') with (18 + - e') by lia. rewrite Z.pow_add_r by lia. reflexivity. }
    assert (P1 : 0 < 2 ^ (- e')) by (apply Z.pow_pos_nonneg; lia).
    assert (P2 : 0 < 2 ^ 149) by (apply Z.pow_pos_nonneg; lia).
    unfold turn in H. rewrite E2. rewrite E3 in E1.
    assert (Zpos m * 2 ^ sft * 2 ^ 149 <= 360 * 262144 * 2 ^ (- e') * 2 ^ 149) by nia.
    nia. }
  assert (Tq : e' <= target q e').
  { rewrite target_eq. destruct (Z.eq_dec e' (-149)) as [ E | E ]; [ lia | ].
    assert (Es' : sft = 48 - digits (Zpos m)) by (subst sft; lia).
    assert (2 ^ 23 <= q).
    { rewrite Q. apply Z.div_le_lower_bound; [ lia | ].
      assert (2 ^ 47 <= Zpos m * 2 ^ sft).
      { replace 47 with ((digits (Zpos m) - 1) + sft) by lia.
        rewrite Z.pow_add_r by lia. nia. }
      change (2 ^ 47) with (15728640 * 2 ^ 23 + 2 ^ 47 - 15728640 * 2 ^ 23) in H0.
      assert (15728640 * 2 ^ 23 <= 2 ^ 47) by (cbn; lia). lia. }
    assert (23 < digits q) by (apply digits_ge; [ cbn in *; lia | assumption ]).
    lia. }
  destruct (binary_round_aux_bound false q e' (new_location 15728640 r) 3 Q0 Tq) as [B S];
    try lia.
  split; [ exact B | ].
  rewrite S. cbn [cond_Zopp]. apply Z.abs_nonneg.
Qed.

Lemma bounded_by_mono :
  forall a b x, a <= b -> -149 <= a -> bounded_by a x -> bounded_by b x.
Proof.
  intros a b x Hab Ha [V [F B]]. split; [ exact V | ]. split; [ exact F | ].
  assert (2 ^ (a + 149) <= 2 ^ (b + 149)) by (apply Z.pow_le_mono_r; lia). lia.
Qed.

Lemma pow2_double : forall a, 0 <= a -> 2 ^ a + 2 ^ a = 2 ^ (a + 1).
Proof. intros a Ha. rewrite Z.pow_add_r by lia. change (2 ^ 1) with 2. lia. Qed.

Lemma sub_bounded :
  forall a x y, -149 <= a -> a < 127 ->
    bounded_by a x -> bounded_by a y -> bounded_by (a + 1) (F32.sub x y).
Proof.
  intros a x y Ha Ha' [Vx [Fx Bx]] [Vy [Fy By]].
  change (F32.sub x y) with (SFsub 24 128 x y).
  pose proof (pow2_double (a + 149) ltac:(lia)) as D.
  replace (a + 149 + 1) with (a + 1 + 149) in D by lia.
  destruct (sub_bound x y (a + 1) Vx Vy Fx Fy) as [A [B [C _]]]; try lia.
  split; [ exact A | ]. split; [ exact B | exact C ].
Qed.

Lemma mul_bounded :
  forall a b x y, -149 <= a -> -149 <= b -> -149 <= a + b <= 127 ->
    bounded_by a x -> bounded_by b y -> bounded_by (a + b) (F32.mul x y).
Proof.
  intros a b x y Ha Hb Hab [Vx [Fx Bx]] [Vy [Fy By]].
  change (F32.mul x y) with (SFmul 24 128 x y).
  assert (Z0' : forall s, bounded_by (a + b) (S754_zero s)).
  { intros s. split; [ reflexivity | ]. split; [ reflexivity | ].
    cbn [Fnum Z.abs]. apply Z.pow_nonneg; lia. }
  destruct x as [ sx | sx | | sx mx ex ]; try discriminate Fx;
    destruct y as [ sy | sy | | sy my ey ]; try discriminate Fy;
    try (cbn [SFmul]; apply Z0').
  rewrite mul_spec by assumption.
  destruct (valid_finite_inv _ _ _ Vx) as [_ [Hex _]].
  destruct (valid_finite_inv _ _ _ Vy) as [_ [Hey _]].
  assert (Ax : Z.abs (Fnum (S754_finite sx mx ex)) = Zpos mx * 2 ^ (ex + 149))
    by (assert (0 < 2 ^ (ex + 149)) by (apply Z.pow_pos_nonneg; lia);
        destruct sx; cbn [Fnum cond_Zopp]; lia).
  assert (Ay : Z.abs (Fnum (S754_finite sy my ey)) = Zpos my * 2 ^ (ey + 149))
    by (assert (0 < 2 ^ (ey + 149)) by (apply Z.pow_pos_nonneg; lia);
        destruct sy; cbn [Fnum cond_Zopp]; lia).
  rewrite Ax in Bx. rewrite Ay in By.
  assert (Px : 0 < 2 ^ (ex + 149)) by (apply Z.pow_pos_nonneg; lia).
  assert (Py : 0 < 2 ^ (ey + 149)) by (apply Z.pow_pos_nonneg; lia).
  assert (Q : ple (Zpos mx * Zpos my) (ex + ey) 1 (a + b)).
  { apply (ple_scaled _ _ _ _ (-149 + -149)); [ lia | lia | ].
    replace (ex + ey - (-149 + -149)) with ((ex + 149) + (ey + 149)) by lia.
    replace (a + b - (-149 + -149)) with ((a + 149) + (b + 149)) by lia.
    rewrite (Z.pow_add_r 2 (ex + 149) (ey + 149)) by lia.
    rewrite (Z.pow_add_r 2 (a + 149) (b + 149)) by lia.
    assert (M : Zpos mx * 2 ^ (ex + 149) * (Zpos my * 2 ^ (ey + 149))
                <= 2 ^ (a + 149) * 2 ^ (b + 149))
      by (apply Z.mul_le_mono_nonneg; lia).
    replace (Zpos mx * Zpos my * (2 ^ (ex + 149) * 2 ^ (ey + 149)))
      with (Zpos mx * 2 ^ (ex + 149) * (Zpos my * 2 ^ (ey + 149))) by ring.
    lia. }
  assert (Pm : 0 < Zpos mx * Zpos my) by lia.
  destruct (rnd_value (xorb sx sy) _ _ (a + b) Pm Hab Q) as [A [B [C D]]].
  split; [ exact A | ]. split; [ exact B | ].
  rewrite C.
  assert (0 <= rne (Zpos mx * Zpos my) (target (Zpos mx * Zpos my) (ex + ey) - (ex + ey))
               * 2 ^ (target (Zpos mx * Zpos my) (ex + ey) + 149)).
  { apply Z.mul_nonneg_nonneg; [ apply rne_nonneg; lia | apply Z.pow_nonneg ].
    pose proof (target_lower (Zpos mx * Zpos my) (ex + ey)). lia. }
  destruct (xorb sx sy); cbn [cond_Zopp]; lia.
Qed.

Lemma of_Z_bounded :
  forall z k, 0 <= k <= 127 -> Z.abs z <= 2 ^ k -> bounded_by k (F32.of_Z z).
Proof.
  intros z k Hk Hz. change (F32.of_Z z) with (binary_normalize 24 128 z 0 false).
  rewrite binary_normalize_spec.
  destruct (normz_bound z 0 k) as [A [B [C _]]]; try lia.
  { rewrite (Z.pow_add_r 2 k 149) by lia. change (0 + 149) with 149.
    apply Z.mul_le_mono_nonneg_r; [ apply Z.pow_nonneg; lia | exact Hz ]. }
  split; [ exact A | ]. split; [ exact B | exact C ].
Qed.

Lemma to_int_bounded :
  forall k r, 0 <= k <= 30 -> bounded_by k r ->
    exists z, F32.to_int r = Done z /\ Z.abs z <= 2 ^ k /\ (0 <= Fnum r -> 0 <= z).
Proof.
  intros k r Hk [V [F B]].
  assert (P : 0 < 2 ^ 149) by (apply Z.pow_pos_nonneg; lia).
  assert (K : 2 ^ k <= 2 ^ 30) by (apply Z.pow_le_mono_r; lia).
  assert (I : forall z, Z.abs z <= 2 ^ k ->
            (F32.int_min <=? z) && (z <=? F32.int_max) = true).
  { intros z Hz. unfold F32.int_min, F32.int_max.
    change (2 ^ 31) with (2 * 2 ^ 30).
    apply andb_true_iff. split; apply Z.leb_le; lia. }
  destruct r as [ s | s | | s m e ]; try discriminate F.
  - exists 0. unfold F32.to_int. cbn [F32.trunc]. rewrite I.
    + split; [ reflexivity | ]. split; [ | lia ]. cbn. apply Z.pow_nonneg; lia.
    + cbn. apply Z.pow_nonneg; lia.
  - destruct (valid_finite_inv _ _ _ V) as [_ [He _]].
    assert (Pe : 0 < 2 ^ (e + 149)) by (apply Z.pow_pos_nonneg; lia).
    assert (A : Z.abs (Fnum (S754_finite s m e)) = Zpos m * 2 ^ (e + 149))
      by (destruct s; cbn [Fnum cond_Zopp]; lia).
    rewrite A in B.
    set (q := Zpos m * 2 ^ (e + 149) / 2 ^ 149).
    assert (Q : 0 <= q <= 2 ^ k).
    { subst q. split; [ apply Z.div_pos; lia | ].
      apply Z.div_le_upper_bound; [ lia | ].
      rewrite (Z.mul_comm (2 ^ 149)), <- Z.pow_add_r by lia. exact B. }
    exists (cond_Zopp s q). unfold F32.to_int. cbn [F32.trunc].
    rewrite shiftl_scaled by lia. fold q.
    assert (Aq : Z.abs (cond_Zopp s q) <= 2 ^ k) by (destruct s; cbn [cond_Zopp]; lia).
    rewrite I by exact Aq.
    split; [ reflexivity | ]. split; [ exact Aq | ].
    intros N. destruct s; cbn [Fnum cond_Zopp] in N |- *; [ nia | lia ].
Qed.

(** Multiplication by one is exact. *)
Lemma mul_one :
  forall v, F32.valid v = true -> F32.mul v Hsv.f1 = v.
Proof.
  intros v V. change (F32.mul v Hsv.f1) with (SFmul 24 128 v (S754_finite false 8388608 (-23))).
  destruct v as [ s | s | | s m e ]; cbn [SFmul];
    try (destruct s; reflexivity); try reflexivity.
  change (binary_round_aux 24 128 (xorb s false) (Zpos (m * 8388608)) (e + -23) loc_Exact)
    with (SFmul 24 128 (S754_finite s m e) (S754_finite false 8388608 (-23))).
  rewrite mul_spec by (try assumption; reflexivity).
  destruct (valid_finite_inv _ _ _ V) as [_ [He _]].
  replace (xorb s false) with s by (destruct s; reflexivity).
  apply rnd_exact; try assumption; try lia.
  - apply (ple_scaled _ _ _ _ (e + -23)); [ lia | lia | ].
    replace (e + -23 - (e + -23)) with 0 by lia.
    replace (e - (e + -23)) with 23 by lia. cbn. lia.
  - apply (ple_scaled _ _ _ _ (e + -23)); [ lia | lia | ].
    replace (e + -23 - (e + -23)) with 0 by lia.
    replace (e - (e + -23)) with 23 by lia. cbn. lia.
Qed.

Lemma select_all :
  forall (P : spec_float -> Prop) i v p q t, P v -> P p -> P q -> P t ->
    P (fst (fst (Hsv.select i v p q t)))
    /\ P (snd (fst (Hsv.select i v p q t)))
    /\ P (snd (Hsv.select i v p q t)).
Proof.
  intros P i v p q t Hv Hp Hq Ht. unfold Hsv.select.
  destruct i as [ | n | n ]; cbn [fst snd]; try (repeat split; assumption).
  do 3 (try (destruct n as [ n | n | ]; cbn [fst snd]; try (repeat split; assumption))).
Qed.

Lemma select_has :
  forall i v p q t,
    (fst (fst (Hsv.select i v p q t)) = p \/ snd (fst (Hsv.select i v p q t)) = p
     \/ snd (Hsv.select i v p q t) = p)
    /\ (fst (fst (Hsv.select i v p q t)) = v \/ snd (fst (Hsv.select i v p q t)) = v
        \/ snd (Hsv.select i v p q t) = v).
Proof.
  intros i v p q t. unfold Hsv.select.
  destruct i as [ | n | n ]; cbn [fst snd]; try solve [ split; auto ].
  do 3 (try (destruct n as [ n | n | ]; cbn [fst snd]; try solve [ split; auto ])).
Qed.

Lemma sector_rgb_channels :
  forall h s v i,
    F32.to_int (F32.div h Hsv.f60) = Done i ->
    let f := F32.sub (F32.div h Hsv.f60) (F32.of_Z i) in
    let p := F32.mul v (F32.sub Hsv.f1 s) in
    let q := F32.mul v (F32.sub Hsv.f1 (F32.mul s f)) in
    let t := F32.mul v (F32.sub Hsv.f1 (F32.mul s (F32.sub Hsv.f1 f))) in
    Hsv.sector_rgb h s v =
      (r <- channel (fst (fst (Hsv.select i v p q t))) ;;
       g <- channel (snd (fst (Hsv.select i v p q t))) ;;
       b <- channel (snd (Hsv.select i v p q t)) ;;
       Done (r, g, b)).
Proof.
  intros h s v i Hi f p q t. unfold Hsv.sector_rgb. rewrite Hi. cbn [obind].
  fold f. fold p. fold q. fold t.
  destruct (Hsv.select i v p q t) as [[r1 g1] b1]. reflexivity.
Qed.

Lemma sector_index :
  forall h, F32.valid h = true -> is_finite h = true -> 0 <= Fnum h <= turn ->
    exists i, F32.to_int (F32.div h Hsv.f60) = Done i /\ 0 <= i <= 8
      /\ bounded_by 4 (F32.sub (F32.div h Hsv.f60) (F32.of_Z i)).
Proof.
  intros h V F H. destruct (div60_bound h V F H) as [B N].
  destruct (to_int_bounded 3 _ ltac:(lia) B) as [i [Ei [Ai Pi]]].
  exists i. split; [ exact Ei | ].
  change (2 ^ 3) with 8 in Ai. split; [ specialize (Pi N); lia | ].
  apply (sub_bounded 3); try lia; [ exact B | ].
  apply of_Z_bounded; [ lia | exact Ai ].
Qed.

Lemma f1_bounded : bounded_by 0 Hsv.f1.
Proof. split; [ reflexivity | ]. split; [ reflexivity | ]. cbn. lia. Qed.

Lemma f255_bounded : bounded_by 8 Hsv.f255.
Proof.
  split; [ reflexivity | ]. split; [ reflexivity | ].
  change (Z.abs (Fnum Hsv.f255)) with (255 * 2 ^ 149).
  change (2 ^ (8 + 149)) with (256 * 2 ^ 149).
  assert (0 < 2 ^ 149) by (apply Z.pow_pos_nonneg; lia). lia.
Qed.

Lemma channel_defined :
  forall x, bounded_by 22 x -> exists c, channel x = Done c.
Proof.
  intros x B. unfold channel.
  pose proof (mul_bounded 22 8 x Hsv.f255 ltac:(lia) ltac:(lia) ltac:(lia) B f255_bounded) as M.
  destruct (to_int_bounded 30 _ ltac:(lia) M) as [c [E _]]. exists c. exact E.
Qed.

(** On a normalized hue, with saturation and value of magnitude at most
    one, the conversion is defined. *)
Lemma sector_rgb_total :
  forall h s v, F32.valid h = true -> is_finite h = true -> 0 <= Fnum h <= turn ->
    bounded_by 0 s -> bounded_by 0 v ->
    exists i r g b,
      F32.to_int (F32.div h Hsv.f60) = Done i /\ 0 <= i <= 8
      /\ Hsv.sector_rgb h s v = Done (r, g, b)
      /\ (let f := F32.sub (F32.div h Hsv.f60) (F32.of_Z i) in
          let p := F32.mul v (F32.sub Hsv.f1 s) in
          let q := F32.mul v (F32.sub Hsv.f1 (F32.mul s f)) in
          let t := F32.mul v (F32.sub Hsv.f1 (F32.mul s (F32.sub Hsv.f1 f))) in
          channel (fst (fst (Hsv.select i v p q t))) = Done r
          /\ channel (snd (fst (Hsv.select i v p q t))) = Done g
          /\ channel (snd (Hsv.select i v p q t)) = Done b).
Proof.
  intros h s v V F H Bs Bv.
  destruct (sector_index h V F H) as [i [Ei [Ri Bf]]].
  set (f := F32.sub (F32.div h Hsv.f60) (F32.of_Z i)) in *.
  set (p := F32.mul v (F32.sub Hsv.f1 s)).
  set (q := F32.mul v (F32.sub Hsv.f1 (F32.mul s f))).
  set (t := F32.mul v (F32.sub Hsv.f1 (F32.mul s (F32.sub Hsv.f1 f)))).
  assert (M1 : forall a x, -149 <= a -> a <= 126 -> 0 <= a ->
             bounded_by a x -> bounded_by (a + 1) (F32.sub Hsv.f1 x)).
  { intros a x A1 A2 A3 Bx. apply sub_bounded; try lia; [ | exact Bx ].
    apply (bounded_by_mono 0 a); [ lia | lia | exact f1_bounded ]. }
  assert (Bp : bounded_by 22 p).
  { apply (bounded_by_mono 1 22); [ lia | lia | ].
    apply (mul_bounded 0 1); try lia; [ exact Bv | ].
    apply (M1 0); try lia. exact Bs. }
  assert (Bq : bounded_by 22 q).
  { apply (bounded_by_mono 5 22); [ lia | lia | ].
    apply (mul_bounded 0 5); try lia; [ exact Bv | ].
    apply (M1 4); try lia.
    apply (mul_bounded 0 4); try lia; assumption. }
  assert (Bt : bounded_by 22 t).
  { apply (bounded_by_mono 6 22); [ lia | lia | ].
    apply (mul_bounded 0 6); try lia; [ exact Bv | ].
    apply (M1 5); try lia.
    apply (mul_bounded 0 5); try lia; [ exact Bs | ].
    apply (M1 4); try lia. exact Bf. }
  assert (Bv' : bounded_by 22 v) by (apply (bounded_by_mono 0 22); [ lia | lia | exact Bv ]).
  destruct (select_all (fun x => exists c, channel x = Done c) i v p q t)
    as [[r Er] [[g Eg] [b Eb]]]; try (apply channel_defined; assumption).
  exists i, r, g, b. split; [ exact Ei | ]. split; [ exact Ri | ].
  split.
  - rewrite (sector_rgb_channels h s v i Ei). fold f p q t.
    rewrite Er, Eg, Eb. reflexivity.
  - cbv zeta. fold f p q t. split; [ exact Er | ]. split; [ exact Eg | exact Eb ].
Qed.

(** * Properties *)

(** ** The colour of the first frame of [submission/hello.c] *)

(** C1: with hue 0, saturation 1 and value 0.3 (the initial locals of
    [main]) the conversion returns exactly r = 76, g = 0, b = 0: the hue
    falls in sector 0 with fraction 0, and each channel is the sector-0
    intermediate times 255, truncated toward zero (0.3f * 255 = 76.5). *)
Theorem hsv_first_frame :
  forall fuel,
    Hsv.hsv_to_rgb fuel (Submission.h Submission.init) Submission.s Submission.v
      = Done (76, 0, 0)
    /\ Hsv.sector (Submission.h Submission.init) = Done 0
    /\ F32.to_int (F32.mul Submission.v Hsv.f255) = Done 76
    /\ F32.trunc (F32.mul Submission.v Hsv.f255) = Some 76.
Proof.
  intros fuel. split; [ | split; [ | split ] ].
  - destruct fuel; vm_compute; reflexivity.
  - vm_compute; reflexivity.
  - vm_compute; reflexivity.
  - vm_compute; reflexivity.
Qed.

(** ** The bouncing ball on the pixel grid *)

Lemma ushort_small : forall z, 0 <= z < 65536 -> ushort z = z.
Proof. intros z Hz. unfold ushort. apply Z.mod_small. exact Hz. Qed.

Lemma ushort_undo : forall p d, 0 <= p < 65536 -> ushort (ushort (p + d) + - d) = p.
Proof.
  intros p d Hp. unfold ushort.
  rewrite Zplus_mod_idemp_l.
  replace (p + d + - d) with p by lia.
  apply Z.mod_small. exact Hp.
Qed.

(** The x and y parts of [motion] are [step_axis] on each axis. *)
Lemma motion_axes :
  forall rad st,
    (Submission.x (Submission.motion rad st), Submission.dx (Submission.motion rad st))
    = Submission.step_axis 640 rad (Submission.x st) (Submission.dx st)
    /\ (Submission.y (Submission.motion rad st), Submission.dy (Submission.motion rad st))
       = Submission.step_axis 480 rad (Submission.y st) (Submission.dy st).
Proof.
  intros rad st. unfold Submission.motion, Submission.step_axis.
  destruct (Submission.reflect 640 rad _ _) as [x2 dx2].
  destruct (Submission.reflect 480 rad _ _) as [y2 dy2].
  split; reflexivity.
Qed.

(** A bounce on one axis, from a position strictly inside. *)
Lemma step_axis_bounce :
  forall bound rad p d,
    0 <= p < 65536 ->
    rad < p < bound - rad ->
    (bound - rad <= ushort (p + d) \/ ushort (p + d) <= rad) ->
    Submission.step_axis bound rad p d = (p, - d)
    /\ p = ushort (ushort (p + d) + - d).
Proof.
  intros bound rad p d Hp Hin Hc.
  unfold Submission.step_axis, Submission.reflect.
  rewrite ushort_undo by exact Hp.
  destruct ((bound - rad <=? ushort (p + d)) || (ushort (p + d) <=? rad)) eqn:T.
  - split; reflexivity.
  - apply orb_false_iff in T. destruct T as [T1 T2].
    apply Z.leb_gt in T1. apply Z.leb_gt in T2. lia.
Qed.

Lemma motion_keeps_inside :
  forall st,
    Submission.inside st -> Submission.unit_speed st ->
    Submission.inside (Submission.motion Submission.radius st)
    /\ Submission.unit_speed (Submission.motion Submission.radius st)
    /\ ushort (Submission.x st + Submission.dx st) = Submission.x st + Submission.dx st
    /\ ushort (Submission.y st + Submission.dy st) = Submission.y st + Submission.dy st.
Proof.
  intros [h0 x0 y0 dx0 dy0].
  unfold Submission.inside, Submission.unit_speed, Submission.motion,
    Submission.reflect, Submission.radius.
  cbn [Submission.x Submission.y Submission.dx Submission.dy Submission.h].
  intros [Hx Hy] [Hdx Hdy].
  assert (Ex : ushort (x0 + dx0) = x0 + dx0) by (apply ushort_small; lia).
  assert (Ey : ushort (y0 + dy0) = y0 + dy0) by (apply ushort_small; lia).
  rewrite Ex, Ey.
  destruct ((640 - 16 <=? x0 + dx0) || (x0 + dx0 <=? 16)) eqn:Tx;
    destruct ((480 - 16 <=? y0 + dy0) || (y0 + dy0 <=? 16)) eqn:Ty;
    cbn [Submission.x Submission.y Submission.dx Submission.dy];
    try (apply orb_false_iff in Tx; destruct Tx as [Tx1 Tx2];
         apply Z.leb_gt in Tx1; apply Z.leb_gt in Tx2);
    try (apply orb_false_iff in Ty; destruct Ty as [Ty1 Ty2];
         apply Z.leb_gt in Ty1; apply Z.leb_gt in Ty2);
    try (replace (x0 + dx0 + - dx0) with x0 by lia; rewrite (ushort_small x0) by lia);
    try (replace (y0 + dy0 + - dy0) with y0 by lia; rewrite (ushort_small y0) by lia);
    repeat split; lia.
Qed.

Lemma ball_invariant :
  forall n, Submission.inside (Submission.ball_after n)
            /\ Submission.unit_speed (Submission.ball_after n).
Proof.
  induction n as [ | n IH ].
  - unfold Submission.inside, Submission.unit_speed, Submission.radius. cbn. lia.
  - destruct IH as [IH1 IH2].
    unfold Submission.ball_after in *. cbn [Nat.iter].
    destruct (motion_keeps_inside _ IH1 IH2) as [A [B _]]. split; assumption.
Qed.

Lemma scale_out_inside :
  forall p, 0 <= p < 1024 -> Submission.scale_out p = 64 * p.
Proof.
  intros p Hp. unfold Submission.scale_out.
  rewrite (ushort_small p) by lia.
  rewrite Z.shiftl_mul_pow2 by lia.
  change (2 ^ 6) with 64. rewrite ushort_small; lia.
Qed.

(** C2: when, after the velocity has been added, an axis position is
    within the radius of either bound, the velocity of that axis is
    negated and added once more in the same tick, so the tick ends away
    from the position of contact, strictly inside the bounds.  This holds
    on either axis for any velocity when the ball was strictly inside
    before the tick, and so at every tick of the program, whose ball is
    always strictly inside.  In the run of the example (x = 20, radius
    16, dx = -1) the ball touches 16 on its fourth tick and ends that tick
    at 17 with dx = 1. *)
Theorem bounce_reenters :
  forall bound rad p d,
    0 <= p < 65536 ->
    rad < p < bound - rad ->
    (bound - rad <= ushort (p + d) \/ ushort (p + d) <= rad) ->
    Submission.step_axis bound rad p d = (ushort (ushort (p + d) + - d), - d)
    /\ rad < fst (Submission.step_axis bound rad p d) < bound - rad
    /\ fst (Submission.step_axis bound rad p d) <> ushort (p + d)
    /\ (forall n,
          let st := Submission.ball_after n in
          let st' := Submission.ball_after (S n) in
          ((640 - Submission.radius <= Submission.x st + Submission.dx st
            \/ Submission.x st + Submission.dx st <= Submission.radius) ->
           Submission.dx st' = - Submission.dx st
           /\ Submission.x st' = Submission.x st + Submission.dx st + Submission.dx st'
           /\ Submission.radius < Submission.x st' < 640 - Submission.radius)
          /\ ((480 - Submission.radius <= Submission.y st + Submission.dy st
               \/ Submission.y st + Submission.dy st <= Submission.radius) ->
              Submission.dy st' = - Submission.dy st
              /\ Submission.y st' = Submission.y st + Submission.dy st + Submission.dy st'
              /\ Submission.radius < Submission.y st' < 480 - Submission.radius))
    /\ Submission.step_axis 640 16 17 (-1) = (17, 1)
    /\ (let st := Nat.iter 4 (Submission.motion 16)
                   {| Submission.h := Hsv.f0; Submission.x := 20; Submission.y := 20;
                      Submission.dx := -1; Submission.dy := 1 |} in
        Submission.x st = 17 /\ Submission.dx st = 1).
Proof.
  intros bound rad p d Hp Hin Hc.
  destruct (step_axis_bounce bound rad p d Hp Hin Hc) as [E U].
  rewrite E. cbn [fst]. rewrite <- U.
  split; [ reflexivity | ].
  split; [ lia | ].
  split; [ lia | ].
  split.
  { intros n. cbv zeta.
    set (st := Submission.ball_after n).
    assert (Est : Submission.ball_after (S n) = Submission.motion 16 st) by reflexivity.
    rewrite Est. set (st' := Submission.motion 16 st).
    destruct (ball_invariant n) as [[Ix Iy] [Sx Sy]]. fold st in Ix, Iy, Sx, Sy.
    unfold Submission.radius in *.
    assert (Wx : ushort (Submission.x st + Submission.dx st)
                 = Submission.x st + Submission.dx st) by (apply ushort_small; lia).
    assert (Wy : ushort (Submission.y st + Submission.dy st)
                 = Submission.y st + Submission.dy st) by (apply ushort_small; lia).
    destruct (motion_axes 16 st) as [Mx My]. fold st' in Mx, My.
    split; intros C.
    - destruct (step_axis_bounce 640 16 (Submission.x st) (Submission.dx st)) as [B _];
        [ lia | lia | rewrite Wx; exact C | ].
      rewrite B in Mx. injection Mx as Mx1 Mx2. rewrite Mx1, Mx2. lia.
    - destruct (step_axis_bounce 480 16 (Submission.y st) (Submission.dy st)) as [B _];
        [ lia | lia | rewrite Wy; exact C | ].
      rewrite B in My. injection My as My1 My2. rewrite My1, My2. lia. }
  split; [ vm_compute; reflexivity | ].
  split; vm_compute; reflexivity.
Qed.

Lemma bounce_reenters_witness :
  Submission.step_axis 640 16 17 (-1) = (ushort (ushort (17 + -1) + - -1), - -1)
  /\ 16 < fst (Submission.step_axis 640 16 17 (-1)) < 640 - 16.
Proof.
  assert (H1 : 0 <= 17 < 65536) by lia.
  assert (H2 : 16 < 17 < 640 - 16) by lia.
  assert (H3 : 640 - 16 <= ushort (17 + -1) \/ ushort (17 + -1) <= 16)
    by (right; vm_compute; discriminate).
  destruct (bounce_reenters 640 16 17 (-1) H1 H2 H3) as [A [B _]].
  split; [ exact A | exact B ].
Defined.

(** *** The loop of [main] never stops on an undefined conversion *)

Lemma in_range_inv :
  forall h, F32.valid h = true -> Hsv.in_range h = true ->
    is_finite h = true /\ 0 <= Fnum h < turn.
Proof.
  intros h V R. unfold Hsv.in_range in R. apply andb_true_iff in R. destruct R as [R0 R1].
  assert (F : is_finite h = true).
  { destruct h as [ s | s | | s m e ]; try reflexivity.
    - destruct s; [ discriminate R0 | discriminate R1 ].
    - discriminate R0. }
  split; [ exact F | ].
  unfold F32.leb, F32.ltb in *.
  rewrite leb_Fnum in R0 by (try assumption; reflexivity).
  rewrite ltb_Fnum in R1 by (try assumption; reflexivity).
  apply Z.leb_le in R0. apply Z.ltb_lt in R1.
  change (Fnum Hsv.f0) with 0 in R0. rewrite Fnum_f360 in R1. lia.
Qed.

Lemma normalize_in_range :
  forall fuel h, F32.valid h = true -> Hsv.in_range h = true ->
    Hsv.normalize_hue fuel h = Done h.
Proof.
  intros fuel h V R. destruct (in_range_inv h V R) as [F H].
  unfold Hsv.normalize_hue. rewrite wrap_high_below by (try assumption; lia).
  cbn [obind]. apply wrap_low_above; try assumption; lia.
Qed.

Lemma hue_cycle :
  Nat.iter 720 Hsv.advance_hue (Submission.h Submission.init)
  = Submission.h Submission.init.
Proof. vm_compute. reflexivity. Qed.

Lemma hues_in_range_nth :
  forall n h0, Submission.hues_in_range n h0 = true ->
    forall k, (k < n)%nat ->
      F32.valid (Nat.iter k Hsv.advance_hue h0) = true
      /\ Hsv.in_range (Nat.iter k Hsv.advance_hue h0) = true.
Proof.
  induction n as [ | n IH ]; intros h0 H k Hk; [ lia | ].
  cbn [Submission.hues_in_range] in H.
  apply andb_true_iff in H. destruct H as [H Hn].
  apply andb_true_iff in H. destruct H as [Hv Hr].
  destruct k as [ | k ]; [ split; assumption | ].
  rewrite Nat.iter_succ_r. apply IH; [ exact Hn | lia ].
Qed.

Lemma hue_after_mod :
  forall n, Submission.hue_after n = Submission.hue_after (n mod 720).
Proof.
  intros n. unfold Submission.hue_after.
  pose proof (Nat.div_mod_eq n 720) as E.
  set (q := (n / 720)%nat) in *. set (r := (n mod 720)%nat) in *.
  clearbody q r. subst n.
  rewrite Nat.add_comm, Nat.iter_add. f_equal.
  induction q as [ | q IH ]; [ reflexivity | ].
  replace (720 * S q)%nat with (720 * q + 720)%nat by lia.
  rewrite Nat.iter_add, hue_cycle. exact IH.
Qed.

Lemma hue_after_in_range :
  forall n, F32.valid (Submission.hue_after n) = true
            /\ Hsv.in_range (Submission.hue_after n) = true.
Proof.
  intros n. rewrite hue_after_mod.
  apply (hues_in_range_nth 720 (Submission.h Submission.init)).
  - vm_compute. reflexivity.
  - apply Nat.mod_upper_bound. lia.
Qed.

Lemma next_defined :
  forall fuel st, F32.valid (Submission.h st) = true -> Hsv.in_range (Submission.h st) = true ->
    Submission.next fuel st = Done (Submission.after_tick st).
Proof.
  intros fuel st V R. unfold Submission.next, Hsv.hsv_to_rgb.
  rewrite normalize_in_range by assumption. cbn [obind].
  destruct (in_range_inv _ V R) as [F H].
  assert (Bs : bounded_by 0 Submission.s).
  { split; [ reflexivity | ]. split; [ reflexivity | ]. vm_compute. discriminate. }
  assert (Bv : bounded_by 0 Submission.v).
  { split; [ reflexivity | ]. split; [ reflexivity | ]. vm_compute. discriminate. }
  destruct (sector_rgb_total (Submission.h st) Submission.s Submission.v V F ltac:(lia) Bs Bv)
    as [i [r [g [b [_ [_ [E _]]]]]]].
  rewrite E. reflexivity.
Qed.

Lemma bind_fst :
  forall (D : Device.Driver) (A B : Type) (c : Device.io D A) (k : Device.io D B) w,
    fst ((c ;;; k) w) = fst (k (snd (c w))).
Proof. intros D A B c k w. unfold Device.iobind. destruct (c w). reflexivity. Qed.

Lemma tick_next :
  forall D fuel st w, fst (Submission.tick D fuel st w) = Submission.next fuel st.
Proof.
  intros D fuel st w. unfold Submission.tick, Submission.next.
  destruct (Hsv.hsv_to_rgb fuel (Submission.h st) Submission.s Submission.v)
    as [ [[r g] b] | | ]; [ | reflexivity | reflexivity ].
  rewrite !bind_fst. reflexivity.
Qed.

Lemma after_tick_hue :
  forall k, Submission.h (Nat.iter k Submission.after_tick Submission.init)
            = Submission.hue_after k.
Proof.
  induction k as [ | k IH ]; [ reflexivity | ].
  rewrite Nat.iter_succ. unfold Submission.after_tick at 1, Submission.motion.
  destruct (Submission.reflect 640 _ _ _) as [x2 dx2].
  destruct (Submission.reflect 480 _ _ _) as [y2 dy2].
  cbn [Submission.h]. rewrite IH. reflexivity.
Qed.

Lemma motion_ignores_hue :
  forall rad a b,
    Submission.x a = Submission.x b -> Submission.y a = Submission.y b ->
    Submission.dx a = Submission.dx b -> Submission.dy a = Submission.dy b ->
    Submission.x (Submission.motion rad a) = Submission.x (Submission.motion rad b)
    /\ Submission.y (Submission.motion rad a) = Submission.y (Submission.motion rad b)
    /\ Submission.dx (Submission.motion rad a) = Submission.dx (Submission.motion rad b)
    /\ Submission.dy (Submission.motion rad a) = Submission.dy (Submission.motion rad b).
Proof.
  intros rad a b Ex Ey Edx Edy. unfold Submission.motion.
  rewrite Ex, Ey, Edx, Edy.
  destruct (Submission.reflect 640 _ _ _) as [x2 dx2].
  destruct (Submission.reflect 480 _ _ _) as [y2 dy2].
  repeat split; reflexivity.
Qed.

Lemma after_tick_ball :
  forall k,
    let st := Nat.iter k Submission.after_tick Submission.init in
    Submission.x st = Submission.x (Submission.ball_after k)
    /\ Submission.y st = Submission.y (Submission.ball_after k)
    /\ Submission.dx st = Submission.dx (Submission.ball_after k)
    /\ Submission.dy st = Submission.dy (Submission.ball_after k).
Proof.
  induction k as [ | k IH ]; [ repeat split; reflexivity | ].
  cbv zeta in *. unfold Submission.ball_after in *. rewrite !Nat.iter_succ.
  destruct IH as [Ex [Ey [Edx Edy]]].
  unfold Submission.after_tick at 1 2 3 4.
  apply motion_ignores_hue; assumption.
Qed.

(** [n] iterations of the loop of [main] always complete, whatever the
    driver does, and leave the locals that [after_tick] computes. *)
Lemma run_completes :
  forall D fuel n k w,
    exists w',
      Submission.run D fuel n (Nat.iter k Submission.after_tick Submission.init) w
      = (Done (Nat.iter (n + k) Submission.after_tick Submission.init), w').
Proof.
  intros D fuel. induction n as [ | n IH ]; intros k w.
  - exists w. reflexivity.
  - cbn [Submission.run]. unfold Device.iobind at 1.
    pose proof (tick_next D fuel (Nat.iter k Submission.after_tick Submission.init) w) as T.
    destruct (Submission.tick D fuel _ w) as [o w1]. cbn [fst] in T.
    destruct (hue_after_in_range k) as [V R]. rewrite <- after_tick_hue in V, R.
    rewrite (next_defined fuel _ V R) in T. subst o.
    destruct (IH (S k) w1) as [w' E].
    exists w'. rewrite Nat.iter_succ in E. rewrite E.
    replace (S n + k)%nat with (n + S k)%nat by lia. reflexivity.
Qed.

(** C10: started at x = y = 20 with dx = dy = 1 and radius 16, the ball
    satisfies radius < x < 640 - radius and radius < y < 480 - radius at
    the end of every iteration, with velocities of magnitude one; the
    additions [x += dx] and [y += dy] of the following iteration therefore
    never wrap around, and the values written to the device are 64 x and
    64 y, at most 639 * 64 and 479 * 64.  Whatever the driver answers,
    [n] iterations of the loop of [main] complete and leave exactly this
    position and velocity in the locals. *)
Theorem ball_stays_inside :
  forall n,
    let st := Submission.ball_after n in
    Submission.inside st
    /\ Submission.unit_speed st
    /\ ushort (Submission.x st + Submission.dx st) = Submission.x st + Submission.dx st
    /\ ushort (Submission.y st + Submission.dy st) = Submission.y st + Submission.dy st
    /\ Device.pos_x (Submission.position_out st) = 64 * Submission.x st
    /\ Device.pos_y (Submission.position_out st) = 64 * Submission.y st
    /\ Device.pos_x (Submission.position_out st) <= 639 * 64
    /\ Device.pos_y (Submission.position_out st) <= 479 * 64
    /\ (forall D fuel w, exists st' w',
          Submission.run D fuel n Submission.init w = (Done st', w')
          /\ Submission.x st' = Submission.x st
          /\ Submission.y st' = Submission.y st
          /\ Submission.dx st' = Submission.dx st
          /\ Submission.dy st' = Submission.dy st).
Proof.
  intros n st.
  assert (R : forall D fuel w, exists st' w',
          Submission.run D fuel n Submission.init w = (Done st', w')
          /\ Submission.x st' = Submission.x st
          /\ Submission.y st' = Submission.y st
          /\ Submission.dx st' = Submission.dx st
          /\ Submission.dy st' = Submission.dy st).
  { intros D fuel w. destruct (run_completes D fuel n 0 w) as [w' E].
    rewrite Nat.add_0_r in E. cbn [Nat.iter nat_rect] in E.
    exists (Nat.iter n Submission.after_tick Submission.init), w'.
    split; [ exact E | ]. exact (after_tick_ball n). }
  destruct (ball_invariant n) as [I1 I2]. fold st in I1, I2.
  destruct (motion_keeps_inside st I1 I2) as [_ [_ [Wx Wy]]].
  unfold Submission.position_out. cbn [Device.pos_x Device.pos_y].
  pose proof I1 as [Hx Hy]. unfold Submission.radius in Hx, Hy.
  rewrite !scale_out_inside by lia.
  split; [ exact I1 | ].
  split; [ exact I2 | ].
  split; [ exact Wx | ].
  split; [ exact Wy | ].
  split; [ reflexivity | ].
  split; [ reflexivity | ].
  split; [ lia | ].
  split; [ lia | ].
  exact R.
Qed.

(** ** The uninitialised coordinate of [sw/hello.c] *)

Lemma sw_motion_y : forall b, Sw.y b = None -> Sw.y (Sw.motion b) = None.
Proof.
  intros b Hy. unfold Sw.motion. rewrite Hy.
  destruct (Sw.reflect (Sw.advance (Sw.x b) (Sw.dx b)) (Sw.dx b)) as [x2 dx2].
  destruct (Sw.dy b); reflexivity.
Qed.

Lemma sw_motion_x :
  forall b,
    Sw.x b <> None /\ Sw.dx b <> None ->
    Sw.x (Sw.motion b) <> None /\ Sw.dx (Sw.motion b) <> None.
Proof.
  intros b [Hx Hdx]. unfold Sw.motion.
  destruct (Sw.x b) as [x0 | ]; [ | contradiction ].
  destruct (Sw.dx b) as [dx0 | ]; [ | contradiction ].
  cbn [Sw.advance Sw.reflect].
  destruct (Sw.at_bound (F32.add x0 dx0));
    destruct (Sw.reflect (Sw.advance (Sw.y b) (Sw.dy b)) (Sw.dy b));
    cbn [Sw.x Sw.dx]; split; discriminate.
Qed.

(** C3: in [sw/hello.c] the variable y has no initializer, so it is
    indeterminate when the loop first evaluates [y += dy]; after any
    number of iterations y is still derived from that indeterminate value,
    and so is the y coordinate handed to [set_position].  Only x starts
    from a determinate value, the [float] nearest to 0.2, and stays
    determinate. *)
Theorem sw_y_indeterminate :
  Sw.y Sw.init = None
  /\ Sw.x Sw.init = Some (F32.of_double (F64.lit 2 10))
  /\ Sw.advance (Sw.y Sw.init) (Sw.dy Sw.init) = None
  /\ forall n,
       Sw.y (Sw.ball_after n) = None
       /\ snd (Sw.position_out (Sw.ball_after n)) = None
       /\ Sw.x (Sw.ball_after n) <> None
       /\ fst (Sw.position_out (Sw.ball_after n)) <> None.
Proof.
  split; [ reflexivity | ].
  split; [ reflexivity | ].
  split; [ reflexivity | ].
  intros n.
  assert (I : Sw.y (Sw.ball_after n) = None
              /\ Sw.x (Sw.ball_after n) <> None /\ Sw.dx (Sw.ball_after n) <> None).
  { induction n as [ | n IH ].
    - cbn. repeat split; discriminate.
    - destruct IH as [IHy IHx]. unfold Sw.ball_after in *. cbn [Nat.iter].
      split; [ apply sw_motion_y; exact IHy | apply sw_motion_x; exact IHx ]. }
  destruct I as [Iy [Ix _]].
  unfold Sw.position_out. cbn [fst snd]. rewrite Iy.
  split; [ reflexivity | ].
  split; [ reflexivity | ].
  split; [ exact Ix | ].
  destruct (Sw.x (Sw.ball_after n)); [ discriminate | contradiction ].
Qed.

(** ** Failed device calls *)

Section DeviceFacts.
Import Device.
Variable D : Driver.

Lemma failed_request :
  forall (w : world D) r a msg (k : vga_ball_arg_t -> io D unit),
    status w r a <> 0 ->
    iobind (do_ioctl D r a)
      (fun '(st, vla) => if st =? 0 then k vla else emit (EvPerror msg)) w
    = (tt, after_failure w r a msg).
Proof.
  intros w r a msg k Hf.
  unfold iobind, do_ioctl, status, after_failure, driver_after, emit in *.
  destruct (ioctl D (drv w) r a) as [[st vla] d']. cbn [fst snd] in *.
  destruct (st =? 0) eqn:E.
  - apply Z.eqb_eq in E. contradiction.
  - cbn [drv trace]. rewrite <- app_assoc. reflexivity.
Qed.

Lemma requests_app : forall t1 t2, requests (t1 ++ t2) = requests t1 ++ requests t2.
Proof.
  induction t1 as [ | e t1 IH ]; intros t2; [ reflexivity | ].
  destruct e; cbn; rewrite ?IH; reflexivity.
Qed.

Lemma call_requests :
  forall (w : world D) r a msg (k : vga_ball_arg_t -> io D unit),
    (forall vla w1, requests (trace (snd (k vla w1))) = requests (trace w1)) ->
    requests (trace (snd (iobind (do_ioctl D r a)
      (fun '(st, vla) => if st =? 0 then k vla else emit (EvPerror msg)) w)))
    = requests (trace w) ++ [r].
Proof.
  intros w r a msg k Hk.
  unfold iobind, do_ioctl.
  destruct (ioctl D (drv w) r a) as [[st vla] d'].
  destruct (st =? 0).
  - rewrite Hk. cbn [trace]. rewrite requests_app. reflexivity.
  - unfold emit. cbn [snd trace]. rewrite !requests_app. cbn.
    rewrite app_nil_r. reflexivity.
Qed.

Lemma emit_requests_silent :
  forall e (w : world D),
    match e with EvIoctl _ _ => False | _ => True end ->
    requests (trace (snd (emit e w))) = requests (trace w).
Proof.
  intros e w He. unfold emit. cbn [snd trace]. rewrite requests_app.
  destruct e; try contradiction; cbn; apply app_nil_r.
Qed.
End DeviceFacts.

(** C4: each of the four device operations, when its control call
    returns a non-zero status, issues that one call, logs one diagnostic
    and returns (no second call, no change of control flow); and an
    iteration of the animation loop computes the same next state and
    issues the same three requests (write background, write position,
    read position) whatever the driver answers. *)
Theorem failed_call_is_logged_and_skipped :
  forall (D : Device.Driver) (w : Device.world D),
    (forall c,
        Device.status w Device.VGA_BALL_WRITE_BACKGROUND (Device.Background c) <> 0 ->
        Device.set_background_color D c w
        = (tt, Device.after_failure w Device.VGA_BALL_WRITE_BACKGROUND (Device.Background c)
                 "ioctl(VGA_BALL_SET_BACKGROUND) failed"))
    /\ (forall p,
        Device.status w Device.VGA_BALL_WRITE_POSITION (Device.Position p) <> 0 ->
        Device.set_position D p w
        = (tt, Device.after_failure w Device.VGA_BALL_WRITE_POSITION (Device.Position p)
                 "ioctl(VGA_BALL_SET_POSITION) failed"))
    /\ (Device.status w Device.VGA_BALL_READ_BACKGROUND Device.Uninit <> 0 ->
        Device.print_background_color D w
        = (tt, Device.after_failure w Device.VGA_BALL_READ_BACKGROUND Device.Uninit
                 "ioctl(VGA_BALL_READ_BACKGROUND) failed"))
    /\ (Device.status w Device.VGA_BALL_READ_POSITION Device.Uninit <> 0 ->
        Device.print_position D w
        = (tt, Device.after_failure w Device.VGA_BALL_READ_POSITION Device.Uninit
                 "ioctl(VGA_BALL_READ_POSITION) failed"))
    /\ (forall fuel st,
        fst (Submission.tick D fuel st w) = Submission.next fuel st
        /\ (forall st',
              Submission.next fuel st = Done st' ->
              Device.requests (Device.trace (snd (Submission.tick D fuel st w)))
              = Device.requests (Device.trace w)
                ++ [Device.VGA_BALL_WRITE_BACKGROUND; Device.VGA_BALL_WRITE_POSITION;
                    Device.VGA_BALL_READ_POSITION])).
Proof.
  intros D w.
  split; [ intros c Hf; apply (failed_request D w _ _ _ (fun _ => Device.ioret tt) Hf) | ].
  split; [ intros p Hf; apply (failed_request D w _ _ _ (fun _ => Device.ioret tt) Hf) | ].
  split; [ intros Hf;
           apply (failed_request D w _ _ _ (fun vla => Device.emit (Device.EvPrintBackground vla)) Hf) | ].
  split; [ intros Hf;
           apply (failed_request D w _ _ _ (fun vla => Device.emit (Device.EvPrintPosition vla)) Hf) | ].
  intros fuel st. unfold Submission.tick, Submission.next.
  destruct (Hsv.hsv_to_rgb fuel (Submission.h st) Submission.s Submission.v)
    as [ [[r g] b] | | ].
  2, 3: split; [ reflexivity | intros st' Hd; discriminate Hd ].
  set (st1 := Submission.motion Submission.radius _).
  set (c := Submission.color_out r g b).
  assert (Ebg : forall w0 : Device.world D,
             Device.requests (Device.trace (snd (Device.set_background_color D c w0)))
             = Device.requests (Device.trace w0) ++ [Device.VGA_BALL_WRITE_BACKGROUND]).
  { intros w0. apply (call_requests D w0 _ _ _ (fun _ => Device.ioret tt)).
    intros vla w1. reflexivity. }
  assert (Esp : forall w0 : Device.world D,
             Device.requests (Device.trace (snd (Device.set_position D (Submission.position_out st1) w0)))
             = Device.requests (Device.trace w0) ++ [Device.VGA_BALL_WRITE_POSITION]).
  { intros w0. apply (call_requests D w0 _ _ _ (fun _ => Device.ioret tt)).
    intros vla w1. reflexivity. }
  assert (Epp : forall w0 : Device.world D,
             Device.requests (Device.trace (snd (Device.print_position D w0)))
             = Device.requests (Device.trace w0) ++ [Device.VGA_BALL_READ_POSITION]).
  { intros w0.
    apply (call_requests D w0 _ _ _ (fun vla => Device.emit (Device.EvPrintPosition vla))).
    intros vla w1. apply emit_requests_silent. exact I. }
  destruct (Device.set_background_color D c w) as [u1 w1] eqn:E1.
  pose proof (Ebg w) as R1. rewrite E1 in R1. cbn [snd] in R1.
  destruct (Device.emit
      (Device.EvPrintHSV (Hsv.advance_hue (Submission.h st)) Submission.s Submission.v r g b) w1)
    as [u2 w2] eqn:E2.
  assert (R2 : Device.requests (Device.trace w2) = Device.requests (Device.trace w1)).
  { replace w2 with (snd (Device.emit
      (Device.EvPrintHSV (Hsv.advance_hue (Submission.h st)) Submission.s Submission.v r g b) w1))
      by (rewrite E2; reflexivity).
    apply emit_requests_silent. exact I. }
  destruct (Device.set_position D (Submission.position_out st1) w2) as [u3 w3] eqn:E3.
  pose proof (Esp w2) as R3. rewrite E3 in R3. cbn [snd] in R3.
  destruct (Device.print_position D w3) as [u4 w4] eqn:E4.
  pose proof (Epp w3) as R4. rewrite E4 in R4. cbn [snd] in R4.
  destruct (Device.usleep D 10000 w4) as [u5 w5] eqn:E5.
  assert (R5 : Device.requests (Device.trace w5) = Device.requests (Device.trace w4)).
  { replace w5 with (snd (Device.emit (Device.EvSleep 10000) w4))
      by (unfold Device.usleep in E5; rewrite E5; reflexivity).
    apply emit_requests_silent. exact I. }
  unfold Device.iobind, Device.ioret.
  rewrite E1; cbv beta iota. rewrite E2; cbv beta iota.
  rewrite E3; cbv beta iota. rewrite E4; cbv beta iota.
  rewrite E5; cbv beta iota. cbn [fst snd].
  split; [ reflexivity | ].
  intros st' _. rewrite R5, R4, R3, R2, R1. rewrite <- !app_assoc. reflexivity.
Qed.

Lemma failed_call_is_logged_and_skipped_witness :
  let w0 : Device.world Device.failing_driver := Device.idle Device.failing_driver tt in
  let c := {| Device.red := 76; Device.green := 0; Device.blue := 0 |} in
  let p := {| Device.pos_x := 1344; Device.pos_y := 1344 |} in
  Device.set_background_color Device.failing_driver c w0
  = (tt, Device.after_failure w0 Device.VGA_BALL_WRITE_BACKGROUND (Device.Background c)
           "ioctl(VGA_BALL_SET_BACKGROUND) failed")
  /\ Device.set_position Device.failing_driver p w0
  = (tt, Device.after_failure w0 Device.VGA_BALL_WRITE_POSITION (Device.Position p)
           "ioctl(VGA_BALL_SET_POSITION) failed")
  /\ Device.print_background_color Device.failing_driver w0
  = (tt, Device.after_failure w0 Device.VGA_BALL_READ_BACKGROUND Device.Uninit
           "ioctl(VGA_BALL_READ_BACKGROUND) failed")
  /\ Device.print_position Device.failing_driver w0
  = (tt, Device.after_failure w0 Device.VGA_BALL_READ_POSITION Device.Uninit
           "ioctl(VGA_BALL_READ_POSITION) failed")
  /\ Device.requests (Device.trace (snd (Submission.tick Device.failing_driver 0 Submission.init w0)))
  = [Device.VGA_BALL_WRITE_BACKGROUND; Device.VGA_BALL_WRITE_POSITION;
     Device.VGA_BALL_READ_POSITION].
Proof.
  intros w0 c p.
  destruct (failed_call_is_logged_and_skipped Device.failing_driver w0)
    as [A [B [C [E F]]]].
  split; [ apply A; vm_compute; discriminate | ].
  split; [ apply B; vm_compute; discriminate | ].
  split; [ apply C; vm_compute; discriminate | ].
  split; [ apply E; vm_compute; discriminate | ].
  destruct (F 0%nat Submission.init) as [_ G].
  apply (G (Submission.motion Submission.radius
              {| Submission.h := Hsv.advance_hue (Submission.h Submission.init);
                 Submission.x := 20; Submission.y := 20;
                 Submission.dx := 1; Submission.dy := 1 |})).
  vm_compute. reflexivity.
Defined.

(** ** Where the hue arithmetic rounds *)

Lemma wrap_high_stuck :
  forall h, F32.geb h Hsv.f360 = true -> F32.sub h Hsv.f360 = h ->
  forall fuel, Hsv.wrap_high fuel h = Timeout.
Proof.
  intros h Hge Hsub fuel. induction fuel as [ | n IH ]; cbn [Hsv.wrap_high]; rewrite Hge.
  - reflexivity.
  - rewrite Hsub. exact IH.
Qed.

(** ** The position written to the device *)

Lemma trunc_nonneg :
  forall r, F32.valid r = true -> is_finite r = true -> 0 <= Fnum r ->
    F32.trunc r = Some (Fnum r / 2 ^ 149).
Proof.
  intros r V F N. destruct r as [ s | s | | s m e ]; try discriminate F.
  - reflexivity.
  - destruct (valid_finite_inv _ _ _ V) as [_ [He _]].
    assert (0 < 2 ^ (e + 149)) by (apply Z.pow_pos_nonneg; lia).
    destruct s; cbn [Fnum cond_Zopp] in N; [ nia | ].
    cbn [F32.trunc Fnum cond_Zopp]. rewrite shiftl_scaled by lia. reflexivity.
Qed.

Lemma in_unit_interval :
  forall x, F32.valid x = true -> F32.leb Hsv.f0 x = true -> F32.leb x Hsv.f1 = true ->
    is_finite x = true /\ 0 <= Fnum x <= 2 ^ 149.
Proof.
  intros x V L0 L1.
  assert (F : is_finite x = true).
  { destruct x as [ s | s | | s m e ]; try reflexivity.
    - destruct s; [ discriminate L0 | discriminate L1 ].
    - discriminate L0. }
  split; [ exact F | ].
  unfold F32.leb in *.
  rewrite leb_Fnum in L0, L1; try assumption; try reflexivity.
  apply Z.leb_le in L0. apply Z.leb_le in L1.
  change (Fnum Hsv.f0) with 0 in L0.
  change (Fnum Hsv.f1) with (2 ^ 149) in L1. lia.
Qed.

(** Scaling a coordinate of the unit square by a positive constant [c]
    of value [k <= 65535]: defined, between 0 and [k], and monotone. *)
Lemma scale_unit_mono :
  forall mc ec k x x',
    F32.valid (S754_finite false mc ec) = true ->
    Fnum (S754_finite false mc ec) = k * 2 ^ 149 -> 0 < k <= 65535 ->
    F32.valid x = true -> F32.valid x' = true ->
    F32.leb Hsv.f0 x = true -> F32.leb x x' = true -> F32.leb x' Hsv.f1 = true ->
    exists a b,
      F32.to_ushort (F32.mul x (S754_finite false mc ec)) = Done a
      /\ F32.to_ushort (F32.mul x' (S754_finite false mc ec)) = Done b
      /\ 0 <= a <= b /\ b <= k.
Proof.
  intros mc ec k x x' Vc Ec Hk Vx Vx' L0 Lxx L1.
  assert (L0' : F32.leb Hsv.f0 x' = true).
  { destruct x' as [ s' | s' | | s' m' e' ]; try reflexivity; try discriminate L1.
    - destruct s'; [ | discriminate L1 ].
      destruct x as [ s | [ | ] | | s m e ]; try discriminate L0; discriminate Lxx.
    - destruct s'; [ | reflexivity ].
      destruct x as [ s | [ | ] | | [ | ] m e ]; try discriminate L0; discriminate Lxx. }
  assert (L1' : F32.leb x Hsv.f1 = true).
  { destruct x as [ s | s | | s m e ]; try reflexivity; try discriminate L0.
    - destruct s; [ discriminate L0 | ].
      destruct x' as [ s' | [ | ] | | s' m' e' ]; try discriminate L1; discriminate Lxx.
    - destruct (in_unit_interval _ Vx' L0' L1) as [F' [A' B']].
      unfold F32.leb in *. rewrite leb_Fnum in Lxx by (try assumption; reflexivity).
      rewrite leb_Fnum by (try assumption; reflexivity).
      apply Z.leb_le in Lxx. apply Z.leb_le.
      change (Fnum Hsv.f1) with (2 ^ 149). lia. }
  destruct (in_unit_interval _ Vx L0 L1') as [F [A B]].
  destruct (in_unit_interval _ Vx' L0' L1) as [F' [A' B']].
  assert (Lv : Fnum x <= Fnum x').
  { unfold F32.leb in Lxx. rewrite leb_Fnum in Lxx by assumption.
    apply Z.leb_le. exact Lxx. }
  destruct (valid_finite_inv _ _ _ Vc) as [_ [Hec _]].
  rewrite Fnum_finite_pos in Ec.
  assert (P149 : 0 < 2 ^ 149) by (apply Z.pow_pos_nonneg; lia).
  (* the product of a coordinate in (0, 1] with the constant *)
  assert (Prod : forall m e m' e',
             F32.valid (S754_finite false m e) = true ->
             F32.valid (S754_finite false m' e') = true ->
             Fnum (S754_finite false m e) <= Fnum (S754_finite false m' e') ->
             Fnum (S754_finite false m' e') <= 2 ^ 149 ->
             let r := SFmul 24 128 (S754_finite false m e) (S754_finite false mc ec) in
             let r' := SFmul 24 128 (S754_finite false m' e') (S754_finite false mc ec) in
             F32.valid r = true /\ is_finite r = true /\ F32.valid r' = true
             /\ is_finite r' = true /\ 0 <= Fnum r <= Fnum r' /\ Fnum r' <= 2 ^ (16 + 149)).
  { intros m e m' e' V V' Hle H1.
    apply mul_mono_pos; try assumption; try lia.
    destruct (valid_finite_inv _ _ _ V') as [_ [He' _]].
    rewrite Fnum_finite_pos in H1.
    apply (ple_scaled _ _ _ _ (-149 + -149)); [ lia | lia | ].
    replace (e' + ec - (-149 + -149)) with ((e' + 149) + (ec + 149)) by lia.
    replace (16 - (-149 + -149)) with (16 + 149 + 149) by lia.
    rewrite !Z.pow_add_r by lia.
    assert (0 < 2 ^ (e' + 149)) by (apply Z.pow_pos_nonneg; lia).
    assert (0 < 2 ^ (ec + 149)) by (apply Z.pow_pos_nonneg; lia).
    change (2 ^ 16) with 65536. nia. }
  assert (One : SFmul 24 128 Hsv.f1 (S754_finite false mc ec) = S754_finite false mc ec).
  { change Hsv.f1 with (S754_finite false 8388608 (-23)).
    rewrite mul_spec by (try assumption; reflexivity).
    apply rnd_exact; try assumption; try lia; cbn [xorb].
    - apply (ple_scaled _ _ _ _ (-23 + ec)); [ lia | lia | ].
      replace (-23 + ec - (-23 + ec)) with 0 by lia.
      replace (ec - (-23 + ec)) with 23 by lia. cbn. lia.
    - apply (ple_scaled _ _ _ _ (-23 + ec)); [ lia | lia | ].
      replace (-23 + ec - (-23 + ec)) with 0 by lia.
      replace (ec - (-23 + ec)) with 23 by lia. cbn. lia. }
  (* defined and bounded by k, for any coordinate of the unit interval *)
  assert (Out : forall y, F32.valid y = true -> is_finite y = true ->
             0 <= Fnum y <= 2 ^ 149 ->
             exists r, F32.mul y (S754_finite false mc ec) = r
                       /\ F32.valid r = true /\ is_finite r = true
                       /\ 0 <= Fnum r <= k * 2 ^ 149).
  { intros y Vy Fy Ry. change F32.mul with (SFmul 24 128).
    destruct y as [ s | s | | s m e ]; try discriminate Fy.
    - exists (S754_zero (xorb s false)). repeat split; cbn; lia.
    - destruct (valid_finite_inv _ _ _ Vy) as [_ [He _]].
      assert (0 < 2 ^ (e + 149)) by (apply Z.pow_pos_nonneg; lia).
      destruct s; cbn [Fnum cond_Zopp] in Ry; [ nia | ].
      destruct (Prod m e 8388608%positive (-23) Vy eq_refl) as [R1 [R2 [_ [_ [R3 _]]]]].
      + rewrite !Fnum_finite_pos. change (8388608 * 2 ^ (-23 + 149)) with (2 ^ 149). lia.
      + rewrite !Fnum_finite_pos. change (8388608 * 2 ^ (-23 + 149)) with (2 ^ 149). lia.
      + change (S754_finite false 8388608 (-23)) with Hsv.f1 in R3. rewrite One in R3.
        rewrite (Fnum_finite_pos mc ec), Ec in R3.
        eexists. split; [ reflexivity | ]. repeat split; try assumption; lia. }
  assert (Ush : forall r, F32.valid r = true -> is_finite r = true ->
             0 <= Fnum r <= k * 2 ^ 149 ->
             F32.to_ushort r = Done (Fnum r / 2 ^ 149) /\ 0 <= Fnum r / 2 ^ 149 <= k).
  { intros r Vr Fr Rr. unfold F32.to_ushort. rewrite trunc_nonneg by (try assumption; lia).
    assert (Q : 0 <= Fnum r / 2 ^ 149 <= k).
    { split; [ apply Z.div_pos; lia | ].
      apply Z.div_le_upper_bound; lia. }
    replace (0 <=? Fnum r / 2 ^ 149) with true by (symmetry; apply Z.leb_le; lia).
    replace (Fnum r / 2 ^ 149 <=? 65535) with true by (symmetry; apply Z.leb_le; lia).
    split; [ reflexivity | exact Q ]. }
  destruct (Out x Vx F (conj A B)) as [r [Er [Vr [Fr Rr]]]].
  destruct (Out x' Vx' F' (conj A' B')) as [r' [Er' [Vr' [Fr' Rr']]]].
  destruct (Ush r Vr Fr Rr) as [U1 U2]. destruct (Ush r' Vr' Fr' Rr') as [U1' U2'].
  exists (Fnum r / 2 ^ 149), (Fnum r' / 2 ^ 149).
  rewrite Er, Er'. split; [ exact U1 | ]. split; [ exact U1' | ].
  split; [ | lia ]. split; [ lia | ].
  apply Z.div_le_mono; [ lia | ].
  (* the order of the two products *)
  subst r r'. change F32.mul with (SFmul 24 128) in *.
  destruct x as [ s | s | | s m e ]; try discriminate F;
    destruct x' as [ s' | s' | | s' m' e' ]; try discriminate F'.
  - cbn. lia.
  - exact (proj1 Rr').
  - cbn [SFmul Fnum]. 
    destruct (valid_finite_inv _ _ _ Vx) as [_ [He _]].
    assert (0 < 2 ^ (e + 149)) by (apply Z.pow_pos_nonneg; lia).
    cbn [Fnum] in Lv, A. destruct s; cbn [cond_Zopp] in Lv, A; nia.
  - destruct (valid_finite_inv _ _ _ Vx) as [_ [He _]].
    destruct (valid_finite_inv _ _ _ Vx') as [_ [He' _]].
    assert (0 < 2 ^ (e + 149)) by (apply Z.pow_pos_nonneg; lia).
    assert (0 < 2 ^ (e' + 149)) by (apply Z.pow_pos_nonneg; lia).
    destruct s; [ cbn [Fnum cond_Zopp] in A; nia | ].
    destruct s'; [ cbn [Fnum cond_Zopp] in A'; nia | ].
    destruct (Prod m e m' e' Vx Vx' Lv (proj2 (conj A' B'))) as [_ [_ [_ [_ [R _]]]]].
    exact (proj2 R).
Qed.

(** ** Outcomes of the conversion *)

Lemma to_int_no_timeout : forall x, F32.to_int x <> Timeout.
Proof.
  intros x. unfold F32.to_int. destruct (F32.trunc x) as [ z | ]; [ | discriminate ].
  destruct (_ && _); discriminate.
Qed.

Lemma sector_rgb_no_timeout : forall h s v, Hsv.sector_rgb h s v <> Timeout.
Proof.
  intros h s v. unfold Hsv.sector_rgb.
  destruct (F32.to_int (F32.div h Hsv.f60)) as [ i | | ] eqn:Ei; cbn [obind];
    [ | discriminate | exact (fun _ => to_int_no_timeout _ Ei) ].
  destruct (Hsv.select i v _ _ _) as [[r1 g1] b1].
  destruct (F32.to_int (F32.mul r1 Hsv.f255)) as [ r | | ] eqn:Er; cbn [obind];
    [ | discriminate | exact (fun _ => to_int_no_timeout _ Er) ].
  destruct (F32.to_int (F32.mul g1 Hsv.f255)) as [ g | | ] eqn:Eg; cbn [obind];
    [ | discriminate | exact (fun _ => to_int_no_timeout _ Eg) ].
  destruct (F32.to_int (F32.mul b1 Hsv.f255)) as [ b | | ] eqn:Eb; cbn [obind];
    [ discriminate | discriminate | exact (fun _ => to_int_no_timeout _ Eb) ].
Qed.

(** The sign of a zero hue does not change the colour. *)
Lemma sector_rgb_zero :
  forall s1 s2 s v,
    Hsv.sector_rgb (S754_zero s1) s v = Hsv.sector_rgb (S754_zero s2) s v.
Proof.
  intros s1 s2 s v.
  assert (E : forall b, Hsv.sector_rgb (S754_zero b) s v = Hsv.sector_rgb (S754_zero false) s v).
  { intros b. destruct b; [ | reflexivity ].
    destruct s as [ ss | ss | | ss ms es ]; reflexivity. }
  rewrite (E s1), (E s2). reflexivity.
Qed.

Lemma zero_of_Fnum :
  forall r, F32.valid r = true -> is_finite r = true -> Fnum r = 0 ->
    exists s, r = S754_zero s.
Proof.
  intros r V F E. destruct r as [ s | s | | s m e ]; try discriminate F.
  - exists s. reflexivity.
  - exfalso. exact (finite_Fnum_nonzero s m e V E).
Qed.

(** ** The selection table *)

Lemma select_same : forall i v, Hsv.select i v v v v = (v, v, v).
Proof.
  intros i v. unfold Hsv.select.
  destruct i as [ | n | n ]; try reflexivity.
  do 3 (try (destruct n as [ n | n | ]; try reflexivity)).
Qed.

(** * Further properties *)

(** ** Order of rounded results *)

Lemma ple_Fnum :
  forall m e m' e', -149 <= e -> -149 <= e' ->
    (ple m e m' e' <-> m * 2 ^ (e + 149) <= m' * 2 ^ (e' + 149)).
Proof.
  intros m e m' e' He He'.
  rewrite (ple_scaled m e m' e' (-149)) by lia.
  replace (e - -149) with (e + 149) by lia.
  replace (e' - -149) with (e' + 149) by lia. reflexivity.
Qed.

Lemma ple_trans :
  forall m1 e1 m2 e2 m3 e3, 0 < m2 ->
    ple m1 e1 m2 e2 -> ple m2 e2 m3 e3 -> ple m1 e1 m3 e3.
Proof.
  intros m1 e1 m2 e2 m3 e3 P A B.
  set (z := Z.min e1 (Z.min e2 e3)).
  apply (ple_scaled _ _ _ _ z); [ subst z; lia | subst z; lia | ].
  apply (ple_scaled _ _ _ _ z) in A; [ | subst z; lia | subst z; lia ].
  apply (ple_scaled _ _ _ _ z) in B; [ | subst z; lia | subst z; lia ]. lia.
Qed.

Lemma rnd_mono_pos :
  forall m e m' e' k, 0 < m -> 0 < m' -> -149 <= k <= 127 ->
    ple m e m' e' -> ple m' e' 1 k ->
    F32.valid (rnd false m e) = true /\ is_finite (rnd false m e) = true
    /\ F32.valid (rnd false m' e') = true /\ is_finite (rnd false m' e') = true
    /\ 0 <= Fnum (rnd false m e) <= Fnum (rnd false m' e')
    /\ Fnum (rnd false m' e') <= 2 ^ (k + 149).
Proof.
  intros m e m' e' k Pm Pm' Hk P Hb.
  pose proof (ple_trans _ _ _ _ _ _ Pm' P Hb) as Q.
  destruct (rnd_value false _ _ k Pm Hk Q) as [A1 [A2 [A3 A4]]].
  destruct (rnd_value false _ _ k Pm' Hk Hb) as [B1 [B2 [B3 B4]]].
  pose proof (rounded_mono _ _ _ _ Pm Pm' P) as M.
  apply ple_Fnum in M; [ | apply target_lower | apply target_lower ].
  rewrite A3, B3. cbn [cond_Zopp].
  repeat split; try assumption.
  apply Z.mul_nonneg_nonneg; [ apply rne_nonneg; lia | apply Z.pow_nonneg; lia ].
Qed.

Lemma normz_mono :
  forall z e z' e' k, -149 <= e -> -149 <= e' -> -149 <= k <= 127 ->
    0 <= z -> z * 2 ^ (e + 149) <= z' * 2 ^ (e' + 149) ->
    z' * 2 ^ (e' + 149) <= 2 ^ (k + 149) ->
    F32.valid (normz z e) = true /\ is_finite (normz z e) = true
    /\ F32.valid (normz z' e') = true /\ is_finite (normz z' e') = true
    /\ 0 <= Fnum (normz z e) <= Fnum (normz z' e')
    /\ Fnum (normz z' e') <= 2 ^ (k + 149).
Proof.
  intros z e z' e' k He He' Hk Hz Hle Hb.
  assert (Pe : 0 < 2 ^ (e + 149)) by (apply Z.pow_pos_nonneg; lia).
  assert (Pe' : 0 < 2 ^ (e' + 149)) by (apply Z.pow_pos_nonneg; lia).
  assert (Hz' : 0 <= z') by nia.
  destruct (normz_bound z' e' k He' Hk) as [B1 [B2 [B3 [B4 _]]]].
  { rewrite Z.abs_eq by exact Hz'. exact Hb. }
  specialize (B4 Hz').
  destruct z as [ | p | p ]; [ | | lia ].
  - cbn [normz Fnum]. repeat split; try assumption; try reflexivity; lia.
  - destruct z' as [ | p' | p' ]; [ lia | | lia ].
    cbn [normz]. apply rnd_mono_pos; try lia.
    + apply ple_Fnum; assumption.
    + apply ple_Fnum; lia.
Qed.

Lemma sub_value :
  forall x y, F32.valid x = true -> F32.valid y = true ->
    is_finite x = true -> is_finite y = true ->
    exists z e, -149 <= e /\ z * 2 ^ (e + 149) = Fnum x - Fnum y
      /\ Fnum (F32.sub x y) = Fnum (normz z e)
      /\ F32.valid (F32.sub x y) = F32.valid (normz z e)
      /\ is_finite (F32.sub x y) = is_finite (normz z e).
Proof.
  intros x y Vx Vy Fx Fy. unfold F32.sub.
  destruct x as [ sx | sx | | sx mx ex ]; try discriminate Fx;
    destruct y as [ sy | sy | | sy my ey ]; try discriminate Fy.
  - exists 0, (-149). split; [ lia | ]. split; [ reflexivity | ].
    destruct sx, sy; repeat split; reflexivity.
  - destruct (valid_finite_inv _ _ _ Vy) as [_ [Hey _]].
    exists (cond_Zopp (negb sy) (Zpos my)), ey. split; [ lia | ].
    assert (E : cond_Zopp (negb sy) (Zpos my) * 2 ^ (ey + 149)
                = Fnum (S754_zero sx) - Fnum (S754_finite sy my ey)).
    { cbn [Fnum]. destruct sy; cbn [negb cond_Zopp]; lia. }
    split; [ exact E | ].
    assert (N : normz (cond_Zopp (negb sy) (Zpos my)) ey = S754_finite (negb sy) my ey).
    { apply normz_exact; try lia.
      - destruct sy; cbn; lia.
      - exact (valid_opp_finite _ _ _ _ Vy).
      - reflexivity.
      - rewrite E. cbn [Fnum]. destruct sy; cbn [negb cond_Zopp]; lia. }
    rewrite N. cbn [SFsub]. repeat split; reflexivity.
  - destruct (valid_finite_inv _ _ _ Vx) as [_ [Hex _]].
    exists (cond_Zopp sx (Zpos mx)), ex. split; [ lia | ].
    assert (E : cond_Zopp sx (Zpos mx) * 2 ^ (ex + 149)
                = Fnum (S754_finite sx mx ex) - Fnum (S754_zero sy)).
    { cbn [Fnum]. destruct sx; cbn [cond_Zopp]; lia. }
    split; [ exact E | ].
    assert (N : normz (cond_Zopp sx (Zpos mx)) ex = S754_finite sx mx ex).
    { apply normz_exact; try lia; try assumption.
      - destruct sx; cbn; lia.
      - rewrite E. cbn [Fnum]. lia. }
    rewrite N. cbn [SFsub]. repeat split; reflexivity.
  - rewrite sub_spec.
    destruct (valid_finite_inv _ _ _ Vx) as [_ [Hex _]].
    destruct (valid_finite_inv _ _ _ Vy) as [_ [Hey _]].
    set (ez := Z.min ex ey).
    pose proof (aligned_Fnum sx mx ex ez ltac:(subst ez; lia)) as Ax.
    pose proof (aligned_Fnum sy my ey ez ltac:(subst ez; lia)) as Ay.
    exists (aligned sx mx ex ez - aligned sy my ey ez), ez.
    split; [ subst ez; lia | ]. split; [ lia | ]. repeat split; reflexivity.
Qed.

Lemma sub_mono :
  forall x y x' y' k,
    F32.valid x = true -> F32.valid y = true -> F32.valid x' = true -> F32.valid y' = true ->
    is_finite x = true -> is_finite y = true -> is_finite x' = true -> is_finite y' = true ->
    -149 <= k <= 127 ->
    0 <= Fnum x - Fnum y -> Fnum x - Fnum y <= Fnum x' - Fnum y' ->
    Fnum x' - Fnum y' <= 2 ^ (k + 149) ->
    F32.valid (F32.sub x y) = true /\ is_finite (F32.sub x y) = true
    /\ F32.valid (F32.sub x' y') = true /\ is_finite (F32.sub x' y') = true
    /\ 0 <= Fnum (F32.sub x y) <= Fnum (F32.sub x' y')
    /\ Fnum (F32.sub x' y') <= 2 ^ (k + 149).
Proof.
  intros x y x' y' k Vx Vy Vx' Vy' Fx Fy Fx' Fy' Hk H0 Hle Hb.
  destruct (sub_value x y Vx Vy Fx Fy) as [z [e [He [Ez [A1 [A2 A3]]]]]].
  destruct (sub_value x' y' Vx' Vy' Fx' Fy') as [z' [e' [He' [Ez' [B1 [B2 B3]]]]]].
  assert (Pe : 0 < 2 ^ (e + 149)) by (apply Z.pow_pos_nonneg; lia).
  rewrite A1, A2, A3, B1, B2, B3.
  apply (normz_mono z e z' e' k); try assumption; try lia.
Qed.

Lemma fmul_comm :
  forall x y, F32.valid x = true -> F32.valid y = true ->
    is_finite x = true -> is_finite y = true ->
    F32.mul x y = F32.mul y x.
Proof.
  intros x y Vx Vy Fx Fy. unfold F32.mul.
  destruct x as [ sx | sx | | sx mx ex ]; try discriminate Fx;
    destruct y as [ sy | sy | | sy my ey ]; try discriminate Fy;
    try (cbn [SFmul]; rewrite xorb_comm; reflexivity).
  rewrite !mul_spec by assumption.
  rewrite xorb_comm, Z.mul_comm, (Z.add_comm ex ey). reflexivity.
Qed.

Lemma unit_sign :
  forall s m e, unit_float (S754_finite s m e) -> s = false.
Proof.
  intros s m e [V [_ [H0 _]]].
  destruct (valid_finite_inv _ _ _ V) as [_ [He _]].
  assert (0 < 2 ^ (e + 149)) by (apply Z.pow_pos_nonneg; lia).
  destruct s; [ cbn [Fnum cond_Zopp] in H0; nia | reflexivity ].
Qed.

Lemma unit_f1 : unit_float Hsv.f1.
Proof. split; [ reflexivity | ]. split; [ reflexivity | ]. cbn. lia. Qed.

(** The product of two numbers of the unit interval grows with the first
    factor and stays in the unit interval. *)
Lemma mul_unit_mono :
  forall x x' c, unit_float x -> unit_float x' -> unit_float c ->
    Fnum x <= Fnum x' ->
    unit_float (F32.mul x c) /\ unit_float (F32.mul x' c)
    /\ Fnum (F32.mul x c) <= Fnum (F32.mul x' c).
Proof.
  intros x x' c Ux Ux' Uc Hle.
  assert (P149 : 0 < 2 ^ 149) by (apply Z.pow_pos_nonneg; lia).
  assert (Z0 : forall s, unit_float (S754_zero s)).
  { intros s. split; [ reflexivity | ]. split; [ reflexivity | ]. cbn. lia. }
  assert (Prod : forall m e m' e' mc ec,
             unit_float (S754_finite false m e) -> unit_float (S754_finite false m' e') ->
             unit_float (S754_finite false mc ec) ->
             Fnum (S754_finite false m e) <= Fnum (S754_finite false m' e') ->
             let r := SFmul 24 128 (S754_finite false m e) (S754_finite false mc ec) in
             let r' := SFmul 24 128 (S754_finite false m' e') (S754_finite false mc ec) in
             unit_float r /\ unit_float r' /\ Fnum r <= Fnum r').
  { intros m e m' e' mc ec [V [_ [A B]]] [V' [_ [A' B']]] [Vc [_ [Ac Bc]]] L r r'.
    destruct (valid_finite_inv _ _ _ V') as [_ [He' _]].
    destruct (valid_finite_inv _ _ _ Vc) as [_ [Hec _]].
    rewrite Fnum_finite_pos in B', Bc.
    destruct (mul_mono_pos m e m' e' mc ec 0 V V' Vc L ltac:(lia)) as [R1 [R2 [R3 [R4 [R5 R6]]]]].
    { apply (ple_scaled _ _ _ _ (-149 + -149)); [ lia | lia | ].
      replace (e' + ec - (-149 + -149)) with ((e' + 149) + (ec + 149)) by lia.
      replace (0 - (-149 + -149)) with (149 + 149) by lia.
      rewrite (Z.pow_add_r 2 (e' + 149) (ec + 149)) by lia.
      rewrite (Z.pow_add_r 2 149 149) by lia.
      assert (0 < 2 ^ (e' + 149)) by (apply Z.pow_pos_nonneg; lia).
      assert (0 < 2 ^ (ec + 149)) by (apply Z.pow_pos_nonneg; lia).
      rewrite Z.mul_1_l.
      replace (Z.pos m' * Z.pos mc * (2 ^ (e' + 149) * 2 ^ (ec + 149)))
        with ((Z.pos m' * 2 ^ (e' + 149)) * (Z.pos mc * 2 ^ (ec + 149))) by ring.
      apply Z.mul_le_mono_nonneg; lia. }
    fold r in R1, R2, R5. fold r' in R3, R4, R5, R6.
    change (0 + 149) with 149 in R6.
    repeat split; try assumption; lia. }
  destruct c as [ sc | sc | | sc mc ec ]; try (destruct Uc as [_ [F _]]; discriminate F).
  { destruct Ux as [_ [Fx _]], Ux' as [_ [Fx' _]].
    destruct x as [ sx | sx | | sx mx ex ]; try discriminate Fx;
      destruct x' as [ sx' | sx' | | sx' mx' ex' ]; try discriminate Fx';
      cbn [F32.mul SFmul]; repeat split; try apply Z0; cbn [Fnum]; lia. }
  pose proof (unit_sign _ _ _ Uc) as Sc. subst sc.
  destruct x' as [ sx' | sx' | | sx' mx' ex' ];
    try (destruct Ux' as [_ [F _]]; discriminate F).
  { destruct x as [ sx | sx | | sx mx ex ]; try (destruct Ux as [_ [F _]]; discriminate F).
    - cbn [F32.mul SFmul]. repeat split; try apply Z0; cbn [Fnum]; lia.
    - pose proof (unit_sign _ _ _ Ux) as Sx. subst sx.
      destruct Ux as [V _]. destruct (valid_finite_inv _ _ _ V) as [_ [He _]].
      assert (0 < 2 ^ (ex + 149)) by (apply Z.pow_pos_nonneg; lia).
      cbn [Fnum cond_Zopp] in Hle. nia. }
  pose proof (unit_sign _ _ _ Ux') as Sx'. subst sx'.
  destruct x as [ sx | sx | | sx mx ex ]; try (destruct Ux as [_ [F _]]; discriminate F).
  - destruct (Prod mx' ex' mx' ex' mc ec Ux' Ux' Uc (Z.le_refl _)) as [R [_ _]].
    unfold F32.mul. split; [ cbn [SFmul]; apply Z0 | ]. split; [ exact R | ].
    cbn [SFmul Fnum]. destruct R as [_ [_ [R _]]]. exact R.
  - pose proof (unit_sign _ _ _ Ux) as Sx. subst sx.
    exact (Prod mx ex mx' ex' mc ec Ux Ux' Uc Hle).
Qed.

Lemma mul_one_l :
  forall v, F32.valid v = true -> is_finite v = true -> F32.mul Hsv.f1 v = v.
Proof.
  intros v V F. rewrite fmul_comm by (try assumption; reflexivity). apply mul_one. exact V.
Qed.

Lemma sub_one_mono :
  forall a a', unit_float a -> unit_float a' -> Fnum a' <= Fnum a ->
    unit_float (F32.sub Hsv.f1 a) /\ unit_float (F32.sub Hsv.f1 a')
    /\ Fnum (F32.sub Hsv.f1 a) <= Fnum (F32.sub Hsv.f1 a').
Proof.
  intros a a' [Va [Fa [A0 A1]]] [Va' [Fa' [A0' A1']]] Hle.
  destruct (sub_mono Hsv.f1 a Hsv.f1 a' 0) as [R1 [R2 [R3 [R4 [R5 R6]]]]];
    try assumption; try reflexivity; try lia;
    try (change (Fnum Hsv.f1) with (2 ^ 149); lia).
  change (0 + 149) with 149 in R6.
  repeat split; try assumption; lia.
Qed.

(** The intermediate values [q] and [t] of the conversion lie between [p]
    and [v], whatever the fractional part. *)
Lemma hsv_between :
  forall s v f, unit_float s -> unit_float v -> unit_float f ->
    unit_float (F32.mul v (F32.sub Hsv.f1 s))
    /\ unit_float (F32.mul v (F32.sub Hsv.f1 (F32.mul s f)))
    /\ Fnum (F32.mul v (F32.sub Hsv.f1 s))
       <= Fnum (F32.mul v (F32.sub Hsv.f1 (F32.mul s f)))
    /\ Fnum (F32.mul v (F32.sub Hsv.f1 (F32.mul s f))) <= Fnum v.
Proof.
  intros s v f Us Uv Uf.
  pose proof Us as [Vs [Fs _]]. pose proof Uv as [Vv [Fv _]]. pose proof Uf as [Vf [Ff [_ Hf]]].
  destruct (mul_unit_mono f Hsv.f1 s Uf unit_f1 Us) as [UA [_ LA]].
  { change (Fnum Hsv.f1) with (2 ^ 149). exact Hf. }
  rewrite (mul_one_l s Vs Fs) in LA.
  rewrite (fmul_comm f s) in UA, LA by assumption.
  destruct (sub_one_mono s (F32.mul s f) Us UA LA) as [UP [UB LB]].
  pose proof UP as [VP [FP _]]. pose proof UB as [VB [FB [_ HB]]].
  destruct (mul_unit_mono _ _ v UP UB Uv LB) as [Up [Uq Lpq]].
  destruct (mul_unit_mono _ Hsv.f1 v UB unit_f1 Uv) as [_ [_ Lqv]].
  { change (Fnum Hsv.f1) with (2 ^ 149). exact HB. }
  rewrite (mul_one_l v Vv Fv) in Lqv.
  rewrite (fmul_comm (F32.sub Hsv.f1 s) v) in Up, Lpq by assumption.
  rewrite (fmul_comm (F32.sub Hsv.f1 (F32.mul s f)) v) in Uq, Lpq, Lqv by assumption.
  repeat split; try apply Up; try apply Uq; assumption.
Qed.

Lemma ushort_int :
  forall r a, F32.to_ushort r = Done a -> F32.to_int r = Done a.
Proof.
  intros r a H. unfold F32.to_ushort, F32.to_int in *.
  destruct (F32.trunc r) as [ z | ]; [ | discriminate H ].
  destruct ((0 <=? z) && (z <=? 65535)) eqn:E; [ | discriminate H ].
  apply andb_true_iff in E. destruct E as [E0 E1].
  apply Z.leb_le in E0. apply Z.leb_le in E1.
  replace ((F32.int_min <=? z) && (z <=? F32.int_max)) with true; [ exact H | ].
  symmetry. apply andb_true_iff. unfold F32.int_min, F32.int_max.
  split; apply Z.leb_le; lia.
Qed.

(** [(int)(x * 255)] grows with [x] on the unit interval. *)
Lemma channel_mono :
  forall x x', unit_float x -> unit_float x' -> Fnum x <= Fnum x' ->
    exists a b, channel x = Done a /\ channel x' = Done b /\ 0 <= a <= b /\ b <= 255.
Proof.
  intros x x' [Vx [Fx [A0 A1]]] [Vx' [Fx' [A0' A1']]] Hle.
  destruct (scale_unit_mono 16711680 (-16) 255 x x') as [a [b [Ha [Hb Hab]]]];
    try assumption; try reflexivity; try lia;
    try (unfold F32.leb; rewrite leb_Fnum by (try assumption; reflexivity);
         apply Z.leb_le; try exact Hle;
         try (change (Fnum Hsv.f0) with 0; lia);
         try (change (Fnum Hsv.f1) with (2 ^ 149); lia)).
  exists a, b. unfold channel. change Hsv.f255 with (S754_finite false 16711680 (-16)).
  split; [ apply ushort_int; exact Ha | ]. split; [ apply ushort_int; exact Hb | exact Hab ].
Qed.

Lemma small_of_Z :
  forall i, 0 <= i <= 8 ->
    F32.valid (F32.of_Z i) = true /\ is_finite (F32.of_Z i) = true
    /\ Fnum (F32.of_Z i) = i * 2 ^ 149.
Proof.
  intros i H.
  assert (C : i = 0 \/ i = 1 \/ i = 2 \/ i = 3 \/ i = 4 \/ i = 5 \/ i = 6 \/ i = 7 \/ i = 8)
    by lia.
  destruct C as [E | [E | [E | [E | [E | [E | [E | [E | E]]]]]]]]; subst i;
    (split; [ reflexivity | split; [ reflexivity | vm_compute; reflexivity ] ]).
Qed.

(** The fractional part [h / 60 - i] lies in the unit interval. *)
Lemma fraction_unit :
  forall h i, F32.valid h = true -> is_finite h = true -> 0 <= Fnum h <= turn ->
    F32.to_int (F32.div h Hsv.f60) = Done i ->
    0 <= i <= 8 /\ i = Fnum (F32.div h Hsv.f60) / 2 ^ 149
    /\ unit_float (F32.sub (F32.div h Hsv.f60) (F32.of_Z i)).
Proof.
  intros h i V F H Ei.
  destruct (div60_bound h V F H) as [[Vx [Fx Bx]] Nx].
  set (x := F32.div h Hsv.f60) in *.
  assert (P149 : 0 < 2 ^ 149) by (apply Z.pow_pos_nonneg; lia).
  change (2 ^ (3 + 149)) with (8 * 2 ^ 149) in Bx.
  assert (Ii : i = Fnum x / 2 ^ 149).
  { unfold F32.to_int in Ei. rewrite (trunc_nonneg x Vx Fx Nx) in Ei.
    destruct ((F32.int_min <=? Fnum x / 2 ^ 149) && (Fnum x / 2 ^ 149 <=? F32.int_max));
      [ | discriminate Ei ].
    inversion Ei. reflexivity. }
  assert (Ri : 0 <= i <= 8).
  { subst i. split; [ apply Z.div_pos; lia | ].
    apply Z.div_le_upper_bound; lia. }
  split; [ exact Ri | ]. split; [ exact Ii | ].
  destruct (small_of_Z i Ri) as [Vi [Fi Ni]].
  pose proof (Z.div_mod (Fnum x) (2 ^ 149) ltac:(lia)) as DM.
  pose proof (Z.mod_pos_bound (Fnum x) (2 ^ 149) P149) as MB.
  destruct (sub_mono x (F32.of_Z i) Hsv.f1 (S754_zero false) 0)
    as [R1 [R2 [_ [_ [R5 R6]]]]]; try assumption; try reflexivity; try lia;
    try (rewrite Ni; change (Fnum Hsv.f1) with (2 ^ 149);
         change (Fnum (S754_zero false)) with 0; lia).
  change (0 + 149) with 149 in R6.
  repeat split; try assumption; lia.
Qed.

Lemma select_cases :
  forall i v p q t,
    Hsv.select i v p q t = (v, t, p) \/ Hsv.select i v p q t = (q, v, p)
    \/ Hsv.select i v p q t = (p, v, t) \/ Hsv.select i v p q t = (p, q, v)
    \/ Hsv.select i v p q t = (t, p, v) \/ Hsv.select i v p q t = (v, p, q).
Proof.
  intros i v p q t. unfold Hsv.select.
  destruct i as [ | n | n ]; try solve [ auto 7 ].
  do 3 (try (destruct n as [ n | n | ]; try solve [ auto 7 ])).
Qed.

Lemma unit_of_tests :
  forall x, F32.valid x = true -> F32.leb Hsv.f0 x = true -> F32.leb x Hsv.f1 = true ->
    unit_float x.
Proof.
  intros x V L0 L1. destruct (in_unit_interval x V L0 L1) as [F B].
  split; [ exact V | ]. split; [ exact F | exact B ].
Qed.

Lemma unit_bounded : forall x, unit_float x -> bounded_by 0 x.
Proof.
  intros x [V [F [A B]]]. split; [ exact V | ]. split; [ exact F | ].
  change (2 ^ (0 + 149)) with (2 ^ 149). lia.
Qed.

(** After normalization: the largest channel is [(int)(v * 255)] and the
    smallest is [(int)(v * (1 - s) * 255)]. *)
Lemma sector_rgb_extremes :
  forall h s v,
    F32.valid h = true -> is_finite h = true -> 0 <= Fnum h <= turn ->
    unit_float s -> unit_float v ->
    exists r g b cv cp,
      Hsv.sector_rgb h s v = Done (r, g, b)
      /\ channel v = Done cv
      /\ channel (F32.mul v (F32.sub Hsv.f1 s)) = Done cp
      /\ 0 <= cp <= cv /\ cv <= 255
      /\ Z.max r (Z.max g b) = cv
      /\ Z.min r (Z.min g b) = cp.
Proof.
  intros h' s v Vh' Fh' Rh' Us Uv.
  destruct (sector_rgb_total h' s v Vh' Fh' Rh' (unit_bounded s Us) (unit_bounded v Uv))
    as [i [r [g [b [Ei [_ [E C]]]]]]].
  cbv zeta in C.
  destruct (fraction_unit h' i Vh' Fh' Rh' Ei) as [_ [_ Uf]].
  set (f := F32.sub (F32.div h' Hsv.f60) (F32.of_Z i)) in *.
  destruct (sub_one_mono f f Uf Uf (Z.le_refl _)) as [Ug _].
  destruct (hsv_between s v f Us Uv Uf) as [Up [Uq [Lpq Lqv]]].
  destruct (hsv_between s v (F32.sub Hsv.f1 f) Us Uv Ug) as [_ [Ut [Lpt Ltv]]].
  set (p := F32.mul v (F32.sub Hsv.f1 s)) in *.
  set (q := F32.mul v (F32.sub Hsv.f1 (F32.mul s f))) in *.
  set (t := F32.mul v (F32.sub Hsv.f1 (F32.mul s (F32.sub Hsv.f1 f)))) in *.
  destruct (channel_mono p q Up Uq Lpq) as [cp [cq [Hp [Hq [Bpq _]]]]].
  destruct (channel_mono q v Uq Uv Lqv) as [cq' [cv [Hq' [Hv [Bqv Bv]]]]].
  destruct (channel_mono p t Up Ut Lpt) as [cp' [ct [Hp' [Ht [Bpt _]]]]].
  destruct (channel_mono t v Ut Uv Ltv) as [ct' [cv' [Ht' [Hv' [Btv _]]]]].
  assert (cq' = cq) by congruence. assert (cp' = cp) by congruence.
  assert (ct' = ct) by congruence. assert (cv' = cv) by congruence.
  subst cq' cp' ct' cv'.
  exists r, g, b, cv, cp.
  split; [ exact E | ]. split; [ exact Hv | ]. split; [ exact Hp | ].
  split; [ lia | ]. split; [ exact Bv | ].
  destruct C as [Cr [Cg Cb]].
  destruct (select_cases i v p q t) as [S | [S | [S | [S | [S | S]]]]];
    rewrite S in Cr, Cg, Cb; cbn [fst snd] in Cr, Cg, Cb;
    try (assert (r = cv) by congruence); try (assert (r = cp) by congruence);
    try (assert (r = cq) by congruence); try (assert (r = ct) by congruence);
    try (assert (g = cv) by congruence); try (assert (g = cp) by congruence);
    try (assert (g = cq) by congruence); try (assert (g = ct) by congruence);
    try (assert (b = cv) by congruence); try (assert (b = cp) by congruence);
    try (assert (b = cq) by congruence); try (assert (b = ct) by congruence);
    lia.
Qed.

(** X1: for a finite hue of magnitude below 2^27 and a saturation and a
    value between 0 and 1, the conversion returns a colour whose largest
    channel is [(int)(v * 255)] and whose smallest channel is
    [(int)(v * (1 - s) * 255)], whatever the hue.  All three channels lie
    between 0 and 255, so that storing them in the 8-bit fields of the
    colour changes nothing. *)
Theorem hsv_extreme_channels :
  forall h s v,
    F32.valid h = true -> is_finite h = true -> Z.abs (Fnum h) < 2 ^ 176 ->
    F32.valid s = true -> F32.leb Hsv.f0 s = true -> F32.leb s Hsv.f1 = true ->
    F32.valid v = true -> F32.leb Hsv.f0 v = true -> F32.leb v Hsv.f1 = true ->
    forall fuel, (turns h <= fuel)%nat ->
      exists r g b cv cp,
        Hsv.hsv_to_rgb fuel h s v = Done (r, g, b)
        /\ channel v = Done cv
        /\ channel (F32.mul v (F32.sub Hsv.f1 s)) = Done cp
        /\ 0 <= cp <= cv /\ cv <= 255
        /\ Z.max r (Z.max g b) = cv
        /\ Z.min r (Z.min g b) = cp
        /\ Submission.color_out r g b
           = {| Device.red := r; Device.green := g; Device.blue := b |}.
Proof.
  intros h s v Vh Fh Bh Vs Ls0 Ls1 Vv Lv0 Lv1 fuel Hfuel.
  pose proof (unit_of_tests s Vs Ls0 Ls1) as Us.
  pose proof (unit_of_tests v Vv Lv0 Lv1) as Uv.
  destruct (normalize_run h Vh Fh Bh) as [h' [N [Vh' [Fh' [Rh' _]]]]].
  destruct (sector_rgb_extremes h' s v Vh' Fh' Rh' Us Uv)
    as [r [g [b [cv [cp [E [Hv [Hp [B1 [B2 [Mx Mn]]]]]]]]]]].
  exists r, g, b, cv, cp.
  split; [ unfold Hsv.hsv_to_rgb; rewrite (N fuel Hfuel); exact E | ].
  split; [ exact Hv | ]. split; [ exact Hp | ].
  split; [ exact B1 | ]. split; [ exact B2 | ].
  split; [ exact Mx | ]. split; [ exact Mn | ].
  unfold Submission.color_out, uchar. rewrite !Z.mod_small by lia. reflexivity.
Qed.

Lemma hsv_extreme_channels_witness :
  exists r g b cv cp,
    Hsv.hsv_to_rgb 3 (F32.of_double (F64.lit 7255 10))
      (F32.of_double (F64.lit 1 2)) Submission.v = Done (r, g, b)
    /\ channel Submission.v = Done cv
    /\ channel (F32.mul Submission.v (F32.sub Hsv.f1 (F32.of_double (F64.lit 1 2)))) = Done cp
    /\ 0 <= cp <= cv /\ cv <= 255
    /\ Z.max r (Z.max g b) = cv
    /\ Z.min r (Z.min g b) = cp
    /\ Submission.color_out r g b
       = {| Device.red := r; Device.green := g; Device.blue := b |}.
Proof.
  apply hsv_extreme_channels; reflexivity.
Defined.

(** ** Rounding a quotient: the sector index *)

Lemma shr_two :
  forall m l, 0 <= m ->
    Nat.iter 2 shr_1 (Build_shr_record (4 * m + loc_code l) false false)
    = shr_record_of_loc m l.
Proof.
  intros m l Hm.
  assert (C : 0 <= loc_code l <= 3) by (destruct l as [ | [ | | ] ]; cbn; lia).
  rewrite (shr_iter_exact 1 (4 * m + loc_code l)) by lia.
  change (Z.of_nat 2) with 2. change (Z.of_nat 1) with 1.
  change (2 ^ 2) with 4. change (2 ^ 1) with 2.
  assert (E4 : (4 * m + loc_code l) / 4 = m).
  { symmetry. apply (Z.div_unique _ _ _ (loc_code l)); lia. }
  rewrite E4.
  destruct l as [ | [ | | ] ]; cbn [loc_code shr_record_of_loc].
  - replace ((4 * m + 0) / 2) with (2 * m) by (apply (Z.div_unique _ _ _ 0); lia).
    replace ((4 * m + 0) mod 2) with 0 by (apply (Z.mod_unique _ _ (2 * m)); lia).
    rewrite Z.odd_mul. reflexivity.
  - replace ((4 * m + 2) / 2) with (2 * m + 1) by (apply (Z.div_unique _ _ _ 0); lia).
    replace ((4 * m + 2) mod 2) with 0 by (apply (Z.mod_unique _ _ (2 * m + 1)); lia).
    rewrite Z.odd_add, Z.odd_mul. reflexivity.
  - replace ((4 * m + 1) / 2) with (2 * m) by (apply (Z.div_unique _ _ _ 1); lia).
    replace ((4 * m + 1) mod 2) with 1 by (apply (Z.mod_unique _ _ (2 * m)); lia).
    rewrite Z.odd_mul. reflexivity.
  - replace ((4 * m + 3) / 2) with (2 * m + 1) by (apply (Z.div_unique _ _ _ 1); lia).
    replace ((4 * m + 3) mod 2) with 1 by (apply (Z.mod_unique _ _ (2 * m + 1)); lia).
    rewrite Z.odd_add, Z.odd_mul. reflexivity.
Qed.

(** Rounding from a location is rounding the mantissa extended by the
    two bits of the location. *)
Lemma round_aux_loc :
  forall s m e l, 0 <= m -> 0 < 4 * m + loc_code l -> e <= target m e ->
    target (4 * m + loc_code l) (e - 2) = target m e ->
    binary_round_aux 24 128 s m e l = rnd s (4 * m + loc_code l) (e - 2).
Proof.
  intros s m e l Hm HX He HT.
  rewrite <- (binary_round_aux_exact s (4 * m + loc_code l) (e - 2)) by lia.
  unfold binary_round_aux.
  assert (E : shr_fexp 24 128 m e l
              = shr_fexp 24 128 (4 * m + loc_code l) (e - 2) loc_Exact).
  { unfold shr_fexp. fold (digits m). fold (target m e).
    fold (digits (4 * m + loc_code l)). fold (target (4 * m + loc_code l) (e - 2)).
    rewrite HT. cbn [shr_record_of_loc].
    rewrite <- (shr_two m l Hm). unfold shr.
    destruct (target m e - e) as [ | p | p ] eqn:En; [ | | lia ].
    - replace (target m e - (e - 2)) with 2 by lia.
      rewrite iter_pos_nat. change (Pos.to_nat 2) with 2%nat.
      f_equal. lia.
    - replace (target m e - (e - 2)) with (Zpos (p + 2)) by lia.
      rewrite !iter_pos_nat, Pos2Nat.inj_add, Nat.iter_add.
      change (Pos.to_nat 2) with 2%nat. f_equal. lia. }
  rewrite E. reflexivity.
Qed.

Lemma new_location_code :
  forall r, 0 <= r < 15728640 ->
    let c := loc_code (new_location 15728640 r) in
    (r = 0 -> c = 0) /\ (0 < 2 * r < 15728640 -> c = 1)
    /\ (2 * r = 15728640 -> c = 2) /\ (15728640 < 2 * r -> c = 3).
Proof.
  intros r Hr c. subst c. unfold new_location. change (Z.even 15728640) with true.
  cbv iota. unfold new_location_even.
  destruct (Z.eqb_spec r 0) as [E | E].
  - cbn [loc_code]. repeat split; intros; lia.
  - destruct (Z.compare_spec (2 * r) 15728640) as [C | C | C]; cbn [loc_code];
      repeat split; intros; lia.
Qed.

(** The quotient of a positive hue by 60, as one rounding. *)
Lemma div60_spec :
  forall m e, F32.valid (S754_finite false m e) = true ->
    Zpos m * 2 ^ (e + 149) <= turn ->
    let e' := Z.max (digits (Zpos m) + e - 30) (-149) in
    let N := Zpos m * 2 ^ (e + 18 - e') in
    let q := N / 15728640 in
    let r := N mod 15728640 in
    let X := 4 * q + loc_code (new_location 15728640 r) in
    0 < e + 18 - e' /\ -149 <= e' /\ 0 < X /\ 0 <= q
    /\ (-149 < e' -> 2 ^ 23 <= q)
    /\ F32.div (S754_finite false m e) Hsv.f60 = rnd false X (e' - 2).
Proof.
  intros m e V H e' N q r X.
  destruct (valid_finite_inv _ _ _ V) as [_ [He [Hm Hn]]].
  destruct (valid_digits _ _ _ V) as [Hd Hc].
  pose proof (digits_positive (Zpos m) (Pos2Z.is_pos m)) as Dp.
  pose proof (digits_bounds (Zpos m) (Pos2Z.is_pos m)) as Db.
  assert (Hs : 0 < e + 18 - e') by (subst e'; lia).
  assert (Ps : 0 < 2 ^ (e + 18 - e')) by (apply Z.pow_pos_nonneg; lia).
  assert (PN : 0 < N) by (subst N; lia).
  assert (Q0 : 0 <= q) by (subst q; apply Z.div_pos; lia).
  assert (Rr : 0 <= r < 15728640) by (subst r; apply Z.mod_pos_bound; lia).
  assert (DM : N = 15728640 * q + r) by (subst q r; apply Z.div_mod; lia).
  destruct (new_location_code r Rr) as [C0 [C1 [C2 C3]]].
  assert (PX : 0 < X).
  { subst X. destruct (Z.eq_dec q 0) as [Eq | Nq]; [ | lia ].
    assert (r <> 0) by lia.
    destruct (Z.compare_spec (2 * r) 15728640) as [C | C | C];
      [ rewrite C2 by lia | rewrite C1 by lia | rewrite C3 by lia ]; lia. }
  assert (Q23 : -149 < e' -> 2 ^ 23 <= q).
  { intros E. assert (Es' : e + 18 - e' = 48 - digits (Zpos m)) by (subst e'; lia).
    subst q. apply Z.div_le_lower_bound; [ lia | ].
    assert (2 ^ 47 <= N).
    { subst N. replace 47 with ((digits (Zpos m) - 1) + (e + 18 - e')) by lia.
      rewrite (Z.pow_add_r 2 (digits (Zpos m) - 1) (e + 18 - e')) by lia. nia. }
    assert (15728640 * 2 ^ 23 <= 2 ^ 47) by (cbn; lia). lia. }
  assert (Tq : e' <= target q e').
  { rewrite target_eq. destruct (Z.eq_dec e' (-149)) as [ E | E ]; [ lia | ].
    assert (2 ^ 23 <= q) by (apply Q23; subst e'; lia).
    assert (23 < digits q) by (apply digits_ge; [ cbn in *; lia | assumption ]).
    lia. }
  assert (TX : target X (e' - 2) = target q e').
  { rewrite !target_eq. destruct (Z.eq_dec q 0) as [Eq | Nq].
    - assert (E : e' = -149).
      { destruct (Z.eq_dec e' (-149)) as [ E | E ]; [ exact E | ].
        assert (2 ^ 23 <= q) by (apply Q23; subst e'; lia). cbn in *; lia. }
      assert (digits X <= 2).
      { apply digits_le; [ exact PX | lia | ]. subst X. rewrite Eq.
        assert (0 <= loc_code (new_location 15728640 r) <= 3)
          by (destruct (new_location 15728640 r) as [ | [ | | ] ]; cbn; lia).
        change (2 ^ 2) with 4. lia. }
      rewrite Eq. change (digits 0) with 0. lia.
    - replace (digits X) with (digits q + 2); [ lia | ].
      symmetry. pose proof (digits_bounds q ltac:(lia)) as Dq.
      pose proof (digits_positive q ltac:(lia)) as Dqp.
      apply digits_unique; [ | lia ].
      assert (0 <= loc_code (new_location 15728640 r) <= 3)
        by (destruct (new_location 15728640 r) as [ | [ | | ] ]; cbn; lia).
      replace (digits q + 2 - 1) with ((digits q - 1) + 2) by lia.
      rewrite (Z.pow_add_r 2 (digits q - 1) 2), (Z.pow_add_r 2 (digits q) 2) by lia.
      change (2 ^ 2) with 4. subst X. lia. }
  split; [ exact Hs | ]. split; [ subst e'; lia | ]. split; [ exact PX | ].
  split; [ exact Q0 | ]. split; [ exact Q23 | ].
  change (F32.div (S754_finite false m e) Hsv.f60)
    with (SFdiv 24 128 (S754_finite false m e) (S754_finite false 15728640 (-18))).
  cbn [SFdiv xorb]. unfold SFdiv_core_binary.
  change (Zdigits2 (Zpos m)) with (digits (Zpos m)).
  change (Zdigits2 15728640) with 24.
  assert (Ee' : Z.min (fexp 24 128 (digits (Zpos m) + e - (24 + -18))) (e - -18) = e').
  { subst e'. unfold fexp, emin. lia. }
  rewrite Ee'.
  assert (Es : exists p, e - -18 - e' = Zpos p).
  { destruct (e - -18 - e') as [ | p | p ] eqn:E; try lia. exists p. reflexivity. }
  destruct Es as [p Es]. rewrite Es. rewrite <- Es.
  rewrite Z.shiftl_mul_pow2 by lia.
  replace (e - -18 - e') with (e + 18 - e') by lia. fold N.
  destruct (Z.div_eucl N 15728640) as [q1 r1] eqn:Eq.
  assert (Eq1 : q1 = q) by (subst q; rewrite <- div_eucl_fst, Eq; reflexivity).
  assert (Er1 : r1 = r).
  { pose proof (Z.div_eucl_eq N 15728640 ltac:(lia)) as DE. rewrite Eq in DE. lia. }
  subst q1 r1.
  apply round_aux_loc; assumption.
Qed.

(** The quotient by 60 is the rounding of a number that lies on the same
    side of every float as the exact quotient. *)
Lemma div60_rounds :
  forall m e, F32.valid (S754_finite false m e) = true ->
    Zpos m * 2 ^ (e + 149) <= turn ->
    exists X E,
      0 < X
      /\ F32.div (S754_finite false m e) Hsv.f60 = rnd false X E
      /\ (forall My Ey, F32.valid (S754_finite false My Ey) = true ->
            Zpos m * 2 ^ (e + 149) <= 60 * (Zpos My * 2 ^ (Ey + 149)) ->
            ple X E (Zpos My) Ey)
      /\ (forall My Ey, F32.valid (S754_finite false My Ey) = true ->
            60 * (Zpos My * 2 ^ (Ey + 149)) <= Zpos m * 2 ^ (e + 149) ->
            ple (Zpos My) Ey X E).
Proof.
  intros m e V H.
  destruct (div60_spec m e V H) as [Hs [He' [PX [Q0 [Q23 ED]]]]].
  set (e' := Z.max (digits (Zpos m) + e - 30) (-149)) in *.
  set (N := Zpos m * 2 ^ (e + 18 - e')) in *.
  set (q := N / 15728640) in *. set (r := N mod 15728640) in *.
  set (c := loc_code (new_location 15728640 r)) in *.
  set (X := 4 * q + c) in *.
  destruct (valid_finite_inv _ _ _ V) as [_ [He _]].
  assert (Ps : 0 < 2 ^ (e + 18 - e')) by (apply Z.pow_pos_nonneg; lia).
  assert (PN : 0 < N) by (subst N; lia).
  assert (Rr : 0 <= r < 15728640) by (subst r; apply Z.mod_pos_bound; lia).
  assert (DM : N = 15728640 * q + r) by (subst q r; apply Z.div_mod; lia).
  destruct (new_location_code r Rr) as [C0 [C1 [C2 C3]]]. fold c in C0, C1, C2, C3.
  assert (Cc : 0 <= c <= 3)
    by (subst c; destruct (new_location 15728640 r) as [ | [ | | ] ]; cbn; lia).
  assert (PE : 0 < 2 ^ (e' + 149)) by (apply Z.pow_pos_nonneg; lia).
  assert (PA : 0 < 2 ^ (e + 149)) by (apply Z.pow_pos_nonneg; lia).
  assert (EN : N * 2 ^ (e' + 149) = Zpos m * 2 ^ (e + 149) * 2 ^ 18).
  { subst N. rewrite <- !Z.mul_assoc. f_equal.
    rewrite <- !Z.pow_add_r by lia. f_equal. lia. }
  exists X, (e' - 2). split; [ exact PX | ]. split; [ exact ED | ].
  split.
  - intros My Ey Vy Hle.
    destruct (valid_finite_inv _ _ _ Vy) as [_ [HEy [HMy _]]].
    assert (PB : 0 < 2 ^ (Ey + 149)) by (apply Z.pow_pos_nonneg; lia).
    destruct (Z_le_gt_dec (e' - 2) Ey) as [L | G].
    + apply (ple_scaled _ _ _ _ (e' - 2)); [ lia | lia | ].
      replace (e' - 2 - (e' - 2)) with 0 by lia. rewrite Z.pow_0_r, Z.mul_1_r.
      set (W := Zpos My * 2 ^ (Ey - (e' - 2))).
      assert (EW : W * 2 ^ (e' + 149) = Zpos My * 2 ^ (Ey + 149) * 4).
      { subst W. rewrite <- !Z.mul_assoc. f_equal.
        change 4 with (2 ^ 2). rewrite <- !Z.pow_add_r by lia. f_equal. lia. }
      assert (K : 4 * N <= W * 15728640).
      { apply (Z.mul_le_mono_pos_r _ _ (2 ^ (e' + 149))); [ exact PE | ].
        replace (4 * N * 2 ^ (e' + 149)) with (4 * (N * 2 ^ (e' + 149))) by ring.
        replace (W * 15728640 * 2 ^ (e' + 149)) with (15728640 * (W * 2 ^ (e' + 149))) by ring.
        rewrite EN, EW. change (2 ^ 18) with 262144. lia. }
      subst X.
      destruct (Z.eq_dec r 0) as [R0 | R0]; [ rewrite (C0 R0) in *; lia | ].
      destruct (Z.compare_spec (2 * r) 15728640) as [C | C | C];
        [ rewrite C2 in * by lia | rewrite C1 in * by lia | rewrite C3 in * by lia ]; lia.
    + exfalso. assert (E : -149 < e') by lia. specialize (Q23 E).
      assert (P3 : 8 * 2 ^ (Ey + 149) <= 2 ^ (e' + 149)).
      { change 8 with (2 ^ 3). rewrite <- Z.pow_add_r by lia.
        apply Z.pow_le_mono_r; lia. }
      change (2 ^ 23) with 8388608 in Q23. change (2 ^ 24) with 16777216 in HMy.
      change (2 ^ 18) with 262144 in EN. nia.
  - intros My Ey Vy Hle.
    destruct (valid_finite_inv _ _ _ Vy) as [_ [HEy [HMy _]]].
    assert (PB : 0 < 2 ^ (Ey + 149)) by (apply Z.pow_pos_nonneg; lia).
    destruct (Z_le_gt_dec (e' - 2) Ey) as [L | G].
    + apply (ple_scaled _ _ _ _ (e' - 2)); [ lia | lia | ].
      replace (e' - 2 - (e' - 2)) with 0 by lia. rewrite Z.pow_0_r, Z.mul_1_r.
      set (W := Zpos My * 2 ^ (Ey - (e' - 2))).
      assert (EW : W * 2 ^ (e' + 149) = Zpos My * 2 ^ (Ey + 149) * 4).
      { subst W. rewrite <- !Z.mul_assoc. f_equal.
        change 4 with (2 ^ 2). rewrite <- !Z.pow_add_r by lia. f_equal. lia. }
      assert (K : W * 15728640 <= 4 * N).
      { apply (Z.mul_le_mono_pos_r _ _ (2 ^ (e' + 149))); [ exact PE | ].
        replace (4 * N * 2 ^ (e' + 149)) with (4 * (N * 2 ^ (e' + 149))) by ring.
        replace (W * 15728640 * 2 ^ (e' + 149)) with (15728640 * (W * 2 ^ (e' + 149))) by ring.
        rewrite EN, EW. change (2 ^ 18) with 262144. lia. }
      subst X.
      destruct (Z.eq_dec r 0) as [R0 | R0]; [ rewrite (C0 R0) in *; lia | ].
      destruct (Z.compare_spec (2 * r) 15728640) as [C | C | C];
        [ rewrite C2 in * by lia | rewrite C1 in * by lia | rewrite C3 in * by lia ]; lia.
    + assert (E : -149 < e') by lia. specialize (Q23 E).
      apply (ple_scaled _ _ _ _ Ey); [ lia | lia | ].
      replace (Ey - Ey) with 0 by lia. rewrite Z.pow_0_r, Z.mul_1_r.
      assert (2 ^ 1 <= 2 ^ (e' - 2 - Ey)) by (apply Z.pow_le_mono_r; lia).
      change (2 ^ 1) with 2 in *.
      change (2 ^ 23) with 8388608 in Q23. change (2 ^ 24) with 16777216 in HMy.
      subst X. nia.
Qed.

Lemma div60_between :
  forall m e, F32.valid (S754_finite false m e) = true ->
    Zpos m * 2 ^ (e + 149) <= turn ->
    F32.valid (F32.div (S754_finite false m e) Hsv.f60) = true
    /\ is_finite (F32.div (S754_finite false m e) Hsv.f60) = true
    /\ (forall My Ey, F32.valid (S754_finite false My Ey) = true ->
          Zpos My * 2 ^ (Ey + 149) <= 2 ^ (3 + 149) ->
          Zpos m * 2 ^ (e + 149) <= 60 * (Zpos My * 2 ^ (Ey + 149)) ->
          Fnum (F32.div (S754_finite false m e) Hsv.f60) <= Zpos My * 2 ^ (Ey + 149))
    /\ (forall My Ey, F32.valid (S754_finite false My Ey) = true ->
          60 * (Zpos My * 2 ^ (Ey + 149)) <= Zpos m * 2 ^ (e + 149) ->
          Zpos My * 2 ^ (Ey + 149) <= Fnum (F32.div (S754_finite false m e) Hsv.f60)).
Proof.
  intros m e V H.
  destruct (div60_rounds m e V H) as [X [E [PX [ED [Up Dn]]]]].
  rewrite ED.
  assert (Self : forall My Ey, F32.valid (S754_finite false My Ey) = true ->
                   rnd false (Zpos My) Ey = S754_finite false My Ey).
  { intros My Ey Vy. apply rnd_exact; try assumption; try lia; unfold ple; lia. }
  assert (V8 : F32.valid (S754_finite false 8388608 (-20)) = true) by reflexivity.
  assert (P8 : ple X E 8388608 (-20)).
  { apply Up; [ exact V8 | ]. unfold turn in H.
    change (2 ^ (-20 + 149)) with (2 ^ 129).
    change (2 ^ 149) with (1048576 * 2 ^ 129) in H.
    assert (0 < 2 ^ 129) by (apply Z.pow_pos_nonneg; lia). lia. }
  assert (B8 : ple 8388608 (-20) 1 3) by (unfold ple; cbn; lia).
  destruct (rnd_mono_pos X E 8388608 (-20) 3 PX ltac:(lia) ltac:(lia) P8 B8)
    as [R1 [R2 _]].
  split; [ exact R1 | ]. split; [ exact R2 | ]. split.
  - intros My Ey Vy By Hle.
    destruct (valid_finite_inv _ _ _ Vy) as [_ [HEy _]].
    destruct (rnd_mono_pos X E (Zpos My) Ey 3 PX (Pos2Z.is_pos My) ltac:(lia))
      as [_ [_ [_ [_ [R _]]]]].
    + apply Up; assumption.
    + apply ple_Fnum; lia.
    + rewrite (Self My Ey Vy), Fnum_finite_pos in R. lia.
  - intros My Ey Vy Hle.
    destruct (rnd_mono_pos (Zpos My) Ey X E 3 (Pos2Z.is_pos My) PX ltac:(lia))
      as [_ [_ [_ [_ [R _]]]]].
    + apply Dn; assumption.
    + apply (ple_trans X E 8388608 (-20) 1 3); [ lia | exact P8 | exact B8 ].
    + rewrite (Self My Ey Vy), Fnum_finite_pos in R. lia.
Qed.

(** A float below a float that is not a power of two is at most its
    predecessor. *)
Lemma float_below :
  forall h mb eb, F32.valid h = true -> is_finite h = true ->
    F32.valid (S754_finite false mb eb) = true -> 2 ^ 23 < Zpos mb ->
    Fnum h < Zpos mb * 2 ^ (eb + 149) ->
    Fnum h <= (Zpos mb - 1) * 2 ^ (eb + 149).
Proof.
  intros h mb eb V F Vb Hb H.
  destruct (valid_finite_inv _ _ _ Vb) as [_ [Heb _]].
  assert (Pb : 0 < 2 ^ (eb + 149)) by (apply Z.pow_pos_nonneg; lia).
  destruct h as [ s | s | | s m e ]; try discriminate F.
  { cbn [Fnum]. nia. }
  destruct (valid_finite_inv _ _ _ V) as [_ [He [Hm _]]].
  assert (Pe : 0 < 2 ^ (e + 149)) by (apply Z.pow_pos_nonneg; lia).
  destruct s; cbn [Fnum cond_Zopp] in *; [ nia | ].
  destruct (Z_le_gt_dec eb e) as [L | G].
  - assert (E : 2 ^ (e + 149) = 2 ^ (e - eb) * 2 ^ (eb + 149)).
    { rewrite <- Z.pow_add_r by lia. f_equal. lia. }
    rewrite E in *. rewrite Z.mul_assoc in *.
    assert (Zpos m * 2 ^ (e - eb) < Zpos mb) by nia.
    apply Z.mul_le_mono_nonneg_r; lia.
  - assert (E : 2 ^ (eb + 149) = 2 ^ (eb - e) * 2 ^ (e + 149)).
    { rewrite <- Z.pow_add_r by lia. f_equal. lia. }
    assert (2 ^ 1 <= 2 ^ (eb - e)) by (apply Z.pow_le_mono_r; lia).
    change (2 ^ 1) with 2 in *.
    change (2 ^ 23) with 8388608 in Hb. change (2 ^ 24) with 16777216 in Hm.
    rewrite E. nia.
Qed.

Lemma sector_in_band :
  forall h k mb eb Pm Pe,
    F32.valid h = true -> is_finite h = true ->
    0 <= k <= 7 ->
    60 * k * 2 ^ 149 <= Fnum h -> Fnum h < Zpos mb * 2 ^ (eb + 149) ->
    Zpos mb * 2 ^ (eb + 149) <= turn ->
    F32.valid (S754_finite false mb eb) = true -> 2 ^ 23 < Zpos mb ->
    F32.valid (S754_finite false Pm Pe) = true ->
    (Zpos mb - 1) * 2 ^ (eb + 149) <= 60 * (Zpos Pm * 2 ^ (Pe + 149)) ->
    Zpos Pm * 2 ^ (Pe + 149) < (k + 1) * 2 ^ 149 ->
    (k = 0 \/ exists Lm Le, F32.valid (S754_finite false Lm Le) = true
                            /\ Zpos Lm * 2 ^ (Le + 149) = k * 2 ^ 149) ->
    F32.to_int (F32.div h Hsv.f60) = Done k.
Proof.
  intros h k mb eb Pm Pe V F Hk Lo Hi Ht Vb Hb VP HP HP1 HL.
  assert (P149 : 0 < 2 ^ 149) by (apply Z.pow_pos_nonneg; lia).
  pose proof (float_below h mb eb V F Vb Hb Hi) as FB.
  assert (N0 : 0 <= Fnum h) by nia.
  destruct (div60_bound h V F ltac:(lia)) as [[Vx [Fx _]] Nx].
  assert (B : k * 2 ^ 149 <= Fnum (F32.div h Hsv.f60) < (k + 1) * 2 ^ 149).
  { destruct h as [ s | s | | s m e ]; try discriminate F.
    { cbn [Fnum] in Lo. assert (k = 0) by nia. subst k.
      change (F32.div (S754_zero s) Hsv.f60) with (S754_zero (xorb s false)).
      cbn [Fnum]. lia. }
    destruct (valid_finite_inv _ _ _ V) as [_ [He _]].
    assert (Pe' : 0 < 2 ^ (e + 149)) by (apply Z.pow_pos_nonneg; lia).
    destruct s; cbn [Fnum cond_Zopp] in N0, Lo, Hi, FB; [ nia | ].
    destruct (div60_between m e V ltac:(lia)) as [_ [_ [Up Dn]]].
    split.
    - destruct HL as [K0 | [Lm [Le [VL EL]]]]; [ subst k; lia | ].
      rewrite <- EL. apply Dn; [ exact VL | ]. rewrite EL. lia.
    - apply Z.le_lt_trans with (Zpos Pm * 2 ^ (Pe + 149)); [ | exact HP1 ].
      apply Up; [ exact VP | | lia ].
      change (2 ^ (3 + 149)) with (8 * 2 ^ 149). nia. }
  unfold F32.to_int. rewrite (trunc_nonneg _ Vx Fx Nx).
  assert (Q : Fnum (F32.div h Hsv.f60) / 2 ^ 149 = k).
  { symmetry. apply (Z.div_unique _ _ _ (Fnum (F32.div h Hsv.f60) - k * 2 ^ 149)); lia. }
  rewrite Q. unfold F32.int_min, F32.int_max.
  replace ((- 2 ^ 31 <=? k) && (k <=? 2 ^ 31 - 1)) with true; [ reflexivity | ].
  symmetry. apply andb_true_iff. split; apply Z.leb_le; cbn; lia.
Qed.

(** The sector index is the integer part of the exact quotient. *)
Lemma sector_floor :
  forall h, F32.valid h = true -> Hsv.in_range h = true ->
    Hsv.sector h = Done (Fnum h / (60 * 2 ^ 149))
    /\ 0 <= Fnum h / (60 * 2 ^ 149) <= 5
    /\ 60 * (Fnum h / (60 * 2 ^ 149)) * 2 ^ 149 <= Fnum h
       < 60 * (Fnum h / (60 * 2 ^ 149) + 1) * 2 ^ 149.
Proof.
  intros h V R. destruct (in_range_inv h V R) as [F [H0 H1]].
  assert (P149 : 0 < 2 ^ 149) by (apply Z.pow_pos_nonneg; lia).
  set (i := Fnum h / (60 * 2 ^ 149)).
  pose proof (Z.div_mod (Fnum h) (60 * 2 ^ 149) ltac:(lia)) as DM. fold i in DM.
  pose proof (Z.mod_pos_bound (Fnum h) (60 * 2 ^ 149) ltac:(lia)) as MB.
  unfold turn in H1.
  assert (Ri : 0 <= i <= 5) by nia.
  assert (Band : 60 * i * 2 ^ 149 <= Fnum h < 60 * (i + 1) * 2 ^ 149) by lia.
  split; [ | split; [ exact Ri | exact Band ] ].
  unfold Hsv.sector.
  assert (C : i = 0 \/ i = 1 \/ i = 2 \/ i = 3 \/ i = 4 \/ i = 5) by lia.
  destruct C as [E | [E | [E | [E | [E | E]]]]]; rewrite E in *.
  - apply (sector_in_band h 0 15728640 (-18) 16777215 (-24));
      try assumption; try reflexivity; try lia;
      try (vm_compute; first [ reflexivity | discriminate ]).
  - apply (sector_in_band h 1 15728640 (-17) 16777215 (-23));
      try assumption; try reflexivity; try lia;
      try (vm_compute; first [ reflexivity | discriminate ]).
    right. exists 8388608%positive, (-23). split; reflexivity.
  - apply (sector_in_band h 2 11796480 (-16) 12582911 (-22));
      try assumption; try reflexivity; try lia;
      try (vm_compute; first [ reflexivity | discriminate ]).
    right. exists 8388608%positive, (-22). split; reflexivity.
  - apply (sector_in_band h 3 15728640 (-16) 16777215 (-22));
      try assumption; try reflexivity; try lia;
      try (vm_compute; first [ reflexivity | discriminate ]).
    right. exists 12582912%positive, (-22). split; reflexivity.
  - apply (sector_in_band h 4 9830400 (-15) 10485759 (-21));
      try assumption; try reflexivity; try lia;
      try (vm_compute; first [ reflexivity | discriminate ]).
    right. exists 8388608%positive, (-21). split; reflexivity.
  - apply (sector_in_band h 5 11796480 (-15) 12582911 (-21));
      try assumption; try reflexivity; try lia;
      try (vm_compute; first [ reflexivity | discriminate ]).
    right. exists 10485760%positive, (-21). split; reflexivity.
Qed.

(** X3: for every [float] hue in [0, 360) the rounded quotient [h / 60]
    truncates to the integer part of the exact quotient: the sector [i]
    is between 0 and 5, with 60 i <= h < 60 (i + 1), and the fractional
    part [h / 60 - i] lies in the unit interval.  Rounding never moves a
    hue into the next sector. *)
Theorem sector_is_floor :
  forall h, F32.valid h = true -> Hsv.in_range h = true ->
    exists i,
      Hsv.sector h = Done i
      /\ i = Fnum h / (60 * 2 ^ 149)
      /\ 0 <= i <= 5
      /\ 60 * i * 2 ^ 149 <= Fnum h < 60 * (i + 1) * 2 ^ 149
      /\ unit_float (F32.sub (F32.div h Hsv.f60) (F32.of_Z i)).
Proof.
  intros h V R. destruct (in_range_inv h V R) as [F [H0 H1]].
  destruct (sector_floor h V R) as [S [Ri Band]].
  exists (Fnum h / (60 * 2 ^ 149)).
  split; [ exact S | ]. split; [ reflexivity | ].
  split; [ exact Ri | ]. split; [ exact Band | ].
  destruct (fraction_unit h _ V F ltac:(lia) S) as [_ [_ U]]. exact U.
Qed.

Lemma sector_is_floor_witness :
  exists i,
    Hsv.sector (F32.of_double (F64.lit 1199 10)) = Done i
    /\ i = Fnum (F32.of_double (F64.lit 1199 10)) / (60 * 2 ^ 149)
    /\ 0 <= i <= 5
    /\ 60 * i * 2 ^ 149 <= Fnum (F32.of_double (F64.lit 1199 10)) < 60 * (i + 1) * 2 ^ 149
    /\ unit_float (F32.sub (F32.div (F32.of_double (F64.lit 1199 10)) Hsv.f60) (F32.of_Z i)).
Proof.
  apply sector_is_floor; reflexivity.
Defined.

(** ** Brighter and paler colours *)

Lemma select_related :
  forall (R : spec_float -> spec_float -> Prop) i v p q t v' p' q' t',
    R v v' -> R p p' -> R q q' -> R t t' ->
    R (fst (fst (Hsv.select i v p q t))) (fst (fst (Hsv.select i v' p' q' t')))
    /\ R (snd (fst (Hsv.select i v p q t))) (snd (fst (Hsv.select i v' p' q' t')))
    /\ R (snd (Hsv.select i v p q t)) (snd (Hsv.select i v' p' q' t')).
Proof.
  intros R i v p q t v' p' q' t' Hv Hp Hq Ht. unfold Hsv.select.
  destruct i as [ | n | n ]; cbn [fst snd]; try solve [ repeat split; assumption ].
  do 3 (try (destruct n as [ n | n | ]; cbn [fst snd];
             try solve [ repeat split; assumption ])).
Qed.

(** [v * (1 - s * f)] grows with [v] and shrinks when [s] grows. *)
Lemma hsv_term_mono :
  forall s s' v v' f,
    unit_float s -> unit_float s' -> unit_float v -> unit_float v' -> unit_float f ->
    Fnum s' <= Fnum s -> Fnum v <= Fnum v' ->
    unit_float (F32.mul v (F32.sub Hsv.f1 (F32.mul s f)))
    /\ unit_float (F32.mul v' (F32.sub Hsv.f1 (F32.mul s' f)))
    /\ Fnum (F32.mul v (F32.sub Hsv.f1 (F32.mul s f)))
       <= Fnum (F32.mul v' (F32.sub Hsv.f1 (F32.mul s' f))).
Proof.
  intros s s' v v' f Us Us' Uv Uv' Uf Ls Lv.
  destruct (mul_unit_mono s' s f Us' Us Uf Ls) as [UA' [UA LA]].
  destruct (sub_one_mono _ _ UA UA' LA) as [UB [UB' LB]].
  set (B := F32.sub Hsv.f1 (F32.mul s f)) in *.
  set (B' := F32.sub Hsv.f1 (F32.mul s' f)) in *.
  destruct (mul_unit_mono v v' B Uv Uv' UB Lv) as [U1 [U2 L1]].
  destruct (mul_unit_mono B B' v' UB UB' Uv' LB) as [_ [U3 L2]].
  pose proof Uv' as [Vv' [Fv' _]]. pose proof UB as [VB [FB _]]. pose proof UB' as [VB' [FB' _]].
  rewrite (fmul_comm B v'), (fmul_comm B' v') in L2 by assumption.
  rewrite (fmul_comm B' v') in U3 by assumption.
  split; [ exact U1 | ]. split; [ exact U3 | lia ].
Qed.

(** X12: for a fixed finite hue of magnitude below 2^27, raising the
    value or lowering the saturation, both kept between 0 and 1, never
    lowers a channel of the colour returned. *)
Theorem brighter_and_paler :
  forall h s v s' v',
    F32.valid h = true -> is_finite h = true -> Z.abs (Fnum h) < 2 ^ 176 ->
    unit_float s -> unit_float s' -> unit_float v -> unit_float v' ->
    Fnum s' <= Fnum s -> Fnum v <= Fnum v' ->
    forall fuel, (turns h <= fuel)%nat ->
      exists r g b r' g' b',
        Hsv.hsv_to_rgb fuel h s v = Done (r, g, b)
        /\ Hsv.hsv_to_rgb fuel h s' v' = Done (r', g', b')
        /\ r <= r' /\ g <= g' /\ b <= b'.
Proof.
  intros h s v s' v' Vh Fh Bh Us Us' Uv Uv' Ls Lv fuel Hfuel.
  destruct (normalize_run h Vh Fh Bh) as [h' [N [Vh' [Fh' [Rh' _]]]]].
  destruct (sector_rgb_total h' s v Vh' Fh' Rh' (unit_bounded s Us) (unit_bounded v Uv))
    as [i [r [g [b [Ei [_ [E [Cr [Cg Cb]]]]]]]]].
  destruct (sector_rgb_total h' s' v' Vh' Fh' Rh' (unit_bounded s' Us') (unit_bounded v' Uv'))
    as [i' [r' [g' [b' [Ei' [_ [E' [Cr' [Cg' Cb']]]]]]]]].
  assert (i' = i) by congruence. subst i'.
  destruct (fraction_unit h' i Vh' Fh' Rh' Ei) as [_ [_ Uf]].
  set (f := F32.sub (F32.div h' Hsv.f60) (F32.of_Z i)) in *.
  destruct (sub_one_mono f f Uf Uf (Z.le_refl _)) as [Ug _].
  (* the four values of both conversions, in order *)
  assert (Mp : unit_float (F32.mul v (F32.sub Hsv.f1 s))
               /\ unit_float (F32.mul v' (F32.sub Hsv.f1 s'))
               /\ Fnum (F32.mul v (F32.sub Hsv.f1 s))
                  <= Fnum (F32.mul v' (F32.sub Hsv.f1 s'))).
  { destruct (sub_one_mono s s' Us Us' Ls) as [UB [UB' LB]].
    destruct (mul_unit_mono v v' _ Uv Uv' UB Lv) as [U1 [U2 L1]].
    destruct (mul_unit_mono _ _ v' UB UB' Uv' LB) as [_ [U3 L2]].
    pose proof Uv' as [Vv' [Fv' _]]. pose proof UB as [VB [FB _]].
    pose proof UB' as [VB' [FB' _]].
    rewrite (fmul_comm (F32.sub Hsv.f1 s) v'), (fmul_comm (F32.sub Hsv.f1 s') v') in L2
      by assumption.
    rewrite (fmul_comm (F32.sub Hsv.f1 s') v') in U3 by assumption.
    split; [ exact U1 | ]. split; [ exact U3 | lia ]. }
  pose proof (hsv_term_mono s s' v v' f Us Us' Uv Uv' Uf Ls Lv) as Mq.
  pose proof (hsv_term_mono s s' v v' (F32.sub Hsv.f1 f) Us Us' Uv Uv' Ug Ls Lv) as Mt.
  set (R := fun x x' : spec_float =>
              forall c c', channel x = Done c -> channel x' = Done c' -> c <= c').
  assert (Rm : forall x x', unit_float x -> unit_float x' -> Fnum x <= Fnum x' -> R x x').
  { intros x x' Ux Ux' L c c' Hc Hc'.
    destruct (channel_mono x x' Ux Ux' L) as [a [a' [Ha [Ha' [B1 _]]]]].
    assert (c = a) by congruence. assert (c' = a') by congruence. lia. }
  destruct (select_related R i
              v (F32.mul v (F32.sub Hsv.f1 s))
              (F32.mul v (F32.sub Hsv.f1 (F32.mul s f)))
              (F32.mul v (F32.sub Hsv.f1 (F32.mul s (F32.sub Hsv.f1 f))))
              v' (F32.mul v' (F32.sub Hsv.f1 s'))
              (F32.mul v' (F32.sub Hsv.f1 (F32.mul s' f)))
              (F32.mul v' (F32.sub Hsv.f1 (F32.mul s' (F32.sub Hsv.f1 f)))))
    as [R1 [R2 R3]].
  - apply Rm; assumption.
  - apply Rm; apply Mp.
  - apply Rm; apply Mq.
  - apply Rm; apply Mt.
  - exists r, g, b, r', g', b'.
    split; [ unfold Hsv.hsv_to_rgb; rewrite (N fuel Hfuel); exact E | ].
    split; [ unfold Hsv.hsv_to_rgb; rewrite (N fuel Hfuel); exact E' | ].
    split; [ exact (R1 r r' Cr Cr') | ].
    split; [ exact (R2 g g' Cg Cg') | exact (R3 b b' Cb Cb') ].
Qed.

Lemma brighter_and_paler_witness :
  exists r g b r' g' b',
    Hsv.hsv_to_rgb 3 (F32.of_double (F64.lit 7255 10)) Hsv.f1 Submission.v = Done (r, g, b)
    /\ Hsv.hsv_to_rgb 3 (F32.of_double (F64.lit 7255 10))
         (F32.of_double (F64.lit 1 2)) Hsv.f1 = Done (r', g', b')
    /\ r <= r' /\ g <= g' /\ b <= b'.
Proof.
  apply brighter_and_paler; try reflexivity;
    try (split; [ reflexivity | split; [ reflexivity | vm_compute; split; discriminate ] ]);
    vm_compute; discriminate.
Defined.

(** ** The dominant channel of each sector *)

(** X13: for a hue in [0, 360) and a saturation and a value between 0
    and 1, the sector [i] = integer part of h / 60 decides which channel
    is the largest, [(int)(v * 255)], and which is the smallest,
    [(int)(v * (1 - s) * 255)]: red and blue in sector 0, green and blue
    in sector 1, green and red in sector 2, blue and red in sector 3, blue
    and green in sector 4, red and green in sector 5. *)
Theorem dominant_channel :
  forall h s v,
    F32.valid h = true -> Hsv.in_range h = true -> unit_float s -> unit_float v ->
    forall fuel,
      exists r g b cv cp i,
        Hsv.hsv_to_rgb fuel h s v = Done (r, g, b)
        /\ channel v = Done cv
        /\ channel (F32.mul v (F32.sub Hsv.f1 s)) = Done cp
        /\ Z.max r (Z.max g b) = cv /\ Z.min r (Z.min g b) = cp
        /\ Hsv.sector h = Done i
        /\ 60 * i * 2 ^ 149 <= Fnum h < 60 * (i + 1) * 2 ^ 149
        /\ (i = 0 /\ r = cv /\ b = cp \/ i = 1 /\ g = cv /\ b = cp
            \/ i = 2 /\ g = cv /\ r = cp \/ i = 3 /\ b = cv /\ r = cp
            \/ i = 4 /\ b = cv /\ g = cp \/ i = 5 /\ r = cv /\ g = cp).
Proof.
  intros h s v V R Us Uv fuel.
  destruct (in_range_inv h V R) as [F [H0 H1]].
  destruct (sector_floor h V R) as [S [Ri Band]].
  set (i := Fnum h / (60 * 2 ^ 149)) in *.
  destruct (sector_rgb_extremes h s v V F ltac:(lia) Us Uv)
    as [r [g [b [cv [cp [E [Hv [Hp [_ [_ [Mx Mn]]]]]]]]]]].
  destruct (sector_rgb_total h s v V F ltac:(lia) (unit_bounded s Us) (unit_bounded v Uv))
    as [i' [r' [g' [b' [Ei' [_ [E' [Cr [Cg Cb]]]]]]]]].
  assert (i' = i) by (unfold Hsv.sector in S; congruence). subst i'.
  assert (Eq : (r', g', b') = (r, g, b)) by congruence.
  inversion Eq. subst r' g' b'.
  exists r, g, b, cv, cp, i.
  split; [ unfold Hsv.hsv_to_rgb; rewrite normalize_in_range by assumption; exact E | ].
  split; [ exact Hv | ]. split; [ exact Hp | ].
  split; [ exact Mx | ]. split; [ exact Mn | ].
  split; [ exact S | ]. split; [ exact Band | ].
  assert (C : i = 0 \/ i = 1 \/ i = 2 \/ i = 3 \/ i = 4 \/ i = 5) by lia.
  destruct C as [K | [K | [K | [K | [K | K]]]]]; rewrite K in Cr, Cg, Cb;
    cbn [Hsv.select fst snd] in Cr, Cg, Cb.
  - left. split; [ exact K | ]. split; congruence.
  - right; left. split; [ exact K | ]. split; congruence.
  - right; right; left. split; [ exact K | ]. split; congruence.
  - right; right; right; left. split; [ exact K | ]. split; congruence.
  - right; right; right; right; left. split; [ exact K | ]. split; congruence.
  - right; right; right; right; right. split; [ exact K | ]. split; congruence.
Qed.

Lemma dominant_channel_witness :
  exists r g b cv cp i,
    Hsv.hsv_to_rgb 0 (F32.of_double (F64.lit 1199 10)) Hsv.f1 Submission.v = Done (r, g, b)
    /\ channel Submission.v = Done cv
    /\ channel (F32.mul Submission.v (F32.sub Hsv.f1 Hsv.f1)) = Done cp
    /\ Z.max r (Z.max g b) = cv /\ Z.min r (Z.min g b) = cp
    /\ Hsv.sector (F32.of_double (F64.lit 1199 10)) = Done i
    /\ 60 * i * 2 ^ 149 <= Fnum (F32.of_double (F64.lit 1199 10)) < 60 * (i + 1) * 2 ^ 149
    /\ (i = 0 /\ r = cv /\ b = cp \/ i = 1 /\ g = cv /\ b = cp
        \/ i = 2 /\ g = cv /\ r = cp \/ i = 3 /\ b = cv /\ r = cp
        \/ i = 4 /\ b = cv /\ g = cp \/ i = 5 /\ r = cv /\ g = cp).
Proof.
  apply dominant_channel; try reflexivity;
    try (split; [ reflexivity | split; [ reflexivity | vm_compute; split; discriminate ] ]).
Defined.

(** ** Hues that are not numbers *)

Lemma wrap_low_stuck :
  forall h, F32.ltb h Hsv.f0 = true -> F32.add h Hsv.f360 = h ->
  forall fuel, Hsv.wrap_low fuel h = Timeout.
Proof.
  intros h L E. induction fuel as [ | n IH ]; cbn [Hsv.wrap_low]; rewrite L.
  - reflexivity.
  - rewrite E. exact IH.
Qed.

Lemma channel_finite :
  forall x c, channel x = Done c -> is_finite x = true.
Proof.
  intros x c H. unfold channel, F32.to_int in H.
  destruct x as [ sx | sx | | sx mx ex ]; try reflexivity.
  - destruct sx; discriminate H.
  - discriminate H.
Qed.

Lemma obind_done :
  forall (A B : Type) (c : outcome A) (k : A -> outcome B) b,
    obind c k = Done b -> exists a, c = Done a /\ k a = Done b.
Proof.
  intros A B c k b H. destruct c as [ a | | ]; try discriminate H.
  exists a. split; [ reflexivity | exact H ].
Qed.

Lemma sector_rgb_uses :
  forall h s v c, Hsv.sector_rgb h s v = Done c ->
    (exists cv, channel v = Done cv)
    /\ (exists cp, channel (F32.mul v (F32.sub Hsv.f1 s)) = Done cp).
Proof.
  intros h s v c H.
  destruct (F32.to_int (F32.div h Hsv.f60)) as [ i | | ] eqn:Ei;
    [ | unfold Hsv.sector_rgb in H; rewrite Ei in H; discriminate H
      | unfold Hsv.sector_rgb in H; rewrite Ei in H; discriminate H ].
  rewrite (sector_rgb_channels h s v i Ei) in H. cbv zeta in H.
  set (f := F32.sub (F32.div h Hsv.f60) (F32.of_Z i)) in *.
  set (p := F32.mul v (F32.sub Hsv.f1 s)) in *.
  set (q := F32.mul v (F32.sub Hsv.f1 (F32.mul s f))) in *.
  set (t := F32.mul v (F32.sub Hsv.f1 (F32.mul s (F32.sub Hsv.f1 f)))) in *.
  apply obind_done in H. destruct H as [r [Hr H]].
  apply obind_done in H. destruct H as [g [Hg H]].
  apply obind_done in H. destruct H as [b [Hb _]].
  destruct (select_has i v p q t) as [Sp Sv].
  split.
  - destruct Sv as [E | [E | E]]; rewrite E in *; eauto.
  - destruct Sp as [E | [E | E]]; rewrite E in *; eauto.
Qed.

Lemma mul_sub_finite :
  forall v s, is_finite v = true ->
    is_finite (F32.mul v (F32.sub Hsv.f1 s)) = true -> is_finite s = true.
Proof.
  intros v s Fv H.
  destruct s as [ ss | ss | | ss ms es ]; try reflexivity.
  - destruct v as [ sv | sv | | sv mv ev ]; try discriminate Fv;
      destruct ss; destruct sv; discriminate H.
  - destruct v as [ sv | sv | | sv mv ev ]; try discriminate Fv; discriminate H.
Qed.

(** X2: [hsv_to_rgb] returns a colour only when the hue, the saturation
    and the value are all finite.  A NaN hue passes both loops and makes
    the conversion [(int)(h / 60)] undefined; an infinite hue keeps one of
    the two loops running for ever. *)
Theorem colour_needs_numbers :
  (forall fuel h s v c,
      Hsv.hsv_to_rgb fuel h s v = Done c ->
      is_finite h = true /\ is_finite s = true /\ is_finite v = true)
  /\ (forall fuel s v,
        Hsv.hsv_to_rgb fuel S754_nan s v = Undef
        /\ Hsv.hsv_to_rgb fuel (S754_infinity false) s v = Timeout
        /\ Hsv.hsv_to_rgb fuel (S754_infinity true) s v = Timeout).
Proof.
  assert (N : forall fuel s v,
        Hsv.hsv_to_rgb fuel S754_nan s v = Undef
        /\ Hsv.hsv_to_rgb fuel (S754_infinity false) s v = Timeout
        /\ Hsv.hsv_to_rgb fuel (S754_infinity true) s v = Timeout).
  { intros fuel s v. unfold Hsv.hsv_to_rgb, Hsv.normalize_hue.
    split; [ | split ].
    - destruct fuel; reflexivity.
    - rewrite (wrap_high_stuck (S754_infinity false)) by reflexivity. reflexivity.
    - assert (H : Hsv.wrap_high fuel (S754_infinity true) = Done (S754_infinity true))
        by (destruct fuel; reflexivity).
      rewrite H. cbn [obind].
      rewrite (wrap_low_stuck (S754_infinity true)) by reflexivity. reflexivity. }
  split; [ | exact N ].
  intros fuel h s v c H.
  assert (Fh : is_finite h = true).
  { destruct h as [ sh | sh | | sh mh eh ]; try reflexivity.
    - destruct (N fuel s v) as [_ [A B]]. destruct sh; rewrite H in *; discriminate.
    - destruct (N fuel s v) as [A _]. rewrite H in A. discriminate A. }
  unfold Hsv.hsv_to_rgb in H. apply obind_done in H. destruct H as [r [_ H]].
  destruct (sector_rgb_uses r s v c H) as [[cv Hv] [cp Hp]].
  pose proof (channel_finite _ _ Hv) as Fv.
  pose proof (channel_finite _ _ Hp) as Fp.
  split; [ exact Fh | ]. split; [ | exact Fv ].
  exact (mul_sub_finite v s Fv Fp).
Qed.

Lemma colour_needs_numbers_witness :
  is_finite (Submission.h Submission.init) = true
  /\ is_finite Submission.s = true /\ is_finite Submission.v = true.
Proof.
  apply (proj1 colour_needs_numbers 0%nat _ _ _ (76, 0, 0)).
  vm_compute. reflexivity.
Defined.

(** ** The hue of each frame *)

Lemma half_degrees_nth :
  forall n k h0, Frames.half_degrees n k h0 = true ->
    forall j, (j < n)%nat ->
      Fnum (Nat.iter j Hsv.advance_hue h0) = (k + Z.of_nat j) * 2 ^ 148.
Proof.
  induction n as [ | n IH ]; intros k h0 H j Hj; [ lia | ].
  cbn [Frames.half_degrees] in H.
  apply andb_true_iff in H. destruct H as [H0 Hn].
  destruct j as [ | j ].
  - apply Z.eqb_eq in H0. cbn [Nat.iter nat_rect]. rewrite H0. f_equal. cbn. lia.
  - rewrite Nat.iter_succ_r. rewrite (IH (k + 1) _ Hn j) by lia. f_equal. lia.
Qed.

(** X4: after [n] iterations of [main] the hue is exactly
    (n mod 720) / 2 degrees, that is [(n mod 720) * 2 ^ 148] units of
    [2 ^ -149]: the reset [h = 0.0] fires every 720 iterations.  The hue
    handed to [hsv_to_rgb] is always in [0, 360), so neither loop of the
    conversion iterates. *)
Theorem hue_schedule :
  forall n,
    F32.valid (Submission.hue_after n) = true
    /\ is_finite (Submission.hue_after n) = true
    /\ Fnum (Submission.hue_after n) = Z.of_nat (n mod 720) * 2 ^ 148
    /\ Submission.hue_after (n + 720) = Submission.hue_after n
    /\ (forall fuel, Hsv.normalize_hue fuel (Submission.hue_after n)
                     = Done (Submission.hue_after n)).
Proof.
  intros n. destruct (hue_after_in_range n) as [V R].
  destruct (in_range_inv _ V R) as [F _].
  split; [ exact V | ]. split; [ exact F | ].
  split; [ | split ].
  - rewrite hue_after_mod. unfold Submission.hue_after.
    rewrite (half_degrees_nth 720 0 (Submission.h Submission.init)).
    + reflexivity.
    + vm_compute. reflexivity.
    + apply Nat.mod_upper_bound. lia.
  - rewrite (hue_after_mod (n + 720)), (hue_after_mod n). f_equal.
    rewrite <- Nat.Div0.add_mod_idemp_r, Nat.Div0.mod_same, Nat.add_0_r. reflexivity.
  - intros fuel. apply normalize_in_range; assumption.
Qed.

(** ** The position written on the pixel grid *)

(** X7: the position written is [64 p] reduced modulo 2^16.  Positions
    1024 apart give the same output; below 1024 the position is recovered
    by a right shift of 6 and the low 6 bits of the output are 0. *)
Theorem scale_out_wraps :
  forall p,
    Submission.scale_out p = (64 * p) mod 65536
    /\ Submission.scale_out (p + 1024) = Submission.scale_out p
    /\ (0 <= p < 1024 ->
        Z.shiftr (Submission.scale_out p) 6 = p /\ Submission.scale_out p mod 64 = 0).
Proof.
  assert (E : forall p, Submission.scale_out p = (64 * p) mod 65536).
  { intros p. unfold Submission.scale_out, ushort.
    rewrite Z.shiftl_mul_pow2 by lia. change (2 ^ 6) with 64.
    rewrite Z.mul_mod_idemp_l by lia. f_equal. lia. }
  intros p. split; [ apply E | ]. split.
  - rewrite !E. replace (64 * (p + 1024)) with (64 * p + 1 * 65536) by lia.
    apply Z.mod_add. lia.
  - intros Hp. rewrite E, Z.mod_small by lia. split.
    + rewrite Z.shiftr_div_pow2 by lia. change (2 ^ 6) with 64.
      rewrite Z.mul_comm. apply Z.div_mul. lia.
    + rewrite Z.mul_comm. apply Z.mod_mul. lia.
Qed.

Lemma scale_out_wraps_witness :
  Z.shiftr (Submission.scale_out 623) 6 = 623 /\ Submission.scale_out 623 mod 64 = 0.
Proof.
  apply (proj2 (proj2 (scale_out_wraps 623))). lia.
Defined.

(** ** A ball that starts in the margin *)

Lemma step_axis_stuck :
  forall bound rad p d,
    0 <= rad -> bound - rad <= 65535 ->
    0 <= p < 65536 -> d = 1 \/ d = -1 ->
    p < rad \/ bound - rad < p ->
    Submission.step_axis bound rad p d = (p, - d).
Proof.
  intros bound rad p d Hr Hb Hp Hd Hm.
  unfold Submission.step_axis, Submission.reflect.
  assert (T : (bound - rad <=? ushort (p + d)) || (ushort (p + d) <=? rad) = true).
  { apply orb_true_iff. rewrite Z.leb_le, Z.leb_le.
    destruct (Z.eq_dec (p + d) (-1)) as [E | E].
    - left. rewrite E. change (ushort (-1)) with 65535. exact Hb.
    - destruct (Z.eq_dec (p + d) 65536) as [E' | E'].
      + right. rewrite E'. change (ushort 65536) with 0. exact Hr.
      + rewrite ushort_small by lia. lia. }
  rewrite T. rewrite ushort_undo by exact Hp. reflexivity.
Qed.

Lemma axis_iter :
  forall rad n st,
    (Submission.x (Nat.iter n (Submission.motion rad) st),
     Submission.dx (Nat.iter n (Submission.motion rad) st))
    = Nat.iter n (fun pd => Submission.step_axis 640 rad (fst pd) (snd pd))
        (Submission.x st, Submission.dx st)
    /\ (Submission.y (Nat.iter n (Submission.motion rad) st),
        Submission.dy (Nat.iter n (Submission.motion rad) st))
       = Nat.iter n (fun pd => Submission.step_axis 480 rad (fst pd) (snd pd))
           (Submission.y st, Submission.dy st).
Proof.
  intros rad n st. induction n as [ | n [IHx IHy] ]; [ split; reflexivity | ].
  cbn [Nat.iter nat_rect].
  destruct (motion_axes rad (Nat.iter n (Submission.motion rad) st)) as [Ax Ay].
  unfold Nat.iter in *.
  rewrite Ax, Ay, <- IHx, <- IHy. split; reflexivity.
Qed.

Lemma stuck_iter :
  forall bound rad p d,
    0 <= rad -> bound - rad <= 65535 ->
    0 <= p < 65536 -> d = 1 \/ d = -1 ->
    p < rad \/ bound - rad < p ->
    forall n,
      Nat.iter n (fun pd => Submission.step_axis bound rad (fst pd) (snd pd)) (p, d)
      = (p, if Nat.even n then d else - d).
Proof.
  intros bound rad p d Hr Hb Hp Hd Hm.
  assert (H2 : forall n,
    Nat.iter (2 * n) (fun pd => Submission.step_axis bound rad (fst pd) (snd pd)) (p, d)
    = (p, d)).
  { induction n as [ | n IH ]; [ reflexivity | ].
    replace (2 * S n)%nat with (S (S (2 * n))) by lia.
    rewrite !Nat.iter_succ, IH. cbn [fst snd].
    rewrite (step_axis_stuck bound rad p d) by assumption. cbn [fst snd].
    rewrite (step_axis_stuck bound rad p (- d)) by (try assumption; lia).
    rewrite Z.opp_involutive. reflexivity. }
  intros n. destruct (Nat.Even_or_Odd n) as [[k E] | [k E]]; subst n.
  - rewrite H2. rewrite Nat.even_mul. reflexivity.
  - replace (2 * k + 1)%nat with (S (2 * k)) by lia.
    rewrite Nat.iter_succ, H2. cbn [fst snd].
    rewrite (step_axis_stuck bound rad p d) by assumption.
    rewrite Nat.even_succ, <- Nat.negb_even, Nat.even_mul. reflexivity.
Qed.

(** X5: a ball that starts less than [radius] away from a wall of the
    frame, or beyond it, never leaves: on that axis every iteration takes
    the bounce branch, which undoes the step, so the position stays the
    same for ever while the velocity changes sign in every iteration.
    This includes the wrap-around of the [unsigned short] at 0 and
    65535. *)
Theorem ball_in_margin_never_leaves :
  forall st n,
    let st' := Nat.iter n (Submission.motion Submission.radius) st in
    (0 <= Submission.x st < 65536 ->
     Submission.dx st = 1 \/ Submission.dx st = -1 ->
     Submission.x st < Submission.radius \/ 640 - Submission.radius < Submission.x st ->
     Submission.x st' = Submission.x st
     /\ Submission.dx st' = if Nat.even n then Submission.dx st else - Submission.dx st)
    /\ (0 <= Submission.y st < 65536 ->
        Submission.dy st = 1 \/ Submission.dy st = -1 ->
        Submission.y st < Submission.radius \/ 480 - Submission.radius < Submission.y st ->
        Submission.y st' = Submission.y st
        /\ Submission.dy st' = if Nat.even n then Submission.dy st else - Submission.dy st).
Proof.
  intros st n st'. destruct (axis_iter Submission.radius n st) as [Ax Ay]. fold st' in Ax, Ay.
  split; intros Hp Hd Hm.
  - rewrite (stuck_iter 640 Submission.radius _ _) in Ax
      by (try assumption; unfold Submission.radius; lia).
    inversion Ax. split; reflexivity.
  - rewrite (stuck_iter 480 Submission.radius _ _) in Ay
      by (try assumption; unfold Submission.radius; lia).
    inversion Ay. split; reflexivity.
Qed.

Lemma ball_in_margin_never_leaves_witness :
  let st := {| Submission.h := Hsv.f0; Submission.x := 0; Submission.y := 470;
               Submission.dx := -1; Submission.dy := 1 |} in
  let st' := Nat.iter 5 (Submission.motion Submission.radius) st in
  (Submission.x st' = 0 /\ Submission.dx st' = 1)
  /\ (Submission.y st' = 470 /\ Submission.dy st' = -1).
Proof.
  intros st st'.
  destruct (ball_in_margin_never_leaves st 5) as [Hx Hy].
  split.
  - apply Hx; cbn; unfold Submission.radius; lia.
  - apply Hy; cbn; unfold Submission.radius; lia.
Defined.

(** ** The ball comes back *)

Lemma ball_axes :
  forall n,
    (Submission.x (Submission.ball_after n), Submission.dx (Submission.ball_after n))
    = Frames.axis_after 640 n (20, 1)
    /\ (Submission.y (Submission.ball_after n), Submission.dy (Submission.ball_after n))
       = Frames.axis_after 480 n (20, 1).
Proof.
  intros n. exact (axis_iter Submission.radius n Submission.init).
Qed.

Lemma axis_period :
  forall bound p pd,
    Frames.axis_after bound p pd = pd ->
    forall k n, Frames.axis_after bound (n + k * p) pd = Frames.axis_after bound n pd.
Proof.
  intros bound p pd E k n. unfold Frames.axis_after in *.
  rewrite Nat.iter_add. f_equal.
  induction k as [ | k IH ]; [ reflexivity | ].
  cbn [Nat.mul]. rewrite Nat.add_comm, Nat.iter_add, E. exact IH.
Qed.

Lemma ball_hue_constant :
  forall n, Submission.h (Submission.ball_after n) = Submission.h Submission.init.
Proof.
  induction n as [ | n IH ]; [ reflexivity | ].
  unfold Submission.ball_after in *. rewrite Nat.iter_succ.
  unfold Submission.motion at 1.
  destruct (Submission.reflect 640 _ _ _) as [x2 dx2].
  destruct (Submission.reflect 480 _ _ _) as [y2 dy2].
  exact IH.
Qed.

Lemma x_cycle : Frames.axis_after 640 1214 (20, 1) = (20, 1).
Proof. vm_compute. reflexivity. Qed.

Lemma y_cycle : Frames.axis_after 480 894 (20, 1) = (20, 1).
Proof. vm_compute. reflexivity. Qed.

(** X6: the ball of [submission/hello.c] is periodic: [x] and [dx]
    repeat every 1214 iterations, [y] and [dy] every 894, and the whole
    ball every 447 * 1214 = 607 * 894 = 542658 iterations.  The extreme
    positions 17 and 623 (x), 17 and 463 (y) are reached. *)
Theorem ball_is_periodic :
  forall n,
    (Submission.x (Submission.ball_after (n + 1214)) = Submission.x (Submission.ball_after n)
     /\ Submission.dx (Submission.ball_after (n + 1214)) = Submission.dx (Submission.ball_after n))
    /\ (Submission.y (Submission.ball_after (n + 894)) = Submission.y (Submission.ball_after n)
        /\ Submission.dy (Submission.ball_after (n + 894)) = Submission.dy (Submission.ball_after n))
    /\ Submission.ball_after (n + 447 * 1214) = Submission.ball_after n
    /\ Submission.x (Submission.ball_after 603) = 623
    /\ Submission.x (Submission.ball_after 1210) = 17
    /\ Submission.y (Submission.ball_after 443) = 463
    /\ Submission.y (Submission.ball_after 890) = 17.
Proof.
  intros n.
  assert (Px : forall k m,
    (Submission.x (Submission.ball_after (m + k * 1214)),
     Submission.dx (Submission.ball_after (m + k * 1214)))
    = (Submission.x (Submission.ball_after m), Submission.dx (Submission.ball_after m))).
  { intros k m. rewrite (proj1 (ball_axes (m + k * 1214))), (proj1 (ball_axes m)).
    apply axis_period. exact x_cycle. }
  assert (Py : forall k m,
    (Submission.y (Submission.ball_after (m + k * 894)),
     Submission.dy (Submission.ball_after (m + k * 894)))
    = (Submission.y (Submission.ball_after m), Submission.dy (Submission.ball_after m))).
  { intros k m. rewrite (proj2 (ball_axes (m + k * 894))), (proj2 (ball_axes m)).
    apply axis_period. exact y_cycle. }
  split; [ | split; [ | split ] ].
  - pose proof (Px 1%nat n) as E. rewrite Nat.mul_1_l in E. inversion E. split; reflexivity.
  - pose proof (Py 1%nat n) as E. rewrite Nat.mul_1_l in E. inversion E. split; reflexivity.
  - pose proof (Px 447%nat n) as Ex. pose proof (Py 607%nat n) as Ey.
    replace (607 * 894)%nat with (447 * 1214)%nat in Ey by lia.
    pose proof (ball_hue_constant (n + 447 * 1214)) as Eh.
    rewrite <- (ball_hue_constant n) in Eh.
    destruct (Submission.ball_after (n + 447 * 1214)) as [h1 x1 y1 dx1 dy1].
    destruct (Submission.ball_after n) as [h0 x0 y0 dx0 dy0].
    cbn [Submission.h Submission.x Submission.y Submission.dx Submission.dy] in *.
    inversion Ex. inversion Ey. subst. reflexivity.
  - repeat split; vm_compute; reflexivity.
Qed.

(** ** What the loop sends, prints and sleeps *)

Lemma ioctls_app :
  forall t1 t2, Trace.ioctls (t1 ++ t2) = Trace.ioctls t1 ++ Trace.ioctls t2.
Proof.
  induction t1 as [ | e t1 IH ]; intros t2; [ reflexivity | ].
  destruct e; cbn [app Trace.ioctls]; rewrite IH; reflexivity.
Qed.

Lemma hsv_lines_app :
  forall t1 t2, Trace.hsv_lines (t1 ++ t2) = Trace.hsv_lines t1 ++ Trace.hsv_lines t2.
Proof.
  induction t1 as [ | e t1 IH ]; intros t2; [ reflexivity | ].
  destruct e; cbn [app Trace.hsv_lines]; rewrite IH; reflexivity.
Qed.

Lemma sleeps_app :
  forall t1 t2, Trace.sleeps (t1 ++ t2) = Trace.sleeps t1 ++ Trace.sleeps t2.
Proof.
  induction t1 as [ | e t1 IH ]; intros t2; [ reflexivity | ].
  destruct e; cbn [app Trace.sleeps]; rewrite IH; reflexivity.
Qed.

Section Calls.
Variable D : Device.Driver.
Import Device.

(** A wrapper adds its control call, then only quiet events. *)
Lemma call_trace :
  forall (w : world D) r a msg (k : vga_ball_arg_t -> io D unit),
    (forall vla w1, exists e1, trace (snd (k vla w1)) = trace w1 ++ e1 /\ Trace.quiet e1) ->
    exists e,
      trace (snd (iobind (do_ioctl D r a)
        (fun '(st, vla) => if st =? 0 then k vla else emit (EvPerror msg)) w))
      = trace w ++ EvIoctl r a :: e
      /\ Trace.quiet e.
Proof.
  intros w r a msg k Hk. unfold iobind, do_ioctl.
  destruct (ioctl D (drv w) r a) as [[st vla] d'].
  destruct (st =? 0).
  - destruct (Hk vla {| drv := d'; trace := trace w ++ [EvIoctl r a] |}) as [e1 [E Q]].
    exists e1. rewrite E. cbn [trace]. rewrite <- app_assoc. split; [ reflexivity | exact Q ].
  - exists [EvPerror msg]. cbn [emit snd trace]. rewrite <- app_assoc.
    split; [ reflexivity | ]. repeat split; reflexivity.
Qed.

Lemma ret_quiet :
  forall (vla : vga_ball_arg_t) (w1 : world D),
    exists e1, trace (snd (ioret (D := D) tt w1)) = trace w1 ++ e1 /\ Trace.quiet e1.
Proof.
  intros vla w1. exists []. rewrite app_nil_r.
  split; [ reflexivity | ]. repeat split; reflexivity.
Qed.

Lemma bind_trace :
  forall (A B : Type) (c : io D A) (k : io D B) w,
    snd ((c ;;; k) w) = snd (k (snd (c w))).
Proof. intros A B c k w. unfold iobind. destruct (c w). reflexivity. Qed.

(** The events of one iteration. *)
Lemma tick_trace :
  forall fuel st (w : world D) r g b,
    Hsv.hsv_to_rgb fuel (Submission.h st) Submission.s Submission.v = Done (r, g, b) ->
    exists e1 e2 e3,
      Trace.quiet e1 /\ Trace.quiet e2 /\ Trace.quiet e3
      /\ trace (snd (Submission.tick D fuel st w))
         = trace w
           ++ EvIoctl VGA_BALL_WRITE_BACKGROUND (Background (Submission.color_out r g b)) :: e1
           ++ EvPrintHSV (Hsv.advance_hue (Submission.h st)) Submission.s Submission.v r g b
           :: EvIoctl VGA_BALL_WRITE_POSITION
                (Position (Submission.position_out (Submission.after_tick st))) :: e2
           ++ EvIoctl VGA_BALL_READ_POSITION Uninit :: e3
           ++ [EvSleep 10000].
Proof.
  intros fuel st w r g b H. unfold Submission.tick. rewrite H.
  fold (Submission.after_tick st).
  rewrite !bind_trace.
  destruct (call_trace w VGA_BALL_WRITE_BACKGROUND
              (Background (Submission.color_out r g b))
              "ioctl(VGA_BALL_SET_BACKGROUND) failed" (fun _ => ioret tt) ret_quiet)
    as [e1 [E1 Q1]].
  change (iobind (do_ioctl D VGA_BALL_WRITE_BACKGROUND (Background (Submission.color_out r g b)))
            (fun '(st0, _) => if st0 =? 0 then ioret tt
                              else emit (EvPerror "ioctl(VGA_BALL_SET_BACKGROUND) failed")))
    with (set_background_color D (Submission.color_out r g b)) in E1.
  set (w1 := snd (set_background_color D (Submission.color_out r g b) w)) in *.
  set (w2 := snd (emit (EvPrintHSV (Hsv.advance_hue (Submission.h st))
                          Submission.s Submission.v r g b) w1)).
  destruct (call_trace w2 VGA_BALL_WRITE_POSITION
              (Position (Submission.position_out (Submission.after_tick st)))
              "ioctl(VGA_BALL_SET_POSITION) failed" (fun _ => ioret tt) ret_quiet)
    as [e2 [E2 Q2]].
  change (iobind (do_ioctl D VGA_BALL_WRITE_POSITION
                    (Position (Submission.position_out (Submission.after_tick st))))
            (fun '(st0, _) => if st0 =? 0 then ioret tt
                              else emit (EvPerror "ioctl(VGA_BALL_SET_POSITION) failed")))
    with (set_position D (Submission.position_out (Submission.after_tick st))) in E2.
  set (w3 := snd (set_position D (Submission.position_out (Submission.after_tick st)) w2)) in *.
  destruct (call_trace w3 VGA_BALL_READ_POSITION Uninit
              "ioctl(VGA_BALL_READ_POSITION) failed"
              (fun vla => emit (EvPrintPosition vla)))
    as [e3 [E3 Q3]].
  { intros vla w'. exists [EvPrintPosition vla].
    split; [ reflexivity | ]. repeat split; reflexivity. }
  change (iobind (do_ioctl D VGA_BALL_READ_POSITION Uninit)
            (fun '(st0, vla) => if st0 =? 0 then emit (EvPrintPosition vla)
                                else emit (EvPerror "ioctl(VGA_BALL_READ_POSITION) failed")))
    with (print_position D) in E3.
  set (w4 := snd (print_position D w3)) in *.
  exists e1, e2, e3. split; [ exact Q1 | ]. split; [ exact Q2 | ]. split; [ exact Q3 | ].
  cbn [ioret snd usleep emit trace]. rewrite E3, E2.
  subst w2. cbn [emit snd trace]. rewrite E1.
  repeat (rewrite <- app_assoc; cbn [app]). reflexivity.
Qed.
End Calls.

Lemma tick_shows :
  forall D fuel st (w : Device.world D) r g b,
    Hsv.hsv_to_rgb fuel (Submission.h st) Submission.s Submission.v = Done (r, g, b) ->
    let t' := Device.trace (snd (Submission.tick D fuel st w)) in
    Trace.ioctls t'
    = Trace.ioctls (Device.trace w)
      ++ [ (Device.VGA_BALL_WRITE_BACKGROUND, Device.Background (Submission.color_out r g b));
           (Device.VGA_BALL_WRITE_POSITION,
            Device.Position (Submission.position_out (Submission.after_tick st)));
           (Device.VGA_BALL_READ_POSITION, Device.Uninit) ]
    /\ Trace.hsv_lines t'
       = Trace.hsv_lines (Device.trace w) ++ [ (Hsv.advance_hue (Submission.h st), (r, g, b)) ]
    /\ Trace.sleeps t' = Trace.sleeps (Device.trace w) ++ [10000].
Proof.
  intros D fuel st w r g b H t'. subst t'.
  destruct (tick_trace D fuel st w r g b H)
    as [e1 [e2 [e3 [[A1 [B1 C1]] [[A2 [B2 C2]] [[A3 [B3 C3]] E]]]]]].
  rewrite E. split; [ | split ].
  - rewrite ioctls_app. cbn [Trace.ioctls]. rewrite ioctls_app. cbn [Trace.ioctls].
    rewrite ioctls_app. cbn [Trace.ioctls]. rewrite ioctls_app.
    rewrite A1, A2, A3. reflexivity.
  - rewrite hsv_lines_app. cbn [Trace.hsv_lines]. rewrite hsv_lines_app. cbn [Trace.hsv_lines].
    rewrite hsv_lines_app. cbn [Trace.hsv_lines]. rewrite hsv_lines_app.
    rewrite B1, B2, B3. reflexivity.
  - rewrite sleeps_app. cbn [Trace.sleeps]. rewrite sleeps_app. cbn [Trace.sleeps].
    rewrite sleeps_app. cbn [Trace.sleeps]. rewrite sleeps_app.
    rewrite C1, C2, C3. reflexivity.
Qed.

Lemma unit_s : unit_float Submission.s.
Proof. split; [ reflexivity | ]. split; [ reflexivity | ]. vm_compute. split; discriminate. Qed.

Lemma unit_v : unit_float Submission.v.
Proof. split; [ reflexivity | ]. split; [ reflexivity | ]. vm_compute. split; discriminate. Qed.

(** The colour of every frame is defined, whatever the iteration budget;
    its largest channel is 76 and its smallest is 0. *)
Lemma frame_defined :
  forall k,
    (forall fuel,
        Hsv.hsv_to_rgb fuel (Submission.hue_after k) Submission.s Submission.v
        = Done (Frames.color k))
    /\ exists r g b,
         Frames.color k = (r, g, b)
         /\ Z.max r (Z.max g b) = 76 /\ Z.min r (Z.min g b) = 0.
Proof.
  intros k. destruct (hue_after_in_range k) as [V R].
  destruct (in_range_inv _ V R) as [F H].
  destruct (sector_rgb_extremes (Submission.hue_after k) Submission.s Submission.v
              V F ltac:(lia) unit_s unit_v)
    as [r [g [b [cv [cp [E [Hv [Hp [_ [_ [Mx Mn]]]]]]]]]]].
  assert (Cv : channel Submission.v = Done 76) by (vm_compute; reflexivity).
  assert (Cp : channel (F32.mul Submission.v (F32.sub Hsv.f1 Submission.s)) = Done 0)
    by (vm_compute; reflexivity).
  assert (cv = 76) by congruence. assert (cp = 0) by congruence. subst cv cp.
  assert (A : forall fuel,
             Hsv.hsv_to_rgb fuel (Submission.hue_after k) Submission.s Submission.v
             = Done (r, g, b)).
  { intros fuel. unfold Hsv.hsv_to_rgb. rewrite normalize_in_range by assumption. exact E. }
  assert (C : Frames.color k = (r, g, b)).
  { unfold Frames.color, Frames.rgb. rewrite A. reflexivity. }
  split.
  - intros fuel. rewrite C. apply A.
  - exists r, g, b. split; [ exact C | ]. split; assumption.
Qed.

Lemma position_out_ball :
  forall k,
    Submission.position_out (Nat.iter k Submission.after_tick Submission.init)
    = Submission.position_out (Submission.ball_after k).
Proof.
  intros k. destruct (after_tick_ball k) as [Ex [Ey _]].
  unfold Submission.position_out. rewrite Ex, Ey. reflexivity.
Qed.

Lemma run_shows :
  forall D fuel n k (w : Device.world D),
    exists w',
      Submission.run D fuel n (Nat.iter k Submission.after_tick Submission.init) w
      = (Done (Nat.iter (n + k) Submission.after_tick Submission.init), w')
      /\ Trace.ioctls (Device.trace w')
         = Trace.ioctls (Device.trace w)
           ++ flat_map (fun j => Frames.calls j (Frames.color j)) (seq k n)
      /\ Trace.hsv_lines (Device.trace w')
         = Trace.hsv_lines (Device.trace w)
           ++ map (fun j => (Submission.hue_after (S j), Frames.color j)) (seq k n)
      /\ Trace.sleeps (Device.trace w') = Trace.sleeps (Device.trace w) ++ repeat 10000 n.
Proof.
  intros D fuel. induction n as [ | n IH ]; intros k w.
  - exists w. cbn [Submission.run seq flat_map map repeat]. rewrite !app_nil_r.
    repeat split; reflexivity.
  - set (st := Nat.iter k Submission.after_tick Submission.init).
    destruct (frame_defined k) as [Hc _]. specialize (Hc fuel).
    rewrite <- after_tick_hue in Hc. fold st in Hc.
    destruct (Frames.color k) as [[r g] b] eqn:Ck.
    destruct (tick_shows D fuel st w r g b Hc) as [T1 [T2 T3]].
    pose proof (tick_next D fuel st w) as T.
    destruct (hue_after_in_range k) as [V R]. rewrite <- after_tick_hue in V, R. fold st in V, R.
    rewrite (next_defined fuel st V R) in T.
    cbn [Submission.run]. unfold Device.iobind at 1.
    destruct (Submission.tick D fuel st w) as [o w1]. cbn [fst snd] in T, T1, T2, T3. subst o.
    destruct (IH (S k) w1) as [w' [E [I1 [I2 I3]]]].
    exists w'. rewrite Nat.iter_succ in E. fold st in E.
    split; [ rewrite E; f_equal; f_equal; f_equal; lia | ].
    cbn [seq flat_map map repeat]. rewrite I1, I2, I3, T1, T2, T3, Ck.
    rewrite <- !app_assoc. unfold Frames.calls at 2.
    change (Submission.after_tick st)
      with (Nat.iter (S k) Submission.after_tick Submission.init).
    rewrite position_out_ball.
    unfold st. rewrite after_tick_hue.
    repeat split; reflexivity.
Qed.

(** X8: whatever the driver answers, [n] iterations of the loop of
    [main] complete, and the control calls they issue are, in order and
    with the blocks handed to the driver, the three calls of frame 0,
    then those of frame 1, ...: write background with the colour of the
    hue of that frame, write position with 64 times the position of the
    ball after its move, read position.  No other request is issued (the
    background is never read back), and there is one [usleep(10000)] per
    iteration.  The colour of every frame is defined, with largest
    channel 76 and smallest channel 0, and fits the 8-bit fields. *)
Theorem loop_calls_ignore_answers :
  (forall D fuel n (w : Device.world D),
      exists st' w',
        Submission.run D fuel n Submission.init w = (Done st', w')
        /\ Trace.ioctls (Device.trace w')
           = Trace.ioctls (Device.trace w)
             ++ flat_map (fun k => Frames.calls k (Frames.color k)) (seq 0 n)
        /\ Trace.sleeps (Device.trace w')
           = Trace.sleeps (Device.trace w) ++ repeat 10000 n)
  /\ (forall k,
        (forall fuel,
            Hsv.hsv_to_rgb fuel (Submission.hue_after k) Submission.s Submission.v
            = Done (Frames.color k))
        /\ exists r g b,
             Frames.color k = (r, g, b)
             /\ Z.max r (Z.max g b) = 76 /\ Z.min r (Z.min g b) = 0
             /\ Submission.color_out r g b
                = {| Device.red := r; Device.green := g; Device.blue := b |})
  /\ (forall k c,
        map fst (Frames.calls k c)
        = [ Device.VGA_BALL_WRITE_BACKGROUND; Device.VGA_BALL_WRITE_POSITION;
            Device.VGA_BALL_READ_POSITION ]).
Proof.
  split; [ | split ].
  - intros D fuel n w. destruct (run_shows D fuel n 0 w) as [w' [E [I1 [_ I3]]]].
    exists (Nat.iter (n + 0) Submission.after_tick Submission.init), w'.
    split; [ exact E | ]. split; [ exact I1 | exact I3 ].
  - intros k. destruct (frame_defined k) as [A [r [g [b [C [Mx Mn]]]]]].
    split; [ exact A | ]. exists r, g, b.
    split; [ exact C | ]. split; [ exact Mx | ]. split; [ exact Mn | ].
    unfold Submission.color_out, uchar. rewrite !Z.mod_small by lia. reflexivity.
  - intros k [[r g] b]. reflexivity.
Qed.

(** X9: the line that iteration [k] prints shows the hue of the next
    frame, [hue_after (S k)], next to the colour of the current one: [h]
    is incremented between the conversion and the [printf].  In iteration
    1 the line shows hue 1.0 with the colour (76, 0, 0) of hue 0.5, while
    hue 1.0 converts to (76, 1, 0). *)
Theorem log_line_shows_next_hue :
  (forall D fuel n (w : Device.world D),
      exists st' w',
        Submission.run D fuel n Submission.init w = (Done st', w')
        /\ Trace.hsv_lines (Device.trace w')
           = Trace.hsv_lines (Device.trace w)
             ++ map (fun k => (Submission.hue_after (S k), Frames.color k)) (seq 0 n))
  /\ Fnum (Submission.hue_after 2) = 2 ^ 149
  /\ Frames.color 1 = (76, 0, 0)
  /\ Frames.color 2 = (76, 1, 0).
Proof.
  split.
  - intros D fuel n w. destruct (run_shows D fuel n 0 w) as [w' [E [_ [I2 _]]]].
    exists (Nat.iter (n + 0) Submission.after_tick Submission.init), w'.
    split; [ exact E | exact I2 ].
  - split; [ vm_compute; reflexivity | ]. split; vm_compute; reflexivity.
Qed.

(** ** Device calls that succeed *)

Lemma accepted_request :
  forall (D : Device.Driver) (w : Device.world D) r a msg
         (k : Device.vga_ball_arg_t -> Device.io D unit),
    Device.status w r a = 0 ->
    Device.iobind (Device.do_ioctl D r a)
      (fun '(st, vla) => if st =? 0 then k vla else Device.emit (Device.EvPerror msg)) w
    = k (Device.block_after w r a)
        {| Device.drv := Device.driver_after w r a;
           Device.trace := Device.trace w ++ [Device.EvIoctl r a] |}.
Proof.
  intros D w r a msg k H.
  unfold Device.iobind, Device.do_ioctl, Device.status, Device.block_after,
    Device.driver_after in *.
  destruct (Device.ioctl D (Device.drv w) r a) as [[st vla] d']. cbn [fst snd] in *.
  subst st. reflexivity.
Qed.

(** X10: when the driver returns status 0, the two setters issue their
    control call and nothing else, and the two printers print the block as
    the driver left it.  The block they hand to the driver is
    uninitialised: a driver that reports success without filling it makes
    them print an uninitialised block. *)
Theorem accepted_call_prints_the_block :
  forall (D : Device.Driver) (w : Device.world D),
    (forall c,
        Device.status w Device.VGA_BALL_WRITE_BACKGROUND (Device.Background c) = 0 ->
        Device.set_background_color D c w
        = (tt, {| Device.drv :=
                    Device.driver_after w Device.VGA_BALL_WRITE_BACKGROUND (Device.Background c);
                  Device.trace :=
                    Device.trace w
                    ++ [Device.EvIoctl Device.VGA_BALL_WRITE_BACKGROUND (Device.Background c)] |}))
    /\ (forall p,
        Device.status w Device.VGA_BALL_WRITE_POSITION (Device.Position p) = 0 ->
        Device.set_position D p w
        = (tt, {| Device.drv :=
                    Device.driver_after w Device.VGA_BALL_WRITE_POSITION (Device.Position p);
                  Device.trace :=
                    Device.trace w
                    ++ [Device.EvIoctl Device.VGA_BALL_WRITE_POSITION (Device.Position p)] |}))
    /\ (Device.status w Device.VGA_BALL_READ_BACKGROUND Device.Uninit = 0 ->
        Device.print_background_color D w
        = (tt, {| Device.drv :=
                    Device.driver_after w Device.VGA_BALL_READ_BACKGROUND Device.Uninit;
                  Device.trace :=
                    Device.trace w
                    ++ [Device.EvIoctl Device.VGA_BALL_READ_BACKGROUND Device.Uninit;
                        Device.EvPrintBackground
                          (Device.block_after w Device.VGA_BALL_READ_BACKGROUND
                             Device.Uninit)] |}))
    /\ (Device.status w Device.VGA_BALL_READ_POSITION Device.Uninit = 0 ->
        Device.print_position D w
        = (tt, {| Device.drv :=
                    Device.driver_after w Device.VGA_BALL_READ_POSITION Device.Uninit;
                  Device.trace :=
                    Device.trace w
                    ++ [Device.EvIoctl Device.VGA_BALL_READ_POSITION Device.Uninit;
                        Device.EvPrintPosition
                          (Device.block_after w Device.VGA_BALL_READ_POSITION
                             Device.Uninit)] |})).
Proof.
  intros D w.
  split; [ intros c H | split; [ intros p H | split; intros H ] ].
  - unfold Device.set_background_color. rewrite accepted_request by exact H. reflexivity.
  - unfold Device.set_position. rewrite accepted_request by exact H. reflexivity.
  - unfold Device.print_background_color. rewrite accepted_request by exact H.
    unfold Device.emit. cbn [Device.drv Device.trace]. rewrite <- app_assoc. reflexivity.
  - unfold Device.print_position. rewrite accepted_request by exact H.
    unfold Device.emit. cbn [Device.drv Device.trace]. rewrite <- app_assoc. reflexivity.
Qed.

Lemma accepted_call_prints_the_block_witness :
  let w0 : Device.world Device.lazy_driver := Device.idle Device.lazy_driver tt in
  Device.trace (snd (Device.print_position Device.lazy_driver w0))
  = [Device.EvIoctl Device.VGA_BALL_READ_POSITION Device.Uninit;
     Device.EvPrintPosition Device.Uninit].
Proof.
  intros w0.
  destruct (accepted_call_prints_the_block Device.lazy_driver w0) as [_ [_ [_ H]]].
  rewrite H by reflexivity. reflexivity.
Defined.

(** ** The determinate axis of [sw/hello.c] *)

Lemma sw_axis_step :
  forall b p d, Sw.x b = Some p -> Sw.dx b = Some d ->
    Sw.x (Sw.motion b) = Some (fst (SwAxis.step (p, d)))
    /\ Sw.dx (Sw.motion b) = Some (snd (SwAxis.step (p, d))).
Proof.
  intros b p d Ex Ed. unfold Sw.motion, SwAxis.step. rewrite Ex, Ed.
  cbn [Sw.advance Sw.reflect fst snd].
  destruct (Sw.at_bound (F32.add p d));
    destruct (Sw.reflect (Sw.advance (Sw.y b) (Sw.dy b)) (Sw.dy b)) as [y2 dy2];
    split; reflexivity.
Qed.

Lemma sw_axis_iter :
  forall n,
    Sw.x (Sw.ball_after n) = Some (fst (Nat.iter n SwAxis.step SwAxis.start))
    /\ Sw.dx (Sw.ball_after n) = Some (snd (Nat.iter n SwAxis.step SwAxis.start)).
Proof.
  induction n as [ | n [IHx IHd] ]; [ split; reflexivity | ].
  unfold Sw.ball_after in *. rewrite !Nat.iter_succ.
  destruct (sw_axis_step _ _ _ IHx IHd) as [A B].
  rewrite A, B. rewrite <- surjective_pairing. split; reflexivity.
Qed.

Lemma all_inside_nth :
  forall n pd, SwAxis.all_inside n pd = true ->
    forall j, (j < n)%nat ->
      SwAxis.strictly_inside (fst (Nat.iter j SwAxis.step pd)) = true.
Proof.
  induction n as [ | n IH ]; intros pd H j Hj; [ lia | ].
  cbn [SwAxis.all_inside] in H. apply andb_true_iff in H. destruct H as [H0 Hn].
  destruct j as [ | j ]; [ exact H0 | ].
  rewrite Nat.iter_succ_r. apply IH; [ exact Hn | lia ].
Qed.

Lemma sw_cycle :
  Nat.iter 202 SwAxis.step (Nat.iter 81 SwAxis.step SwAxis.start)
  = Nat.iter 81 SwAxis.step SwAxis.start.
Proof. vm_compute. reflexivity. Qed.

Lemma sw_cycle_many :
  forall k m,
    Nat.iter (m + k * 202) SwAxis.step (Nat.iter 81 SwAxis.step SwAxis.start)
    = Nat.iter m SwAxis.step (Nat.iter 81 SwAxis.step SwAxis.start).
Proof.
  intros k m. rewrite Nat.iter_add. f_equal.
  induction k as [ | k IH ]; [ reflexivity | ].
  cbn [Nat.mul]. rewrite Nat.add_comm, Nat.iter_add, sw_cycle. exact IH.
Qed.

Lemma sw_fold :
  forall n, exists j, (j < 283)%nat
    /\ Nat.iter n SwAxis.step SwAxis.start = Nat.iter j SwAxis.step SwAxis.start.
Proof.
  intros n. destruct (Nat.lt_ge_cases n 283) as [L | G].
  - exists n. split; [ exact L | reflexivity ].
  - exists ((n - 81) mod 202 + 81)%nat. split.
    + pose proof (Nat.mod_upper_bound (n - 81) 202). lia.
    + rewrite (Nat.iter_add ((n - 81) mod 202) 81).
      rewrite <- (sw_cycle_many ((n - 81) / 202) ((n - 81) mod 202)).
      rewrite <- Nat.iter_add. f_equal.
      pose proof (Nat.div_mod_eq (n - 81) 202). lia.
Qed.

Lemma strictly_inside_unit :
  forall p, SwAxis.strictly_inside p = true ->
    F32.valid p = true /\ F32.leb Hsv.f0 p = true /\ F32.leb p Hsv.f1 = true.
Proof.
  intros p H. unfold SwAxis.strictly_inside in H.
  apply andb_true_iff in H. destruct H as [H H1].
  apply andb_true_iff in H. destruct H as [V H0].
  split; [ exact V | ].
  unfold F32.ltb, F32.leb, SFltb, SFleb in *.
  split.
  - destruct (SFcompare Hsv.f0 p) as [ [ | | ] | ]; try discriminate H0; reflexivity.
  - destruct (SFcompare p Hsv.f1) as [ [ | | ] | ]; try discriminate H1; reflexivity.
Qed.

(** X11: in [sw/hello.c] the coordinate [x] stays strictly between 0
    and 1 for ever, so that [(unsigned short)(x * 170)] is defined and at
    most 170; from iteration 81 on it repeats every 202 iterations. *)
Theorem sw_x_stays_inside :
  forall n,
    exists p,
      Sw.x (Sw.ball_after n) = Some p
      /\ SwAxis.strictly_inside p = true
      /\ (exists z, Sw.scale_out 170 p = Done z /\ 0 <= z <= 170)
      /\ ((81 <= n)%nat -> Sw.x (Sw.ball_after (n + 202)) = Some p).
Proof.
  intros n. destruct (sw_axis_iter n) as [Ex _].
  exists (fst (Nat.iter n SwAxis.step SwAxis.start)).
  assert (I : SwAxis.strictly_inside (fst (Nat.iter n SwAxis.step SwAxis.start)) = true).
  { destruct (sw_fold n) as [j [Hj E]]. rewrite E.
    apply (all_inside_nth 283 SwAxis.start); [ vm_compute; reflexivity | exact Hj ]. }
  split; [ exact Ex | ]. split; [ exact I | ]. split.
  - destruct (strictly_inside_unit _ I) as [V [L0 L1]].
    unfold Sw.scale_out.
    change (F32.of_Z 170) with (S754_finite false 11141120 (-16)).
    destruct (scale_unit_mono 11141120 (-16) 170
                (fst (Nat.iter n SwAxis.step SwAxis.start))
                (fst (Nat.iter n SwAxis.step SwAxis.start)))
      as [a [b [Ha [Hb [Hab Hk]]]]]; try assumption; try reflexivity; try lia.
    + destruct (in_unit_interval _ V L0 L1) as [F _].
      unfold F32.leb. rewrite leb_Fnum by assumption. apply Z.leb_refl.
    + exists a. split; [ exact Ha | ]. rewrite Ha in Hb. inversion Hb. lia.
  - intros G. destruct (sw_axis_iter (n + 202)) as [Ex' _]. rewrite Ex'. do 2 f_equal.
    replace (n + 202)%nat with (((n - 81) + 1 * 202) + 81)%nat by lia.
    rewrite (Nat.iter_add _ 81), (sw_cycle_many 1 (n - 81)), <- Nat.iter_add.
    f_equal. lia.
Qed.

Lemma sw_x_stays_inside_witness :
  exists p,
    Sw.x (Sw.ball_after 100) = Some p
    /\ SwAxis.strictly_inside p = true
    /\ Sw.x (Sw.ball_after (100 + 202)) = Some p.
Proof.
  destruct (sw_x_stays_inside 100) as [p [A [I [_ B]]]].
  exists p. split; [ exact A | ]. split; [ exact I | ]. apply B. lia.
Defined.

(** * The conversion over its whole domain *)

(** ** The loops on hues of any magnitude up to 2^33 *)

Lemma pack_sign :
  forall m e, Fnum (pack true m e) = - Fnum (pack false m e)
    /\ F32.valid (pack true m e) = F32.valid (pack false m e)
    /\ is_finite (pack true m e) = is_finite (pack false m e).
Proof.
  intros m e. unfold pack, fin.
  destruct (m =? 0); [ repeat split | ].
  destruct (m <? 2 ^ 24).
  - destruct (e <=? 104); cbn [Fnum cond_Zopp]; repeat split; lia.
  - destruct (e + 1 <=? 104); cbn [Fnum cond_Zopp]; repeat split; lia.
Qed.

Lemma normz_opp :
  forall z e, Fnum (normz (- z) e) = - Fnum (normz z e)
    /\ F32.valid (normz (- z) e) = F32.valid (normz z e)
    /\ is_finite (normz (- z) e) = is_finite (normz z e).
Proof.
  intros z e. destruct z as [ | p | p ]; cbn [Z.opp normz]; unfold rnd.
  - repeat split.
  - apply pack_sign.
  - destruct (pack_sign (rne (Zpos p) (target (Zpos p) e - e)) (target (Zpos p) e)) as [A [B C]].
    rewrite A, B, C. repeat split. lia.
Qed.

Lemma aligned_negb :
  forall s m e ez, aligned (negb s) m e ez = - aligned s m e ez.
Proof. intros s m e ez. unfold aligned. destruct s; cbn [negb cond_Zopp]; lia. Qed.

Lemma add_opp_opp :
  forall x y, is_finite x = true -> is_finite y = true ->
    Fnum (SFadd 24 128 (SFopp x) (SFopp y)) = - Fnum (SFadd 24 128 x y)
    /\ F32.valid (SFadd 24 128 (SFopp x) (SFopp y)) = F32.valid (SFadd 24 128 x y)
    /\ is_finite (SFadd 24 128 (SFopp x) (SFopp y)) = is_finite (SFadd 24 128 x y).
Proof.
  intros x y Fx Fy.
  destruct x as [ sx | sx | | sx mx ex ]; try discriminate Fx;
    destruct y as [ sy | sy | | sy my ey ]; try discriminate Fy.
  - destruct sx, sy; repeat split.
  - cbn [SFopp SFadd]. split; [ apply Fnum_opp_finite | split; reflexivity ].
  - cbn [SFopp SFadd]. split; [ apply Fnum_opp_finite | split; reflexivity ].
  - cbn [SFopp]. rewrite !add_spec, !aligned_negb.
    replace (- aligned sx mx ex (Z.min ex ey) + - aligned sy my ey (Z.min ex ey))
      with (- (aligned sx mx ex (Z.min ex ey) + aligned sy my ey (Z.min ex ey))) by lia.
    apply normz_opp.
Qed.

Lemma opp_opp : forall x, SFopp (SFopp x) = x.
Proof. intros x. destruct x as [ s | s | | s m e ]; cbn [SFopp]; rewrite ?negb_involutive; reflexivity. Qed.

(** [h + 360] is the opposite of [(-h) - 360]. *)
Lemma add_as_sub :
  forall h y, is_finite h = true -> is_finite y = true ->
    Fnum (F32.add h y) = - Fnum (F32.sub (SFopp h) y)
    /\ F32.valid (F32.add h y) = F32.valid (F32.sub (SFopp h) y)
    /\ is_finite (F32.add h y) = is_finite (F32.sub (SFopp h) y).
Proof.
  intros h y Fh Fy. unfold F32.add, F32.sub.
  change (SFadd F32.prec F32.emax) with (SFadd 24 128).
  change (SFsub F32.prec F32.emax) with (SFsub 24 128).
  destruct (sub_as_add (SFopp h) y) as [A [B C]];
    [ rewrite finite_opp; exact Fh | exact Fy | ].
  rewrite A, B, C.
  destruct (add_opp_opp (SFopp h) (SFopp y)) as [A' [B' C']];
    [ rewrite finite_opp; exact Fh | rewrite finite_opp; exact Fy | ].
  rewrite !opp_opp in A', B', C'. rewrite A', B', C'. repeat split; lia.
Qed.

(** One turn taken off a hue between 2^32 and 2^33: the result is the
    float 512 below. *)
Lemma step_down_top :
  forall M, 2 ^ 23 < M <= 2 ^ 24 ->
    F32.valid (normz (M * 2 ^ 24 - 11796480) (-15)) = true
    /\ is_finite (normz (M * 2 ^ 24 - 11796480) (-15)) = true
    /\ Fnum (normz (M * 2 ^ 24 - 11796480) (-15)) = (M - 1) * 2 ^ 158.
Proof.
  intros M HM.
  change (2 ^ 23) with 8388608 in HM. change (2 ^ 24) with 16777216 in *.
  set (z := M * 16777216 - 11796480).
  assert (Hz : 0 < z) by (subst z; lia).
  assert (D : digits z = 48).
  { apply digits_unique; [ | lia ].
    change (2 ^ (48 - 1)) with 140737488355328.
    change (2 ^ 48) with 281474976710656. subst z. lia. }
  assert (T : target z (-15) = 9) by (rewrite target_eq, D; reflexivity).
  assert (R : rne z 24 = M - 1).
  { unfold rne. change (24 <=? 0) with false. cbv iota.
    change (2 ^ 24) with 16777216.
    assert (Q : z / 16777216 = M - 1).
    { symmetry. apply (Z.div_unique z 16777216 (M - 1) 4980736); subst z; lia. }
    assert (Rm : z mod 16777216 = 4980736).
    { symmetry. apply (Z.mod_unique z 16777216 (M - 1) 4980736); subst z; lia. }
    rewrite Q, Rm.
    change (16777216 <? 2 * 4980736) with false.
    change (16777216 =? 2 * 4980736) with false. reflexivity. }
  assert (E : normz z (-15) = S754_finite false (Z.to_pos (M - 1)) 9).
  { destruct z as [ | p | p ] eqn:Zp; try lia. cbn [normz]. unfold rnd.
    rewrite T. change (9 - -15) with 24. rewrite R.
    unfold pack, fin.
    replace (M - 1 =? 0) with false by (symmetry; apply Z.eqb_neq; lia).
    replace (M - 1 <? 2 ^ 24) with true by (symmetry; apply Z.ltb_lt; change (2 ^ 24) with 16777216; lia).
    reflexivity. }
  rewrite E. split; [ | split ].
  - apply valid_finite_intro; change (2 ^ 24) with 16777216; change (2 ^ 23) with 8388608; lia.
  - reflexivity.
  - cbn [Fnum cond_Zopp]. rewrite Z2Pos.id by lia. reflexivity.
Qed.

(** One turn taken off a hue in [360, 2^33]: a float at least 256 lower,
    never below zero. *)
Lemma step_down_wide :
  forall h, F32.valid h = true -> is_finite h = true ->
    turn <= Fnum h <= 2 ^ 182 ->
    F32.valid (F32.sub h Hsv.f360) = true /\ is_finite (F32.sub h Hsv.f360) = true
    /\ 0 <= Fnum (F32.sub h Hsv.f360) <= Fnum h - 2 ^ 157
    /\ (Fnum (F32.sub h Hsv.f360) = 0 \/ 2 ^ 134 <= Fnum (F32.sub h Hsv.f360)).
Proof.
  intros h V F H. pose proof turn_pos as TP.
  assert (P134 : 0 < 2 ^ 134) by (apply Z.pow_pos_nonneg; lia).
  assert (T157 : 2 ^ 157 <= turn).
  { unfold turn. change (2 ^ 157) with (256 * 2 ^ 149).
    assert (0 < 2 ^ 149) by (apply Z.pow_pos_nonneg; lia). lia. }
  destruct (Z_lt_ge_dec (Fnum h) (2 ^ 176)) as [ L | G ].
  { destruct (step_down h V F ltac:(lia)) as [V' [F' E']].
    split; [ exact V' | ]. split; [ exact F' | ]. rewrite E'. split; [ lia | ].
    pose proof (large_on_grid h V F ltac:(lia)) as Gh.
    assert (Gt : turn mod 2 ^ 134 = 0) by reflexivity.
    apply Z.mod_divide in Gh; [ | lia ]. apply Z.mod_divide in Gt; [ | lia ].
    destruct Gh as [a Ha]. destruct Gt as [b Hb]. rewrite Ha, Hb in *.
    destruct (Z.eq_dec a b) as [ E | E ]; [ left; subst a; lia | right; nia ]. }
  destruct h as [ s | s | | s m e ]; try discriminate F.
  { cbn [Fnum] in G. assert (0 < 2 ^ 176) by (apply Z.pow_pos_nonneg; lia). lia. }
  destruct (valid_finite_inv _ _ _ V) as [_ [He [Hm Hn]]].
  assert (P : 0 < 2 ^ (e + 149)) by (apply Z.pow_pos_nonneg; lia).
  destruct s; [ cbn [Fnum cond_Zopp] in H; lia | ].
  cbn [Fnum cond_Zopp] in H, G |- *.
  assert (E4 : 4 <= e).
  { destruct (Z_lt_ge_dec e 4) as [ Lt | Ge ]; [ | lia ].
    assert (2 ^ (e + 149) <= 2 ^ 152) by (apply Z.pow_le_mono_r; lia).
    change (2 ^ 176) with (2 ^ 24 * 2 ^ 152) in G.
    assert (0 < 2 ^ 152) by (apply Z.pow_pos_nonneg; lia). nia. }
  specialize (Hn ltac:(lia)).
  assert (E10 : e <= 10 /\ (e = 10 -> Zpos m = 2 ^ 23)).
  { destruct (Z_le_gt_dec e 9) as [ Le | Gt ]; [ lia | ].
    destruct (Z_le_gt_dec e 10) as [ Le' | Gt' ].
    - assert (e = 10) by lia. subst e. split; [ lia | ]. intros _.
      change (10 + 149) with 159 in *.
      change (2 ^ 182) with (2 ^ 23 * 2 ^ 159) in H.
      assert (0 < 2 ^ 159) by (apply Z.pow_pos_nonneg; lia). nia.
    - exfalso.
      assert (2 ^ 160 <= 2 ^ (e + 149)) by (apply Z.pow_le_mono_r; lia).
      change (2 ^ 182) with (2 ^ 22 * 2 ^ 160) in H.
      assert (0 < 2 ^ 160) by (apply Z.pow_pos_nonneg; lia).
      change (2 ^ 23) with 8388608 in Hn. change (2 ^ 22) with 4194304 in H. nia. }
  destruct E10 as [E10 E10'].
  destruct (Z_le_gt_dec (Zpos m * 2 ^ (e + 149)) (2 ^ 181)) as [ Low | High ].
  - (* at most 2^32: compare with h - 256, which is a float *)
    assert (Rep : exists r, F32.valid r = true /\ is_finite r = true
                            /\ Fnum r = Zpos m * 2 ^ (e + 149) - 2 ^ 157).
    { assert (N0 : 2 ^ 157 < Zpos m * 2 ^ (e + 149)).
      { assert (2 ^ 157 < 2 ^ 176) by (apply Z.pow_lt_mono_r; lia). lia. }
      destruct (Z_le_gt_dec e 8) as [ Le | Gt ].
      - assert (Q : 2 ^ 157 = 2 ^ (8 - e) * 2 ^ (e + 149)).
        { rewrite <- Z.pow_add_r by lia. f_equal. lia. }
        assert (Pq : 0 < 2 ^ (8 - e)) by (apply Z.pow_pos_nonneg; lia).
        apply (representable _ (Zpos m - 2 ^ (8 - e)) (e + 149)).
        + lia.
        + rewrite Z.abs_eq by lia. rewrite Q. ring.
        + split; [ | lia ]. rewrite Q in N0. nia.
        + lia.
        + assert (2 ^ 181 <= 2 ^ (127 + 149)) by (apply Z.pow_le_mono_r; lia).
          rewrite Q in N0. nia.
      - assert (e = 9).
        { destruct (Z.eq_dec e 10) as [ E | E ]; [ | lia ].
          subst e. rewrite (E10' eq_refl) in Low.
          change (2 ^ 23 * 2 ^ (10 + 149)) with (2 ^ 182) in Low.
          assert (2 ^ 181 < 2 ^ 182) by (apply Z.pow_lt_mono_r; lia). lia. }
        subst e. change (9 + 149) with 158 in *.
        assert (Zpos m = 2 ^ 23).
        { change (2 ^ 181) with (2 ^ 23 * 2 ^ 158) in Low.
          assert (0 < 2 ^ 158) by (apply Z.pow_pos_nonneg; lia). nia. }
        apply (representable _ (2 ^ 24 - 1) 157).
        + lia.
        + rewrite H0. rewrite Z.abs_eq by lia.
          change (2 ^ 158) with (2 * 2 ^ 157). change (2 ^ 23) with 8388608.
          change (2 ^ 24) with 16777216. ring.
        + change (2 ^ 24) with 16777216. lia.
        + lia.
        + assert (2 ^ 181 <= 2 ^ (127 + 149)) by (apply Z.pow_le_mono_r; lia).
          change (2 ^ 24) with (2 * 2 ^ 23).
          change (2 ^ 181) with (2 ^ 23 * (2 * 2 ^ 157)) in H1.
          assert (0 < 2 ^ 157) by (apply Z.pow_pos_nonneg; lia). nia. }
    destruct Rep as [r [Vr [Fr Er]]].
    set (f256 := S754_finite false 8388608 (-15)).
    assert (E256 : Fnum f256 = 2 ^ 157) by reflexivity.
    destruct (sub_exact (S754_finite false m e) f256 r V eq_refl Vr F eq_refl Fr) as [_ [_ C]].
    { rewrite E256, Er. reflexivity. }
    destruct (sub_mono (S754_finite false m e) Hsv.f360 (S754_finite false m e) f256 33
                V eq_refl V eq_refl F eq_refl F eq_refl ltac:(lia)) as [A1 [A2 [_ [_ [A3 _]]]]].
    + rewrite Fnum_f360. cbn [Fnum cond_Zopp]. lia.
    + rewrite Fnum_f360, E256. lia.
    + rewrite E256. cbn [Fnum cond_Zopp]. change (33 + 149) with 182.
      assert (0 < 2 ^ 157) by (apply Z.pow_pos_nonneg; lia). lia.
    + split; [ exact A1 | ]. split; [ exact A2 | ].
      split.
      { change (F32.sub ?a ?b) with (SFsub 24 128 a b) in A3.
        change (F32.sub ?a ?b) with (SFsub 24 128 a b).
        rewrite C, Er in A3. exact A3. }
      right.
      set (c := S754_finite false 8388608 3).
      destruct (sub_mono c (S754_zero false) (S754_finite false m e) Hsv.f360 33
                  eq_refl eq_refl V eq_refl eq_refl eq_refl F eq_refl ltac:(lia))
        as [_ [_ [_ [_ [B3 _]]]]].
      * vm_compute. discriminate.
      * rewrite Fnum_f360. change (Fnum c - Fnum (S754_zero false)) with (2 ^ 175).
        cbn [Fnum cond_Zopp]. change (2 ^ 176) with (2 * 2 ^ 175) in G.
        assert (turn < 2 ^ 175) by (vm_compute; reflexivity). lia.
      * rewrite Fnum_f360. cbn [Fnum cond_Zopp]. change (33 + 149) with 182. lia.
      * change (Fnum (F32.sub c (S754_zero false))) with (2 ^ 175) in B3.
        assert (2 ^ 134 < 2 ^ 175) by (apply Z.pow_lt_mono_r; lia). lia.
  - (* between 2^32 and 2^33 *)
    assert (E9 : 9 <= e).
    { destruct (Z_lt_ge_dec e 9) as [ Lt | Ge ]; [ | lia ].
      assert (2 ^ (e + 149) <= 2 ^ 157) by (apply Z.pow_le_mono_r; lia).
      change (2 ^ 181) with (2 ^ 24 * 2 ^ 157) in High.
      assert (0 < 2 ^ 157) by (apply Z.pow_pos_nonneg; lia). nia. }
    unfold F32.sub. change (SFsub F32.prec F32.emax) with (SFsub 24 128).
    change Hsv.f360 with (S754_finite false 11796480 (-15)).
    rewrite sub_spec. replace (Z.min e (-15)) with (-15) by lia.
    unfold aligned. cbn [cond_Zopp].
    change (Zpos 11796480 * 2 ^ (-15 - -15)) with 11796480.
    destruct (Z.eq_dec e 9) as [ E | E ].
    + subst e. change (9 - -15) with 24. change (9 + 149) with 158 in *.
      assert (HM : 2 ^ 23 < Zpos m <= 2 ^ 24).
      { change (2 ^ 181) with (2 ^ 23 * 2 ^ 158) in High.
        assert (0 < 2 ^ 158) by (apply Z.pow_pos_nonneg; lia). nia. }
      destruct (step_down_top (Zpos m) HM) as [A [B C]].
      split; [ exact A | ]. split; [ exact B | ]. rewrite C.
      change (2 ^ 158) with (2 * 2 ^ 157).
      assert (0 < 2 ^ 157) by (apply Z.pow_pos_nonneg; lia).
      assert (2 ^ 134 < 2 ^ 157) by (apply Z.pow_lt_mono_r; lia).
      change (2 ^ 23) with 8388608 in HM. split; [ nia | right; nia ].
    + assert (e = 10) by lia. subst e. rewrite (E10' eq_refl).
      change (10 - -15) with 25. change (2 ^ 23 * 2 ^ 25) with (2 ^ 24 * 2 ^ 24).
      destruct (step_down_top (2 ^ 24)) as [A [B C]].
      { change (2 ^ 23) with 8388608. change (2 ^ 24) with 16777216. lia. }
      split; [ exact A | ]. split; [ exact B | ]. rewrite C.
      change (2 ^ 23 * 2 ^ (10 + 149)) with (2 ^ 24 * (2 * 2 ^ 157)).
      change (2 ^ 158) with (2 * 2 ^ 157).
      assert (0 < 2 ^ 157) by (apply Z.pow_pos_nonneg; lia).
      assert (2 ^ 134 < 2 ^ 157) by (apply Z.pow_lt_mono_r; lia).
      change (2 ^ 24) with 16777216. split; [ nia | right; nia ].
Qed.

(** One turn added to a hue in [-2^33, -360]: a float at least 256
    higher, never above zero; on the way it stays clear of the small
    negative numbers. *)
Lemma step_up_wide :
  forall h, F32.valid h = true -> is_finite h = true ->
    - 2 ^ 182 <= Fnum h <= - turn ->
    F32.valid (F32.add h Hsv.f360) = true /\ is_finite (F32.add h Hsv.f360) = true
    /\ Fnum h + 2 ^ 157 <= Fnum (F32.add h Hsv.f360) <= 0
    /\ (Fnum (F32.add h Hsv.f360) = 0 \/ Fnum (F32.add h Hsv.f360) <= - 2 ^ 134).
Proof.
  intros h V F H.
  destruct (add_as_sub h Hsv.f360 F eq_refl) as [A [B C]].
  destruct (step_down_wide (SFopp h)) as [V' [F' [E' G']]].
  - rewrite valid_opp. exact V.
  - rewrite finite_opp. exact F.
  - rewrite Fnum_opp. lia.
  - rewrite A, B, C. rewrite Fnum_opp in E'. repeat split; try assumption; lia.
Qed.

(** A float below [-2^-16] is at most the next float down. *)
Lemma float_under_slip :
  forall h, F32.valid h = true -> is_finite h = true ->
    Fnum h < - 2 ^ 133 -> Fnum h <= - (2 ^ 133 + 2 ^ 110).
Proof.
  intros h V F H. destruct h as [ s | s | | s m e ]; try discriminate F.
  { cbn [Fnum] in H. assert (0 < 2 ^ 133) by (apply Z.pow_pos_nonneg; lia). lia. }
  destruct (valid_finite_inv _ _ _ V) as [_ [He [Hm _]]].
  assert (P : 0 < 2 ^ (e + 149)) by (apply Z.pow_pos_nonneg; lia).
  assert (P133 : 0 < 2 ^ 133) by (apply Z.pow_pos_nonneg; lia).
  destruct s; cbn [Fnum cond_Zopp] in *; [ | lia ].
  assert (P110 : 0 < 2 ^ 110) by (apply Z.pow_pos_nonneg; lia).
  destruct (Z_lt_ge_dec (e + 149) 110) as [ Lt | Ge ].
  - exfalso. assert (2 ^ (e + 149) <= 2 ^ 109) by (apply Z.pow_le_mono_r; lia).
    change (2 ^ 133) with (2 ^ 24 * 2 ^ 109) in H.
    assert (0 < 2 ^ 109) by (apply Z.pow_pos_nonneg; lia). nia.
  - assert (Q : 2 ^ (e + 149) = 2 ^ (e + 149 - 110) * 2 ^ 110).
    { rewrite <- Z.pow_add_r by lia. f_equal. lia. }
    assert (Pq : 0 < 2 ^ (e + 149 - 110)) by (apply Z.pow_pos_nonneg; lia).
    rewrite Q in *. change (2 ^ 133) with (2 ^ 23 * 2 ^ 110) in *.
    assert (2 ^ 23 < Zpos m * 2 ^ (e + 149 - 110)) by nia.
    nia.
Qed.

(** The last turn added to a negative hue below [-2^-16]: the sum is
    below 360. *)
Lemma step_up_last :
  forall h, F32.valid h = true -> is_finite h = true ->
    - turn < Fnum h < - 2 ^ 133 ->
    F32.valid (F32.add h Hsv.f360) = true /\ is_finite (F32.add h Hsv.f360) = true
    /\ 0 <= Fnum (F32.add h Hsv.f360) < turn.
Proof.
  intros h V F H. pose proof turn_pos as TP.
  pose proof (float_under_slip h V F ltac:(lia)) as U.
  unfold F32.add. change (SFadd F32.prec F32.emax) with (SFadd 24 128).
  destruct h as [ s | s | | s m e ]; try discriminate F.
  { cbn [Fnum] in H. lia. }
  destruct (valid_finite_inv _ _ _ V) as [_ [He _]].
  change Hsv.f360 with (S754_finite false 11796480 (-15)).
  rewrite add_spec.
  set (ez := Z.min e (-15)).
  pose proof (aligned_Fnum s m e ez ltac:(subst ez; lia)) as Ax.
  pose proof (aligned_Fnum false 11796480 (-15) ez ltac:(subst ez; lia)) as Ay.
  change (Fnum (S754_finite false 11796480 (-15))) with turn in Ay.
  assert (Pe : 0 < 2 ^ (ez + 149)) by (apply Z.pow_pos_nonneg; subst ez; lia).
  set (z := aligned s m e ez + aligned false 11796480 (-15) ez) in *.
  assert (Ez : z * 2 ^ (ez + 149) = Fnum (S754_finite s m e) + turn) by (subst z; lia).
  destruct (normz_mono z ez 197912084611071 (-39) 9) as [A [B [_ [_ [C _]]]]].
  - subst ez; lia.
  - lia.
  - lia.
  - nia.
  - rewrite Ez.
    change (197912084611071 * 2 ^ (-39 + 149)) with (turn - (2 ^ 133 + 2 ^ 110)). lia.
  - vm_compute. discriminate.
  - split; [ exact A | ]. split; [ exact B | ].
    assert (K : Fnum (normz 197912084611071 (-39)) < turn) by (vm_compute; reflexivity).
    lia.
Qed.

(** The first loop on a hue in [0, 2^33]. *)
Lemma wrap_high_wide :
  forall n h, F32.valid h = true -> is_finite h = true ->
    0 <= Fnum h <= 2 ^ 182 -> Fnum h < turn + Z.of_nat n * 2 ^ 157 ->
    exists r, F32.valid r = true /\ is_finite r = true
      /\ 0 <= Fnum r < turn
      /\ forall fuel, (n <= fuel)%nat -> Hsv.wrap_high fuel h = Done r.
Proof.
  pose proof turn_pos as TP.
  induction n as [ | n IH ]; intros h V F H Hb.
  - exists h. repeat split; try assumption; try lia.
    intros fuel _. apply wrap_high_below; try assumption; lia.
  - destruct (Z_lt_ge_dec (Fnum h) turn) as [ L | G ].
    + exists h. repeat split; try assumption; try lia.
      intros fuel _. apply wrap_high_below; assumption.
    + destruct (step_down_wide h V F ltac:(lia)) as [V' [F' [E' _]]].
      assert (0 < 2 ^ 157) by (apply Z.pow_pos_nonneg; lia).
      destruct (IH (F32.sub h Hsv.f360) V' F') as [r [Vr [Fr [Er Run]]]].
      * lia.
      * rewrite Nat2Z.inj_succ in Hb. lia.
      * exists r. split; [ exact Vr | ]. split; [ exact Fr | ]. split; [ exact Er | ].
        intros fuel Hf. destruct fuel as [ | fuel ]; [ lia | ].
        cbn [Hsv.wrap_high]. rewrite geb_f360 by assumption.
        replace (turn <=? Fnum h) with true by (symmetry; apply Z.leb_le; lia).
        apply Run. lia.
Qed.

(** The second loop on a hue in [-2^33, 360): it ends in [0, 360], and
    below 360 unless it passes through [-2^-16, 0). *)
Lemma wrap_low_wide :
  forall n h, F32.valid h = true -> is_finite h = true ->
    - 2 ^ 182 <= Fnum h < turn -> - (Z.of_nat n * 2 ^ 157) < Fnum h ->
    exists r, F32.valid r = true /\ is_finite r = true
      /\ 0 <= Fnum r <= turn
      /\ (~ (- 2 ^ 133 <= Fnum h < 0) -> Fnum r < turn)
      /\ (0 <= Fnum h -> r = h)
      /\ forall fuel, (n <= fuel)%nat -> Hsv.wrap_low fuel h = Done r.
Proof.
  pose proof turn_pos as TP.
  assert (P157 : 0 < 2 ^ 157) by (apply Z.pow_pos_nonneg; lia).
  assert (P133 : 0 < 2 ^ 133) by (apply Z.pow_pos_nonneg; lia).
  assert (T157 : 2 ^ 157 <= turn).
  { unfold turn. change (2 ^ 157) with (256 * 2 ^ 149).
    assert (0 < 2 ^ 149) by (apply Z.pow_pos_nonneg; lia). lia. }
  assert (Stay : forall h, F32.valid h = true -> is_finite h = true -> 0 <= Fnum h < turn ->
            exists r, F32.valid r = true /\ is_finite r = true
              /\ 0 <= Fnum r <= turn
              /\ (~ (- 2 ^ 133 <= Fnum h < 0) -> Fnum r < turn)
              /\ (0 <= Fnum h -> r = h)
              /\ forall fuel, Hsv.wrap_low fuel h = Done r).
  { intros h V F H. exists h. repeat split; try assumption; try lia.
    intros fuel. apply wrap_low_above; try assumption; lia. }
  induction n as [ | n IH ]; intros h V F H Hb.
  - destruct (Stay h V F ltac:(cbn in Hb; lia)) as [r [A [B [C [D [E R]]]]]].
    exists r. repeat split; try assumption; try lia. intros fuel _. apply R.
  - destruct (Z_lt_ge_dec (Fnum h) 0) as [ Neg | Pos ].
    2:{ destruct (Stay h V F ltac:(lia)) as [r [A [B [C [D [E R]]]]]].
        exists r. repeat split; try assumption; try lia. intros fuel _. apply R. }
    assert (Loop : forall r fuel, Hsv.wrap_low fuel (F32.add h Hsv.f360) = Done r ->
                     Hsv.wrap_low (S fuel) h = Done r).
    { intros r fuel R. cbn [Hsv.wrap_low]. rewrite ltb_f0 by assumption.
      replace (Fnum h <? 0) with true by (symmetry; apply Z.ltb_lt; lia). exact R. }
    destruct (Z_le_gt_dec (Fnum h) (- turn)) as [ Far | Near ].
    + destruct (step_up_wide h V F ltac:(lia)) as [V' [F' [E' G']]].
      assert (P134 : 2 ^ 133 < 2 ^ 134) by (apply Z.pow_lt_mono_r; lia).
      destruct (IH (F32.add h Hsv.f360) V' F') as [r [Vr [Fr [Er [Sr [_ Run]]]]]].
      * lia.
      * rewrite Nat2Z.inj_succ in Hb. lia.
      * exists r. split; [ exact Vr | ]. split; [ exact Fr | ]. split; [ exact Er | ].
        split; [ intros _; apply Sr; lia | ]. split; [ lia | ].
        intros fuel Hf. destruct fuel as [ | fuel ]; [ lia | ].
        apply Loop. apply Run. lia.
    + destruct (Z_lt_ge_dec (Fnum h) (- 2 ^ 133)) as [ Clear | Slip ].
      * destruct (step_up_last h V F ltac:(lia)) as [V' [F' E']].
        exists (F32.add h Hsv.f360). split; [ exact V' | ]. split; [ exact F' | ].
        split; [ lia | ]. split; [ lia | ]. split; [ lia | ].
        intros fuel Hf. destruct fuel as [ | fuel ]; [ lia | ].
        apply Loop. apply wrap_low_above; try assumption; lia.
      * destruct (step_up_near h V F ltac:(lia)) as [V' [F' [E' _]]].
        exists (F32.add h Hsv.f360). split; [ exact V' | ]. split; [ exact F' | ].
        split; [ lia | ]. split; [ lia | ]. split; [ lia | ].
        intros fuel Hf. destruct fuel as [ | fuel ]; [ lia | ].
        apply Loop. apply wrap_low_above; try assumption; lia.
Qed.

(** Both loops on any finite hue of magnitude at most 2^33. *)
Lemma normalize_wide :
  forall h, F32.valid h = true -> is_finite h = true ->
    Z.abs (Fnum h) <= 2 ^ 182 ->
    exists r, F32.valid r = true /\ is_finite r = true
      /\ 0 <= Fnum r <= turn
      /\ (~ (- 2 ^ 133 <= Fnum h < 0) -> Fnum r < turn)
      /\ forall fuel, (laps h <= fuel)%nat -> Hsv.normalize_hue fuel h = Done r.
Proof.
  intros h V F H. pose proof turn_pos as TP.
  assert (P157 : 0 < 2 ^ 157) by (apply Z.pow_pos_nonneg; lia).
  assert (T157 : 2 ^ 157 <= turn).
  { unfold turn. change (2 ^ 157) with (256 * 2 ^ 149).
    assert (0 < 2 ^ 149) by (apply Z.pow_pos_nonneg; lia). lia. }
  assert (L : Z.abs (Fnum h) < Z.of_nat (laps h) * 2 ^ 157).
  { unfold laps. rewrite Z2Nat.id by (pose proof (Z.div_pos (Z.abs (Fnum h)) (2 ^ 157)); lia).
    pose proof (Z.mod_pos_bound (Z.abs (Fnum h)) (2 ^ 157) P157).
    pose proof (Z.div_mod (Z.abs (Fnum h)) (2 ^ 157)). lia. }
  unfold Hsv.normalize_hue.
  destruct (Z_lt_ge_dec (Fnum h) 0) as [ Neg | Pos ].
  - destruct (wrap_low_wide (laps h) h V F ltac:(lia) ltac:(lia)) as [r [Vr [Fr [Er [Sr [_ Run]]]]]].
    exists r. split; [ exact Vr | ]. split; [ exact Fr | ]. split; [ exact Er | ].
    split; [ exact Sr | ].
    intros fuel Hf. rewrite wrap_high_below by (try assumption; lia).
    cbn [obind]. apply Run. exact Hf.
  - destruct (wrap_high_wide (laps h) h V F ltac:(lia) ltac:(lia)) as [r [Vr [Fr [Er Run]]]].
    exists r. split; [ exact Vr | ]. split; [ exact Fr | ]. split; [ lia | ].
    split; [ lia | ].
    intros fuel Hf. rewrite (Run fuel Hf). cbn [obind].
    apply wrap_low_above; try assumption; lia.
Qed.

(** ** A larger iteration budget does not change a result *)

Lemma wrap_high_next :
  forall fuel h r, Hsv.wrap_high fuel h = Done r -> Hsv.wrap_high (S fuel) h = Done r.
Proof.
  induction fuel as [ | n IH ]; intros h r H.
  - cbn [Hsv.wrap_high] in *. destruct (F32.geb h Hsv.f360); [ discriminate H | exact H ].
  - change (Hsv.wrap_high (S n) h)
      with (if F32.geb h Hsv.f360 then Hsv.wrap_high n (F32.sub h Hsv.f360) else Done h) in H.
    change (Hsv.wrap_high (S (S n)) h)
      with (if F32.geb h Hsv.f360 then Hsv.wrap_high (S n) (F32.sub h Hsv.f360) else Done h).
    destruct (F32.geb h Hsv.f360); [ apply IH; exact H | exact H ].
Qed.

Lemma wrap_low_next :
  forall fuel h r, Hsv.wrap_low fuel h = Done r -> Hsv.wrap_low (S fuel) h = Done r.
Proof.
  induction fuel as [ | n IH ]; intros h r H.
  - cbn [Hsv.wrap_low] in *. destruct (F32.ltb h Hsv.f0); [ discriminate H | exact H ].
  - change (Hsv.wrap_low (S n) h)
      with (if F32.ltb h Hsv.f0 then Hsv.wrap_low n (F32.add h Hsv.f360) else Done h) in H.
    change (Hsv.wrap_low (S (S n)) h)
      with (if F32.ltb h Hsv.f0 then Hsv.wrap_low (S n) (F32.add h Hsv.f360) else Done h).
    destruct (F32.ltb h Hsv.f0); [ apply IH; exact H | exact H ].
Qed.

Lemma wrap_high_defined : forall fuel h, Hsv.wrap_high fuel h <> Undef.
Proof.
  induction fuel as [ | n IH ]; intros h; cbn [Hsv.wrap_high];
    destruct (F32.geb h Hsv.f360); try discriminate. apply IH.
Qed.

Lemma wrap_low_defined : forall fuel h, Hsv.wrap_low fuel h <> Undef.
Proof.
  induction fuel as [ | n IH ]; intros h; cbn [Hsv.wrap_low];
    destruct (F32.ltb h Hsv.f0); try discriminate. apply IH.
Qed.

Lemma normalize_more :
  forall fuel fuel' h r, (fuel <= fuel')%nat ->
    Hsv.normalize_hue fuel h = Done r -> Hsv.normalize_hue fuel' h = Done r.
Proof.
  intros fuel fuel' h r L. induction L as [ | m L IH ]; intros H; [ exact H | ].
  specialize (IH H). unfold Hsv.normalize_hue in *.
  destruct (Hsv.wrap_high m h) as [ h1 | | ] eqn:E1; try discriminate IH.
  cbn [obind] in IH.
  rewrite (wrap_high_next m h h1 E1). cbn [obind].
  apply wrap_low_next. exact IH.
Qed.

(** A conversion that is not cut short returns the same outcome with
    any larger budget. *)
Lemma hsv_more :
  forall fuel fuel' h s v, (fuel <= fuel')%nat ->
    Hsv.hsv_to_rgb fuel h s v <> Timeout ->
    Hsv.hsv_to_rgb fuel' h s v = Hsv.hsv_to_rgb fuel h s v.
Proof.
  intros fuel fuel' h s v L H. unfold Hsv.hsv_to_rgb in *.
  destruct (Hsv.normalize_hue fuel h) as [ r | | ] eqn:E.
  - rewrite (normalize_more fuel fuel' h r L E). reflexivity.
  - exfalso. unfold Hsv.normalize_hue in E.
    destruct (Hsv.wrap_high fuel h) as [ h1 | | ] eqn:E1; cbn [obind] in E.
    + exact (wrap_low_defined _ _ E).
    + exact (wrap_high_defined _ _ E1).
    + discriminate E.
  - exfalso. apply H. reflexivity.
Qed.

(** ** Normalization of the hue *)

(** C7, as stated, fails.  The hue 2^40 is so large that subtracting
    360 rounds back to 2^40: the first loop never ends, whatever the
    iteration budget; so it is already at the first [float] above 2^33,
    and for its opposite in the second loop.  By a slip of the second
    loop, the hue -(2^-30) is so small that adding 360 rounds to 360
    exactly: the loop ends after one iteration and leaves the hue at 360,
    outside [0, 360); so does every hue from -(2^-16) up to zero, while
    the [float] just below -(2^-16) is brought into the range.  An
    infinite hue stays in the first loop for ever, and a hue that is not
    a number leaves both loops at once, unchanged. *)
Lemma normalize_hue_fails :
  F32.valid Hsv.hue_2p40 = true
  /\ F32.sub Hsv.hue_2p40 Hsv.f360 = Hsv.hue_2p40
  /\ (forall fuel, Hsv.normalize_hue fuel Hsv.hue_2p40 = Timeout)
  /\ F32.valid Hsv.hue_minus_2m30 = true
  /\ Hsv.normalize_hue 1 Hsv.hue_minus_2m30 = Done Hsv.f360
  /\ Hsv.in_range Hsv.f360 = false
  /\ F32.valid Edge.hue_above_2p33 = true
  /\ (forall fuel, Hsv.normalize_hue fuel Edge.hue_above_2p33 = Timeout)
  /\ (forall fuel, Hsv.normalize_hue fuel (F32.opp Edge.hue_above_2p33) = Timeout)
  /\ F32.valid Edge.hue_minus_2m16 = true
  /\ Hsv.normalize_hue 1 Edge.hue_minus_2m16 = Done Hsv.f360
  /\ Hsv.normalize_hue 1 Edge.hue_under_minus_2m16 = Done Hsv.hue_below_360
  /\ (forall fuel, Hsv.normalize_hue fuel (S754_infinity false) = Timeout)
  /\ (forall fuel, Hsv.normalize_hue fuel S754_nan = Done S754_nan)
  /\ Hsv.in_range S754_nan = false.
Proof.
  split; [ vm_compute; reflexivity | ].
  split; [ vm_compute; reflexivity | ].
  split.
  { intros fuel. unfold Hsv.normalize_hue.
    rewrite wrap_high_stuck; [ reflexivity | vm_compute; reflexivity | vm_compute; reflexivity ]. }
  split; [ vm_compute; reflexivity | ].
  split; [ vm_compute; reflexivity | ].
  split; [ vm_compute; reflexivity | ].
  split; [ vm_compute; reflexivity | ].
  split.
  { intros fuel. unfold Hsv.normalize_hue.
    rewrite wrap_high_stuck; [ reflexivity | vm_compute; reflexivity | vm_compute; reflexivity ]. }
  split.
  { intros fuel. unfold Hsv.normalize_hue.
    rewrite wrap_high_below; [ | vm_compute; reflexivity | vm_compute; reflexivity
                               | vm_compute; reflexivity ].
    cbn [obind].
    apply wrap_low_stuck; vm_compute; reflexivity. }
  split; [ vm_compute; reflexivity | ].
  split; [ vm_compute; reflexivity | ].
  split; [ vm_compute; reflexivity | ].
  split.
  { intros fuel. unfold Hsv.normalize_hue.
    rewrite wrap_high_stuck; [ reflexivity | reflexivity | reflexivity ]. }
  split; [ intros fuel; destruct fuel; reflexivity | reflexivity ].
Qed.

(** C7, amended: for every finite hue of magnitude at most 2^33, the
    hues from -(2^-16) up to zero left aside, the two loops terminate,
    within [laps h] iterations (each one moves the hue by 256 at least),
    and leave the hue in [0, 360); no iteration budget gives another
    result.  When moreover the magnitude is below 2^27, [turns h]
    iterations are enough and, if the hue is not negative or is a
    multiple of 2^-15, every step is exact and the result is the hue
    modulo 360.  In the
    statement a hue is measured by [Fnum], in units of 2^-149: 2^182
    stands for 2^33, 2^176 for 2^27 and 2^133 for 2^-16. *)
Theorem normalize_hue_up_to_2p33 :
  forall h, F32.valid h = true -> is_finite h = true ->
    Z.abs (Fnum h) <= 2 ^ 182 -> ~ (- 2 ^ 133 <= Fnum h < 0) ->
    exists r,
      (forall fuel, (laps h <= fuel)%nat -> Hsv.normalize_hue fuel h = Done r)
      /\ F32.valid r = true /\ is_finite r = true
      /\ Hsv.in_range r = true
      /\ 0 <= Fnum r < turn
      /\ (forall fuel r', Hsv.normalize_hue fuel h = Done r' -> r' = r)
      /\ (Z.abs (Fnum h) < 2 ^ 176 ->
          (forall fuel, (turns h <= fuel)%nat -> Hsv.normalize_hue fuel h = Done r)
          /\ (0 <= Fnum h \/ Fnum h mod 2 ^ 134 = 0 -> Fnum r = Fnum h mod turn)).
Proof.
  intros h V F H S. pose proof turn_pos as TP.
  destruct (normalize_wide h V F H) as [r [Vr [Fr [Rr [Sr Run]]]]].
  specialize (Sr S).
  exists r. split; [ exact Run | ]. split; [ exact Vr | ]. split; [ exact Fr | ].
  split.
  { rewrite in_range_Fnum by assumption.
    apply andb_true_iff. split; [ apply Z.leb_le | apply Z.ltb_lt ]; lia. }
  split; [ lia | ].
  assert (Same : forall fuel r', Hsv.normalize_hue fuel h = Done r' -> r' = r).
  { intros fuel r' A.
    pose proof (normalize_more fuel (max fuel (laps h)) h r' (Nat.le_max_l _ _) A) as B.
    rewrite (Run _ (Nat.le_max_r _ _)) in B. injection B as B. symmetry. exact B. }
  split; [ exact Same | ].
  intros Hs.
  destruct (normalize_run h V F Hs) as [r' [Run' [_ [_ [_ Er]]]]].
  assert (E : r' = r) by exact (Same _ _ (Run' _ (Nat.le_refl _))).
  rewrite E in Run', Er.
  split; [ exact Run' | ].
  intros C. apply Er.
  destruct C as [ C | C ]; [ left; exact C | right ].
  apply grid_representable; [ apply mod_turn_grid; exact C | ].
  apply Z.mod_pos_bound. exact TP.
Qed.

Lemma normalize_hue_up_to_2p33_witness :
  (exists r,
     Hsv.normalize_hue 3 (F32.of_double (F64.lit (-7255) 10)) = Done r
     /\ Hsv.in_range r = true)
  /\ (exists r,
        Hsv.normalize_hue (laps Edge.hue_2p33) Edge.hue_2p33 = Done r
        /\ Hsv.in_range r = true).
Proof.
  split.
  - assert (V : F32.valid (F32.of_double (F64.lit (-7255) 10)) = true) by (vm_compute; reflexivity).
    assert (F : is_finite (F32.of_double (F64.lit (-7255) 10)) = true) by (vm_compute; reflexivity).
    assert (H : Z.abs (Fnum (F32.of_double (F64.lit (-7255) 10))) <= 2 ^ 182)
      by (vm_compute; discriminate).
    assert (S : ~ (- 2 ^ 133 <= Fnum (F32.of_double (F64.lit (-7255) 10)) < 0)).
    { intros [C _]. vm_compute in C. apply C. reflexivity. }
    destruct (normalize_hue_up_to_2p33 _ V F H S) as [r [Run [_ [_ [R _]]]]].
    exists r. split; [ | exact R ].
    apply Run. apply Nat.leb_le. vm_compute. reflexivity.
  - assert (V : F32.valid Edge.hue_2p33 = true) by (vm_compute; reflexivity).
    assert (F : is_finite Edge.hue_2p33 = true) by (vm_compute; reflexivity).
    assert (H : Z.abs (Fnum Edge.hue_2p33) <= 2 ^ 182) by (vm_compute; discriminate).
    assert (S : ~ (- 2 ^ 133 <= Fnum Edge.hue_2p33 < 0)).
    { intros [_ C]. vm_compute in C. discriminate C. }
    destruct (normalize_hue_up_to_2p33 _ V F H S) as [r [Run [_ [_ [R _]]]]].
    exists r. split; [ | exact R ].
    apply Run. apply Nat.le_refl.
Defined.

(** ** Grey levels *)

Lemma mul_zero_any :
  forall b x, is_finite x = true -> exists s, F32.mul (S754_zero b) x = S754_zero s.
Proof.
  intros b x F. destruct x as [ s | s | | s m e ]; try discriminate F.
  - exists (xorb b s). reflexivity.
  - exists (xorb b s). reflexivity.
Qed.

Lemma channel_unit :
  forall v, unit_float v -> exists c, channel v = Done c /\ 0 <= c <= 255.
Proof.
  intros v U. destruct (channel_mono v v U U ltac:(lia)) as [a [b [A [B [C D]]]]].
  exists a. split; [ exact A | ]. rewrite A in B. injection B as ->. lia.
Qed.

(** C5, as stated, fails in two ways.  A hue that the first loop cannot
    reduce gives no colour at all: at hue 2^40, and already at the first
    [float] above 2^33, with saturation 0 the conversion is still in its
    first loop when any iteration budget runs out.  And a value whose
    product with 255 does not fit an [int] gives no colour either: at
    value 2^31 the conversion to [int] is undefined.  Nor is there a
    colour for an infinite hue, which stays in the first loop, or for a
    hue that is not a number, whose sector is undefined. *)
Lemma grey_fails_on_huge_hue :
  F32.valid Hsv.hue_2p40 = true
  /\ is_finite Hsv.hue_2p40 = true
  /\ F32.sub Hsv.hue_2p40 Hsv.f360 = Hsv.hue_2p40
  /\ (forall fuel, Hsv.hsv_to_rgb fuel Hsv.hue_2p40 Hsv.f0 Hsv.f1 = Timeout)
  /\ F32.valid Edge.hue_above_2p33 = true
  /\ is_finite Edge.hue_above_2p33 = true
  /\ (forall fuel, Hsv.hsv_to_rgb fuel Edge.hue_above_2p33 Hsv.f0 Hsv.f1 = Timeout)
  /\ F32.valid Edge.value_2p31 = true
  /\ is_finite Edge.value_2p31 = true
  /\ (forall fuel, Hsv.hsv_to_rgb fuel Hsv.f0 Hsv.f0 Edge.value_2p31 = Undef)
  /\ (forall fuel, Hsv.hsv_to_rgb fuel (S754_infinity false) Hsv.f0 Hsv.f1 = Timeout)
  /\ (forall fuel, Hsv.hsv_to_rgb fuel S754_nan Hsv.f0 Hsv.f1 = Undef).
Proof.
  split; [ vm_compute; reflexivity | ].
  split; [ vm_compute; reflexivity | ].
  split; [ vm_compute; reflexivity | ].
  split.
  { intros fuel. unfold Hsv.hsv_to_rgb, Hsv.normalize_hue.
    rewrite wrap_high_stuck; [ reflexivity | vm_compute; reflexivity | vm_compute; reflexivity ]. }
  split; [ vm_compute; reflexivity | ].
  split; [ vm_compute; reflexivity | ].
  split.
  { intros fuel. unfold Hsv.hsv_to_rgb, Hsv.normalize_hue.
    rewrite wrap_high_stuck; [ reflexivity | vm_compute; reflexivity | vm_compute; reflexivity ]. }
  split; [ vm_compute; reflexivity | ].
  split; [ vm_compute; reflexivity | ].
  split.
  { intros fuel. unfold Hsv.hsv_to_rgb.
    rewrite normalize_in_range by (vm_compute; reflexivity).
    vm_compute. reflexivity. }
  split.
  { intros fuel. unfold Hsv.hsv_to_rgb, Hsv.normalize_hue.
    rewrite wrap_high_stuck; [ reflexivity | reflexivity | reflexivity ]. }
  intros fuel. destruct fuel; reflexivity.
Qed.

(** Saturation 0 with a budget of [laps h] iterations. *)
Lemma grey_with_budget :
  forall h v sz, F32.valid h = true -> is_finite h = true -> Z.abs (Fnum h) <= 2 ^ 182 ->
    F32.valid v = true ->
    forall fuel, (laps h <= fuel)%nat ->
      (forall c, F32.to_int (F32.mul v Hsv.f255) = Done c ->
         Hsv.hsv_to_rgb fuel h (S754_zero sz) v = Done (c, c, c))
      /\ (unit_float v ->
          exists c, F32.to_int (F32.mul v Hsv.f255) = Done c /\ 0 <= c <= 255
                    /\ Hsv.hsv_to_rgb fuel h (S754_zero sz) v = Done (c, c, c))
      /\ Hsv.hsv_to_rgb fuel h (S754_zero sz) v = (c <- channel v ;; Done (c, c, c))
      /\ exists r i,
           Hsv.normalize_hue fuel h = Done r /\ Hsv.sector r = Done i
           /\ (let f := F32.sub (F32.div r Hsv.f60) (F32.of_Z i) in
               F32.mul v (F32.sub Hsv.f1 (S754_zero sz)) = v
               /\ F32.mul v (F32.sub Hsv.f1 (F32.mul (S754_zero sz) f)) = v
               /\ F32.mul v (F32.sub Hsv.f1 (F32.mul (S754_zero sz) (F32.sub Hsv.f1 f))) = v).
Proof.
  intros h v sz V F H Vv fuel Hf.
  destruct (normalize_wide h V F H) as [r [Vr [Fr [Rr [_ Run]]]]].
  destruct (sector_index r Vr Fr Rr) as [i [Ei [Ri Bf]]].
  set (f := F32.sub (F32.div r Hsv.f60) (F32.of_Z i)) in *.
  assert (Ff : is_finite f = true) by apply Bf.
  assert (B1 : bounded_by 5 (F32.sub Hsv.f1 f)).
  { apply (sub_bounded 4); try lia; [ | exact Bf ].
    apply (bounded_by_mono 0 4); [ lia | lia | exact f1_bounded ]. }
  assert (F1 : is_finite (F32.sub Hsv.f1 f) = true) by apply B1.
  assert (One : forall s, F32.sub Hsv.f1 (S754_zero s) = Hsv.f1) by (intros s; reflexivity).
  assert (P : F32.mul v (F32.sub Hsv.f1 (S754_zero sz)) = v).
  { rewrite One. apply mul_one. exact Vv. }
  assert (Q : F32.mul v (F32.sub Hsv.f1 (F32.mul (S754_zero sz) f)) = v).
  { destruct (mul_zero_any sz f Ff) as [s Es]. rewrite Es, One. apply mul_one. exact Vv. }
  assert (T : F32.mul v (F32.sub Hsv.f1 (F32.mul (S754_zero sz) (F32.sub Hsv.f1 f))) = v).
  { destruct (mul_zero_any sz _ F1) as [s Es]. rewrite Es, One. apply mul_one. exact Vv. }
  assert (G : Hsv.hsv_to_rgb fuel h (S754_zero sz) v = (c <- channel v ;; Done (c, c, c))).
  { unfold Hsv.hsv_to_rgb. rewrite (Run fuel Hf). cbn [obind].
    rewrite (sector_rgb_channels r (S754_zero sz) v i Ei). fold f.
    rewrite P, Q, T, select_same. cbn [fst snd].
    destruct (channel v); reflexivity. }
  assert (D : forall c, F32.to_int (F32.mul v Hsv.f255) = Done c ->
                Hsv.hsv_to_rgb fuel h (S754_zero sz) v = Done (c, c, c)).
  { intros c Ec. rewrite G. unfold channel. rewrite Ec. reflexivity. }
  split; [ exact D | ]. split.
  { intros U. destruct (channel_unit v U) as [c [Ec Rc]].
    exists c. split; [ exact Ec | ]. split; [ exact Rc | ]. apply D. exact Ec. }
  split; [ exact G | ].
  exists r, i. split; [ exact (Run fuel Hf) | ]. split; [ exact Ei | ].
  cbv zeta. fold f. split; [ exact P | ]. split; [ exact Q | exact T ].
Qed.

(** C5, amended: with saturation 0 (of either sign), for every finite
    hue of magnitude at most 2^33, that is [Fnum h] at most 2^182, and
    every value whose product with 255, truncated, fits an [int], the
    conversion returns three equal channels, each the value times 255
    truncated; so it does for every value between 0 and 1, with a
    channel between 0 and 255.  For the other values the three
    conversions to [int] are undefined together.  The intermediates p, q
    and t are all equal to v, so neither the hue nor the sector
    matters.  A budget of [laps h] iterations is enough, and no budget
    that lets the loops finish gives another colour. *)
Theorem grey_without_saturation :
  forall h v sz, F32.valid h = true -> is_finite h = true -> Z.abs (Fnum h) <= 2 ^ 182 ->
    F32.valid v = true ->
    (forall fuel, (laps h <= fuel)%nat ->
       (forall c, F32.to_int (F32.mul v Hsv.f255) = Done c ->
          Hsv.hsv_to_rgb fuel h (S754_zero sz) v = Done (c, c, c))
       /\ (unit_float v ->
           exists c, F32.to_int (F32.mul v Hsv.f255) = Done c /\ 0 <= c <= 255
                     /\ Hsv.hsv_to_rgb fuel h (S754_zero sz) v = Done (c, c, c))
       /\ Hsv.hsv_to_rgb fuel h (S754_zero sz) v = (c <- channel v ;; Done (c, c, c))
       /\ exists r i,
            Hsv.normalize_hue fuel h = Done r /\ Hsv.sector r = Done i
            /\ (let f := F32.sub (F32.div r Hsv.f60) (F32.of_Z i) in
                F32.mul v (F32.sub Hsv.f1 (S754_zero sz)) = v
                /\ F32.mul v (F32.sub Hsv.f1 (F32.mul (S754_zero sz) f)) = v
                /\ F32.mul v (F32.sub Hsv.f1 (F32.mul (S754_zero sz) (F32.sub Hsv.f1 f))) = v))
    /\ (forall fuel c,
          Hsv.hsv_to_rgb fuel h (S754_zero sz) v <> Timeout ->
          F32.to_int (F32.mul v Hsv.f255) = Done c ->
          Hsv.hsv_to_rgb fuel h (S754_zero sz) v = Done (c, c, c)).
Proof.
  intros h v sz V F H Vv. split.
  - intros fuel Hf. exact (grey_with_budget h v sz V F H Vv fuel Hf).
  - intros fuel c NT Ec.
    destruct (grey_with_budget h v sz V F H Vv (max fuel (laps h)) (Nat.le_max_r _ _))
      as [D _].
    rewrite <- (hsv_more fuel (max fuel (laps h)) h (S754_zero sz) v (Nat.le_max_l _ _) NT).
    apply D. exact Ec.
Qed.

Lemma grey_without_saturation_witness :
  Hsv.hsv_to_rgb 3 (F32.of_double (F64.lit 7255 10)) Hsv.f0 Submission.v = Done (76, 76, 76)
  /\ Hsv.hsv_to_rgb (laps Edge.hue_2p33) (F32.opp Edge.hue_2p33) Hsv.f0 Submission.v
     = Done (76, 76, 76).
Proof.
  assert (Vv : F32.valid Submission.v = true) by (vm_compute; reflexivity).
  assert (C : F32.to_int (F32.mul Submission.v Hsv.f255) = Done 76) by (vm_compute; reflexivity).
  split.
  - assert (V : F32.valid (F32.of_double (F64.lit 7255 10)) = true) by (vm_compute; reflexivity).
    assert (F : is_finite (F32.of_double (F64.lit 7255 10)) = true) by (vm_compute; reflexivity).
    assert (H : Z.abs (Fnum (F32.of_double (F64.lit 7255 10))) <= 2 ^ 182)
      by (vm_compute; discriminate).
    assert (Hf : (laps (F32.of_double (F64.lit 7255 10)) <= 3)%nat)
      by (apply Nat.leb_le; vm_compute; reflexivity).
    destruct (grey_without_saturation _ _ false V F H Vv) as [G _].
    destruct (G 3%nat Hf) as [E _].
    apply E. exact C.
  - assert (V : F32.valid (F32.opp Edge.hue_2p33) = true) by (vm_compute; reflexivity).
    assert (F : is_finite (F32.opp Edge.hue_2p33) = true) by (vm_compute; reflexivity).
    assert (H : Z.abs (Fnum (F32.opp Edge.hue_2p33)) <= 2 ^ 182) by (vm_compute; discriminate).
    assert (Hf : (laps (F32.opp Edge.hue_2p33) <= laps Edge.hue_2p33)%nat) by apply Nat.le_refl.
    destruct (grey_without_saturation _ _ false V F H Vv) as [G _].
    destruct (G _ Hf) as [E _].
    apply E. exact C.
Defined.

(** ** Period of the conversion *)

(** Floats of magnitude 2^28 and more are multiples of 16. *)
Lemma grid_above :
  forall x, F32.valid x = true -> is_finite x = true -> 2 ^ 177 <= Z.abs (Fnum x) ->
    Fnum x mod 2 ^ 153 = 0.
Proof.
  intros x V F H. destruct x as [ s | s | | s m e ]; try discriminate F.
  { cbn [Fnum] in H. assert (0 < 2 ^ 177) by (apply Z.pow_pos_nonneg; lia). lia. }
  destruct (valid_finite_inv _ _ _ V) as [_ [He [Hm _]]].
  assert (P : 0 < 2 ^ (e + 149)) by (apply Z.pow_pos_nonneg; lia).
  assert (A : Z.abs (Fnum (S754_finite s m e)) = Zpos m * 2 ^ (e + 149))
    by (destruct s; cbn [Fnum cond_Zopp]; lia).
  rewrite A in H.
  assert (E : 4 <= e).
  { destruct (Z_le_gt_dec 4 e) as [ L | G ]; [ exact L | exfalso ].
    assert (2 ^ (e + 149) <= 2 ^ 152) by (apply Z.pow_le_mono_r; lia).
    change (2 ^ 177) with (2 ^ 25 * 2 ^ 152) in H.
    assert (0 < 2 ^ 152) by (apply Z.pow_pos_nonneg; lia).
    change (2 ^ 24) with 16777216 in Hm. change (2 ^ 25) with 33554432 in H. nia. }
  assert (D : Fnum (S754_finite s m e) = cond_Zopp s (Zpos m * 2 ^ (e - 4)) * 2 ^ 153).
  { cbn [Fnum]. replace (e + 149) with (e - 4 + 153) by lia.
    rewrite Z.pow_add_r by lia. destruct s; cbn [cond_Zopp]; ring. }
  rewrite D. apply Z.mod_mul. apply Z.pow_nonzero; lia.
Qed.

(** Two floats that differ by 360 exactly are both below 2^33. *)
Lemma shift_bound :
  forall e h, F32.valid e = true -> F32.valid h = true ->
    is_finite e = true -> is_finite h = true ->
    Fnum h = Fnum e + turn ->
    Z.abs (Fnum e) <= 2 ^ 182 /\ Z.abs (Fnum h) <= 2 ^ 182.
Proof.
  intros e h Ve Vh Fe Fh D.
  assert (T : turn < 2 ^ 177) by (vm_compute; reflexivity).
  assert (P : 2 ^ 177 + 2 ^ 177 + 2 ^ 177 < 2 ^ 182) by (vm_compute; reflexivity).
  pose proof turn_pos as TP.
  destruct (Z_le_gt_dec (Z.abs (Fnum e)) (2 ^ 177 + 2 ^ 177)) as [ Le | Gt ]; [ lia | exfalso ].
  pose proof (grid_above e Ve Fe ltac:(lia)) as Ge.
  pose proof (grid_above h Vh Fh ltac:(lia)) as Gh.
  assert (N : 2 ^ 153 <> 0) by (apply Z.pow_nonzero; lia).
  apply Z.mod_divide in Ge; [ | exact N ]. apply Z.mod_divide in Gh; [ | exact N ].
  destruct Ge as [a Ha]. destruct Gh as [b Hb].
  assert (M : turn mod 2 ^ 153 = 0).
  { replace turn with ((b - a) * 2 ^ 153) by lia. apply Z.mod_mul. exact N. }
  vm_compute in M. discriminate M.
Qed.

Lemma laps_covers :
  forall h, Z.abs (Fnum h) < Z.of_nat (laps h) * 2 ^ 157.
Proof.
  intros h. assert (P157 : 0 < 2 ^ 157) by (apply Z.pow_pos_nonneg; lia).
  unfold laps. rewrite Z2Nat.id by (pose proof (Z.div_pos (Z.abs (Fnum h)) (2 ^ 157)); lia).
  pose proof (Z.mod_pos_bound (Z.abs (Fnum h)) (2 ^ 157) P157).
  pose proof (Z.div_mod (Z.abs (Fnum h)) (2 ^ 157)). lia.
Qed.

Lemma laps_shift :
  forall a b, Z.abs (Fnum a) + 2 ^ 157 <= Z.abs (Fnum b) -> (S (laps a) <= laps b)%nat.
Proof.
  intros a b H. assert (P157 : 0 < 2 ^ 157) by (apply Z.pow_pos_nonneg; lia).
  unfold laps.
  assert (Q : Z.abs (Fnum a) / 2 ^ 157 + 1 <= Z.abs (Fnum b) / 2 ^ 157).
  { replace (Z.abs (Fnum a) / 2 ^ 157 + 1) with ((Z.abs (Fnum a) + 1 * 2 ^ 157) / 2 ^ 157)
      by (apply Z.div_add; lia).
    apply Z.div_le_mono; lia. }
  pose proof (Z.div_pos (Z.abs (Fnum a)) (2 ^ 157) ltac:(lia) P157).
  rewrite <- Z2Nat.inj_succ by lia. apply Z2Nat.inj_le; lia.
Qed.

(** Two floats of the same value are converted alike: they are the same
    float, or zeros of different signs. *)
Lemma same_value_colour :
  forall a b s v, F32.valid a = true -> F32.valid b = true ->
    is_finite a = true -> is_finite b = true -> Fnum a = Fnum b ->
    Hsv.sector_rgb a s v = Hsv.sector_rgb b s v.
Proof.
  intros a b s v Va Vb Fa Fb E.
  destruct (Z.eq_dec (Fnum a) 0) as [ Z0 | NZ ].
  - destruct (zero_of_Fnum a Va Fa Z0) as [s1 E1].
    destruct (zero_of_Fnum b Vb Fb ltac:(lia)) as [s2 E2].
    subst a b. apply sector_rgb_zero.
  - rewrite (Fnum_inj a b Va Vb Fa Fb E NZ). reflexivity.
Qed.

Lemma same_value_hsv :
  forall a b s v fuel, F32.valid a = true -> F32.valid b = true ->
    is_finite a = true -> is_finite b = true -> Fnum a = Fnum b ->
    Hsv.hsv_to_rgb fuel a s v = Hsv.hsv_to_rgb fuel b s v.
Proof.
  intros a b s v fuel Va Vb Fa Fb E.
  destruct (Z.eq_dec (Fnum a) 0) as [ Z0 | NZ ].
  - destruct (zero_of_Fnum a Va Fa Z0) as [s1 E1].
    destruct (zero_of_Fnum b Vb Fb ltac:(lia)) as [s2 E2].
    subst a b. unfold Hsv.hsv_to_rgb.
    rewrite !normalize_in_range by (destruct s1, s2; reflexivity).
    cbn [obind]. apply sector_rgb_zero.
  - rewrite (Fnum_inj a b Va Vb Fa Fb E NZ). reflexivity.
Qed.

(** Hues that differ by 360 exactly. *)
Lemma period_exact :
  forall e h s v,
    F32.valid e = true -> F32.valid h = true ->
    is_finite e = true -> is_finite h = true ->
    Fnum h = Fnum e + turn ->
    forall fuel, (laps e <= fuel)%nat -> (laps h <= fuel)%nat ->
      Hsv.hsv_to_rgb fuel h s v = Hsv.hsv_to_rgb fuel e s v
      /\ Hsv.hsv_to_rgb fuel e s v <> Timeout.
Proof.
  intros e h s v Ve Vh Fe Fh D fuel Te Th. pose proof turn_pos as TP.
  destruct (shift_bound e h Ve Vh Fe Fh D) as [Be Bh].
  assert (P157 : 0 < 2 ^ 157) by (apply Z.pow_pos_nonneg; lia).
  assert (T157 : 2 ^ 157 <= turn).
  { unfold turn. change (2 ^ 157) with (256 * 2 ^ 149).
    assert (0 < 2 ^ 149) by (apply Z.pow_pos_nonneg; lia). lia. }
  destruct (normalize_wide e Ve Fe Be) as [re [Vre [Fre [Rre [_ RunE]]]]].
  assert (NT : Hsv.hsv_to_rgb fuel e s v <> Timeout).
  { unfold Hsv.hsv_to_rgb. rewrite (RunE fuel Te). cbn [obind]. apply sector_rgb_no_timeout. }
  split; [ | exact NT ].
  assert (L1 : (1 <= laps h)%nat) by (unfold laps; pose proof (Z.div_pos (Z.abs (Fnum h)) (2 ^ 157)); lia).
  destruct fuel as [ | f ]; [ lia | ].
  destruct (Z_lt_ge_dec (Fnum e) 0) as [ Neg | Pos ].
  - (* the hue e is negative: the second loop takes it to h *)
    destruct (add_exact e Hsv.f360 h Ve eq_refl Vh Fe eq_refl Fh) as [V' [F' E']].
    { rewrite Fnum_f360. lia. }
    change (SFadd 24 128 e Hsv.f360) with (F32.add e Hsv.f360) in V', F', E'.
    assert (StepE : Hsv.normalize_hue (S f) e = Hsv.wrap_low f (F32.add e Hsv.f360)).
    { unfold Hsv.normalize_hue. rewrite wrap_high_below by (try assumption; lia).
      cbn [obind Hsv.wrap_low]. rewrite ltb_f0 by assumption.
      replace (Fnum e <? 0) with true by (symmetry; apply Z.ltb_lt; lia). reflexivity. }
    unfold Hsv.hsv_to_rgb. rewrite StepE.
    destruct (Z_lt_ge_dec (Fnum h) 0) as [ NegH | PosH ].
    + assert (Eh : F32.add e Hsv.f360 = h) by (apply Fnum_inj; try assumption; lia).
      rewrite Eh.
      assert (Lh : (S (laps h) <= laps e)%nat) by (apply laps_shift; lia).
      pose proof (laps_covers h) as Ch.
      destruct (wrap_low_wide (laps h) h Vh Fh ltac:(lia) ltac:(lia)) as [r [_ [_ [_ [_ [_ Run]]]]]].
      unfold Hsv.normalize_hue. rewrite wrap_high_below by (try assumption; lia).
      cbn [obind]. rewrite (Run f ltac:(lia)), (Run (S f) ltac:(lia)). reflexivity.
    + rewrite (wrap_low_above f (F32.add e Hsv.f360)) by (try assumption; lia).
      unfold Hsv.normalize_hue. rewrite wrap_high_below by (try assumption; lia).
      cbn [obind]. rewrite wrap_low_above by (try assumption; lia).
      cbn [obind]. apply same_value_colour; try assumption. lia.
  - (* the hue e is not negative: the first loop takes h to it *)
    destruct (sub_exact h Hsv.f360 e Vh eq_refl Ve Fh eq_refl Fe) as [V' [F' E']].
    { rewrite Fnum_f360. lia. }
    change (SFsub 24 128 h Hsv.f360) with (F32.sub h Hsv.f360) in V', F', E'.
    set (e' := F32.sub h Hsv.f360) in *.
    assert (Lh : (S (laps e) <= laps h)%nat) by (apply laps_shift; lia).
    pose proof (laps_covers e) as Ce.
    destruct (wrap_high_wide (laps e) e' V' F' ltac:(lia) ltac:(lia)) as [r' [Vr' [Fr' [Rr' Run']]]].
    assert (A : Hsv.normalize_hue (S f) h = Done r').
    { unfold Hsv.normalize_hue. cbn [Hsv.wrap_high]. rewrite geb_f360 by assumption.
      replace (turn <=? Fnum h) with true by (symmetry; apply Z.leb_le; lia).
      fold e'. rewrite (Run' f ltac:(lia)). cbn [obind].
      apply wrap_low_above; try assumption; lia. }
    assert (B : Hsv.normalize_hue (S f) e' = Done r').
    { unfold Hsv.normalize_hue. rewrite (Run' (S f) ltac:(lia)). cbn [obind].
      apply wrap_low_above; try assumption; lia. }
    transitivity (Hsv.hsv_to_rgb (S f) e' s v).
    + unfold Hsv.hsv_to_rgb. rewrite A, B. reflexivity.
    + apply same_value_hsv; assumption.
Qed.

Lemma add_negative_is_sub :
  forall m e sy my ey,
    SFadd 24 128 (S754_finite true m e) (S754_finite sy my ey)
    = SFsub 24 128 (S754_finite sy my ey) (S754_finite false m e).
Proof.
  intros m e sy my ey. rewrite add_spec, sub_spec.
  rewrite (Z.min_comm ey e). f_equal. unfold aligned. cbn [cond_Zopp]. lia.
Qed.

Lemma negative_below_360 :
  forall a b, F32.geb (pack true a b) Hsv.f360 = false.
Proof.
  intros a b. unfold pack, fin.
  destruct (a =? 0); [ reflexivity | ].
  destruct (a <? 2 ^ 24).
  - destruct (b <=? 104); reflexivity.
  - destruct (b + 1 <=? 104); reflexivity.
Qed.

(** [360 - eps] is below 360 as soon as [eps] is above 2^-16. *)
Lemma sub_below_360 :
  forall eps, F32.valid eps = true -> is_finite eps = true -> 2 ^ 133 < Fnum eps ->
    F32.geb (F32.sub Hsv.f360 eps) Hsv.f360 = false.
Proof.
  intros eps V F H. pose proof turn_pos as TP.
  assert (P133 : 0 < 2 ^ 133) by (apply Z.pow_pos_nonneg; lia).
  pose proof (float_under_slip (SFopp eps)) as U.
  rewrite valid_opp, finite_opp, Fnum_opp in U. specialize (U V F ltac:(lia)).
  destruct eps as [ s | s | | s m e ]; try discriminate F.
  { cbn [Fnum] in H. lia. }
  destruct (valid_finite_inv _ _ _ V) as [_ [He _]].
  assert (Pe : 0 < 2 ^ (e + 149)) by (apply Z.pow_pos_nonneg; lia).
  destruct s; [ cbn [Fnum cond_Zopp] in H; lia | ].
  unfold F32.sub. change (SFsub F32.prec F32.emax) with (SFsub 24 128).
  change Hsv.f360 with (S754_finite false 11796480 (-15)) at 1.
  rewrite sub_spec.
  set (ez := Z.min (-15) e).
  pose proof (aligned_Fnum false m e ez ltac:(subst ez; lia)) as Ax.
  pose proof (aligned_Fnum false 11796480 (-15) ez ltac:(subst ez; lia)) as Ay.
  change (Fnum (S754_finite false 11796480 (-15))) with turn in Ay.
  assert (Pz : 0 < 2 ^ (ez + 149)) by (apply Z.pow_pos_nonneg; subst ez; lia).
  set (z := aligned false 11796480 (-15) ez - aligned false m e ez) in *.
  assert (Ez : z * 2 ^ (ez + 149) = turn - Fnum (S754_finite false m e)) by (subst z; lia).
  destruct z as [ | p | p ] eqn:Zp.
  - reflexivity.
  - destruct (normz_mono (Zpos p) ez 197912084611071 (-39) 9) as [A [B [_ [_ [C _]]]]].
    + subst ez; lia.
    + lia.
    + lia.
    + lia.
    + rewrite Ez.
      change (197912084611071 * 2 ^ (-39 + 149)) with (turn - (2 ^ 133 + 2 ^ 110)). lia.
    + vm_compute. discriminate.
    + assert (K : Fnum (normz 197912084611071 (-39)) < turn) by (vm_compute; reflexivity).
      rewrite geb_f360 by assumption. apply Z.leb_gt. lia.
  - cbn [normz]. unfold rnd. apply negative_below_360.
Qed.

(** One iteration of the second loop takes [- eps] to [360 - eps]. *)
Lemma normalize_negative_step :
  forall eps, F32.valid eps = true -> is_finite eps = true -> 2 ^ 133 < Fnum eps ->
    forall fuel,
      Hsv.normalize_hue (S fuel) (F32.opp eps)
      = Hsv.normalize_hue fuel (F32.sub Hsv.f360 eps).
Proof.
  intros eps V F H fuel.
  assert (P133 : 0 < 2 ^ 133) by (apply Z.pow_pos_nonneg; lia).
  pose proof (sub_below_360 eps V F H) as G.
  destruct eps as [ s | s | | s m e ]; try discriminate F.
  { cbn [Fnum] in H. lia. }
  destruct (valid_finite_inv _ _ _ V) as [_ [He _]].
  assert (Pe : 0 < 2 ^ (e + 149)) by (apply Z.pow_pos_nonneg; lia).
  destruct s; [ cbn [Fnum cond_Zopp] in H; lia | ].
  unfold Hsv.normalize_hue.
  assert (R : Hsv.wrap_high fuel (F32.sub Hsv.f360 (S754_finite false m e))
              = Done (F32.sub Hsv.f360 (S754_finite false m e))).
  { destruct fuel; cbn [Hsv.wrap_high]; rewrite G; reflexivity. }
  rewrite R. cbn [obind].
  change (F32.opp (S754_finite false m e)) with (S754_finite true m e).
  change (Hsv.wrap_high (S fuel) (S754_finite true m e)) with (Done (S754_finite true m e)).
  cbn [obind].
  change (Hsv.wrap_low (S fuel) (S754_finite true m e))
    with (Hsv.wrap_low fuel (F32.add (S754_finite true m e) Hsv.f360)).
  f_equal. unfold F32.add, F32.sub.
  change Hsv.f360 with (S754_finite false 11796480 (-15)).
  apply add_negative_is_sub.
Qed.

(** C6, as stated, fails.  With saturation and value 1: by a slip of
    the second loop the hue -(2^-30) converts to magenta (255, 0, 255),
    while 360 - 2^-30, which lies between the adjacent [float] values
    just below 360 and 360 itself, converts to red (255, 0, 0) at both,
    and so it is up to the hue -(2^-16); and, by the rounding of the sum,
    the [float] nearest to 20/17 converts to (255, 4, 0) while 360 plus
    it converts to (255, 5, 0). *)
Lemma hue_period_fails :
  Hsv.hsv_to_rgb 1 Hsv.hue_minus_2m30 Hsv.f1 Hsv.f1 = Done (255, 0, 255)
  /\ F32.sub Hsv.f360 Hsv.hue_2m30 = Hsv.f360
  /\ Hsv.hsv_to_rgb 1 Hsv.f360 Hsv.f1 Hsv.f1 = Done (255, 0, 0)
  /\ SFpred F32.prec F32.emax Hsv.f360 = Hsv.hue_below_360
  /\ Hsv.hsv_to_rgb 1 Hsv.hue_below_360 Hsv.f1 Hsv.f1 = Done (255, 0, 0)
  /\ Hsv.hsv_to_rgb 1 Hsv.hue_20_17 Hsv.f1 Hsv.f1 = Done (255, 4, 0)
  /\ Hsv.hsv_to_rgb 1 (F32.add Hsv.f360 Hsv.hue_20_17) Hsv.f1 Hsv.f1 = Done (255, 5, 0)
  /\ Hsv.hsv_to_rgb 1 Edge.hue_minus_2m16 Hsv.f1 Hsv.f1 = Done (255, 0, 255)
  /\ Hsv.hsv_to_rgb 1 (F32.sub Hsv.f360 (F32.opp Edge.hue_minus_2m16)) Hsv.f1 Hsv.f1
     = Done (255, 0, 0).
Proof.
  split; [ vm_compute; reflexivity | ].
  split; [ vm_compute; reflexivity | ].
  split; [ vm_compute; reflexivity | ].
  split; [ vm_compute; reflexivity | ].
  split; [ vm_compute; reflexivity | ].
  split; [ vm_compute; reflexivity | ].
  split; [ vm_compute; reflexivity | ].
  split; vm_compute; reflexivity.
Qed.

(** C6, amended: the conversion has period 360 wherever the shift by
    360 is exact, and from [- epsilon] to [360 - epsilon] whether exact
    or not.  First, if two finite hues, of any magnitude, differ by
    exactly 360, then, once the iteration budget covers both, they are
    converted to the same colour, for every saturation and value, and the
    conversion of neither is cut short: with [e] = epsilon this is
    convert(360 + epsilon) = convert(epsilon), with [e] = - epsilon it is
    convert(- epsilon) = convert(360 - epsilon).  Second, for every
    finite epsilon above 2^-16, that is [Fnum eps] above 2^133, one
    iteration of the second loop takes the hue [- epsilon] to the [float]
    difference 360 - epsilon, rounded or not, and the two hues are
    converted alike; up to 2^33 the conversion of neither is cut short.
    In both cases the colours agree under any two iteration budgets that
    let both conversions finish.  The hues [- epsilon] with epsilon at
    most 2^-16 are left aside. *)
Theorem hue_period :
  (forall e h s v,
      F32.valid e = true -> F32.valid h = true ->
      is_finite e = true -> is_finite h = true ->
      Fnum h = Fnum e + turn ->
      (forall fuel, (laps e <= fuel)%nat -> (laps h <= fuel)%nat ->
         Hsv.hsv_to_rgb fuel h s v = Hsv.hsv_to_rgb fuel e s v
         /\ Hsv.hsv_to_rgb fuel e s v <> Timeout)
      /\ (forall fuel fuel',
            Hsv.hsv_to_rgb fuel h s v <> Timeout -> Hsv.hsv_to_rgb fuel' e s v <> Timeout ->
            Hsv.hsv_to_rgb fuel h s v = Hsv.hsv_to_rgb fuel' e s v))
  /\ (forall eps s v,
        F32.valid eps = true -> is_finite eps = true -> 2 ^ 133 < Fnum eps ->
        (forall fuel,
            Hsv.hsv_to_rgb (S fuel) (F32.opp eps) s v
            = Hsv.hsv_to_rgb fuel (F32.sub Hsv.f360 eps) s v)
        /\ (forall fuel fuel',
              Hsv.hsv_to_rgb fuel (F32.opp eps) s v <> Timeout ->
              Hsv.hsv_to_rgb fuel' (F32.sub Hsv.f360 eps) s v <> Timeout ->
              Hsv.hsv_to_rgb fuel (F32.opp eps) s v
              = Hsv.hsv_to_rgb fuel' (F32.sub Hsv.f360 eps) s v)
        /\ (Fnum eps <= 2 ^ 182 ->
            forall fuel, (laps eps <= fuel)%nat ->
              Hsv.hsv_to_rgb fuel (F32.opp eps) s v
              = Hsv.hsv_to_rgb fuel (F32.sub Hsv.f360 eps) s v
              /\ Hsv.hsv_to_rgb fuel (F32.opp eps) s v <> Timeout)).
Proof.
  split.
  { intros e h s v Ve Vh Fe Fh D. split; [ exact (period_exact e h s v Ve Vh Fe Fh D) | ].
    intros fuel fuel' N N'.
    set (big := max (max fuel fuel') (max (laps e) (laps h))).
    destruct (period_exact e h s v Ve Vh Fe Fh D big) as [E _]; [ subst big; lia | subst big; lia | ].
    rewrite <- (hsv_more fuel big h s v ltac:(subst big; lia) N).
    rewrite <- (hsv_more fuel' big e s v ltac:(subst big; lia) N').
    exact E. }
  intros eps s v V F H.
  assert (Step : forall fuel,
             Hsv.hsv_to_rgb (S fuel) (F32.opp eps) s v
             = Hsv.hsv_to_rgb fuel (F32.sub Hsv.f360 eps) s v).
  { intros fuel. unfold Hsv.hsv_to_rgb.
    rewrite (normalize_negative_step eps V F H fuel). reflexivity. }
  split; [ exact Step | ]. split.
  - intros fuel fuel' N N'.
    rewrite <- (hsv_more fuel (S (max fuel fuel')) (F32.opp eps) s v ltac:(lia) N).
    rewrite <- (hsv_more fuel' (max fuel fuel') (F32.sub Hsv.f360 eps) s v ltac:(lia) N').
    apply Step.
  - intros Hb fuel Hf.
    assert (P133 : 0 < 2 ^ 133) by (apply Z.pow_pos_nonneg; lia).
    destruct (normalize_wide (F32.opp eps)) as [r [Vr [Fr [Rr [_ Run]]]]].
    + unfold F32.opp. rewrite valid_opp. exact V.
    + unfold F32.opp. rewrite finite_opp. exact F.
    + unfold F32.opp. rewrite Fnum_opp. lia.
    + assert (L : laps (F32.opp eps) = laps eps).
      { unfold laps, F32.opp. rewrite Fnum_opp, Z.abs_opp. reflexivity. }
      rewrite L in Run.
      pose proof (Run fuel Hf) as A.
      pose proof (Run (S fuel) ltac:(lia)) as B.
      rewrite (normalize_negative_step eps V F H fuel) in B.
      unfold Hsv.hsv_to_rgb. rewrite A, B. cbn [obind].
      split; [ reflexivity | apply sector_rgb_no_timeout ].
Qed.

Lemma hue_period_witness :
  Hsv.hsv_to_rgb 2 (F32.of_double (F64.lit 3905 10)) Hsv.f1 Hsv.f1
  = Hsv.hsv_to_rgb 2 (F32.of_double (F64.lit 305 10)) Hsv.f1 Hsv.f1
  /\ Hsv.hsv_to_rgb 2 (F32.of_double (F64.lit 3295 10)) Hsv.f1 Hsv.f1
     = Hsv.hsv_to_rgb 2 (F32.of_double (F64.lit (-305) 10)) Hsv.f1 Hsv.f1
  /\ Hsv.hsv_to_rgb 1 (F32.opp Hsv.hue_20_17) Hsv.f1 Hsv.f1
     = Hsv.hsv_to_rgb 1 (F32.sub Hsv.f360 Hsv.hue_20_17) Hsv.f1 Hsv.f1.
Proof.
  destruct hue_period as [A B].
  split; [ | split ].
  - destruct (A (F32.of_double (F64.lit 305 10)) (F32.of_double (F64.lit 3905 10))
                Hsv.f1 Hsv.f1 ltac:(vm_compute; reflexivity) ltac:(vm_compute; reflexivity)
                ltac:(vm_compute; reflexivity) ltac:(vm_compute; reflexivity)
                ltac:(vm_compute; reflexivity)) as [P _].
    apply P; apply Nat.leb_le; vm_compute; reflexivity.
  - destruct (A (F32.of_double (F64.lit (-305) 10)) (F32.of_double (F64.lit 3295 10))
                Hsv.f1 Hsv.f1 ltac:(vm_compute; reflexivity) ltac:(vm_compute; reflexivity)
                ltac:(vm_compute; reflexivity) ltac:(vm_compute; reflexivity)
                ltac:(vm_compute; reflexivity)) as [P _].
    apply P; apply Nat.leb_le; vm_compute; reflexivity.
  - assert (V : F32.valid Hsv.hue_20_17 = true) by (vm_compute; reflexivity).
    assert (F : is_finite Hsv.hue_20_17 = true) by (vm_compute; reflexivity).
    assert (H : 2 ^ 133 < Fnum Hsv.hue_20_17) by (vm_compute; reflexivity).
    destruct (B Hsv.hue_20_17 Hsv.f1 Hsv.f1 V F H) as [_ [_ C]].
    apply C; [ vm_compute; discriminate | apply Nat.leb_le; vm_compute; reflexivity ].
Defined.

(** ** The conversion on hues of the circle *)

(** The quotient of a hue by 60, compared with any [float]. *)
Lemma div60_value :
  forall h y, F32.valid h = true -> is_finite h = true -> 0 < Fnum h <= turn ->
    F32.valid y = true -> is_finite y = true -> 0 < Fnum y <= 2 ^ 152 ->
    (Fnum h <= 60 * Fnum y -> Fnum (F32.div h Hsv.f60) <= Fnum y)
    /\ (60 * Fnum y <= Fnum h -> Fnum y <= Fnum (F32.div h Hsv.f60)).
Proof.
  intros h y V F H Vy Fy Hy.
  destruct h as [ s | s | | s m e ]; try discriminate F; [ cbn [Fnum] in H; lia | ].
  destruct y as [ sy | sy | | sy my ey ]; try discriminate Fy; [ cbn [Fnum] in Hy; lia | ].
  destruct (valid_finite_inv _ _ _ V) as [_ [He _]].
  destruct (valid_finite_inv _ _ _ Vy) as [_ [Hey _]].
  assert (0 < 2 ^ (e + 149)) by (apply Z.pow_pos_nonneg; lia).
  assert (0 < 2 ^ (ey + 149)) by (apply Z.pow_pos_nonneg; lia).
  destruct s; [ cbn [Fnum cond_Zopp] in H; lia | ].
  destruct sy; [ cbn [Fnum cond_Zopp] in Hy; lia | ].
  rewrite !Fnum_finite_pos in *.
  destruct (div60_between m e V ltac:(lia)) as [_ [_ [U L]]].
  split; intros C.
  - apply (U my ey Vy); [ change (3 + 149) with 152; lia | exact C ].
  - apply (L my ey Vy). exact C.
Qed.

(** The fractional part of a hue within its sector, compared with a
    fraction [c = m 2^j] that is a [float], as is [i + c]. *)
Lemma fraction_between :
  forall h i c m j,
    F32.valid h = true -> Hsv.in_range h = true -> Hsv.sector h = Done i ->
    c = m * 2 ^ j -> 0 < m -> 0 <= j <= 149 -> i * 2 ^ (149 - j) + m < 2 ^ 24 ->
    c <= 2 ^ 149 ->
    (Fnum h <= 60 * (i * 2 ^ 149 + c) ->
       Fnum (F32.sub (F32.div h Hsv.f60) (F32.of_Z i)) <= c)
    /\ (60 * (i * 2 ^ 149 + c) <= Fnum h ->
          c <= Fnum (F32.sub (F32.div h Hsv.f60) (F32.of_Z i))).
Proof.
  intros h i c m j V R S Ec Hm Hj Hi Hc.
  destruct (in_range_inv h V R) as [F [H0 H1]].
  assert (P149 : 0 < 2 ^ 149) by (apply Z.pow_pos_nonneg; lia).
  assert (Pj : 0 < 2 ^ j) by (apply Z.pow_pos_nonneg; lia).
  assert (Pc : 0 < c) by (subst c; nia).
  unfold Hsv.sector in S.
  destruct (Z.eq_dec (Fnum h) 0) as [ Z0 | NZ ].
  { destruct (zero_of_Fnum h V F Z0) as [s Es]. subst h.
    assert (i = 0) by (destruct s; vm_compute in S; congruence). subst i.
    assert (E : Fnum (F32.sub (F32.div (S754_zero s) Hsv.f60) (F32.of_Z 0)) = 0)
      by (destruct s; reflexivity).
    rewrite E. cbn [Fnum]. split; intros; lia. }
  destruct (fraction_unit h i V F ltac:(lia) S) as [Ri [Ii [Vf [Ff Rf]]]].
  destruct (div60_bound h V F ltac:(lia)) as [[Vd [Fd Bd]] Nd].
  pose proof (div60_value h) as DV.
  pose proof (sector_floor h V R) as SF. unfold Hsv.sector in SF.
  remember (F32.div h Hsv.f60) as d eqn:Ed.
  destruct (small_of_Z i Ri) as [Vi [Fi Ni]].
  assert (Q : 2 ^ 149 = 2 ^ (149 - j) * 2 ^ j).
  { rewrite <- Z.pow_add_r by lia. f_equal. lia. }
  assert (Pq : 0 < 2 ^ (149 - j)) by (apply Z.pow_pos_nonneg; lia).
  destruct (representable (i * 2 ^ 149 + c) (i * 2 ^ (149 - j) + m) j) as [y [Vy [Fy Ey]]].
  - nia.
  - rewrite Z.abs_eq by nia. rewrite Ec, Q. ring.
  - nia.
  - lia.
  - assert (2 ^ 24 * 2 ^ 149 <= 2 ^ (127 + 149)).
    { rewrite <- Z.pow_add_r by lia. apply Z.pow_le_mono_r; lia. }
    assert (2 ^ j <= 2 ^ 149) by (apply Z.pow_le_mono_r; lia). nia.
  - destruct (representable c m j) as [fc [Vc [Fc Efc]]].
    + lia.
    + rewrite Z.abs_eq by lia. exact Ec.
    + nia.
    + lia.
    + assert (2 ^ 149 <= 2 ^ (127 + 149)) by (apply Z.pow_le_mono_r; lia). lia.
    + destruct (sub_exact y (F32.of_Z i) fc Vy Vi Vc Fy Fi Fc ltac:(lia)) as [Vs [Fs Es]].
      change (SFsub 24 128 y (F32.of_Z i)) with (F32.sub y (F32.of_Z i)) in Vs, Fs, Es.
      pose proof (Z.div_mod (Fnum d) (2 ^ 149) ltac:(lia)) as DM.
      pose proof (Z.mod_pos_bound (Fnum d) (2 ^ 149) P149) as MB.
      rewrite <- Ii in DM.
      assert (I5 : i <= 5).
      { destruct SF as [S' [R' _]].
        assert (i = Fnum h / (60 * 2 ^ 149)) by congruence. lia. }
      destruct (DV y V F ltac:(lia) Vy Fy) as [U L].
      { rewrite Ey. change (2 ^ 152) with (8 * 2 ^ 149). lia. }
      split; intros C.
      * specialize (U ltac:(lia)).
        destruct (sub_mono d (F32.of_Z i) y (F32.of_Z i) 0 Vd Vi Vy Vi Fd Fi Fy Fi ltac:(lia))
          as [_ [_ [_ [_ [M _]]]]]; [ lia | lia | change (0 + 149) with 149; lia | ].
        rewrite Es in M. lia.
      * specialize (L ltac:(lia)).
        destruct (sub_mono y (F32.of_Z i) d (F32.of_Z i) 0 Vy Vi Vd Vi Fy Fi Fd Fi ltac:(lia))
          as [_ [_ [_ [_ [M _]]]]]; [ lia | lia | change (0 + 149) with 149; lia | ].
        rewrite Es in M. lia.
Qed.

(** The channels of q and t at saturation and value 1, as the fraction
    grows: q falls and t rises. *)
Lemma fraction_channels :
  forall f f', unit_float f -> unit_float f' -> Fnum f <= Fnum f' ->
    exists cq cq' ct ct',
      channel (F32.sub Hsv.f1 f) = Done cq /\ channel (F32.sub Hsv.f1 f') = Done cq'
      /\ channel (F32.sub Hsv.f1 (F32.sub Hsv.f1 f)) = Done ct
      /\ channel (F32.sub Hsv.f1 (F32.sub Hsv.f1 f')) = Done ct'
      /\ 0 <= cq' <= cq /\ cq <= 255 /\ 0 <= ct <= ct' /\ ct' <= 255.
Proof.
  intros f f' U U' H.
  destruct (sub_one_mono f' f U' U H) as [Q' [Q Hq]].
  destruct (sub_one_mono (F32.sub Hsv.f1 f) (F32.sub Hsv.f1 f') Q Q' Hq) as [T [T' Ht]].
  destruct (channel_mono _ _ Q' Q Hq) as [cq' [cq [A [B [C D]]]]].
  destruct (channel_mono _ _ T T' Ht) as [ct [ct' [A' [B' [C' D']]]]].
  exists cq, cq', ct, ct'. repeat split; try assumption; lia.
Qed.

(** The colour of a hue of the circle at saturation and value 1, from
    the channels of q and t. *)
Lemma saturated_sector :
  forall h i, F32.valid h = true -> Hsv.in_range h = true -> Hsv.sector h = Done i ->
    unit_float (F32.sub (F32.div h Hsv.f60) (F32.of_Z i))
    /\ forall cq ct,
         channel (F32.sub Hsv.f1 (F32.sub (F32.div h Hsv.f60) (F32.of_Z i))) = Done cq ->
         channel (F32.sub Hsv.f1 (F32.sub Hsv.f1 (F32.sub (F32.div h Hsv.f60) (F32.of_Z i))))
           = Done ct ->
         forall fuel,
           Hsv.hsv_to_rgb fuel h Hsv.f1 Hsv.f1 =
           Done (match i with
                 | 0 => (255, ct, 0) | 1 => (cq, 255, 0) | 2 => (0, 255, ct)
                 | 3 => (0, cq, 255) | 4 => (ct, 0, 255) | _ => (255, 0, cq)
                 end).
Proof.
  intros h i V R S.
  destruct (in_range_inv h V R) as [F [H0 H1]].
  unfold Hsv.sector in S.
  destruct (fraction_unit h i V F ltac:(lia) S) as [Ri [_ U]].
  split; [ exact U | ].
  intros cq ct Hq Ht fuel.
  unfold Hsv.hsv_to_rgb. rewrite normalize_in_range by assumption. cbn [obind].
  rewrite (sector_rgb_channels h Hsv.f1 Hsv.f1 i S).
  remember (F32.sub (F32.div h Hsv.f60) (F32.of_Z i)) as f eqn:Ef.
  destruct (sub_one_mono f f U U ltac:(lia)) as [Q [_ _]].
  destruct (sub_one_mono _ _ Q Q ltac:(lia)) as [T [_ _]].
  rewrite (mul_one_l f) by apply U.
  rewrite (mul_one_l (F32.sub Hsv.f1 f)) by apply Q.
  rewrite (mul_one_l (F32.sub Hsv.f1 (F32.sub Hsv.f1 f))) by apply T.
  assert (Cv : channel Hsv.f1 = Done 255) by (vm_compute; reflexivity).
  assert (Cp : channel (F32.mul Hsv.f1 (F32.sub Hsv.f1 Hsv.f1)) = Done 0)
    by (vm_compute; reflexivity).
  destruct (sector_floor h V R) as [S' [R5 _]]. unfold Hsv.sector in S'.
  assert (I : i = Fnum h / (60 * 2 ^ 149)) by congruence. rewrite <- I in R5.
  assert (C : i = 0 \/ i = 1 \/ i = 2 \/ i = 3 \/ i = 4 \/ i = 5) by lia.
  destruct C as [K | [K | [K | [K | [K | K]]]]]; rewrite K;
    cbn [Hsv.select fst snd]; rewrite ?Cv, ?Cp, ?Hq, ?Ht; cbn [obind];
    rewrite ?Cv, ?Cp, ?Hq, ?Ht; cbn [obind]; rewrite ?Cv, ?Cp, ?Hq, ?Ht; reflexivity.
Qed.

(** A hue of the circle at saturation and value 1: its sector, its
    colour, and how the channels of q and t stand at both ends of the
    sector, within 15/64 of a degree of a boundary and a quarter of a
    degree away from it. *)
Lemma saturated_profile :
  forall h, F32.valid h = true -> Hsv.in_range h = true ->
    exists i cq ct,
      0 <= i <= 5 /\ 60 * i * 2 ^ 149 <= Fnum h < 60 * (i + 1) * 2 ^ 149
      /\ Hsv.sector h = Done i
      /\ (forall fuel,
            Hsv.hsv_to_rgb fuel h Hsv.f1 Hsv.f1 =
            Done (match i with
                  | 0 => (255, ct, 0) | 1 => (cq, 255, 0) | 2 => (0, 255, ct)
                  | 3 => (0, cq, 255) | 4 => (ct, 0, 255) | _ => (255, 0, cq)
                  end))
      /\ 0 <= cq <= 255 /\ 0 <= ct <= 255
      /\ (Fnum h <= 60 * i * 2 ^ 149 + 15 * 2 ^ 143 -> 254 <= cq /\ ct = 0)
      /\ (60 * (i + 1) * 2 ^ 149 - 15 * 2 ^ 143 <= Fnum h -> cq = 0 /\ 254 <= ct)
      /\ (60 * i * 2 ^ 149 + 2 ^ 147 <= Fnum h -> 1 <= ct)
      /\ (Fnum h <= 60 * (i + 1) * 2 ^ 149 - 2 ^ 147 -> 1 <= cq).
Proof.
  intros h V R.
  destruct (sector_floor h V R) as [S [Ri Band]].
  remember (Fnum h / (60 * 2 ^ 149)) as i eqn:Ei.
  destruct (saturated_sector h i V R S) as [U Col].
  remember (F32.sub (F32.div h Hsv.f60) (F32.of_Z i)) as f eqn:Ef.
  destruct (fraction_channels f f U U ltac:(lia)) as [cq [cq' [ct [ct' [Hq [_ [Ht [_ B]]]]]]]].
  exists i, cq, ct.
  split; [ exact Ri | ]. split; [ exact Band | ]. split; [ exact S | ].
  split; [ exact (Col cq ct Hq Ht) | ].
  split; [ lia | ]. split; [ lia | ].
  assert (Closed : forall c, unit_float c ->
            (Fnum f <= Fnum c ->
             forall a b, channel (F32.sub Hsv.f1 c) = Done a ->
               channel (F32.sub Hsv.f1 (F32.sub Hsv.f1 c)) = Done b -> a <= cq /\ ct <= b)
            /\ (Fnum c <= Fnum f ->
                forall a b, channel (F32.sub Hsv.f1 c) = Done a ->
                  channel (F32.sub Hsv.f1 (F32.sub Hsv.f1 c)) = Done b -> cq <= a /\ b <= ct)).
  { intros c Uc. split; intros Hc a b Ha Hb.
    - destruct (fraction_channels f c U Uc Hc) as [x [x' [y [y' [X [X' [Y [Y' Z]]]]]]]].
      assert (x = cq) by congruence. assert (x' = a) by congruence.
      assert (y = ct) by congruence. assert (y' = b) by congruence. lia.
    - destruct (fraction_channels c f Uc U Hc) as [x [x' [y [y' [X [X' [Y [Y' Z]]]]]]]].
      assert (x = a) by congruence. assert (x' = cq) by congruence.
      assert (y = b) by congruence. assert (y' = ct) by congruence. lia. }
  assert (Between : forall c m j, c = m * 2 ^ j -> 0 < m -> 0 <= j <= 149 ->
            5 * 2 ^ (149 - j) + m < 2 ^ 24 -> c <= 2 ^ 149 ->
            (Fnum h <= 60 * (i * 2 ^ 149 + c) -> Fnum f <= c)
            /\ (60 * (i * 2 ^ 149 + c) <= Fnum h -> c <= Fnum f)).
  { intros c m j Ec Hm Hj Hi Hc. rewrite Ef.
    apply (fraction_between h i c m j); try assumption.
    assert (0 < 2 ^ (149 - j)) by (apply Z.pow_pos_nonneg; lia). nia. }
  split; [ | split; [ | split ] ].
  - intros C.
    destruct (Between (2 ^ 141) 1 141) as [Le _]; try lia.
    destruct (Closed (S754_finite false 8388608 (-31))) as [K _].
    { split; [ reflexivity | ]. split; [ reflexivity | ]. vm_compute. split; discriminate. }
    destruct (K ltac:(change (Fnum (S754_finite false 8388608 (-31))) with (2 ^ 141); lia)
                254 0 ltac:(vm_compute; reflexivity) ltac:(vm_compute; reflexivity)).
    lia.
  - intros C.
    destruct (Between (255 * 2 ^ 141) 255 141) as [_ Ge]; try lia.
    destruct (Closed (S754_finite false 16711680 (-24))) as [_ K].
    { split; [ reflexivity | ]. split; [ reflexivity | ]. vm_compute. split; discriminate. }
    destruct (K ltac:(change (Fnum (S754_finite false 16711680 (-24))) with (255 * 2 ^ 141); lia)
                0 254 ltac:(vm_compute; reflexivity) ltac:(vm_compute; reflexivity)).
    lia.
  - intros C.
    destruct (Between (17 * 2 ^ 137) 17 137) as [_ Ge]; try lia.
    destruct (Closed (S754_finite false 8912896 (-31))) as [_ K].
    { split; [ reflexivity | ]. split; [ reflexivity | ]. vm_compute. split; discriminate. }
    destruct (K ltac:(change (Fnum (S754_finite false 8912896 (-31))) with (17 * 2 ^ 137); lia)
                253 1 ltac:(vm_compute; reflexivity) ltac:(vm_compute; reflexivity)).
    lia.
  - intros C.
    destruct (Between (4079 * 2 ^ 137) 4079 137) as [Le _]; try lia.
    destruct (Closed (S754_finite false 16707584 (-24))) as [K _].
    { split; [ reflexivity | ]. split; [ reflexivity | ]. vm_compute. split; discriminate. }
    destruct (K ltac:(change (Fnum (S754_finite false 16707584 (-24))) with (4079 * 2 ^ 137); lia)
                1 253 ltac:(vm_compute; reflexivity) ltac:(vm_compute; reflexivity)).
    lia.
Qed.

Lemma leb_value :
  forall a h, F32.valid a = true -> is_finite a = true ->
    F32.valid h = true -> is_finite h = true ->
    F32.leb a h = (Fnum a <=? Fnum h) /\ F32.ltb a h = (Fnum a <? Fnum h).
Proof.
  intros a h Va Fa Vh Fh. unfold F32.leb, F32.ltb.
  rewrite leb_Fnum, ltb_Fnum by assumption. split; reflexivity.
Qed.

(** A number between two finite floats is finite. *)
Lemma between_finite :
  forall a b h, is_finite a = true -> is_finite b = true ->
    F32.leb a h = true -> F32.leb h b = true \/ F32.ltb h b = true ->
    is_finite h = true.
Proof.
  intros a b h Fa Fb La Lb.
  destruct h as [ s | s | | s m e ]; try reflexivity.
  - destruct s.
    + destruct a as [ sa | sa | | sa ma ea ]; try discriminate Fa; discriminate La.
    + destruct b as [ sb | sb | | sb mb eb ]; try discriminate Fb;
        destruct Lb as [ Lb | Lb ]; discriminate Lb.
  - destruct a as [ sa | sa | | sa ma ea ]; discriminate La.
Qed.

(** The hues that bound the zones around the boundary [60 k]. *)
Lemma zone_values :
  forall k, 1 <= k <= 5 ->
    (F32.valid (Wheel.degrees (3840 * k - 15) 64) = true
     /\ is_finite (Wheel.degrees (3840 * k - 15) 64) = true
     /\ Fnum (Wheel.degrees (3840 * k - 15) 64) = 60 * k * 2 ^ 149 - 15 * 2 ^ 143)
    /\ (F32.valid (Wheel.degrees (3840 * k + 15) 64) = true
        /\ is_finite (Wheel.degrees (3840 * k + 15) 64) = true
        /\ Fnum (Wheel.degrees (3840 * k + 15) 64) = 60 * k * 2 ^ 149 + 15 * 2 ^ 143)
    /\ (F32.valid (Hsv.boundary k) = true /\ is_finite (Hsv.boundary k) = true
        /\ Fnum (Hsv.boundary k) = 60 * k * 2 ^ 149).
Proof.
  intros k Hk.
  assert (C : k = 1 \/ k = 2 \/ k = 3 \/ k = 4 \/ k = 5) by lia.
  destruct C as [K | [K | [K | [K | K]]]]; rewrite K; vm_compute; repeat split; reflexivity.
Qed.

(** The hues just before and just after a boundary, as numbers. *)
Lemma zone_before :
  forall k h, 1 <= k <= 5 -> F32.valid h = true -> Wheel.just_before k h = true ->
    Hsv.in_range h = true
    /\ 60 * k * 2 ^ 149 - 15 * 2 ^ 143 <= Fnum h < 60 * k * 2 ^ 149.
Proof.
  intros k h Hk V Z. unfold Wheel.just_before in Z.
  apply andb_true_iff in Z. destruct Z as [L U].
  destruct (zone_values k Hk) as [[Va [Fa Ea]] [_ [Vb [Fb Eb]]]].
  assert (F : is_finite h = true) by (apply (between_finite _ _ h Fa Fb L); right; exact U).
  rewrite (proj1 (leb_value _ _ Va Fa V F)) in L.
  rewrite (proj2 (leb_value _ _ V F Vb Fb)) in U.
  apply Z.leb_le in L. apply Z.ltb_lt in U. rewrite Ea in L. rewrite Eb in U.
  split; [ | lia ].
  rewrite in_range_Fnum by assumption. unfold turn.
  apply andb_true_iff. split; [ apply Z.leb_le | apply Z.ltb_lt ]; lia.
Qed.

Lemma zone_after :
  forall k h, 1 <= k <= 5 -> F32.valid h = true -> Wheel.just_after k h = true ->
    Hsv.in_range h = true
    /\ 60 * k * 2 ^ 149 <= Fnum h <= 60 * k * 2 ^ 149 + 15 * 2 ^ 143.
Proof.
  intros k h Hk V Z. unfold Wheel.just_after in Z.
  apply andb_true_iff in Z. destruct Z as [L U].
  destruct (zone_values k Hk) as [_ [[Va [Fa Ea]] [Vb [Fb Eb]]]].
  assert (F : is_finite h = true) by (apply (between_finite _ _ h Fb Fa L); left; exact U).
  rewrite (proj1 (leb_value _ _ Vb Fb V F)) in L.
  rewrite (proj1 (leb_value _ _ V F Va Fa)) in U.
  apply Z.leb_le in L. apply Z.leb_le in U. rewrite Eb in L. rewrite Ea in U.
  split; [ | lia ].
  rewrite in_range_Fnum by assumption. unfold turn.
  apply andb_true_iff. split; [ apply Z.leb_le | apply Z.ltb_lt ]; lia.
Qed.

(** Comparison of a hue of the circle with a closed hue. *)
Lemma closed_bounds :
  forall a h n, F32.valid h = true -> is_finite h = true ->
    F32.valid a = true -> is_finite a = true -> Fnum a = n ->
    (F32.leb a h = true -> n <= Fnum h) /\ (F32.leb h a = true -> Fnum h <= n).
Proof.
  intros a h n V F Va Fa E. split; intros L.
  - rewrite (proj1 (leb_value _ _ Va Fa V F)) in L. apply Z.leb_le in L. lia.
  - rewrite (proj1 (leb_value _ _ V F Va Fa)) in L. apply Z.leb_le in L. lia.
Qed.

Lemma zone_clear :
  forall h, F32.valid h = true -> is_finite h = true -> Wheel.clear_of_primaries h = true ->
    exists j, 0 <= j <= 2
      /\ 120 * j * 2 ^ 149 + 2 ^ 147 <= Fnum h <= 120 * (j + 1) * 2 ^ 149 - 2 ^ 147.
Proof.
  intros h V F Z. unfold Wheel.clear_of_primaries, Wheel.between in Z.
  assert (B : forall n, (F32.leb (Wheel.degrees n 4) h = true ->
                         F32.valid (Wheel.degrees n 4) = true ->
                         is_finite (Wheel.degrees n 4) = true ->
                         Fnum (Wheel.degrees n 4) <= Fnum h)
                        /\ (F32.leb h (Wheel.degrees n 4) = true ->
                            F32.valid (Wheel.degrees n 4) = true ->
                            is_finite (Wheel.degrees n 4) = true ->
                            Fnum h <= Fnum (Wheel.degrees n 4))).
  { intros n. split; intros L Va Fa.
    - exact (proj1 (closed_bounds _ h _ V F Va Fa eq_refl) L).
    - exact (proj2 (closed_bounds _ h _ V F Va Fa eq_refl) L). }
  apply orb_true_iff in Z. destruct Z as [ Z | Z ];
    [ apply orb_true_iff in Z; destruct Z as [ Z | Z ] | ];
    apply andb_true_iff in Z; destruct Z as [L U].
  - exists 0. split; [ lia | ].
    pose proof (proj1 (B 1) L eq_refl eq_refl) as A1.
    pose proof (proj2 (B 479) U eq_refl eq_refl) as A2.
    change (Fnum (Wheel.degrees 1 4)) with (2 ^ 147) in A1.
    change (Fnum (Wheel.degrees 479 4)) with (479 * 2 ^ 147) in A2. lia.
  - exists 1. split; [ lia | ].
    pose proof (proj1 (B 481) L eq_refl eq_refl) as A1.
    pose proof (proj2 (B 959) U eq_refl eq_refl) as A2.
    change (Fnum (Wheel.degrees 481 4)) with (481 * 2 ^ 147) in A1.
    change (Fnum (Wheel.degrees 959 4)) with (959 * 2 ^ 147) in A2. lia.
  - exists 2. split; [ lia | ].
    pose proof (proj1 (B 961) L eq_refl eq_refl) as A1.
    pose proof (proj2 (B 1439) U eq_refl eq_refl) as A2.
    change (Fnum (Wheel.degrees 961 4)) with (961 * 2 ^ 147) in A1.
    change (Fnum (Wheel.degrees 1439 4)) with (1439 * 2 ^ 147) in A2. lia.
Qed.

Lemma zone_near :
  forall h, F32.valid h = true -> Wheel.near_primary h = true ->
    Hsv.in_range h = true
    /\ exists j, 0 <= j <= 3
         /\ 120 * j * 2 ^ 149 - 15 * 2 ^ 143 <= Fnum h <= 120 * j * 2 ^ 149 + 15 * 2 ^ 143.
Proof.
  intros h V Z. unfold Wheel.near_primary, Wheel.between in Z.
  apply andb_true_iff in Z. destruct Z as [R Z].
  destruct (in_range_inv h V R) as [F [H0 H1]]. unfold turn in H1.
  split; [ exact R | ].
  assert (B : forall n, (F32.leb (Wheel.degrees n 64) h = true ->
                         F32.valid (Wheel.degrees n 64) = true ->
                         is_finite (Wheel.degrees n 64) = true ->
                         Fnum (Wheel.degrees n 64) <= Fnum h)
                        /\ (F32.leb h (Wheel.degrees n 64) = true ->
                            F32.valid (Wheel.degrees n 64) = true ->
                            is_finite (Wheel.degrees n 64) = true ->
                            Fnum h <= Fnum (Wheel.degrees n 64))).
  { intros n. split; intros L Va Fa.
    - exact (proj1 (closed_bounds _ h _ V F Va Fa eq_refl) L).
    - exact (proj2 (closed_bounds _ h _ V F Va Fa eq_refl) L). }
  apply orb_true_iff in Z. destruct Z as [ Z | Z ];
    [ apply orb_true_iff in Z; destruct Z as [ Z | Z ];
      [ apply orb_true_iff in Z; destruct Z as [ Z | Z ] | ] | ].
  - exists 0. split; [ lia | ].
    pose proof (proj2 (B 15) Z eq_refl eq_refl) as A2.
    change (Fnum (Wheel.degrees 15 64)) with (15 * 2 ^ 143) in A2. lia.
  - apply andb_true_iff in Z. destruct Z as [L U].
    exists 1. split; [ lia | ].
    pose proof (proj1 (B 7665) L eq_refl eq_refl) as A1.
    pose proof (proj2 (B 7695) U eq_refl eq_refl) as A2.
    change (Fnum (Wheel.degrees 7665 64)) with (7665 * 2 ^ 143) in A1.
    change (Fnum (Wheel.degrees 7695 64)) with (7695 * 2 ^ 143) in A2. lia.
  - apply andb_true_iff in Z. destruct Z as [L U].
    exists 2. split; [ lia | ].
    pose proof (proj1 (B 15345) L eq_refl eq_refl) as A1.
    pose proof (proj2 (B 15375) U eq_refl eq_refl) as A2.
    change (Fnum (Wheel.degrees 15345 64)) with (15345 * 2 ^ 143) in A1.
    change (Fnum (Wheel.degrees 15375 64)) with (15375 * 2 ^ 143) in A2. lia.
  - exists 3. split; [ lia | ].
    pose proof (proj1 (B 23025) Z eq_refl eq_refl) as A1.
    change (Fnum (Wheel.degrees 23025 64)) with (23025 * 2 ^ 143) in A1. lia.
Qed.

(** C9, as stated, fails: at hue 0 (saturation and value 1) the colour
    is pure red, with two channels at zero, not exactly one; the same
    happens just below 120 degrees.  And two hues on either side of a
    boundary are within one unit only when they are close enough: 59.7
    and 60.0 differ by 2 units in the green channel. *)
Lemma one_zero_channel_fails :
  Hsv.in_range Hsv.f0 = true
  /\ Hsv.hsv_to_rgb 0 Hsv.f0 Hsv.f1 Hsv.f1 = Done (255, 0, 0)
  /\ Hsv.zero_channels (255, 0, 0) = 2%nat
  /\ Hsv.hsv_to_rgb 0 (F32.of_double (F64.lit 1199 10)) Hsv.f1 Hsv.f1 = Done (0, 255, 0)
  /\ Hsv.hsv_to_rgb 0 (Wheel.degrees 597 10) Hsv.f1 Hsv.f1 = Done (255, 253, 0)
  /\ Hsv.hsv_to_rgb 0 (Wheel.degrees 600 10) Hsv.f1 Hsv.f1 = Done (255, 255, 0)
  /\ Hsv.channel_distance (255, 253, 0) (255, 255, 0) = 2.
Proof.
  split; [ vm_compute; reflexivity | ].
  split; [ vm_compute; reflexivity | ].
  split; [ vm_compute; reflexivity | ].
  split; [ vm_compute; reflexivity | ].
  split; [ vm_compute; reflexivity | ].
  split; vm_compute; reflexivity.
Qed.

(** C9, amended.  For every hue in [0, 360) with saturation and value 1
    the conversion is defined, at least one channel is 0, at least one is
    255, and one or two channels are 0: exactly one for every hue at
    least a quarter of a degree away from the primary colours at 0, 120,
    240 and 360 degrees, and two for every hue within 15/64 of a degree
    of them, where the third channel is still below 1.  The conversion
    is continuous across the boundaries between sectors: for each
    boundary 60, 120, 180, 240 and 300, a hue within 15/64 of a degree
    below it and a hue from the boundary to 15/64 of a degree above it
    lie in the two adjacent sectors and are converted to colours that
    differ by at most 1 unit in each channel, as are 59.9 and 60.0.
    Every hue selects the sector given by the integer part of its
    quotient by 60, so that a hue exactly at 0, 60, ..., 300 selects the
    sector that starts there.  The last part lists the colours at each
    boundary and at the largest [float] below it. *)
Theorem saturated_hue_channels :
  (forall h, F32.valid h = true -> Hsv.in_range h = true ->
     forall fuel, exists r g b,
       Hsv.hsv_to_rgb fuel h Hsv.f1 Hsv.f1 = Done (r, g, b)
       /\ (r = 0 \/ g = 0 \/ b = 0) /\ (r = 255 \/ g = 255 \/ b = 255)
       /\ (Hsv.zero_channels (r, g, b) = 1%nat \/ Hsv.zero_channels (r, g, b) = 2%nat)
       /\ (Wheel.clear_of_primaries h = true -> Hsv.zero_channels (r, g, b) = 1%nat)
       /\ (Wheel.near_primary h = true -> Hsv.zero_channels (r, g, b) = 2%nat))
  /\ (forall k h1 h2, 1 <= k <= 5 -> F32.valid h1 = true -> F32.valid h2 = true ->
        Wheel.just_before k h1 = true -> Wheel.just_after k h2 = true ->
        Hsv.in_range h1 = true /\ Hsv.in_range h2 = true
        /\ Hsv.sector h1 = Done (k - 1) /\ Hsv.sector h2 = Done k
        /\ forall fuel, exists c1 c2,
             Hsv.hsv_to_rgb fuel h1 Hsv.f1 Hsv.f1 = Done c1
             /\ Hsv.hsv_to_rgb fuel h2 Hsv.f1 Hsv.f1 = Done c2
             /\ Hsv.channel_distance c1 c2 <= 1)
  /\ (Wheel.just_before 1 (Wheel.degrees 599 10) = true
      /\ Wheel.just_after 1 (Wheel.degrees 600 10) = true
      /\ Hsv.hsv_to_rgb 0 (Wheel.degrees 599 10) Hsv.f1 Hsv.f1 = Done (255, 254, 0)
      /\ Hsv.hsv_to_rgb 0 (Wheel.degrees 600 10) Hsv.f1 Hsv.f1 = Done (255, 255, 0)
      /\ Hsv.channel_distance (255, 254, 0) (255, 255, 0) = 1)
  /\ (forall h, F32.valid h = true -> Hsv.in_range h = true ->
        exists i, Hsv.sector h = Done i /\ 0 <= i <= 5
                  /\ 60 * i * 2 ^ 149 <= Fnum h < 60 * (i + 1) * 2 ^ 149)
  /\ (Hsv.sector (Hsv.boundary 0) = Done 0 /\ Hsv.sector (Hsv.boundary 1) = Done 1
      /\ Hsv.sector (Hsv.boundary 2) = Done 2 /\ Hsv.sector (Hsv.boundary 3) = Done 3
      /\ Hsv.sector (Hsv.boundary 4) = Done 4 /\ Hsv.sector (Hsv.boundary 5) = Done 5)
  /\ (Hsv.hsv_to_rgb 0 (Hsv.just_below (Hsv.boundary 1)) Hsv.f1 Hsv.f1 = Done (255, 254, 0)
      /\ Hsv.hsv_to_rgb 0 (Hsv.boundary 1) Hsv.f1 Hsv.f1 = Done (255, 255, 0)
      /\ Hsv.hsv_to_rgb 0 (Hsv.just_below (Hsv.boundary 2)) Hsv.f1 Hsv.f1 = Done (0, 255, 0)
      /\ Hsv.hsv_to_rgb 0 (Hsv.boundary 2) Hsv.f1 Hsv.f1 = Done (0, 255, 0)
      /\ Hsv.hsv_to_rgb 0 (Hsv.just_below (Hsv.boundary 3)) Hsv.f1 Hsv.f1 = Done (0, 255, 254)
      /\ Hsv.hsv_to_rgb 0 (Hsv.boundary 3) Hsv.f1 Hsv.f1 = Done (0, 255, 255)
      /\ Hsv.hsv_to_rgb 0 (Hsv.just_below (Hsv.boundary 4)) Hsv.f1 Hsv.f1 = Done (0, 0, 255)
      /\ Hsv.hsv_to_rgb 0 (Hsv.boundary 4) Hsv.f1 Hsv.f1 = Done (0, 0, 255)
      /\ Hsv.hsv_to_rgb 0 (Hsv.just_below (Hsv.boundary 5)) Hsv.f1 Hsv.f1 = Done (254, 0, 255)
      /\ Hsv.hsv_to_rgb 0 (Hsv.boundary 5) Hsv.f1 Hsv.f1 = Done (255, 0, 255)).
Proof.
  split; [ | split; [ | split; [ | split; [ | split ] ] ] ].
  - intros h V R fuel.
    destruct (in_range_inv h V R) as [F _].
    destruct (saturated_profile h V R)
      as [i [cq [ct [Ri [Band [S [Col [Rq [Rt [Low [High [Up Down]]]]]]]]]]]].
    assert (Clear : Wheel.clear_of_primaries h = true ->
                    (i = 0 \/ i = 2 \/ i = 4 -> 1 <= ct) /\ (i = 1 \/ i = 3 \/ i = 5 -> 1 <= cq)).
    { intros Z. destruct (zone_clear h V F Z) as [j [Hj B]].
      split; intros C; [ apply Up | apply Down ]; lia. }
    assert (Near : Wheel.near_primary h = true ->
                   (i = 0 \/ i = 2 \/ i = 4 -> ct = 0) /\ (i = 1 \/ i = 3 \/ i = 5 -> cq = 0)).
    { intros Z. destruct (zone_near h V Z) as [_ [j [Hj B]]].
      split; intros C; [ apply Low | apply High ]; lia. }
    assert (C : i = 0 \/ i = 1 \/ i = 2 \/ i = 3 \/ i = 4 \/ i = 5) by lia.
    destruct C as [K | [K | [K | [K | [K | K]]]]]; rewrite K in Col;
      eexists; eexists; eexists; (split; [ exact (Col fuel) | ]);
      unfold Hsv.zero_channels; cbn [Z.eqb Nat.add];
      (split; [ tauto | ]); (split; [ tauto | ]);
      (split; [ | split ]);
      try (destruct (Z.eqb_spec ct 0); tauto);
      try (destruct (Z.eqb_spec cq 0); tauto);
      intros Z;
      try (destruct (Z.eqb_spec ct 0); [ exfalso; pose proof (proj1 (Clear Z)); lia | reflexivity ]);
      try (destruct (Z.eqb_spec cq 0); [ exfalso; pose proof (proj2 (Clear Z)); lia | reflexivity ]);
      try (destruct (Z.eqb_spec ct 0); [ reflexivity | exfalso; pose proof (proj1 (Near Z)); lia ]);
      try (destruct (Z.eqb_spec cq 0); [ reflexivity | exfalso; pose proof (proj2 (Near Z)); lia ]).
  - intros k h1 h2 Hk V1 V2 Z1 Z2.
    destruct (zone_before k h1 Hk V1 Z1) as [R1 B1].
    destruct (zone_after k h2 Hk V2 Z2) as [R2 B2].
    destruct (saturated_profile h1 V1 R1)
      as [i1 [cq1 [ct1 [Ri1 [Band1 [S1 [Col1 [Rq1 [Rt1 [_ [High1 _]]]]]]]]]]].
    destruct (saturated_profile h2 V2 R2)
      as [i2 [cq2 [ct2 [Ri2 [Band2 [S2 [Col2 [Rq2 [Rt2 [Low2 _]]]]]]]]]].
    assert (I1 : i1 = k - 1) by lia. assert (I2 : i2 = k) by lia.
    destruct (High1 ltac:(lia)) as [Q1 T1]. destruct (Low2 ltac:(lia)) as [Q2 T2].
    split; [ exact R1 | ]. split; [ exact R2 | ].
    split; [ rewrite <- I1; exact S1 | ]. split; [ rewrite <- I2; exact S2 | ].
    intros fuel. eexists. eexists.
    split; [ exact (Col1 fuel) | ]. split; [ exact (Col2 fuel) | ].
    assert (C : k = 1 \/ k = 2 \/ k = 3 \/ k = 4 \/ k = 5) by lia.
    destruct C as [K | [K | [K | [K | K]]]]; rewrite K in I1, I2; simpl in I1;
      rewrite I1, I2; cbv beta iota delta [Hsv.channel_distance]; lia.
  - repeat (split; [ vm_compute; reflexivity | ]). vm_compute; reflexivity.
  - intros h V R. destruct (sector_floor h V R) as [S [Ri Band]].
    exists (Fnum h / (60 * 2 ^ 149)). split; [ exact S | ]. split; [ exact Ri | exact Band ].
  - repeat (split; [ vm_compute; reflexivity | ]). vm_compute; reflexivity.
  - repeat (split; [ vm_compute; reflexivity | ]). vm_compute; reflexivity.
Qed.

Lemma saturated_hue_channels_witness :
  (exists r g b,
     Hsv.hsv_to_rgb 0 (Wheel.degrees 1195 10) Hsv.f1 Hsv.f1 = Done (r, g, b)
     /\ Hsv.zero_channels (r, g, b) = 1%nat)
  /\ (exists c1 c2,
        Hsv.hsv_to_rgb 0 (Wheel.degrees 599 10) Hsv.f1 Hsv.f1 = Done c1
        /\ Hsv.hsv_to_rgb 0 (Wheel.degrees 600 10) Hsv.f1 Hsv.f1 = Done c2
        /\ Hsv.channel_distance c1 c2 <= 1).
Proof.
  destruct saturated_hue_channels as [A [B _]].
  split.
  - assert (V : F32.valid (Wheel.degrees 1195 10) = true) by (vm_compute; reflexivity).
    assert (R : Hsv.in_range (Wheel.degrees 1195 10) = true) by (vm_compute; reflexivity).
    assert (Z : Wheel.clear_of_primaries (Wheel.degrees 1195 10) = true)
      by (vm_compute; reflexivity).
    destruct (A _ V R 0%nat) as [r [g [b [E [_ [_ [_ [C _]]]]]]]].
    exists r, g, b. split; [ exact E | exact (C Z) ].
  - assert (V1 : F32.valid (Wheel.degrees 599 10) = true) by (vm_compute; reflexivity).
    assert (V2 : F32.valid (Wheel.degrees 600 10) = true) by (vm_compute; reflexivity).
    assert (Z1 : Wheel.just_before 1 (Wheel.degrees 599 10) = true) by (vm_compute; reflexivity).
    assert (Z2 : Wheel.just_after 1 (Wheel.degrees 600 10) = true) by (vm_compute; reflexivity).
    destruct (B 1 _ _ ltac:(lia) V1 V2 Z1 Z2) as [_ [_ [_ [_ C]]]].
    exact (C 0%nat).
Defined.

(** ** The position of the normalized program, as a number *)




